(** * bwalign: seed-and-extend read alignment over an FM-index

    A shallow embedding of [bwalign/utils.py] together with the properties
    its specification states about it (Parts III and IV) and further
    properties of the code (Part IV).

    Modelling conventions.
    - A Python [str] is the list of its code points ([list nat]); [ord] is
      the injection into [Z].
    - Python integers are [Z] wherever a negative value can occur, [nat]
      for values that come out of [len] and [range].
    - An exception ([IndexError], [KeyError], [ZeroDivisionError]) is [None]
      in the [option] monad.
    - The list matrix of [BandedAlignmentWithBackTrack] holds Python ints and
      [float('-inf')]: the type [score]. The numpy array of
      [banded_alignment] holds float64 values: the type [f64], with the
      rounding of a conversion or a sum written out.
    - The interpreter's stack is modelled where the program sets its limit
      and recursion can reach it: the calls of [backtrack] under the limit
      of 1500 frames that [BandedAlignmentWithBackTrack] sets. *)

From Stdlib Require String Ascii.
Import String.StringSyntax.
Delimit Scope string_scope with string.
From Stdlib Require Import DecimalNat.
From stdpp Require Import gmap list numbers sorting.

Local Open Scope Z_scope.

(* ===================================================================== *)
(** * Part I: the program                                                 *)
(* ===================================================================== *)

(** ** Python values *)

Abbreviation str := (list nat).

(** A string literal as a Python [str]. *)
Definition py (s : String.string) : str :=
  map Ascii.nat_of_ascii (String.list_ascii_of_string s).
Arguments py s%_string.

Definition ord (c : nat) : Z := Z.of_nat c.

Definition DASH : nat := 45.       (* '-' *)
Definition SENTINEL : nat := 36.   (* '$' *)
Definition CH_M : nat := 77.
Definition CH_I : nat := 73.
Definition CH_D : nat := 68.

(** [l[i]] for a Python integer [i]: negative indices count from the end. *)
Definition py_get {A} (l : list A) (i : Z) : option A :=
  if bool_decide (0 ≤ i) then l !! Z.to_nat i
  else if bool_decide (- Z.of_nat (length l) ≤ i) then l !! Z.to_nat (i + Z.of_nat (length l))
  else None.

(** A slice bound, clipped as [slice.indices] does for step 1. *)
Definition py_clip (len : nat) (i : Z) : nat :=
  if bool_decide (i < 0) then Z.to_nat (Z.max 0 (i + Z.of_nat len))
  else Z.to_nat (Z.min i (Z.of_nat len)).

(** [l[a:b]] *)
Definition py_slice {A} (l : list A) (a b : Z) : list A :=
  let lo := py_clip (length l) a in
  let hi := py_clip (length l) b in
  take (hi - lo)%nat (drop lo l).

(** [l[i] = v] *)
Definition py_set {A} (l : list A) (i : Z) (v : A) : option (list A) :=
  if bool_decide (0 ≤ i < Z.of_nat (length l)) then Some (<[Z.to_nat i := v]> l)
  else if bool_decide (- Z.of_nat (length l) ≤ i < 0)
       then Some (<[Z.to_nat (i + Z.of_nat (length l)) := v]> l)
  else None.

(** [m[i][j]] and [m[i][j] = v] on a list of rows (or a 2-d array). *)
Definition mget {A} (m : list (list A)) (i j : Z) : option A :=
  row ← py_get m i; py_get row j.

Definition mset {A} (m : list (list A)) (i j : Z) (v : A) : option (list (list A)) :=
  row ← py_get m i; row' ← py_set row j v; py_set m i row'.

(** [c * n] for a one-character string [c] *)
Definition py_repeat (c : nat) (n : Z) : str := replicate (Z.to_nat n) c.

(** [str(n)] of a non-negative integer: its decimal digits. *)
Fixpoint uint_codes (d : Decimal.uint) : str :=
  match d with
  | Decimal.Nil => []
  | Decimal.D0 d => 48%nat :: uint_codes d
  | Decimal.D1 d => 49%nat :: uint_codes d
  | Decimal.D2 d => 50%nat :: uint_codes d
  | Decimal.D3 d => 51%nat :: uint_codes d
  | Decimal.D4 d => 52%nat :: uint_codes d
  | Decimal.D5 d => 53%nat :: uint_codes d
  | Decimal.D6 d => 54%nat :: uint_codes d
  | Decimal.D7 d => 55%nat :: uint_codes d
  | Decimal.D8 d => 56%nat :: uint_codes d
  | Decimal.D9 d => 57%nat :: uint_codes d
  end.

Definition py_str_of_nat (n : nat) : str := uint_codes (Nat.to_uint n).

(** A [for] loop whose body may raise. *)
Fixpoint for_each {A S} (body : A → S → option S) (xs : list A) (st : S) : option S :=
  match xs with
  | [] => Some st
  | x :: xs => st' ← body x st; for_each body xs st'
  end.

(** ** CIGAR strings: [calculate_cigar] *)

Module Cigar.

Record state := State {
  cigar : list str;   (* the pieces appended so far *)
  match_ : nat;
  ins : nat;
  del_ : nat
}.

Definition init : state := State [] 0 0 0.

(** f"{n}M", f"{n}I", f"{n}D" *)
Definition piece (n : nat) (op : nat) : str := py_str_of_nat n ++ [op].

Definition flush_match (st : state) : state :=
  if bool_decide (0 < match_ st)%nat
  then State (cigar st ++ [piece (match_ st) CH_M]) 0 (ins st) (del_ st)
  else st.

Definition flush_ins (st : state) : state :=
  if bool_decide (0 < ins st)%nat
  then State (cigar st ++ [piece (ins st) CH_I]) (match_ st) 0 (del_ st)
  else st.

Definition flush_del (st : state) : state :=
  if bool_decide (0 < del_ st)%nat
  then State (cigar st ++ [piece (del_ st) CH_D]) (match_ st) (ins st) 0
  else st.

(** One iteration of the loop over [zip(alignment_s, alignment_t)]. *)
Definition step (st : state) (col : nat * nat) : state :=
  let '(s, t) := col in
  if bool_decide (s = DASH) && negb (bool_decide (t = DASH)) then
    let st := flush_match st in
    State (cigar st) (match_ st) (ins st) (S (del_ st))
  else if negb (bool_decide (s = DASH)) && bool_decide (t = DASH) then
    let st := flush_match st in
    State (cigar st) (match_ st) (S (ins st)) (del_ st)
  else
    let st := flush_del (flush_ins st) in
    State (cigar st) (S (match_ st)) (ins st) (del_ st).

Definition scan (alignment_s alignment_t : str) : state :=
  fold_left step (zip alignment_s alignment_t) init.

Definition finish (st : state) : list str :=
  cigar (flush_del (flush_ins (flush_match st))).

(** The list [cigar] as it stands just before [''.join]. *)
Definition cigar_pieces (alignment_s alignment_t : str) : list str :=
  finish (scan alignment_s alignment_t).

Definition calculate_cigar (alignment_s alignment_t : str) : str :=
  concat (cigar_pieces alignment_s alignment_t).

End Cigar.

(** ** Python numbers *)

(** The integers that [float(n)] accepts. The largest float64 is
    [2^1024 - 2^971] and conversion rounds to the nearest float, ties to
    even, so every integer below [2^1024 - 2^970] in absolute value has a
    float; from there on [float(n)] raises [OverflowError]. *)
Definition float_ok (z : Z) : Prop := Z.abs z < 2 ^ 1024 - 2 ^ 970.

Global Instance float_ok_dec z : Decision (float_ok z).
Proof. unfold float_ok. apply _. Defined.

(** The integer nearest to [z] that has 53 significant bits, ties to even:
    the value of the float64 nearest to [z]. *)
Definition round64 (z : Z) : Z :=
  let a := Z.abs z in
  let e := Z.log2 a - 52 in
  if bool_decide (e ≤ 0) then z
  else
    let q := a `div` 2 ^ e in
    let r := a `mod` 2 ^ e in
    let half := 2 ^ (e - 1) in
    let q := if bool_decide (half < r) || (bool_decide (r = half) && Z.odd q)
             then q + 1 else q in
    Z.sgn z * (q * 2 ^ e).

(** A cell of a float64 array. The floats of the program are converted
    from integers or are sums of two such floats, so a finite one holds an
    integer; a sum beyond the range is an infinity. *)
Inductive f64 := F_ninf | F_fin (z : Z) | F_pinf.

Global Instance f64_eq_dec : EqDecision f64.
Proof. solve_decision. Defined.

(** The float64 result of an operation whose exact result is [z]. *)
Definition f64_round (z : Z) : f64 :=
  if bool_decide (float_ok z) then F_fin (round64 z)
  else if bool_decide (0 < z) then F_pinf else F_ninf.

(** A Python int stored in a float64 array, or met by a float64 operand. *)
Definition f64_of_int (z : Z) : option f64 :=
  if bool_decide (float_ok z) then Some (F_fin (round64 z)) else None.

(** [x + y] for a float64 [x] and a finite float64 that holds [b] *)
Definition f64_plus (x : f64) (b : Z) : f64 :=
  match x with F_fin a => f64_round (a + b) | _ => x end.

(** [x + d] and [x - d] for a float64 [x] and a Python int [d], which is
    converted first *)
Definition f64_add_int (x : f64) (d : Z) : option f64 :=
  if bool_decide (float_ok d) then Some (f64_plus x (round64 d)) else None.

Definition f64_sub_int (x : f64) (d : Z) : option f64 :=
  if bool_decide (float_ok d) then Some (f64_plus x (- round64 d)) else None.

(** [x > y] *)
Definition f64_gt (x y : f64) : bool :=
  match x, y with
  | F_ninf, _ => false
  | F_fin _, F_ninf => true
  | F_fin a, F_fin b => bool_decide (b < a)
  | F_fin _, F_pinf => false
  | F_pinf, F_pinf => false
  | F_pinf, _ => true
  end.

Definition f64_max (x y : f64) : f64 := if f64_gt y x then y else x.

(** [max(a, b, c)] *)
Definition f64_max3 (a b c : f64) : f64 := f64_max (f64_max a b) c.

(** ** Banded alignment: [banded_alignment], [BandedAlignmentWithBackTrack],
       [backtrack] *)

(** A cell of the list matrix, and a score that is returned: a Python int
    or [float('-inf')]. *)
Inductive score := NegInf | Fin (z : Z).

Global Instance score_eq_dec : EqDecision score.
Proof. solve_decision. Defined.

(** [x + d] and [x - d] for a cell [x] and a Python int [d]: exact on two
    ints; [float('-inf')] takes [d] as a float. *)
Definition py_add (x : score) (d : Z) : option score :=
  match x with
  | NegInf => if bool_decide (float_ok d) then Some NegInf else None
  | Fin z => Some (Fin (z + d))
  end.

Definition py_sub (x : score) (d : Z) : option score :=
  match x with
  | NegInf => if bool_decide (float_ok d) then Some NegInf else None
  | Fin z => Some (Fin (z - d))
  end.

(** [x > y] *)
Definition score_gt (x y : score) : bool :=
  match x, y with
  | NegInf, _ => false
  | Fin _, NegInf => true
  | Fin a, Fin b => bool_decide (b < a)
  end.

Definition score_max (x y : score) : score := if score_gt y x then y else x.

(** [max(a, b, c)] *)
Definition max3 (a b c : score) : score := score_max (score_max a b) c.

(** The pointers of the backtrack matrix; an untouched entry is [None]. *)
Inductive ptr := P_d | P_r | P_dr.

Global Instance ptr_eq_dec : EqDecision ptr.
Proof. solve_decision. Defined.

(** [sys.setrecursionlimit(1500)] *)
Definition recursion_limit : nat := 1500.

Module Banded.

Section params.
Context (mr mmp indp bp : Z) (s t : str).

(** The body of the two nested loops of [banded_alignment]; [l] is the
    float64 array. *)
Definition cell (i j : nat) (l : list (list f64)) : option (list (list f64)) :=
  let zi := Z.of_nat i in
  let zj := Z.of_nat j in
  if bool_decide (i = 0%nat) && bool_decide (j = 0%nat) then mset l zi zj (F_fin 0)
  else if bool_decide (Z.abs (zj - zi) < bp) then
    if bool_decide (i = 0%nat) then
      v ← f64_of_int (zj * (- indp)); mset l zi zj v
    else if bool_decide (j = 0%nat) then
      v ← f64_of_int (zi * (- indp)); mset l zi zj v
    else
      si ← py_get s (zi - 1);
      tj ← py_get t (zj - 1);
      let match_ := if bool_decide (si = tj) then mr else - mmp in
      up ← mget l (zi - 1) zj;
      v_d ← f64_sub_int up indp;
      left ← mget l zi (zj - 1);
      v_r ← f64_sub_int left indp;
      diag ← mget l (zi - 1) (zj - 1);
      v_dr ← f64_add_int diag match_;
      mset l zi zj (f64_max3 v_d v_r v_dr)
  else Some l.

Definition fill (l : list (list f64)) : option (list (list f64)) :=
  for_each (λ i, for_each (λ j, cell i j) (seq 0 (length t + 1)))
           (seq 0 (length s + 1)) l.

(** [int(inf)] raises [OverflowError]. *)
Definition banded_alignment : option score :=
  l ← fill (replicate (length s + 1) (replicate (length t + 1) F_ninf));
  sc ← mget l (Z.of_nat (length s)) (Z.of_nat (length t));
  match sc with
  | F_ninf => Some NegInf
  | F_fin z => Some (Fin z)
  | F_pinf => None
  end.

(** The body of the two nested loops of [BandedAlignmentWithBackTrack]. *)
Definition cell_bt (i j : nat) (lb : list (list score) * list (list (option ptr)))
  : option (list (list score) * list (list (option ptr))) :=
  let '(l, b) := lb in
  let zi := Z.of_nat i in
  let zj := Z.of_nat j in
  l ← (if bool_decide (i = 0%nat) && bool_decide (j = 0%nat)
       then mset l zi zj (Fin 0) else Some l);
  if bool_decide (i = 0%nat) then
    l ← mset l zi zj (Fin (zj * (- indp))); Some (l, b)
  else if bool_decide (j = 0%nat) then
    l ← mset l zi zj (Fin (zi * (- indp))); Some (l, b)
  else if bool_decide (Z.abs (zj - zi) < bp) then
    si ← py_get s (zi - 1);
    tj ← py_get t (zj - 1);
    let match_ := if bool_decide (si = tj) then mr else - mmp in
    up ← mget l (zi - 1) zj;
    v_d ← py_sub up indp;
    left ← mget l zi (zj - 1);
    v_r ← py_sub left indp;
    diag ← mget l (zi - 1) (zj - 1);
    v_dr ← py_add diag match_;
    let v := max3 v_d v_r v_dr in
    l ← mset l zi zj v;
    if bool_decide (v = v_d) then
      b ← mset b (zi - 1) (zj - 1) (Some P_d); Some (l, b)
    else if bool_decide (v = v_r) then
      b ← mset b (zi - 1) (zj - 1) (Some P_r); Some (l, b)
    else if bool_decide (v = v_dr) then
      b ← mset b (zi - 1) (zj - 1) (Some P_dr); Some (l, b)
    else Some (l, b)
  else Some (l, b).

Definition fill_bt (lb : list (list score) * list (list (option ptr)))
  : option (list (list score) * list (list (option ptr))) :=
  for_each (λ i, for_each (λ j, cell_bt i j) (seq 0 (length t + 1)))
           (seq 0 (length s + 1)) lb.

(** [backtrack(b, s, t, i, j, band_parameter)], called with [i, j >= -1].
    The two index arguments of the model are [i + 1] and [j + 1], so that
    the tests [i < 0] and [j < 0] read [0]. [room] is the number of frames
    that the interpreter still grants: every call takes one, and a call
    without room raises [RecursionError]. *)
Fixpoint backtrack (room : nat) (b : list (list (option ptr))) (i1 j1 : nat)
  : option (str * str) :=
  match room with
  | O => None
  | S room =>
      match i1, j1 with
      | O, O => Some ([], [])
      | O, S _ => Some (py_repeat DASH (Z.of_nat j1), py_slice t 0 (Z.of_nat j1))
      | S _, O => Some (py_slice s 0 (Z.of_nat i1), py_repeat DASH (Z.of_nat i1))
      | S i, S j =>
          p ← mget b (Z.of_nat i) (Z.of_nat j);
          if bool_decide (p = Some P_d) && bool_decide (Z.abs (Z.of_nat j - Z.of_nat i) < bp) then
            '(s_prime, t_prime) ← backtrack room b i j1;
            si ← py_get s (Z.of_nat i);
            Some (s_prime ++ [si], t_prime ++ [DASH])
          else if bool_decide (p = Some P_r) && bool_decide (Z.abs (Z.of_nat j - Z.of_nat i) < bp) then
            '(s_prime, t_prime) ← backtrack room b i1 j;
            tj ← py_get t (Z.of_nat j);
            Some (s_prime ++ [DASH], t_prime ++ [tj])
          else
            '(s_prime, t_prime) ← backtrack room b i j;
            si ← py_get s (Z.of_nat i);
            tj ← py_get t (Z.of_nat j);
            Some (s_prime ++ [si], t_prime ++ [tj])
      end
  end.

(** The matrices [l] and [b] after the loops. *)
Definition matrices_bt : option (list (list score) * list (list (option ptr))) :=
  fill_bt (replicate (length s + 1) (replicate (length t + 1) NegInf),
           replicate (length s) (replicate (length t) None)).

(** [frames] is the depth of the interpreter's stack while the body of the
    function runs, its own frame included. The limit of line 131 cannot be
    set at or below that depth, and it leaves [1500 - frames] frames to the
    calls of [backtrack]. *)
Definition BandedAlignmentWithBackTrack (frames : nat) : option (score * str * str) :=
  if bool_decide (recursion_limit ≤ frames)%nat then None
  else
    '(l, b) ← matrices_bt;
    '(s_align, t_align) ← backtrack (recursion_limit - frames) b (length s) (length t);
    sc ← mget l (Z.of_nat (length s)) (Z.of_nat (length t));
    Some (sc, s_align, t_align).

End params.
End Banded.

(** ** Seed extension: [compute_max_seed] *)

Module Seed.

(** What [compute_max_seed] returns: [None] or a 4-tuple. *)
Inductive result :=
| PyNone
| Tuple (best_idx : Z) (best_score : score) (s_align t_align : str).

Record best := Best { best_score : score; best_idx : Z; best_seed : Z }.

Section params.
Context (ref read : str) (match_reward mismatch_penalty indel_penalty band_width : Z)
        (read_length : Z).

(** The body of the inner loop, for seed offset [i] and position [ref_idx]. *)
Definition candidate (i : nat) (ref_idx : Z) (st : best) : option best :=
  let ref_segment := py_slice ref (ref_idx - Z.of_nat i) (ref_idx - Z.of_nat i + read_length) in
  sc ← Banded.banded_alignment match_reward mismatch_penalty indel_penalty band_width
         ref_segment read;
  if score_gt sc (best_score st) then Some (Best sc ref_idx (Z.of_nat i)) else Some st.

Definition scan (seed_idxes : list (list Z)) (st : best) : option best :=
  for_each (λ i st, row ← seed_idxes !! i; for_each (candidate i) row st)
           (seq 0 (length seed_idxes)) st.

(** [frames] is the depth of the interpreter's stack while the body of
    [compute_max_seed] runs; the function it calls runs one frame deeper. *)
Definition compute_max_seed (seed_idxes : list (list Z)) (frames : nat) : option result :=
  if bool_decide (length seed_idxes = 0%nat) then Some PyNone
  else
    st ← scan seed_idxes (Best NegInf (-1) (-1));
    let best_ref_seg := py_slice ref (best_idx st - best_seed st)
                                     (best_idx st - best_seed st + read_length) in
    '(_, s_align, t_align) ←
       Banded.BandedAlignmentWithBackTrack match_reward mismatch_penalty indel_penalty
         band_width best_ref_seg read (S frames);
    Some (Tuple (best_idx st) (best_score st) s_align t_align).

End params.
End Seed.


(** ** Suffix array construction: [suffix], [get_rank], [suffix_array] *)

Module SA.

(** [class suffix]: an index and the two-element list [rank]. *)
Record suffix := Suffix { index : Z; rank0 : Z; rank1 : Z }.

Definition get_rank (char : nat) : Z := ord char - ord 97.

(** The sort key [(element.rank[0], element.rank[1])], compared as tuples. *)
Definition key_le (a b : suffix) : bool :=
  bool_decide (rank0 a < rank0 b)
  || (bool_decide (rank0 a = rank0 b) && bool_decide (rank1 a ≤ rank1 b)).

(** [sorted(suffixes, key=...)] is stable: equal keys keep their order. *)
Fixpoint insert_by_key (x : suffix) (l : list suffix) : list suffix :=
  match l with
  | [] => [x]
  | y :: l' => if key_le x y then x :: l else y :: insert_by_key x l'
  end.

Definition sorted (l : list suffix) : list suffix := foldr insert_by_key [] l.

(** The initial ranking: one [suffix] per position of the text. *)
Definition initial (text : str) (i : nat) : option suffix :=
  c ← py_get text (Z.of_nat i);
  r1 ← (if bool_decide (Z.of_nat i + 1 < Z.of_nat (length text))
        then get_rank <$> py_get text (Z.of_nat i + 1) else Some (-1));
  Some (Suffix (Z.of_nat i) (get_rank c) r1).

(** The state of the first inner loop of an iteration. *)
Record ranking := Ranking {
  suffixes : list suffix;
  ind : list Z;
  rank : Z;
  prev_rank : Z
}.

Definition set_rank0 (x : suffix) (r : Z) : suffix := Suffix (index x) r (rank1 x).
Definition set_rank1 (x : suffix) (r : Z) : suffix := Suffix (index x) (rank0 x) r.

(** "Assigning rank and index values to first suffix" *)
Definition rank_first (sfx : list suffix) (ind : list Z) : option ranking :=
  x0 ← py_get sfx 0;
  sfx' ← py_set sfx 0 (set_rank0 x0 0);
  ind' ← py_set ind (index x0) 0;
  Some (Ranking sfx' ind' 0 (rank0 x0)).

(** "Assigning rank to suffixes": the body for [i] in [range(1, n)]. *)
Definition rank_step (i : nat) (st : ranking) : option ranking :=
  let zi := Z.of_nat i in
  x ← py_get (suffixes st) zi;
  y ← py_get (suffixes st) (zi - 1);
  let rank' :=
    if bool_decide (rank0 x = prev_rank st) && bool_decide (rank1 x = rank1 y)
    then rank st else rank st + 1 in
  sfx' ← py_set (suffixes st) zi (set_rank0 x rank');
  ind' ← py_set (ind st) (index x) zi;
  Some (Ranking sfx' ind' rank' (rank0 x)).

(** "Assign next rank to every suffix": the body for [i] in [range(n)]. *)
Definition next_step (n : nat) (k : Z) (ind : list Z) (i : nat) (sfx : list suffix)
  : option (list suffix) :=
  x ← py_get sfx (Z.of_nat i);
  let nextindex := index x + k `div` 2 in
  r ← (if bool_decide (nextindex < Z.of_nat n)
       then p ← py_get ind nextindex; y ← py_get sfx p; Some (rank0 y)
       else Some (-1));
  py_set sfx (Z.of_nat i) (set_rank1 x r).

(** One pass of the [while] loop, for the current value of [k]. *)
Definition pass (n : nat) (k : Z) (st : list suffix * list Z) : option (list suffix * list Z) :=
  let '(sfx, ind) := st in
  r ← rank_first sfx ind;
  r ← for_each rank_step (seq 1 (n - 1)) r;
  sfx ← for_each (next_step n k (SA.ind r)) (seq 0 n) (suffixes r);
  Some (sorted sfx, SA.ind r).

(** [while k < 2 * len(text)], unrolled at most [fuel] times. *)
Fixpoint while_k (fuel : nat) (n : nat) (k : Z) (st : list suffix * list Z)
  : option (list suffix * list Z) :=
  if bool_decide (k < 2 * Z.of_nat n) then
    match fuel with
    | O => None
    | S fuel => st' ← pass n k st; while_k fuel n (k * 2) st'
    end
  else Some st.

(** [suffix_array(text)]. The loop doubles [k] from 4 until it reaches
    [2 * len(text)]: [len(text)] passes are more than it can make. *)
Definition suffix_array (text : str) : option (list Z) :=
  let n := length text in
  sfx ← mapM (initial text) (seq 0 n);
  '(sfx, _) ← while_k n n 4 (sorted sfx, replicate n 0);
  Some (map index sfx).

End SA.

(** ** The FM-index *)

Module FM.

(** [partial_suffix_array(sa, k)]; [None] is an [IndexError] or a division
    by zero. *)
Definition psa_step (sa : list Z) (k : Z) (idx : Z) (partial : gmap Z Z) : option (gmap Z Z) :=
  v ← py_get sa idx;
  if bool_decide (k = 0) then None
  else if bool_decide (v `mod` k = 0) then Some (<[idx := v]> partial)
  else Some partial.

Definition partial_suffix_array (sa : list Z) (k : Z) : option (gmap Z Z) :=
  for_each (psa_step sa k) sa ∅.

(** [bwt_from_suffix_array(text, suffix_array)] *)
Definition bwt_from_suffix_array (text : str) (suffix_array : list Z) : option str :=
  mapM (λ idx, py_get text (idx - 1)) suffix_array.

Definition bwt_psa_out (text : str) (k : Z) : option (str * gmap Z Z) :=
  sa ← SA.suffix_array text;
  bwt ← bwt_from_suffix_array text sa;
  psa ← partial_suffix_array sa k;
  Some (bwt, psa).

(** [counts[char] += 1] on a dictionary that starts a key at 0. *)
Definition bump (counts : gmap nat Z) (char : nat) : gmap nat Z :=
  <[char := default 0 (counts !! char) + 1]> counts.

(** [compute_rank_arr(bwt)] *)
Definition rank_arr_step (st : list Z * gmap nat Z) (char : nat) : list Z * gmap nat Z :=
  let '(rank, counts) := st in
  let counts := bump counts char in
  (rank ++ [default 0 (counts !! char)], counts).

Definition compute_rank_arr (bwt : str) : list Z :=
  fst (fold_left rank_arr_step bwt ([], ∅)).

(** [counts[i] += 1] on a list of 256 counters. *)
Definition incr (counts : list Z) (i : Z) : option (list Z) :=
  c ← py_get counts i; py_set counts i (c + 1).

(** [compute_first_occurrences(bwt)] *)
Definition fo_count (char : nat) (st : gmap nat Z * list Z) : option (gmap nat Z * list Z) :=
  let '(C, counts) := st in
  counts ← incr counts (ord char);
  Some (<[char := 0]> C, counts).

Definition fo_assign (counts : list Z) (i : nat) (st : gmap nat Z * Z) : option (gmap nat Z * Z) :=
  let '(C, curr_idx) := st in
  c ← py_get counts (Z.of_nat i);
  let C := if bool_decide (c ≠ 0) then <[i := curr_idx]> C else C in
  Some (C, curr_idx + Z.of_nat (Z.to_nat c)).

Definition compute_first_occurrences (bwt : str) : option (gmap nat Z) :=
  '(C, counts) ← for_each fo_count bwt (∅, replicate 256 0);
  '(C, _) ← for_each (fo_assign counts) (seq 0 256) (C, 0);
  Some C.

(** [compute_checkpoint_arrs(bwt)], with its constant [C = 5]. *)
Definition cp_step (bwt : str) (i : nat) (st : gmap Z (list Z) * list Z)
  : option (gmap Z (list Z) * list Z) :=
  let '(ranks, rank) := st in
  c ← py_get bwt (Z.of_nat i);
  rank ← incr rank (ord c);
  if bool_decide (Z.of_nat i `mod` 5 = 0) then Some (<[Z.of_nat i := rank]> ranks, rank)
  else Some (ranks, rank).

Definition compute_checkpoint_arrs (bwt : str) : option (gmap Z (list Z)) :=
  fst <$> for_each (cp_step bwt) (seq 0 (length bwt)) (∅, replicate 256 0).

(** [compute_rank(bwt, idx, ranks, symbol, C)] *)
Definition compute_rank (bwt : str) (idx : Z) (ranks : gmap Z (list Z)) (symbol : nat) (C : Z)
  : option Z :=
  if bool_decide (C = 0) then None else
  let idx_dist_from_chkpnt := idx `mod` C in
  arr ← ranks !! (idx - idx_dist_from_chkpnt);
  idx_rank ← py_get arr (ord symbol);
  for_each (λ j idx_rank, c ← py_get bwt j;
                          Some (if bool_decide (c = symbol) then idx_rank + 1 else idx_rank))
           (seqZ (idx - idx_dist_from_chkpnt + 1) idx_dist_from_chkpnt) idx_rank.

(** The loop of [bw_better_match_pattern]; [symbols] is the pattern from its
    last character to its first, the order in which the loop reads it. *)
Fixpoint bw_loop (bwt : str) (first_occurrences : gmap nat Z) (ranks : gmap Z (list Z))
    (symbols : str) (top bot : Z) : option (Z * Z) :=
  match symbols with
  | [] => Some (top, bot + 1)
  | symbol :: symbols =>
      match first_occurrences !! symbol with
      | None => Some (0, 0)
      | Some first =>
          top_rank ← compute_rank bwt top ranks symbol 5;
          bot_rank ← compute_rank bwt bot ranks symbol 5;
          c ← py_get bwt top;
          let marker := bool_decide (c = symbol) in
          let top := first + top_rank in
          let top := if marker then top - 1 else top in
          let bot := first + bot_rank - 1 in
          if bool_decide (bot - top < 0) then Some (0, 0)
          else bw_loop bwt first_occurrences ranks symbols top bot
      end
  end.

Definition bw_better_match_pattern (bwt : str) (pattern : str)
    (first_occurrences : gmap nat Z) (ranks : gmap Z (list Z)) : option (Z * Z) :=
  bw_loop bwt first_occurrences ranks (reverse pattern) 0 (Z.of_nat (length bwt) - 1).

(** The [while True] loop of [compute_idxes_from_top_bot], run for at most
    [fuel] iterations; it returns [p] and [plus_count] at the [break]. *)
Fixpoint walk (fuel : nat) (partial_s_array : gmap Z Z) (bwt : str) (rank : list Z)
    (occurrences : gmap nat Z) (p plus_count : Z) : option (Z * Z) :=
  match fuel with
  | O => None
  | S fuel =>
      predecessor ← py_get bwt p;
      first ← occurrences !! predecessor;
      r ← py_get rank p;
      let p := first + r - 1 in
      let plus_count := plus_count + 1 in
      if bool_decide (is_Some (partial_s_array !! p)) then Some (p, plus_count)
      else walk fuel partial_s_array bwt rank occurrences p plus_count
  end.

(** [compute_idxes_from_top_bot(start, end, partial_s_array, bwt, rank,
    occurrences)] *)
Definition locate (fuel : nat) (partial_s_array : gmap Z Z) (bwt : str) (rank : list Z)
    (occurrences : gmap nat Z) (i : Z) (pattern_idxes : list Z) : option (list Z) :=
  '(p, plus_count) ← walk fuel partial_s_array bwt rank occurrences i 0;
  v ← partial_s_array !! p;
  if bool_decide (length bwt = 0%nat) then None
  else Some (pattern_idxes ++ [(v + plus_count) `mod` Z.of_nat (length bwt)]).

Definition compute_idxes_from_top_bot (fuel : nat) (start end_ : Z)
    (partial_s_array : gmap Z Z) (bwt : str) (rank : list Z) (occurrences : gmap nat Z)
  : option (list Z) :=
  for_each (locate fuel partial_s_array bwt rank occurrences)
           (seqZ start (end_ - start)) [].

(** The index of a reference: every table the search uses, built from
    [text = ref + '$'] with sample stride [k]. *)
Record index := Index {
  ix_bwt : str;
  ix_psa : gmap Z Z;
  ix_first : gmap nat Z;
  ix_checkpoints : gmap Z (list Z);
  ix_rank : list Z
}.

Definition build_index (ref : str) (k : Z) : option index :=
  let text := ref ++ [SENTINEL] in
  '(bwt, psa) ← bwt_psa_out text k;
  first ← compute_first_occurrences bwt;
  cps ← compute_checkpoint_arrs bwt;
  Some (Index bwt psa first cps (compute_rank_arr bwt)).

(** Search and position recovery on an index, as [generate_seeds] chains
    them for one k-mer. *)
Definition find (fuel : nat) (ix : index) (pattern : str) : option (list Z) :=
  '(start, end_) ← bw_better_match_pattern (ix_bwt ix) pattern (ix_first ix) (ix_checkpoints ix);
  compute_idxes_from_top_bot fuel start end_ (ix_psa ix) (ix_bwt ix) (ix_rank ix) (ix_first ix).

(** [generate_seeds(read, bwt, k, psa, first_occurrences, checkpoint_arrs,
    ranks)]; [fuel] bounds the inner loop of [compute_idxes_from_top_bot]. *)
Definition generate_seeds (fuel : nat) (read bwt : str) (k : Z) (psa : gmap Z Z)
    (first_occurrences : gmap nat Z) (checkpoint_arrs : gmap Z (list Z)) (ranks : list Z)
  : option (list (list Z)) :=
  for_each (λ i seed_idxes,
              let kmer := py_slice read i (i + k) in
              '(start, end_) ← bw_better_match_pattern bwt kmer first_occurrences checkpoint_arrs;
              idxes ← compute_idxes_from_top_bot fuel start end_ psa bwt ranks first_occurrences;
              Some (seed_idxes ++ [idxes]))
           (seqZ 0 (Z.of_nat (length read) - k + 1)) [].

End FM.


(* ===================================================================== *)
(** * Part II: notions the properties are stated with                     *)
(* ===================================================================== *)

(** ** Aligned strings and CIGAR runs *)

(** An aligned string with every ['-'] removed. *)
Definition strip_gaps (a : str) : str := filter (λ c, c ≠ DASH) a.

(** No column of the alignment pairs a gap with a gap. *)
Definition no_double_gap (a b : str) : Prop :=
  Forall (λ col : nat * nat, ¬ (col.1 = DASH ∧ col.2 = DASH)) (zip a b).

Definition is_digit (c : nat) : bool := bool_decide (48 ≤ c ≤ 57)%nat.

(** Reading a CIGAR string back into its runs [(length, operation)];
    [acc] is the number read so far, if a digit has been seen. *)
Fixpoint cigar_runs_from (acc : option nat) (l : str) : option (list (nat * nat)) :=
  match l with
  | [] => match acc with None => Some [] | Some _ => None end
  | c :: l =>
      if is_digit c then cigar_runs_from (Some (10 * default 0%nat acc + (c - 48))%nat) l
      else n ← acc; runs ← cigar_runs_from None l; Some ((n, c) :: runs)
  end.

Definition cigar_runs (cigar : str) : option (list (nat * nat)) := cigar_runs_from None cigar.

(** The sum of the lengths of the runs with operation [op], and of all. *)
Definition run_sum (op : nat) (runs : list (nat * nat)) : nat :=
  sum_list (fst <$> filter (λ r : nat * nat, r.2 = op) runs).

Definition run_total (runs : list (nat * nat)) : nat := sum_list (fst <$> runs).

(** The pieces that a list of runs is printed as. *)
Definition render (runs : list (nat * nat)) : list str :=
  (λ r : nat * nat, Cigar.piece r.1 r.2) <$> runs.

Definition is_op (c : nat) : Prop := c = CH_M ∨ c = CH_I ∨ c = CH_D.

(** The three classes of alignment columns that [calculate_cigar] tells
    apart: a gap in the first string, a gap in the second, anything else. *)
Definition col_D (col : nat * nat) : Prop := col.1 = DASH ∧ col.2 ≠ DASH.
Definition col_I (col : nat * nat) : Prop := col.1 ≠ DASH ∧ col.2 = DASH.
Definition col_M (col : nat * nat) : Prop := ¬ col_D col ∧ ¬ col_I col.

Global Instance col_D_dec col : Decision (col_D col).
Proof. unfold col_D. apply _. Defined.
Global Instance col_I_dec col : Decision (col_I col).
Proof. unfold col_I. apply _. Defined.
Global Instance col_M_dec col : Decision (col_M col).
Proof. unfold col_M. apply _. Defined.

(** What the scan has established after the columns [cols]: the pieces
    emitted so far print some runs, and runs and pending counters together
    account for every column of each class. *)
Definition cigar_inv (st : Cigar.state) (cols : list (nat * nat)) : Prop :=
  ∃ runs, Cigar.cigar st = render runs
    ∧ Forall (λ r : nat * nat, is_op r.2) runs
    ∧ (run_sum CH_M runs + Cigar.match_ st = length (filter col_M cols))%nat
    ∧ (run_sum CH_I runs + Cigar.ins st = length (filter col_I cols))%nat
    ∧ (run_sum CH_D runs + Cigar.del_ st = length (filter col_D cols))%nat.

(** ** Matrices *)

(** A list of [r] rows of [c] entries each. *)
Definition has_dims {A} (m : list (list A)) (r c : nat) : Prop :=
  length m = r ∧ Forall (λ row, length row = c) m.

(** The entry in row [i], column [j], if there is one. *)
Definition entry {A} (m : list (list A)) (i j : nat) : option A :=
  row ← m !! i; row !! j.

(** ** Banded alignment *)

(** [x + d] on a cell of the list matrix when no conversion fails. *)
Definition score_add (x : score) (d : Z) : score :=
  match x with NegInf => NegInf | Fin z => Fin (z + d) end.

(** The walk of [backtrack] over the pointer matrix from [(i1 - 1, j1 - 1)]
    when the stack has room for it: the same tests and the same results,
    without the count of frames. *)
Fixpoint backtrack_walk (bp : Z) (s t : str) (b : list (list (option ptr))) (i1 : nat)
  : nat → option (str * str) :=
  fix backtrack_row (j1 : nat) : option (str * str) :=
    match i1, j1 with
    | O, O => Some ([], [])
    | O, S _ => Some (py_repeat DASH (Z.of_nat j1), py_slice t 0 (Z.of_nat j1))
    | S _, O => Some (py_slice s 0 (Z.of_nat i1), py_repeat DASH (Z.of_nat i1))
    | S i, S j =>
        p ← mget b (Z.of_nat i) (Z.of_nat j);
        if bool_decide (p = Some P_d) && bool_decide (Z.abs (Z.of_nat j - Z.of_nat i) < bp) then
          '(s_prime, t_prime) ← backtrack_walk bp s t b i j1;
          si ← py_get s (Z.of_nat i);
          Some (s_prime ++ [si], t_prime ++ [DASH])
        else if bool_decide (p = Some P_r) && bool_decide (Z.abs (Z.of_nat j - Z.of_nat i) < bp) then
          '(s_prime, t_prime) ← backtrack_row j;
          tj ← py_get t (Z.of_nat j);
          Some (s_prime ++ [DASH], t_prime ++ [tj])
        else
          '(s_prime, t_prime) ← backtrack_walk bp s t b i j;
          si ← py_get s (Z.of_nat i);
          tj ← py_get t (Z.of_nat j);
          Some (s_prime ++ [si], t_prime ++ [tj])
    end.

(** [BandedAlignmentWithBackTrack] when the stack has room for every call
    of [backtrack]. *)
Definition aligned_walk (mr mmp indp bp : Z) (s t : str) : option (score * str * str) :=
  '(l, b) ← Banded.matrices_bt mr mmp indp bp s t;
  '(s_align, t_align) ← backtrack_walk bp s t b (length s) (length t);
  sc ← mget l (Z.of_nat (length s)) (Z.of_nat (length t));
  Some (sc, s_align, t_align).

(** [compute_max_seed] when the stack has room for the calls of
    [backtrack] in its last step. *)
Definition max_seed_walk (ref read : str) (mr mmp indp bw read_length : Z)
    (seed_idxes : list (list Z)) : option Seed.result :=
  if bool_decide (length seed_idxes = 0%nat) then Some Seed.PyNone
  else
    st ← Seed.scan ref read mr mmp indp bw read_length seed_idxes (Seed.Best NegInf (-1) (-1));
    let best_ref_seg := py_slice ref (Seed.best_idx st - Seed.best_seed st)
                          (Seed.best_idx st - Seed.best_seed st + read_length) in
    '(_, s_align, t_align) ← aligned_walk mr mmp indp bw best_ref_seg read;
    Some (Seed.Tuple (Seed.best_idx st) (Seed.best_score st) s_align t_align).

(** Cell [(i, j)] lies on the border of the matrix or inside the band. *)
Definition in_region (bp : Z) (i j : nat) : Prop :=
  i = 0%nat ∨ j = 0%nat ∨ Z.abs (Z.of_nat j - Z.of_nat i) < bp.

Global Instance in_region_dec bp i j : Decision (in_region bp i j).
Proof. unfold in_region. apply _. Defined.

(** Row-major order: cell [(a, b)] is visited before cell [(i, j)]. *)
Definition visited (a b i j : nat) : Prop := (a < i)%nat ∨ (a = i ∧ b < j)%nat.

Global Instance visited_dec a b i j : Decision (visited a b i j).
Proof. unfold visited. apply _. Defined.

(** The score matrix while the loops are about to visit cell [(i, j)]:
    a visited cell on the border or in the band holds an integer, every
    other cell still holds minus infinity. *)
Definition cells_ok (bp : Z) (n m : nat) (i j : nat) (l : list (list score)) : Prop :=
  ∀ a c, (a ≤ n)%nat → (c ≤ m)%nat →
    (visited a c i j ∧ in_region bp a c → ∃ z, entry l a c = Some (Fin z))
    ∧ (¬ (visited a c i j ∧ in_region bp a c) → entry l a c = Some NegInf).

Definition bt_inv (bp : Z) (n m : nat) (i j : nat)
    (lb : list (list score) * list (list (option ptr))) : Prop :=
  has_dims lb.1 (n + 1) (m + 1) ∧ has_dims lb.2 n m ∧ cells_ok bp n m i j lb.1.

(** The scan of [compute_max_seed] over the rows [rows] of the seed list,
    the first of which belongs to seed offset [off]. *)
Fixpoint scan_from (ref read : str) (mr mmp indp bw read_length : Z)
    (off : nat) (rows : list (list Z)) (st : Seed.best) : option Seed.best :=
  match rows with
  | [] => Some st
  | row :: rows =>
      st' ← for_each (Seed.candidate ref read mr mmp indp bw read_length off) row st;
      scan_from ref read mr mmp indp bw read_length (S off) rows st'
  end.

(** [c * k ++ s]: a string pushed to the right by [k] gaps. *)
Definition pad_left (k : nat) (a : str) : str := replicate k DASH ++ a.

(** ** The sampled suffix array *)

(** One row of the sampled suffix array: row [i] is kept when [sa[i]] is a
    multiple of [k]. *)
Definition sample_row (sa : list Z) (k : Z) (psa : gmap Z Z) (i : Z) : gmap Z Z :=
  match sa !! Z.to_nat i with
  | Some v => if bool_decide (v `mod` k = 0) then <[i := v]> psa else psa
  | None => psa
  end.

(** The intended semantics of the specification: "for each row i in [0,n)
    such that SA[i] mod K = 0, record PSA[i] = SA[i]". *)
Definition partial_suffix_array_intended (sa : list Z) (k : Z) : gmap Z Z :=
  foldl (sample_row sa k) ∅ (seqZ 0 (Z.of_nat (length sa))).

Import SA.

(** ** Suffix array construction *)

Definition same_key (x y : suffix) : Prop := rank0 x = rank0 y ∧ rank1 x = rank1 y.

Global Instance same_key_dec x y : Decision (same_key x y).
Proof. unfold same_key. apply _. Defined.

(** The ranks that one pass gives to a list sorted by key: 0 for the first
    element, and for every other element the rank of its predecessor, plus
    one where the two keys differ. *)
Fixpoint dense_from (r : Z) (prev : suffix) (l : list suffix) : list Z :=
  match l with
  | [] => []
  | x :: l =>
      let r' := if bool_decide (same_key x prev) then r else r + 1 in
      r' :: dense_from r' x l
  end.

Definition dense (l : list suffix) : list Z :=
  match l with
  | [] => []
  | x :: l => 0 :: dense_from 0 x l
  end.

Definition rerank (l : list suffix) : list suffix := zip_with set_rank0 l (dense l).

(** The first rank of the suffix that starts at [j]. *)
Definition rank_of (l : list suffix) (j : Z) : Z :=
  default 0 (rank0 <$> head (filter (λ x, index x = j) l)).

Definition next_rank (n : nat) (k : Z) (l : list suffix) (j : Z) : Z :=
  if bool_decide (j + k `div` 2 < Z.of_nat n) then rank_of l (j + k `div` 2) else -1.

Definition assign_next (n : nat) (k : Z) (l : list suffix) : list suffix :=
  (λ x, set_rank1 x (next_rank n k l (index x))) <$> l.

(** The indices of a list of suffixes are those of a text of length [n]. *)
Definition indexes (n : nat) (l : list suffix) : Prop :=
  index <$> l ≡ₚ seqZ 0 (Z.of_nat n).

(** The key of [x] sorts strictly before the key of [y]. *)
Definition key_lt (x y : suffix) : Prop :=
  rank0 x < rank0 y ∨ (rank0 x = rank0 y ∧ rank1 x < rank1 y).

(** The suffixes at [i] and [j] agree on their first [h] characters, where
    both running off the end of the text counts as agreeing. *)
Definition agree (T : str) (h i j : nat) : Prop :=
  ∀ d, (d < h)%nat → T !! (i + d)%nat = T !! (j + d)%nat.

(** The suffix at [i] differs from the suffix at [j] within the first [h]
    characters, and has the smaller character where they first differ. *)
Definition below (T : str) (h i j : nat) : Prop :=
  ∃ d x y, (d < h)%nat ∧ agree T d i j
    ∧ T !! (i + d)%nat = Some x ∧ T !! (j + d)%nat = Some y ∧ (x < y)%nat.

(** The keys of a list of suffixes reflect the order of the first [h]
    characters of the suffixes they stand for. *)
Definition ordered (T : str) (h : nat) (l : list suffix) : Prop :=
  ∀ x y, x ∈ l → y ∈ l →
    (agree T h (Z.to_nat (index x)) (Z.to_nat (index y)) → same_key x y)
    ∧ (below T h (Z.to_nat (index x)) (Z.to_nat (index y)) → key_lt x y).

(** A text that ends with the sentinel, smaller than all that precedes. *)
Definition sentinel_text (T : str) : Prop :=
  ∃ R, T = R ++ [SENTINEL] ∧ Forall (λ c, (SENTINEL < c)%nat) R.

(** Lexicographic order of strings by code point, as Python compares. *)
Fixpoint lex_lt (a b : str) : Prop :=
  match a, b with
  | _, [] => False
  | [], _ :: _ => True
  | x :: a, y :: b => (x < y)%nat ∨ (x = y ∧ lex_lt a b)
  end.

(** The state of the [while] loop when its keys stand for [h] characters. *)
Definition sa_inv (T : str) (h : nat) (st : list suffix * list Z) : Prop :=
  indexes (length T) st.1
  ∧ length st.2 = length T
  ∧ StronglySorted (λ x y, key_le x y = true) st.1
  ∧ ordered T h st.1.

(** The list of suffixes before the first sort. *)
Definition initial_suffix (T : str) (i : nat) : suffix :=
  Suffix (Z.of_nat i) (get_rank (default 0%nat (T !! i)))
         (if bool_decide (i + 1 < length T)%nat
          then get_rank (default 0%nat (T !! (i + 1)%nat)) else -1).

(** The first inner loop of a pass when it is about to rank position [i]
    of the list [old]. *)
Definition rank_inv (n : nat) (old : list suffix) (i : nat) (st : ranking) : Prop :=
  suffixes st = take i (rerank old) ++ drop i old
  ∧ length (ind st) = n
  ∧ (∀ a x, (a < i)%nat → old !! a = Some x → ind st !! Z.to_nat (index x) = Some (Z.of_nat a))
  ∧ (∃ y, old !! (i - 1)%nat = Some y ∧ prev_rank st = rank0 y)
  ∧ dense old !! (i - 1)%nat = Some (rank st).


(** ** The FM-index *)

(** The number of occurrences of the character [c] in [l]. *)
Definition occ (c : nat) (l : str) : nat := length (filter (λ x, x = c) l).

(** The number of characters of [l] that are smaller than [c]. *)
Definition smaller (c : nat) (l : str) : nat := length (filter (λ x, (x < c)%nat) l).

(** The character that precedes position [i] of the text, cyclically. *)
Definition bwt_char (T : str) (i : nat) : nat :=
  default 0%nat (T !! ((i + length T - 1) `mod` length T)%nat).

(** [arr] is the checkpoint array for the first [k] characters of [l]:
    256 counters, one per code point. *)
Definition counters (l : str) (k : nat) (arr : list Z) : Prop :=
  length arr = 256%nat ∧ ∀ c, (c < 256)%nat → arr !! c = Some (Z.of_nat (occ c (take k l))).

Global Instance lex_lt_dec a b : Decision (lex_lt a b).
Proof.
  revert b. induction a as [|x a IH]; intros [|y b]; simpl; try apply _.
Defined.

(** The number of suffixes of [T] that sort before the suffix at [x]: the
    row of [x] in the suffix array. *)
Definition row_of (T : str) (x : nat) : nat :=
  length (filter (λ z, lex_lt (drop z T) (drop x T)) (seq 0 (length T))).

(** The pattern [w] occurs in [T] at offset [z]. *)
Definition occurs_at (w T : str) (z : nat) : Prop := take (length w) (drop z T) = w.

Global Instance occurs_at_dec w T z : Decision (occurs_at w T z).
Proof. unfold occurs_at. apply _. Defined.

(** The starting offsets of the occurrences of [w] in [T], in increasing
    order. *)
Definition occurrences (w T : str) : list nat :=
  filter (occurs_at w T) (seq 0 (length T)).

(** The rows [top .. bot] of the suffix array [pos] are exactly the rows of
    the suffixes that start with [w]. *)
Definition interval_of (T : str) (pos : list nat) (w : str) (top bot : nat) : Prop :=
  (top ≤ bot < length T)%nat
  ∧ ∀ r x, pos !! r = Some x → (occurs_at w T x ↔ (top ≤ r ≤ bot)%nat).

(** ** The shape of a CIGAR string *)

(** The operations that [calculate_cigar] writes one after the other: an
    [M] run comes between indel blocks, and inside a block the [I] run
    comes before the [D] run. *)
Definition may_follow (op op' : nat) : Prop :=
  (op = CH_M ∧ (op' = CH_I ∨ op' = CH_D))
  ∨ (op = CH_I ∧ (op' = CH_D ∨ op' = CH_M))
  ∨ (op = CH_D ∧ op' = CH_M).

Definition canonical (runs : list (nat * nat)) : Prop :=
  Forall (λ r : nat * nat, (0 < r.1)%nat ∧ is_op r.2) runs
  ∧ ∀ i r r', runs !! i = Some r → runs !! S i = Some r' → may_follow r.2 r'.2.

(** The state of the scan: the pieces emitted so far print canonical runs,
    and the pending counters continue them. *)
Definition shape_inv (st : Cigar.state) : Prop :=
  ∃ runs, Cigar.cigar st = render runs ∧ canonical runs
    ∧ ((0 < Cigar.match_ st)%nat →
       Cigar.ins st = 0%nat ∧ Cigar.del_ st = 0%nat
       ∧ ∀ r, last runs = Some r → r.2 ≠ CH_M)
    ∧ ((0 < Cigar.ins st ∨ 0 < Cigar.del_ st)%nat →
       Cigar.match_ st = 0%nat ∧ ∀ r, last runs = Some r → r.2 = CH_M)
    ∧ (Cigar.match_ st = 0%nat → Cigar.ins st = 0%nat → Cigar.del_ st = 0%nat → runs = []).

(** ** The recurrences of the two score matrices *)

Section recurrences.
Context (mr mmp indp bp : Z) (s t : str).

Definition in_band (i j : nat) : bool := bool_decide (Z.abs (Z.of_nat j - Z.of_nat i) < bp).

(** The score of the column that pairs [s[i]] with [t[j]]. *)
Definition pair_score (i j : nat) : Z :=
  if bool_decide (s !! i = t !! j) then mr else - mmp.

(** What [banded_alignment] leaves in cell [(i, j)] of its matrix. *)
Fixpoint banded_score (i : nat) : nat → score :=
  fix row (j : nat) : score :=
    match i, j with
    | O, O => Fin 0
    | O, S _ => if in_band i j then Fin (Z.of_nat j * - indp) else NegInf
    | S _, O => if in_band i j then Fin (Z.of_nat i * - indp) else NegInf
    | S i', S j' =>
        if in_band i j
        then max3 (score_add (banded_score i' j) (- indp)) (score_add (row j') (- indp))
                  (score_add (banded_score i' j') (pair_score i' j'))
        else NegInf
    end.

(** What [banded_alignment] leaves in cell [(i, j)] of its float64 array
    when no conversion on the way has failed. *)
Fixpoint banded_f64 (i : nat) : nat → f64 :=
  fix row (j : nat) : f64 :=
    match i, j with
    | O, O => F_fin 0
    | O, S _ => if in_band i j then f64_round (Z.of_nat j * - indp) else F_ninf
    | S _, O => if in_band i j then f64_round (Z.of_nat i * - indp) else F_ninf
    | S i', S j' =>
        if in_band i j
        then f64_max3 (f64_plus (banded_f64 i' j) (- round64 indp))
                      (f64_plus (row j') (- round64 indp))
                      (f64_plus (banded_f64 i' j') (round64 (pair_score i' j')))
        else F_ninf
    end.

(** The conversions that the loops of [banded_alignment] make at cell
    [(i, j)] succeed. *)
Definition cell_ok (i j : nat) : bool :=
  match i, j with
  | O, O => true
  | O, S _ => negb (in_band i j) || bool_decide (float_ok (Z.of_nat j * - indp))
  | S _, O => negb (in_band i j) || bool_decide (float_ok (Z.of_nat i * - indp))
  | S i', S j' =>
      negb (in_band i j)
      || (bool_decide (float_ok indp) && bool_decide (float_ok (pair_score i' j')))
  end.

(** What [BandedAlignmentWithBackTrack] leaves in cell [(i, j)] of [l]. *)
Fixpoint backtrack_score (i : nat) : nat → score :=
  fix row (j : nat) : score :=
    match i, j with
    | O, _ => Fin (Z.of_nat j * - indp)
    | S _, O => Fin (Z.of_nat i * - indp)
    | S i', S j' =>
        if in_band i j
        then max3 (score_add (backtrack_score i' j) (- indp)) (score_add (row j') (- indp))
                  (score_add (backtrack_score i' j') (pair_score i' j'))
        else NegInf
    end.

(** What it leaves in [b[i][j]], the pointer of cell [(i + 1, j + 1)]. *)
Definition backtrack_ptr (i j : nat) : option ptr :=
  if in_band (S i) (S j) then
    let v := backtrack_score (S i) (S j) in
    if bool_decide (v = score_add (backtrack_score i (S j)) (- indp)) then Some P_d
    else if bool_decide (v = score_add (backtrack_score (S i) j) (- indp)) then Some P_r
    else if bool_decide (v = score_add (backtrack_score i j) (pair_score i j)) then Some P_dr
    else None
  else None.

End recurrences.

(** The matrix [l] holds [f] on the cells visited before [(i, j)] and
    its initial value [d], minus infinity, elsewhere. *)
Definition cells_are {A} (d : A) (f : nat → nat → A) (n m i j : nat) (l : list (list A))
  : Prop :=
  ∀ a c, (a ≤ n)%nat → (c ≤ m)%nat →
    entry l a c = Some (if decide (visited a c i j) then f a c else d).

(** The matrix [b] holds the pointers of the cells visited before [(i, j)]. *)
Definition ptrs_are (f : nat → nat → option ptr) (n m i j : nat)
    (b : list (list (option ptr))) : Prop :=
  ∀ a c, (a < n)%nat → (c < m)%nat →
    entry b a c = Some (if decide (visited (S a) (S c) i j) then f a c else None).

(** The two matrices of [BandedAlignmentWithBackTrack] while its loops are
    about to visit cell [(i, j)]. *)
Definition tracked_inv (mr mmp indp bp : Z) (s t : str) (i j : nat)
    (lb : list (list score) * list (list (option ptr))) : Prop :=
  has_dims lb.1 (length s + 1) (length t + 1) ∧ has_dims lb.2 (length s) (length t)
  ∧ cells_are NegInf (backtrack_score mr mmp indp bp s t) (length s) (length t) i j lb.1
  ∧ ptrs_are (backtrack_ptr mr mmp indp bp s t) (length s) (length t) i j lb.2.

(** [x <= y] on scores. *)
Definition score_le (x y : score) : Prop :=
  match x, y with
  | NegInf, _ => True
  | Fin _, NegInf => False
  | Fin a, Fin b => a ≤ b
  end.

(** A score as a float64. *)
Definition to_f64 (x : score) : f64 :=
  match x with NegInf => F_ninf | Fin z => F_fin z end.

(** The largest of the three parameters, in absolute value, times the number
    of columns that an alignment of [n] against [m] characters can have,
    stays within the integers that a float64 holds exactly. *)
Definition scores_exact (mr mmp indp : Z) (n m : nat) : Prop :=
  Z.max (Z.abs mr) (Z.max (Z.abs mmp) (Z.abs indp)) * Z.max 1 (Z.of_nat (n + m)) ≤ 2 ^ 53.

(** The score of one column of an alignment, and of an alignment. *)
Definition column_score (mr mmp indp : Z) (col : nat * nat) : Z :=
  if bool_decide (col.1 = DASH ∨ col.2 = DASH) then - indp
  else if bool_decide (col.1 = col.2) then mr else - mmp.

Definition alignment_score (mr mmp indp : Z) (a b : str) : Z :=
  foldr Z.add 0 (column_score mr mmp indp <$> zip a b).

(** ** Seed extension *)

(** The candidates that [compute_max_seed] enumerates, in the order of its
    two loops: seed offset [i] with every position of [seed_idxes[i]]. *)
Fixpoint candidates_from (off : nat) (rows : list (list Z)) : list (nat * Z) :=
  match rows with
  | [] => []
  | row :: rows => (pair off <$> row) ++ candidates_from (S off) rows
  end.

Definition candidates (seed_idxes : list (list Z)) : list (nat * Z) :=
  candidates_from 0 seed_idxes.

(** The window of the reference that a candidate is scored on. *)
Definition seed_window (ref : str) (read_length : Z) (i p : Z) : str :=
  py_slice ref (p - i) (p - i + read_length).

(** What the two loops of [compute_max_seed] have established after the
    candidates [l]: no candidate scores more than the best so far, which is
    either still minus infinity or the score of the first candidate that
    reaches it. *)
Definition best_inv (ref read : str) (mr mmp indp bw read_length : Z)
    (l : list (nat * Z)) (st : Seed.best) : Prop :=
  let scored (c : nat * Z) (x : score) :=
    Banded.banded_alignment mr mmp indp bw
      (seed_window ref read_length (Z.of_nat c.1) c.2) read = Some x in
  (∀ c, c ∈ l → ∃ x, scored c x ∧ score_le x (Seed.best_score st))
  ∧ ((Seed.best_score st = NegInf ∧ Seed.best_idx st = -1 ∧ Seed.best_seed st = -1)
     ∨ ∃ before i after,
         l = before ++ (i, Seed.best_idx st) :: after
         ∧ Seed.best_seed st = Z.of_nat i
         ∧ scored (i, Seed.best_idx st) (Seed.best_score st)
         ∧ Seed.best_score st ≠ NegInf
         ∧ Forall (λ c, ∃ x, scored c x ∧ score_gt (Seed.best_score st) x = true) before).

(** ** Suffix arrays of texts without a sentinel *)

(** The suffix at [i] ends within its first [h] characters, at a point up
    to which the suffix at [j] agrees with it and then goes on. *)
Definition ends_before (T : str) (h i j : nat) : Prop :=
  ∃ d, (d < h)%nat ∧ agree T d i j ∧ T !! (i + d)%nat = None ∧ is_Some (T !! (j + d)%nat).

(** The keys of a list of suffixes put a suffix that ends before a suffix
    that continues it. *)
Definition ordered_end (T : str) (h : nat) (l : list suffix) : Prop :=
  ∀ x y, x ∈ l → y ∈ l →
    ends_before T h (Z.to_nat (index x)) (Z.to_nat (index y)) → key_lt x y.

(** The state of the [while] loop on a text whose end sorts first. *)
Definition sa_inv_end (T : str) (h : nat) (st : list suffix * list Z) : Prop :=
  sa_inv T h st ∧ ordered_end T h st.1.

(** ** Python indexing *)

(** [i] is an index that Python accepts for a list of length [len]. *)
Definition py_index (len : nat) (i : Z) : Prop := - Z.of_nat len ≤ i < Z.of_nat len.

Global Instance py_index_dec len i : Decision (py_index len i).
Proof. unfold py_index. apply _. Defined.

(* ===================================================================== *)
(** * Part III: properties                                                *)
(* ===================================================================== *)

(** ** Python values *)

Lemma py_get_nat {A} (l : list A) (i : nat) : py_get l (Z.of_nat i) = l !! i.
Proof.
  unfold py_get. rewrite bool_decide_eq_true_2 by lia. by rewrite Nat2Z.id.
Qed.

Lemma py_get_nonneg {A} (l : list A) (i : Z) : 0 ≤ i → py_get l i = l !! Z.to_nat i.
Proof. intros. unfold py_get. by rewrite bool_decide_eq_true_2. Qed.

Lemma py_slice_prefix {A} (l : list A) (m : nat) :
  py_slice l 0 (Z.of_nat m) = take m l.
Proof.
  unfold py_slice, py_clip. rewrite !bool_decide_eq_false_2 by lia.
  replace (Z.to_nat (0 `min` Z.of_nat (length l))) with 0%nat by lia.
  replace (Z.to_nat (Z.of_nat m `min` Z.of_nat (length l))) with (m `min` length l)%nat by lia.
  rewrite drop_0, Nat.sub_0_r.
  destruct (decide (m ≤ length l)%nat).
  - by rewrite Nat.min_l by lia.
  - rewrite Nat.min_r by lia. by rewrite !take_ge by lia.
Qed.

Lemma py_clip_le (len : nat) (i : Z) : (py_clip len i ≤ len)%nat.
Proof. unfold py_clip. case_bool_decide; lia. Qed.

(** A slice is a contiguous piece of the list. *)
Lemma py_slice_piece {A} (l : list A) (a b : Z) :
  ∃ pre post, l = pre ++ py_slice l a b ++ post.
Proof.
  unfold py_slice. set (lo := py_clip (length l) a). set (k := (_ - _)%nat).
  exists (take lo l), (drop k (drop lo l)). by rewrite !take_drop.
Qed.

Lemma py_slice_length_le {A} (l : list A) (a b : Z) : (length (py_slice l a b) ≤ length l)%nat.
Proof. unfold py_slice. rewrite length_take, length_drop. lia. Qed.

(** A slice [l[a : a + d]] holds at most [d] elements. *)
Lemma py_slice_length {A} (l : list A) (a d : Z) :
  0 ≤ d → Z.of_nat (length (py_slice l a (a + d))) ≤ d.
Proof.
  intros Hd. unfold py_slice. rewrite length_take, length_drop. unfold py_clip.
  repeat case_bool_decide; lia.
Qed.

Lemma py_get_pred {A} (l : list A) (i : nat) :
  (0 < i)%nat → py_get l (Z.of_nat i - 1) = l !! (i - 1)%nat.
Proof. intros. rewrite <- py_get_nat. f_equal. lia. Qed.

Lemma py_set_nat {A} (l : list A) (i : nat) (v : A) :
  (i < length l)%nat → py_set l (Z.of_nat i) v = Some (<[i := v]> l).
Proof.
  intros. unfold py_set. rewrite bool_decide_eq_true_2 by lia. by rewrite Nat2Z.id.
Qed.

Lemma for_each_app {A S} (body : A → S → option S) (xs ys : list A) (st : S) :
  for_each body (xs ++ ys) st = st' ← for_each body xs st; for_each body ys st'.
Proof.
  revert st. induction xs as [|x xs IH]; intros st; simpl; [done|].
  destruct (body x st); simpl; [apply IH|done].
Qed.

(** A loop over [range(start, start + len)] with an invariant indexed by
    the loop counter. *)
Lemma for_each_seq_inv {St} (I : nat → St → Prop) (body : nat → St → option St)
    (start len : nat) (st : St) :
  I start st →
  (∀ k st, (start ≤ k < start + len)%nat → I k st → ∃ st', body k st = Some st' ∧ I (S k) st') →
  ∃ st', for_each body (seq start len) st = Some st' ∧ I (start + len)%nat st'.
Proof.
  revert start st. induction len as [|len IH]; intros start st H0 Hstep; simpl.
  - exists st. by rewrite Nat.add_0_r.
  - destruct (Hstep start st) as (st' & -> & H1); [lia|done|]. simpl.
    destruct (IH (S start) st') as (st'' & -> & H2); [done| |].
    + intros k st0 ? ?. apply Hstep; [lia|done].
    + exists st''. split; [done|]. by replace (start + S len)%nat with (S start + len)%nat by lia.
Qed.

(** ** Matrices *)

Lemma mget_entry {A} (m : list (list A)) (i j : nat) :
  mget m (Z.of_nat i) (Z.of_nat j) = entry m i j.
Proof.
  unfold mget, entry. rewrite py_get_nat. destruct (m !! i); simpl; [|done].
  apply py_get_nat.
Qed.

Lemma has_dims_replicate {A} (r c : nat) (x : A) :
  has_dims (replicate r (replicate c x)) r c.
Proof.
  split; [apply length_replicate|].
  apply Forall_replicate, length_replicate.
Qed.

Lemma entry_replicate {A} (r c : nat) (x : A) (i j : nat) :
  (i < r)%nat → (j < c)%nat → entry (replicate r (replicate c x)) i j = Some x.
Proof.
  intros. unfold entry. rewrite lookup_replicate_2 by done. simpl.
  by rewrite lookup_replicate_2.
Qed.

Lemma entry_is_Some {A} (m : list (list A)) (r c i j : nat) :
  has_dims m r c → (i < r)%nat → (j < c)%nat → is_Some (entry m i j).
Proof.
  intros [Hr Hc] Hi Hj. unfold entry.
  destruct (lookup_lt_is_Some_2 m i) as [row Hrow]; [lia|].
  rewrite Hrow. simpl. apply lookup_lt_is_Some_2.
  rewrite Forall_lookup in Hc. rewrite (Hc _ _ Hrow). done.
Qed.

Lemma mset_entry {A} (m : list (list A)) (r c i j : nat) (v : A) :
  has_dims m r c → (i < r)%nat → (j < c)%nat →
  ∃ m', mset m (Z.of_nat i) (Z.of_nat j) v = Some m' ∧ has_dims m' r c
    ∧ entry m' i j = Some v
    ∧ ∀ a b, (a, b) ≠ (i, j) → entry m' a b = entry m a b.
Proof.
  intros [Hr Hc] Hi Hj. unfold mset.
  destruct (lookup_lt_is_Some_2 m i) as [row Hrow]; [lia|].
  assert (length row = c) as Hlen by (rewrite Forall_lookup in Hc; by eapply Hc).
  rewrite py_get_nat, Hrow. simpl.
  rewrite py_set_nat by lia. simpl. rewrite py_set_nat by lia.
  eexists. split; [done|]. split; [|split].
  - split; [by rewrite length_insert|].
    apply Forall_insert; [done|]. by rewrite length_insert.
  - unfold entry. rewrite list_lookup_insert_eq by lia. simpl.
    apply list_lookup_insert_eq. lia.
  - intros a b Hab. unfold entry. destruct (decide (a = i)) as [->|Hne].
    + rewrite list_lookup_insert_eq by lia. rewrite Hrow. simpl.
      apply list_lookup_insert_ne. congruence.
    + by rewrite list_lookup_insert_ne.
Qed.

(** ** CIGAR strings *)

Section cigar.
Import Cigar.

Lemma zip_take_min {A B} (a : list A) (b : list B) :
  zip a b = zip (take (length a `min` length b) a) (take (length a `min` length b) b).
Proof.
  revert b. induction a as [|x a IH]; intros [|y b]; simpl; try done.
  f_equal. apply IH.
Qed.

(** C10. [calculate_cigar] is a total function of any two strings, and on
    strings of unequal length it reads only the columns both have:
    [calculate_cigar(a, b) = calculate_cigar(a[:m], b[:m])] for
    [m = min(len(a), len(b))]. *)
Theorem calculate_cigar_truncates (a b : str) :
  let m := Z.of_nat (length a `min` length b) in
  calculate_cigar a b = calculate_cigar (py_slice a 0 m) (py_slice b 0 m).
Proof.
  intros m. unfold m. rewrite !py_slice_prefix.
  unfold calculate_cigar, cigar_pieces, scan. by rewrite <- zip_take_min.
Qed.

Lemma to_uint_nonnil (n : nat) : Nat.to_uint n ≠ Decimal.Nil.
Proof.
  intros H. pose proof (Unsigned.to_of (Nat.to_uint n)) as E.
  rewrite Unsigned.of_to, H in E. discriminate.
Qed.

Lemma cigar_runs_digits (d : Decimal.uint) (a : nat) (rest : str) :
  cigar_runs_from (Some a) (uint_codes d ++ rest)
  = cigar_runs_from (Some (Nat.of_uint_acc d a)) rest.
Proof.
  revert a. induction d; intros a; simpl; try done;
    rewrite IHd, Nat.tail_mul_spec; do 3 f_equal; lia.
Qed.

Lemma cigar_runs_piece (n op : nat) (rest : str) :
  is_digit op = false →
  cigar_runs_from None (piece n op ++ rest)
  = runs ← cigar_runs_from None rest; Some ((n, op) :: runs).
Proof.
  intros Hop. unfold piece, py_str_of_nat.
  pose proof (to_uint_nonnil n) as Hnil. pose proof (Unsigned.of_to n) as Hn.
  unfold Nat.of_uint in Hn. rewrite <- app_assoc.
  destruct (Nat.to_uint n) as [|d|d|d|d|d|d|d|d|d|d]; try done; simpl in *;
    rewrite cigar_runs_digits; simpl; rewrite Nat.tail_mul_spec in Hn; simpl in Hn;
    rewrite Hn, Hop; done.
Qed.

Lemma cigar_runs_render (runs : list (nat * nat)) :
  Forall (λ r : nat * nat, is_op r.2) runs →
  cigar_runs (concat (render runs)) = Some runs.
Proof.
  unfold cigar_runs. induction 1 as [|[n op] runs Hop _ IH]; simpl; [done|].
  rewrite cigar_runs_piece; [by rewrite IH|].
  simpl in Hop. by destruct Hop as [-> | [-> | ->]].
Qed.

Lemma run_sum_snoc op runs n op' :
  run_sum op (runs ++ [(n, op')]) = (run_sum op runs + (if decide (op' = op) then n else 0))%nat.
Proof.
  unfold run_sum. rewrite filter_app, fmap_app, sum_list_with_app.
  rewrite filter_cons, filter_nil. simpl. destruct (decide (op' = op)); simpl; lia.
Qed.

Lemma render_snoc runs n op : render (runs ++ [(n, op)]) = render runs ++ [piece n op].
Proof. unfold render. by rewrite fmap_app. Qed.

Lemma cigar_inv_flush_match st cols :
  cigar_inv st cols → cigar_inv (flush_match st) cols ∧ match_ (flush_match st) = 0%nat
    ∧ ins (flush_match st) = ins st ∧ del_ (flush_match st) = del_ st.
Proof.
  intros (runs & Hc & Hops & HM & HI & HD). unfold flush_match.
  case_bool_decide; simpl; [|split; [by exists runs|lia]].
  split; [|done]. exists (runs ++ [(match_ st, CH_M)]). simpl.
  rewrite render_snoc, Hc, !run_sum_snoc. split; [done|].
  split; [apply Forall_app; split; [done|]; repeat constructor|].
  repeat match goal with |- context [decide ?P] => destruct (decide P) as [?|?] end;
    try done; lia.
Qed.

Lemma cigar_inv_flush_ins st cols :
  cigar_inv st cols → cigar_inv (flush_ins st) cols ∧ ins (flush_ins st) = 0%nat
    ∧ match_ (flush_ins st) = match_ st ∧ del_ (flush_ins st) = del_ st.
Proof.
  intros (runs & Hc & Hops & HM & HI & HD). unfold flush_ins.
  case_bool_decide; simpl; [|split; [by exists runs|lia]].
  split; [|done]. exists (runs ++ [(ins st, CH_I)]). simpl.
  rewrite render_snoc, Hc, !run_sum_snoc. split; [done|].
  split; [apply Forall_app; split; [done|]; repeat constructor; right; by left|].
  repeat match goal with |- context [decide ?P] => destruct (decide P) as [?|?] end;
    try done; lia.
Qed.

Lemma cigar_inv_flush_del st cols :
  cigar_inv st cols → cigar_inv (flush_del st) cols ∧ del_ (flush_del st) = 0%nat
    ∧ match_ (flush_del st) = match_ st ∧ ins (flush_del st) = ins st.
Proof.
  intros (runs & Hc & Hops & HM & HI & HD). unfold flush_del.
  case_bool_decide; simpl; [|split; [by exists runs|lia]].
  split; [|done]. exists (runs ++ [(del_ st, CH_D)]). simpl.
  rewrite render_snoc, Hc, !run_sum_snoc. split; [done|].
  split; [apply Forall_app; split; [done|]; repeat constructor; right; by right|].
  repeat match goal with |- context [decide ?P] => destruct (decide P) as [?|?] end;
    try done; lia.
Qed.

Lemma cigar_inv_init : cigar_inv init [].
Proof. exists []. by repeat split. Qed.

Lemma length_filter_snoc {A} (P : A → Prop) `{!∀ x, Decision (P x)} (l : list A) (x : A) :
  length (filter P (l ++ [x])) = (length (filter P l) + (if decide (P x) then 1 else 0))%nat.
Proof.
  rewrite filter_app, length_app, filter_cons, filter_nil. by destruct (decide (P x)).
Qed.

Ltac col_cases :=
  unfold col_M, col_I, col_D in *; simpl in *;
  repeat match goal with
         | |- context [decide ?P] => destruct (decide P) as [?|?]
         end;
  simpl in *; first [lia | exfalso; tauto].

Lemma cigar_inv_step st cols col :
  cigar_inv st cols → cigar_inv (step st col) (cols ++ [col]).
Proof.
  intros Hinv. destruct col as [s t]. unfold step.
  destruct (decide (s = DASH)) as [Hs|Hs], (decide (t = DASH)) as [Ht|Ht];
    rewrite ?(bool_decide_eq_true_2 _ Hs), ?(bool_decide_eq_true_2 _ Ht),
            ?(bool_decide_eq_false_2 _ Hs), ?(bool_decide_eq_false_2 _ Ht); simpl.
  - apply cigar_inv_flush_ins in Hinv as [Hinv (Ei & Em & Ed)].
    apply cigar_inv_flush_del in Hinv as [(runs & Hc & Hops & HM & HI & HD) (Ed' & Em' & Ei')].
    exists runs. simpl. rewrite !length_filter_snoc.
    repeat split; try done; col_cases.
  - apply cigar_inv_flush_match in Hinv as [(runs & Hc & Hops & HM & HI & HD) (E & ? & ?)].
    exists runs. simpl. rewrite !length_filter_snoc.
    repeat split; try done; col_cases.
  - apply cigar_inv_flush_match in Hinv as [(runs & Hc & Hops & HM & HI & HD) (E & ? & ?)].
    exists runs. simpl. rewrite !length_filter_snoc.
    repeat split; try done; col_cases.
  - apply cigar_inv_flush_ins in Hinv as [Hinv (Ei & Em & Ed)].
    apply cigar_inv_flush_del in Hinv as [(runs & Hc & Hops & HM & HI & HD) (Ed' & Em' & Ei')].
    exists runs. simpl. rewrite !length_filter_snoc.
    repeat split; try done; col_cases.
Qed.

Lemma cigar_inv_scan_from cols st seen :
  cigar_inv st seen → cigar_inv (fold_left step cols st) (seen ++ cols).
Proof.
  revert st seen. induction cols as [|col cols IH]; intros st seen Hinv; simpl.
  - by rewrite app_nil_r.
  - rewrite (assoc_L _ seen [col] cols : seen ++ col :: cols = (seen ++ [col]) ++ cols).
    by apply IH, cigar_inv_step.
Qed.

Lemma run_sum_cons op n op' runs :
  run_sum op ((n, op') :: runs) = ((if decide (op' = op) then n else 0) + run_sum op runs)%nat.
Proof. unfold run_sum. rewrite filter_cons. simpl. by destruct (decide (op' = op)). Qed.

Lemma run_total_ops (runs : list (nat * nat)) :
  Forall (λ r : nat * nat, is_op r.2) runs →
  run_total runs = (run_sum CH_M runs + run_sum CH_I runs + run_sum CH_D runs)%nat.
Proof.
  induction 1 as [|[n op] runs Hop _ IH]; [done|].
  rewrite !run_sum_cons. change (run_total ((n, op) :: runs)) with (n + run_total runs)%nat.
  rewrite IH. simpl in Hop.
  destruct Hop as [-> | [-> | ->]];
    repeat match goal with |- context [decide ?P] => destruct (decide P) as [?|?] end;
    try done; lia.
Qed.

(** The CIGAR string of any two strings reads back as runs over M, I, D
    that count the columns of each class. *)
Lemma calculate_cigar_runs (a b : str) :
  ∃ runs, cigar_runs (calculate_cigar a b) = Some runs
    ∧ run_total runs = (run_sum CH_M runs + run_sum CH_I runs + run_sum CH_D runs)%nat
    ∧ run_sum CH_M runs = length (filter col_M (zip a b))
    ∧ run_sum CH_I runs = length (filter col_I (zip a b))
    ∧ run_sum CH_D runs = length (filter col_D (zip a b)).
Proof.
  pose proof (cigar_inv_scan_from (zip a b) init [] cigar_inv_init) as Hinv.
  rewrite app_nil_l in Hinv. fold (scan a b) in Hinv.
  apply cigar_inv_flush_match in Hinv as [Hinv (Em & Ei & Ed)].
  apply cigar_inv_flush_ins in Hinv as [Hinv (Ei' & Em' & Ed')].
  apply cigar_inv_flush_del in Hinv as [(runs & Hc & Hops & HM & HI & HD) (Ed'' & Em'' & Ei'')].
  exists runs. unfold calculate_cigar, cigar_pieces, finish. rewrite Hc.
  split; [by apply cigar_runs_render|].
  split; [by apply run_total_ops|lia].
Qed.

Lemma col_classes (cols : list (nat * nat)) :
  (length (filter col_M cols) + length (filter col_I cols) + length (filter col_D cols)
   = length cols)%nat.
Proof.
  induction cols as [|col cols IH]; [done|].
  rewrite !filter_cons. col_cases.
Qed.

Lemma strip_gaps_fst (a b : str) :
  length a = length b → no_double_gap a b →
  length (strip_gaps a)
  = (length (filter col_M (zip a b)) + length (filter col_I (zip a b)))%nat.
Proof.
  revert b. induction a as [|x a IH]; intros [|y b] Hlen Hng; simplify_eq/=; [done|].
  apply Forall_cons in Hng as [Hxy Hng]. simpl in Hxy.
  unfold strip_gaps in *. rewrite !filter_cons.
  specialize (IH b Hlen Hng). col_cases.
Qed.

Lemma strip_gaps_snd (a b : str) :
  length a = length b → no_double_gap a b →
  length (strip_gaps b)
  = (length (filter col_M (zip a b)) + length (filter col_D (zip a b)))%nat.
Proof.
  revert b. induction a as [|x a IH]; intros [|y b] Hlen Hng; simplify_eq/=; [done|].
  apply Forall_cons in Hng as [Hxy Hng]. simpl in Hxy.
  unfold strip_gaps in *. rewrite !filter_cons.
  specialize (IH b Hlen Hng). col_cases.
Qed.

(** C8, as the code has it. For aligned strings of equal length with no
    gap-gap column, the CIGAR string reads back as runs whose lengths sum
    to the alignment length; the M and D runs sum to the length of the
    SECOND string without its gaps, the M and I runs to that of the FIRST:
    a gap in the first string is a D, a gap in the second an I. *)
Theorem calculate_cigar_sums (a b : str) :
  length a = length b → no_double_gap a b →
  ∃ runs, cigar_runs (calculate_cigar a b) = Some runs
    ∧ run_total runs = length a
    ∧ (run_sum CH_M runs + run_sum CH_D runs)%nat = length (strip_gaps b)
    ∧ (run_sum CH_M runs + run_sum CH_I runs)%nat = length (strip_gaps a).
Proof.
  intros Hlen Hng.
  destruct (calculate_cigar_runs a b) as (runs & Hruns & Htot & HM & HI & HD).
  exists runs. split; [done|].
  rewrite (strip_gaps_fst a b), (strip_gaps_snd a b) by done.
  pose proof (col_classes (zip a b)) as Hcl.
  rewrite length_zip_with in Hcl. lia.
Qed.

Lemma calculate_cigar_sums_witness :
  ∃ runs, cigar_runs (calculate_cigar (py "AC-T") (py "A-GT")) = Some runs
    ∧ run_total runs = 4%nat
    ∧ (run_sum CH_M runs + run_sum CH_D runs)%nat = 3%nat
    ∧ (run_sum CH_M runs + run_sum CH_I runs)%nat = 3%nat.
Proof.
  apply (calculate_cigar_sums (py "AC-T") (py "A-GT")).
  - reflexivity.
  - repeat constructor; simpl; intros [? ?]; discriminate.
Defined.

(** C8, as the specification states it, fails: for ["-A"] against ["CA"]
    the CIGAR string is ["1D1M"], whose M and D runs sum to 2, while the
    first string without its gap has length 1. *)
Lemma calculate_cigar_sums_counterexample :
  let a := py "-A" in
  let b := py "CA" in
  length a = length b ∧ no_double_gap a b
  ∧ calculate_cigar a b = py "1D1M"
  ∧ cigar_runs (calculate_cigar a b) = Some [(1%nat, CH_D); (1%nat, CH_M)]
  ∧ ¬ ∃ runs, cigar_runs (calculate_cigar a b) = Some runs
        ∧ (run_sum CH_M runs + run_sum CH_D runs)%nat = length (strip_gaps a).
Proof.
  repeat split.
  - repeat constructor; simpl; intros [? ?]; discriminate.
  - intros (runs & Hruns & Hsum). vm_compute in Hruns. injection Hruns as <-.
    vm_compute in Hsum. discriminate.
Qed.

End cigar.

(** ** Banded alignment *)

Lemma max3_diag_fin (x y : score) (z : Z) : ∃ z', max3 x y (Fin z) = Fin z'.
Proof.
  unfold max3, score_max.
  destruct (score_max x y) eqn:E; unfold score_max in E; rewrite E; simpl; [by eexists|].
  case_bool_decide; by eexists.
Qed.

Lemma float_ok_opp d : float_ok d → float_ok (- d).
Proof. unfold float_ok. by rewrite Z.abs_opp. Qed.

Lemma py_sub_ok x d : float_ok d → py_sub x d = Some (score_add x (- d)).
Proof. intros Hd. destruct x; simpl; [by rewrite bool_decide_eq_true_2|done]. Qed.

Lemma py_add_ok x d : float_ok d → py_add x d = Some (score_add x d).
Proof. intros Hd. destruct x; simpl; [by rewrite bool_decide_eq_true_2|done]. Qed.

Section banded.
Context (mr mmp indp bp : Z) (s t : str).
Hypothesis Hfl : float_ok indp.
Import Banded.

Local Abbreviation n := (length s).
Local Abbreviation m := (length t).

Lemma cells_ok_write l l' i j w :
  cells_ok bp n m i j l →
  entry l' i j = Some w →
  (∀ a c, (a, c) ≠ (i, j) → entry l' a c = entry l a c) →
  (in_region bp i j → ∃ z, w = Fin z) →
  (¬ in_region bp i j → w = NegInf) →
  cells_ok bp n m i (S j) l'.
Proof.
  intros Hok Hw Hother Hin Hout a c Ha Hc.
  destruct (decide ((a, c) = (i, j))) as [[= -> ->]|Hne].
  - rewrite Hw. split.
    + intros [_ Hreg]. destruct (Hin Hreg) as [z ->]. by exists z.
    + intros Hn. f_equal. apply Hout. intros Hreg. apply Hn. split; [|done].
      right. lia.
  - rewrite (Hother _ _ Hne). destruct (Hok a c Ha Hc) as [H1 H2]. split.
    + intros [Hv Hreg]. apply H1. split; [|done].
      destruct Hv as [?|[-> ?]]; [by left|]. right. split; [done|].
      assert (c ≠ j) by congruence. lia.
    + intros Hn. apply H2. intros [Hv Hreg]. apply Hn. split; [|done].
      destruct Hv as [?|[-> ?]]; [by left|]. right. lia.
Qed.

Lemma cells_ok_skip l i j :
  cells_ok bp n m i j l → (i ≤ n)%nat → (j ≤ m)%nat → ¬ in_region bp i j →
  cells_ok bp n m i (S j) l.
Proof.
  intros Hok Hi Hj Hout.
  apply (cells_ok_write l l i j NegInf); try done.
  apply (Hok i j Hi Hj). intros [_ ?]. done.
Qed.

Lemma cells_ok_next_row l i :
  cells_ok bp n m i (S m) l → cells_ok bp n m (S i) 0 l.
Proof.
  intros Hok a c Ha Hc. destruct (Hok a c Ha Hc) as [H1 H2].
  assert (visited a c i (S m) ↔ visited a c (S i) 0) as Hv by (unfold visited; lia).
  split.
  - intros [? ?]. apply H1. by rewrite Hv.
  - intros Hn. apply H2. by rewrite Hv.
Qed.

Lemma cell_bt_inv i j lb :
  (i ≤ n)%nat → (j ≤ m)%nat → bt_inv bp n m i j lb →
  ∃ lb', cell_bt mr mmp indp bp s t i j lb = Some lb' ∧ bt_inv bp n m i (S j) lb'.
Proof.
  intros Hi Hj. destruct lb as [l b]. intros (Hl & Hb & Hok). simpl in *.
  unfold cell_bt.
  destruct (decide (i = 0%nat)) as [->|Hi0].
  { (* first row *)
    rewrite (bool_decide_eq_true_2 (0 = 0)%nat) by done. simpl.
    assert (∃ l1, (if bool_decide (j = 0%nat) then mset l (Z.of_nat 0) (Z.of_nat j) (Fin 0) else Some l)
                  = Some l1
                  ∧ has_dims l1 (n + 1) (m + 1)
                  ∧ ∀ a c, (a, c) ≠ (0%nat, j) → entry l1 a c = entry l a c) as (l1 & E1 & Hl1 & Hsame1).
    { case_bool_decide as Hj0; [|by exists l]. subst j.
      destruct (mset_entry l (n + 1) (m + 1) 0 0 (Fin 0)) as (l1 & E & ? & ? & ?); [done|lia|lia|].
      by exists l1. }
    rewrite E1. simpl.
    destruct (mset_entry l1 (n + 1) (m + 1) 0 j (Fin (Z.of_nat j * - indp)))
      as (l2 & E2 & Hl2 & Hw & Hsame2); [done|lia|lia|].
    rewrite E2. simpl.
    eexists. split; [done|]. split; [done|]. split; [done|]. simpl.
    apply (cells_ok_write l l2 0 j (Fin (Z.of_nat j * - indp))); try done.
    - intros a c Hne. rewrite Hsame2 by done. by apply Hsame1.
    - by eexists.
    - intros Hn. exfalso. apply Hn. by left. }
  rewrite (bool_decide_eq_false_2 (i = 0%nat)) by done. simpl.
  destruct (decide (j = 0%nat)) as [->|Hj0].
  { (* first column *)
    rewrite (bool_decide_eq_true_2 (0 = 0)%nat) by done.
    destruct (mset_entry l (n + 1) (m + 1) i 0 (Fin (Z.of_nat i * - indp)))
      as (l2 & E2 & Hl2 & Hw & Hsame2); [done|lia|lia|].
    rewrite E2. simpl.
    eexists. split; [done|]. split; [done|]. split; [done|]. simpl.
    apply (cells_ok_write l l2 i 0 (Fin (Z.of_nat i * - indp))); try done.
    - by eexists.
    - intros Hn. exfalso. apply Hn. right. by left. }
  rewrite (bool_decide_eq_false_2 (j = 0%nat)) by done.
  case_bool_decide as Hband.
  2:{ (* outside the band *)
    exists (l, b). split; [done|]. split; [done|]. split; [done|]. simpl.
    apply cells_ok_skip; try done. unfold in_region. lia. }
  (* inside the band *)
  rewrite !py_get_pred by lia.
  destruct (lookup_lt_is_Some_2 s (i - 1)) as [si ->]; [lia|].
  destruct (lookup_lt_is_Some_2 t (j - 1)) as [tj ->]; [lia|]. simpl.
  replace (Z.of_nat i - 1) with (Z.of_nat (i - 1)) by lia.
  replace (Z.of_nat j - 1) with (Z.of_nat (j - 1)) by lia.
  rewrite !mget_entry.
  destruct (entry_is_Some l (n + 1) (m + 1) (i - 1) j) as [up ->]; [done|lia|lia|].
  destruct (entry_is_Some l (n + 1) (m + 1) i (j - 1)) as [left ->]; [done|lia|lia|].
  destruct (Hok (i - 1)%nat (j - 1)%nat) as [[z Hdiag] _]; [lia|lia| |].
  { split; [left; lia|]. unfold in_region.
    destruct (decide (i = 1%nat)); [left; lia|].
    destruct (decide (j = 1%nat)); [right; left; lia|]. right. right. lia. }
  rewrite Hdiag. cbn [mbind option_bind].
  rewrite !py_sub_ok by done. cbn [mbind option_bind py_add].
  set (match_ := if bool_decide (si = tj) then mr else - mmp).
  set (v := max3 _ _ _).
  destruct (max3_diag_fin (score_add up (- indp)) (score_add left (- indp)) (z + match_))
    as [z' Hv]. fold v in Hv.
  destruct (mset_entry l (n + 1) (m + 1) i j v) as (l2 & E2 & Hl2 & Hw & Hsame2);
    [done|lia|lia|].
  rewrite E2. simpl.
  assert (cells_ok bp n m i (S j) l2) as Hok2.
  { apply (cells_ok_write l l2 i j v); try done.
    - intros _. by exists z'.
    - intros Hn. exfalso. apply Hn. right. by right. }
  assert (∀ p, ∃ b', mset b (Z.of_nat (i - 1)) (Z.of_nat (j - 1)) p = Some b' ∧ has_dims b' n m)
    as Hbset.
  { intros p. destruct (mset_entry b n m (i - 1) (j - 1) p) as (b' & E & ? & _);
      [done|lia|lia|]. by exists b'. }
  repeat case_bool_decide;
    try (match goal with |- context [mset b _ _ ?p] => destruct (Hbset p) as (b' & -> & Hb') end;
         simpl; eexists; split; [done|]; by split);
    (eexists; split; [done|]; by split).
Qed.

Lemma fill_bt_inv :
  ∃ l b, matrices_bt mr mmp indp bp s t = Some (l, b) ∧ bt_inv bp n m (S n) 0 (l, b).
Proof.
  unfold matrices_bt, fill_bt.
  destruct (for_each_seq_inv (λ i, bt_inv bp n m i 0)
              (λ i, for_each (λ j, cell_bt mr mmp indp bp s t i j) (seq 0 (m + 1)))
              0 (n + 1)
              (replicate (n + 1) (replicate (m + 1) NegInf), replicate n (replicate m None)))
    as ([l b] & E & Hinv).
  - split; [apply has_dims_replicate|]. split; [apply has_dims_replicate|].
    intros a c Ha Hc. simpl. split.
    + intros [Hv _]. unfold visited in Hv. lia.
    + intros _. apply entry_replicate; lia.
  - intros i lb Hi Hinv.
    destruct (for_each_seq_inv (λ j, bt_inv bp n m i j)
                (λ j, cell_bt mr mmp indp bp s t i j) 0 (m + 1) lb) as (lb' & E & Hinv').
    + done.
    + intros j st Hj. apply cell_bt_inv; lia.
    + exists lb'. split; [done|]. destruct Hinv' as (? & ? & Hok).
      split; [done|]. split; [done|]. apply cells_ok_next_row.
      by replace (S m) with (0 + (m + 1))%nat by lia.
  - exists l, b. split; [done|]. by replace (S n) with (0 + (n + 1))%nat by lia.
Qed.

Lemma backtrack_unfold b i j :
  backtrack_walk bp s t b (S i) (S j) =
    p ← mget b (Z.of_nat i) (Z.of_nat j);
    if bool_decide (p = Some P_d) && bool_decide (Z.abs (Z.of_nat j - Z.of_nat i) < bp) then
      '(s_prime, t_prime) ← backtrack_walk bp s t b i (S j);
      si ← py_get s (Z.of_nat i);
      Some (s_prime ++ [si], t_prime ++ [DASH])
    else if bool_decide (p = Some P_r) && bool_decide (Z.abs (Z.of_nat j - Z.of_nat i) < bp) then
      '(s_prime, t_prime) ← backtrack_walk bp s t b (S i) j;
      tj ← py_get t (Z.of_nat j);
      Some (s_prime ++ [DASH], t_prime ++ [tj])
    else
      '(s_prime, t_prime) ← backtrack_walk bp s t b i j;
      si ← py_get s (Z.of_nat i);
      tj ← py_get t (Z.of_nat j);
      Some (s_prime ++ [si], t_prime ++ [tj]).
Proof. done. Qed.

Lemma backtrack_first_row b j :
  backtrack_walk bp s t b 0 (S j)
  = Some (py_repeat DASH (Z.of_nat (S j)), py_slice t 0 (Z.of_nat (S j))).
Proof. done. Qed.

Lemma backtrack_first_col b i :
  backtrack_walk bp s t b (S i) 0
  = Some (py_slice s 0 (Z.of_nat (S i)), py_repeat DASH (Z.of_nat (S i))).
Proof. done. Qed.

(** With room for [i + j + 1] frames, [backtrack] makes its walk. *)
Lemma backtrack_room room b i j :
  (i + j < room)%nat → backtrack bp s t room b i j = backtrack_walk bp s t b i j.
Proof.
  revert i j. induction room as [|room IH]; intros i j Hroom; [lia|].
  destruct i as [|i], j as [|j]; try done.
  rewrite backtrack_unfold. simpl.
  destruct (mget b (Z.of_nat i) (Z.of_nat j)) as [p|]; [|done]. simpl.
  rewrite !IH by lia. done.
Qed.

(** On the border one frame is enough. *)
Lemma backtrack_room_border room b i j :
  i = 0%nat ∨ j = 0%nat →
  backtrack bp s t (S room) b i j = backtrack_walk bp s t b i j.
Proof. intros [-> | ->]; [by destruct j|by destruct i]. Qed.

Local Arguments backtrack_walk : simpl never.

Lemma strip_gaps_app a b : strip_gaps (a ++ b) = strip_gaps a ++ strip_gaps b.
Proof. apply filter_app. Qed.

Lemma strip_gaps_replicate k : strip_gaps (replicate k DASH) = [].
Proof.
  induction k as [|k IH]; [done|]. simpl. unfold strip_gaps in *.
  rewrite filter_cons. by destruct (decide (DASH ≠ DASH)).
Qed.

Lemma strip_gaps_id a : DASH ∉ a → strip_gaps a = a.
Proof.
  induction a as [|c a IH]; [done|]. intros Hc. apply not_elem_of_cons in Hc as [? ?].
  unfold strip_gaps in *. rewrite filter_cons. destruct (decide (c ≠ DASH)); [|done].
  f_equal. by apply IH.
Qed.

(** What [backtrack] returns from any cell, whatever the pointers say:
    two strings of one length that are the two prefixes with gaps added. *)
Lemma backtrack_aligned b i j :
  has_dims b n m → (i ≤ n)%nat → (j ≤ m)%nat →
  ∃ sa ta, backtrack_walk bp s t b i j = Some (sa, ta)
    ∧ length sa = length ta
    ∧ strip_gaps sa = strip_gaps (take i s)
    ∧ strip_gaps ta = strip_gaps (take j t).
Proof.
  intros Hb. revert j. induction i as [|i IHi]; intros j Hi Hj;
    induction j as [|j IHj].
  - exists [], []. by rewrite !take_0.
  - exists (py_repeat DASH (Z.of_nat (S j))), (py_slice t 0 (Z.of_nat (S j))).
    split; [done|]. rewrite py_slice_prefix. unfold py_repeat. rewrite Nat2Z.id.
    rewrite length_replicate, length_take, strip_gaps_replicate, take_0.
    split; [lia|done].
  - exists (py_slice s 0 (Z.of_nat (S i))), (py_repeat DASH (Z.of_nat (S i))).
    split; [done|]. rewrite py_slice_prefix. unfold py_repeat. rewrite Nat2Z.id.
    rewrite length_replicate, length_take, strip_gaps_replicate, take_0.
    split; [lia|done].
  - rewrite backtrack_unfold, mget_entry.
    destruct (entry_is_Some b n m i j) as [p ->]; [done|lia|lia|]. simpl.
    rewrite !py_get_nat.
    destruct (lookup_lt_is_Some_2 s i) as [si Hsi]; [lia|].
    destruct (lookup_lt_is_Some_2 t j) as [tj Htj]; [lia|].
    rewrite Hsi, Htj.
    rewrite (take_S_r s i si), (take_S_r t j tj) by done.
    destruct (bool_decide (p = Some P_d) && _);
      [|destruct (bool_decide (p = Some P_r) && _)].
    + destruct (IHi (S j)) as (sa & ta & -> & Hlen & Hs & Ht); [lia|lia|]. simpl.
      exists (sa ++ [si]), (ta ++ [DASH]). split; [done|].
      rewrite !length_app, !strip_gaps_app, Hs, Ht, Hlen.
      rewrite (take_S_r t j tj), strip_gaps_app by done.
      change (strip_gaps [DASH]) with (@nil nat). by rewrite app_nil_r.
    + destruct IHj as (sa & ta & -> & Hlen & Hs & Ht); [lia|]. simpl.
      exists (sa ++ [DASH]), (ta ++ [tj]). split; [done|].
      rewrite !length_app, !strip_gaps_app, Hs, Ht, Hlen.
      rewrite (take_S_r s i si), strip_gaps_app by done.
      change (strip_gaps [DASH]) with (@nil nat). by rewrite app_nil_r.
    + destruct (IHi j) as (sa & ta & -> & Hlen & Hs & Ht); [lia|lia|]. simpl.
      exists (sa ++ [si]), (ta ++ [tj]). split; [done|].
      by rewrite !length_app, !strip_gaps_app, Hs, Ht, Hlen.
Qed.

(** From a cell outside the band, [backtrack] walks the diagonal. *)
Lemma backtrack_outside b i j :
  has_dims b n m → (i ≤ n)%nat → (j ≤ m)%nat →
  ¬ Z.abs (Z.of_nat j - Z.of_nat i) < bp →
  backtrack_walk bp s t b i j
  = Some (pad_left (j - i) (take i s), pad_left (i - j) (take j t)).
Proof.
  intros Hb. revert j. induction i as [|i IHi]; intros [|j] Hi Hj Hout.
  - done.
  - rewrite backtrack_first_row, py_slice_prefix. unfold py_repeat, pad_left.
    rewrite Nat2Z.id. by rewrite take_0, app_nil_r.
  - rewrite backtrack_first_col, py_slice_prefix. unfold py_repeat, pad_left.
    rewrite Nat2Z.id. by rewrite take_0, app_nil_r.
  - rewrite backtrack_unfold, mget_entry.
    destruct (entry_is_Some b n m i j) as [p ->]; [done|lia|lia|]. simpl.
    rewrite (bool_decide_eq_false_2 (Z.abs _ < bp)) by lia.
    rewrite !andb_false_r.
    rewrite IHi by lia. simpl. rewrite !py_get_nat.
    destruct (lookup_lt_is_Some_2 s i) as [si Hsi]; [lia|].
    destruct (lookup_lt_is_Some_2 t j) as [tj Htj]; [lia|].
    rewrite Hsi, Htj. simpl.
    rewrite (take_S_r s i si), (take_S_r t j tj) by done.
    unfold pad_left. by rewrite <- !app_assoc.
Qed.

(** With room on the stack, [BandedAlignmentWithBackTrack] returns what the
    walk finds. *)
Lemma BandedAlignmentWithBackTrack_room frames :
  (frames + n + m + 1 < recursion_limit)%nat →
  BandedAlignmentWithBackTrack mr mmp indp bp s t frames = aligned_walk mr mmp indp bp s t.
Proof.
  intros Hroom. unfold BandedAlignmentWithBackTrack, aligned_walk.
  rewrite bool_decide_eq_false_2 by lia.
  destruct (matrices_bt mr mmp indp bp s t) as [[l b]|]; [|done]. simpl.
  rewrite backtrack_room by lia. done.
Qed.

(** When the indel penalty fits a float, the walk returns, and its aligned
    strings carry the inputs' characters. *)
Lemma aligned_walk_aligned :
  ∃ sc sa ta, aligned_walk mr mmp indp bp s t = Some (sc, sa, ta)
    ∧ length sa = length ta
    ∧ strip_gaps sa = strip_gaps s
    ∧ strip_gaps ta = strip_gaps t.
Proof.
  destruct fill_bt_inv as (l & b & E & Hl & Hb & Hok). simpl in *.
  unfold aligned_walk. rewrite E. simpl.
  destruct (backtrack_aligned b n m) as (sa & ta & -> & Hlen & Hs & Ht); [done|lia|lia|].
  simpl. rewrite mget_entry.
  destruct (entry_is_Some l (n + 1) (m + 1) n m) as [sc ->]; [done|lia|lia|]. simpl.
  exists sc, sa, ta. rewrite firstn_all in Hs, Ht. done.
Qed.

End banded.

Lemma not_elem_of_py (c : nat) (l : str) : bool_decide (c ∈ l) = false → c ∉ l.
Proof. intros H Hc. by rewrite bool_decide_eq_true_2 in H. Qed.

(** C7, as the code has it. For strings [s] and [t] that do not themselves
    contain ['-'], an indel penalty that fits a float, and a stack on which
    the limit of 1500 frames leaves room for [len(s) + len(t) + 1] calls of
    [backtrack] and one frame to spare, [BandedAlignmentWithBackTrack]
    returns; its two aligned strings have equal length, and removing every
    ['-'] from them gives back [s] and [t]. *)
Theorem BandedAlignmentWithBackTrack_strips (mr mmp indp bp : Z) (s t : str) (frames : nat) :
  DASH ∉ s → DASH ∉ t →
  float_ok indp →
  (frames + length s + length t + 1 < recursion_limit)%nat →
  ∃ sc sa ta,
    Banded.BandedAlignmentWithBackTrack mr mmp indp bp s t frames = Some (sc, sa, ta)
    ∧ length sa = length ta
    ∧ strip_gaps sa = s
    ∧ strip_gaps ta = t.
Proof.
  intros Hs Ht Hfl Hroom. rewrite BandedAlignmentWithBackTrack_room by done.
  destruct (aligned_walk_aligned mr mmp indp bp s t Hfl)
    as (sc & sa & ta & E & Hlen & Hsa & Hta).
  exists sc, sa, ta. by rewrite Hsa, Hta, !strip_gaps_id.
Qed.

Lemma BandedAlignmentWithBackTrack_strips_witness :
  ∃ sc sa ta,
    Banded.BandedAlignmentWithBackTrack 1 1 1 3 (py "ACGTTACGT") (py "ACGTACGT") 2
    = Some (sc, sa, ta)
    ∧ length sa = length ta
    ∧ strip_gaps sa = py "ACGTTACGT"
    ∧ strip_gaps ta = py "ACGTACGT".
Proof.
  apply (BandedAlignmentWithBackTrack_strips 1 1 1 3 (py "ACGTTACGT") (py "ACGTACGT") 2).
  - by apply not_elem_of_py.
  - by apply not_elem_of_py.
  - by vm_compute.
  - vm_compute. lia.
Defined.

(** C7, as the specification states it for all strings and all parameters,
    fails in three ways. An input that contains ['-']: the string ["-"]
    aligned with the empty string comes back as ["-"] over ["-"], and
    removing the gaps leaves nothing. A long input: for 1600 times ["A"]
    against ["A"], from a stack of two frames, [backtrack] needs more frames
    than the limit of 1500 grants, and the call raises. A penalty beyond the
    floats: with an indel penalty of [10^400] and band width 1, ["AA"]
    against itself raises when the penalty is taken from the
    [float('-inf')] of a cell outside the band. *)
Lemma BandedAlignmentWithBackTrack_strips_counterexample :
  Banded.BandedAlignmentWithBackTrack 1 1 1 1 (py "-") (py "") 2
    = Some (Fin (-1), py "-", py "-")
  ∧ strip_gaps (py "-") ≠ py "-"
  ∧ Banded.BandedAlignmentWithBackTrack 1 1 1 5000 (replicate 1600 65%nat) (py "A") 2 = None
  ∧ Banded.BandedAlignmentWithBackTrack 1 1 (10 ^ 400) 1 (py "AA") (py "AA") 2 = None.
Proof.
  split; [reflexivity|]. split; [discriminate|]. split; by vm_compute.
Qed.

(** C9, as the code has it. With an indel penalty that fits a float and a
    stack on which the limit of 1500 frames leaves room for
    [len(s) + len(t) + 1] calls of [backtrack] and one frame to spare: when
    the corner cell of the score matrix is minus infinity,
    [BandedAlignmentWithBackTrack] returns that score with the alignment
    along the diagonal: the shorter string pushed right by gaps, the longer
    one unchanged; not two empty strings. *)
Theorem BandedAlignmentWithBackTrack_outside (mr mmp indp bp : Z) (s t : str) (frames : nat)
    (l : list (list score)) (b : list (list (option ptr))) :
  float_ok indp →
  (frames + length s + length t + 1 < recursion_limit)%nat →
  Banded.matrices_bt mr mmp indp bp s t = Some (l, b) →
  mget l (Z.of_nat (length s)) (Z.of_nat (length t)) = Some NegInf →
  Banded.BandedAlignmentWithBackTrack mr mmp indp bp s t frames
  = Some (NegInf, pad_left (length t - length s) s, pad_left (length s - length t) t).
Proof.
  intros Hfl Hroom E Hcorner.
  destruct (fill_bt_inv mr mmp indp bp s t Hfl) as (l' & b' & E' & Hl & Hb & Hok).
  rewrite E in E'. injection E' as <- <-. simpl in *.
  rewrite BandedAlignmentWithBackTrack_room by done.
  unfold aligned_walk. rewrite E. simpl.
  rewrite mget_entry in *.
  assert (¬ in_region bp (length s) (length t)) as Hout.
  { intros Hreg. destruct (Hok (length s) (length t)) as [[z Hz] _]; [lia|lia| |congruence].
    split; [|done]. left. lia. }
  rewrite backtrack_outside; [|done|lia|lia|].
  - simpl. rewrite Hcorner. simpl. by rewrite !firstn_all.
  - intros ?. apply Hout. right. by right.
Qed.

Lemma BandedAlignmentWithBackTrack_outside_witness :
  Banded.BandedAlignmentWithBackTrack 1 1 1 1 (py "A") (py "AAA") 2
  = Some (NegInf, py "--A", py "AAA").
Proof.
  destruct (Banded.matrices_bt 1 1 1 1 (py "A") (py "AAA")) as [[l b]|] eqn:E;
    [|vm_compute in E; discriminate].
  apply (BandedAlignmentWithBackTrack_outside 1 1 1 1 (py "A") (py "AAA") 2 l b).
  - by vm_compute.
  - vm_compute. lia.
  - exact E.
  - vm_compute in E. injection E as <- <-. reflexivity.
Defined.

(** C9, as the specification states it, fails: for ["A"] against ["AAA"]
    with band width 1, called from a stack of two frames, the corner cell is
    minus infinity, and the function returns the aligned strings ["--A"] and
    ["AAA"], not two empty ones. *)
Lemma BandedAlignmentWithBackTrack_outside_counterexample :
  ∃ l b, Banded.matrices_bt 1 1 1 1 (py "A") (py "AAA") = Some (l, b)
    ∧ mget l 1 3 = Some NegInf
    ∧ Banded.BandedAlignmentWithBackTrack 1 1 1 1 (py "A") (py "AAA") 2
      = Some (NegInf, py "--A", py "AAA")
    ∧ Banded.BandedAlignmentWithBackTrack 1 1 1 1 (py "A") (py "AAA") 2
      ≠ Some (NegInf, [], []).
Proof.
  eexists _, _. split; [vm_compute; reflexivity|]. split; [reflexivity|].
  split; [reflexivity|discriminate].
Qed.

(** With room on the stack for the backtrace of a window of at most
    [read_length] characters, [compute_max_seed] returns what the walk
    finds. *)
Lemma compute_max_seed_room (ref read : str) (mr mmp indp bw read_length : Z)
    (seed_idxes : list (list Z)) (frames : nat) :
  0 ≤ read_length →
  (frames + Z.to_nat read_length + length read + 2 < recursion_limit)%nat →
  Seed.compute_max_seed ref read mr mmp indp bw read_length seed_idxes frames
  = max_seed_walk ref read mr mmp indp bw read_length seed_idxes.
Proof.
  intros Hlen Hroom. unfold Seed.compute_max_seed, max_seed_walk.
  case_bool_decide; [done|].
  destruct (Seed.scan _ _ _ _ _ _ _ _ _) as [st|]; [|done]. simpl.
  rewrite BandedAlignmentWithBackTrack_room; [done|].
  pose proof (py_slice_length ref (Seed.best_idx st - Seed.best_seed st) read_length Hlen).
  lia.
Qed.

(** C5 fails on the code. With band width 1, ["A"] against ["C"] scores -5
    in [banded_alignment], whose border cells outside the band stay at minus
    infinity, and -2 in [BandedAlignmentWithBackTrack], which fills the
    whole border; [compute_max_seed] then reports -5 next to an alignment
    made of two gaps. This holds from every depth of the stack that leaves
    the backtrace its frames. *)
Theorem banded_engines_disagree (frames : nat) :
  (frames + 4 < recursion_limit)%nat →
  Banded.banded_alignment 1 5 1 1 (py "A") (py "C") = Some (Fin (-5))
  ∧ Banded.BandedAlignmentWithBackTrack 1 5 1 1 (py "A") (py "C") frames
    = Some (Fin (-2), py "-A", py "C-")
  ∧ Seed.compute_max_seed (py "A") (py "C") 1 5 1 1 1 [[0]] frames
    = Some (Seed.Tuple 0 (Fin (-5)) (py "-A") (py "C-")).
Proof.
  intros Hroom. split; [reflexivity|]. split.
  - rewrite BandedAlignmentWithBackTrack_room; [reflexivity|]. simpl. lia.
  - rewrite compute_max_seed_room; [reflexivity|lia|]. simpl. lia.
Qed.

Lemma banded_engines_disagree_witness :
  Banded.banded_alignment 1 5 1 1 (py "A") (py "C") = Some (Fin (-5))
  ∧ Banded.BandedAlignmentWithBackTrack 1 5 1 1 (py "A") (py "C") 2
    = Some (Fin (-2), py "-A", py "C-")
  ∧ Seed.compute_max_seed (py "A") (py "C") 1 5 1 1 1 [[0]] 2
    = Some (Seed.Tuple 0 (Fin (-5)) (py "-A") (py "C-")).
Proof. apply (banded_engines_disagree 2). vm_compute. lia. Defined.

(** ** Seed extension *)

(** C3 fails on the code. Only the empty seed list is answered with
    [None]; a list of empty position lists runs the backtrace on
    [ref[0:read_length]] and returns the tuple [(-1, -inf, ...)], from every
    depth of the stack that leaves the backtrace its frames. *)
Theorem compute_max_seed_no_hits (frames : nat) :
  (frames + 10 < recursion_limit)%nat →
  Seed.compute_max_seed (py "AAAA") (py "GGGG") 1 1 1 3 4 [] frames = Some Seed.PyNone
  ∧ Seed.compute_max_seed (py "AAAA") (py "GGGG") 1 1 1 3 4 [[]; []; []] frames
    = Some (Seed.Tuple (-1) NegInf (py "AAAA") (py "GGGG")).
Proof.
  intros Hroom. split; [reflexivity|].
  rewrite compute_max_seed_room; [reflexivity|lia|]. simpl. lia.
Qed.

Lemma compute_max_seed_no_hits_witness :
  Seed.compute_max_seed (py "AAAA") (py "GGGG") 1 1 1 3 4 [] 2 = Some Seed.PyNone
  ∧ Seed.compute_max_seed (py "AAAA") (py "GGGG") 1 1 1 3 4 [[]; []; []] 2
    = Some (Seed.Tuple (-1) NegInf (py "AAAA") (py "GGGG")).
Proof. apply (compute_max_seed_no_hits 2). vm_compute. lia. Defined.

Section seed.
Context (ref read : str) (mr mmp indp bw read_length : Z).
Import Seed.

Local Abbreviation candidate := (Seed.candidate ref read mr mmp indp bw read_length).
Local Abbreviation scan := (Seed.scan ref read mr mmp indp bw read_length).
Local Abbreviation scan_from := (scan_from ref read mr mmp indp bw read_length).

Lemma scan_rows_from (before rows : list (list Z)) (st : best) :
  for_each (λ i st, row ← (before ++ rows) !! i; for_each (candidate i) row st)
           (seq (length before) (length rows)) st
  = scan_from (length before) rows st.
Proof.
  revert before st. induction rows as [|row rows IH]; intros before st; simpl; [done|].
  rewrite list_lookup_middle by done. simpl.
  destruct (for_each _ row st) as [st'|]; simpl; [|done].
  specialize (IH (before ++ [row]) st').
  rewrite <- app_assoc, length_app in IH. simpl in IH.
  by rewrite Nat.add_1_r in IH.
Qed.

Lemma scan_is_scan_from (seed_idxes : list (list Z)) (st : best) :
  scan seed_idxes st = scan_from 0 seed_idxes st.
Proof. apply (scan_rows_from [] seed_idxes st). Qed.

End seed.


(** ** The sampled suffix array *)

Lemma sample_rows_lookup (sa : list Z) (k : Z) (rows : list Z) (psa : gmap Z Z) (j : Z) :
  foldl (sample_row sa k) psa rows !! j
  = match sa !! Z.to_nat j with
    | Some v => if bool_decide (j ∈ rows ∧ v `mod` k = 0) then Some v else psa !! j
    | None => psa !! j
    end.
Proof.
  induction rows as [|i rows IH] using rev_ind; simpl.
  - by destruct (sa !! Z.to_nat j).
  - rewrite foldl_app. simpl. unfold sample_row at 1.
    destruct (decide (i = j)) as [->|Hne].
    + destruct (sa !! Z.to_nat j) as [v|] eqn:E; [|done].
      destruct (decide (v `mod` k = 0)) as [Hk|Hk].
      * rewrite (bool_decide_eq_true_2 _ Hk), lookup_insert_eq.
        rewrite bool_decide_eq_true_2; [done|].
        split; [|done]. apply elem_of_app. right. by apply list_elem_of_singleton.
      * rewrite (bool_decide_eq_false_2 _ Hk), IH.
        rewrite !bool_decide_eq_false_2; tauto.
    + assert (foldl (sample_row sa k) psa rows !! j
              = match sa !! Z.to_nat j with
                | Some v => if bool_decide (j ∈ rows ++ [i] ∧ v `mod` k = 0) then Some v
                            else psa !! j
                | None => psa !! j
                end) as <-.
      { rewrite IH. destruct (sa !! Z.to_nat j) as [v|]; [|done].
        erewrite bool_decide_ext; [reflexivity|].
        rewrite elem_of_app, list_elem_of_singleton.
        split; [intros [? ?]; auto|intros [[?|?] ?]; [auto|congruence]]. }
      destruct (sa !! Z.to_nat i) as [v|]; [|done].
      case_bool_decide; [|done]. by rewrite lookup_insert_ne.
Qed.

Lemma partial_suffix_array_fold (sa : list Z) (k : Z) (rows : list Z) (psa : gmap Z Z) :
  k ≠ 0 → Forall (λ i, 0 ≤ i < Z.of_nat (length sa)) rows →
  for_each (FM.psa_step sa k) rows psa = Some (foldl (sample_row sa k) psa rows).
Proof.
  intros Hk Hrows. revert psa. induction Hrows as [|i rows Hi _ IH]; intros psa; simpl; [done|].
  assert (FM.psa_step sa k i psa = Some (sample_row sa k psa i)) as ->; [|apply IH].
  unfold FM.psa_step, sample_row. rewrite py_get_nonneg by lia.
  destruct (lookup_lt_is_Some_2 sa (Z.to_nat i)) as [v ->]; [lia|].
  simpl. rewrite bool_decide_eq_false_2 by done. by case_bool_decide.
Qed.

(** C6. On a permutation [sa] of [0 .. n-1] and a stride [k >= 1], the loop
    of [partial_suffix_array], which reads the entries of [sa] as row
    numbers, builds exactly the intended map: row [i] is present, with value
    [sa[i]], if and only if [sa[i]] is a multiple of [k]. *)
Theorem partial_suffix_array_permutation (sa : list Z) (k : Z) :
  sa ≡ₚ seqZ 0 (Z.of_nat (length sa)) → 1 ≤ k →
  FM.partial_suffix_array sa k = Some (partial_suffix_array_intended sa k).
Proof.
  intros Hperm Hk. unfold FM.partial_suffix_array, partial_suffix_array_intended.
  assert (∀ x, x ∈ sa ↔ x ∈ seqZ 0 (Z.of_nat (length sa))) as Hin.
  { intros x. set (rows := seqZ _ _) in *. by rewrite Hperm. }
  rewrite partial_suffix_array_fold; [|lia|].
  - f_equal. apply map_eq. intros j. rewrite !sample_rows_lookup.
    destruct (sa !! Z.to_nat j) as [v|]; [|done].
    erewrite bool_decide_ext; [reflexivity|]. by rewrite Hin.
  - rewrite Forall_forall. intros i Hi. apply Hin, elem_of_seqZ in Hi. lia.
Qed.

Lemma partial_suffix_array_permutation_witness :
  FM.partial_suffix_array [2; 0; 3; 1] 2 = Some (partial_suffix_array_intended [2; 0; 3; 1] 2).
Proof.
  apply (partial_suffix_array_permutation [2; 0; 3; 1] 2); [|lia].
  apply (Permutation_sym (l := [0; 1; 2; 3])).
  apply (Permutation_trans (l' := [2; 0; 1; 3])).
  - apply (Permutation_trans (l' := [0; 2; 1; 3])); [|apply perm_swap].
    apply perm_skip, perm_swap.
  - do 2 apply perm_skip. apply perm_swap.
Defined.

Lemma py_set_nonneg {A} (l : list A) (i : Z) (v : A) :
  0 ≤ i < Z.of_nat (length l) → py_set l i v = Some (<[Z.to_nat i := v]> l).
Proof. intros. unfold py_set. by rewrite bool_decide_eq_true_2. Qed.

(** ** Suffix array construction *)

Section suffix_array.

Lemma indexes_length n l : indexes n l → length l = n.
Proof.
  intros H. apply Permutation_length in H.
  rewrite length_fmap, length_seqZ in H. lia.
Qed.

Lemma indexes_NoDup n l : indexes n l → NoDup (index <$> l).
Proof. intros H. rewrite H. apply NoDup_seqZ. Qed.

Lemma indexes_range n l i x : indexes n l → l !! i = Some x → 0 ≤ index x < Z.of_nat n.
Proof.
  intros H Hx. assert (index x ∈ index <$> l) as Hin.
  { apply list_elem_of_fmap. exists x. split; [done|]. by eapply list_elem_of_lookup_2. }
  rewrite H in Hin. apply elem_of_seqZ in Hin. lia.
Qed.

Lemma indexes_inj n l i j x y :
  indexes n l → l !! i = Some x → l !! j = Some y → index x = index y → i = j.
Proof.
  intros H Hx Hy Heq. apply (NoDup_lookup (index <$> l) i j (index x)).
  - by eapply indexes_NoDup.
  - by rewrite list_lookup_fmap, Hx.
  - by rewrite list_lookup_fmap, Hy, Heq.
Qed.

Lemma length_dense_from r prev l : length (dense_from r prev l) = length l.
Proof. revert r prev. induction l as [|x l IH]; intros; simpl; [done|]. by rewrite IH. Qed.

Lemma length_dense l : length (dense l) = length l.
Proof. destruct l; simpl; [done|]. by rewrite length_dense_from. Qed.

Lemma dense_from_lookup_0 r prev x l :
  dense_from r prev (x :: l) !! 0%nat
  = Some (if bool_decide (same_key x prev) then r else r + 1).
Proof. done. Qed.

Lemma dense_from_lookup_S r prev l i x y rx :
  (prev :: l) !! i = Some y → l !! i = Some x →
  (r :: dense_from r prev l) !! i = Some rx →
  dense_from r prev l !! i = Some (if bool_decide (same_key x y) then rx else rx + 1).
Proof.
  revert r prev i. induction l as [|z l IH]; intros r prev i Hy Hx Hr; [done|].
  destruct i as [|i]; simpl in *.
  - by simplify_eq.
  - by apply IH.
Qed.

Lemma dense_lookup_0 l x : l !! 0%nat = Some x → dense l !! 0%nat = Some 0.
Proof. by destruct l. Qed.

Lemma dense_lookup_S l i x y ry :
  l !! i = Some y → l !! S i = Some x → dense l !! i = Some ry →
  dense l !! S i = Some (if bool_decide (same_key x y) then ry else ry + 1).
Proof.
  destruct l as [|z l]; [done|]. simpl. intros Hy Hx Hr.
  by eapply dense_from_lookup_S.
Qed.

Lemma length_rerank l : length (rerank l) = length l.
Proof. unfold rerank. rewrite length_zip_with, length_dense. lia. Qed.

Lemma rerank_lookup l i x r :
  l !! i = Some x → dense l !! i = Some r → rerank l !! i = Some (set_rank0 x r).
Proof. intros Hx Hr. unfold rerank. apply lookup_zip_with_Some. by exists x, r. Qed.

Lemma rerank_index l : index <$> rerank l = index <$> l.
Proof.
  apply list_eq. intros i. rewrite !list_lookup_fmap.
  destruct (l !! i) as [x|] eqn:Hx.
  - destruct (lookup_lt_is_Some_2 (dense l) i) as [r Hr].
    { rewrite length_dense. by eapply lookup_lt_Some. }
    by rewrite (rerank_lookup l i x r).
  - rewrite (proj2 (lookup_ge_None (rerank l) i)); [done|].
    rewrite length_rerank. by apply lookup_ge_None.
Qed.


(** *** The first inner loop: new first ranks *)

Lemma rank_first_inv n old ind0 :
  indexes n old → length ind0 = n → (0 < n)%nat →
  ∃ st, rank_first old ind0 = Some st ∧ rank_inv n old 1 st.
Proof.
  intros Hidx Hlen Hn. pose proof (indexes_length _ _ Hidx) as Hlo.
  destruct (lookup_lt_is_Some_2 old 0) as [x0 Hx0]; [lia|].
  pose proof (indexes_range _ _ _ _ Hidx Hx0) as Hr.
  unfold rank_first. rewrite (py_get_nonneg old 0) by lia.
  change (Z.to_nat 0) with 0%nat. rewrite Hx0. simpl.
  rewrite (py_set_nonneg old 0) by lia. simpl.
  rewrite py_set_nonneg by lia. simpl.
  eexists. split; [done|]. split; [|split; [|split; [|split]]]; simpl.
  - rewrite (take_S_r _ 0 (set_rank0 x0 0)).
    + destruct old; simplify_eq/=. done.
    + apply rerank_lookup; [done|]. by eapply dense_lookup_0.
  - by rewrite length_insert.
  - intros a x Ha Hx. assert (a = 0%nat) as -> by lia. simplify_eq.
    apply list_lookup_insert_eq. lia.
  - by exists x0.
  - by eapply dense_lookup_0.
Qed.

Lemma rank_step_inv n old i st :
  indexes n old → (1 ≤ i < n)%nat → rank_inv n old i st →
  ∃ st', rank_step i st = Some st' ∧ rank_inv n old (S i) st'.
Proof.
  intros Hidx Hi (Hs & Hlen & Hind & (y & Hy & Hprev) & Hrank).
  pose proof (indexes_length _ _ Hidx) as Hlo.
  destruct (lookup_lt_is_Some_2 old i) as [x Hx]; [lia|].
  pose proof (indexes_range _ _ _ _ Hidx Hx) as Hr.
  assert (length (take i (rerank old)) = i) as Htake.
  { rewrite length_take, length_rerank. lia. }
  assert (suffixes st !! i = Some x) as Hsx.
  { rewrite Hs, lookup_app_r by lia. rewrite Htake, Nat.sub_diag, lookup_drop.
    by rewrite Nat.add_0_r. }
  assert (∃ ry, rerank old !! (i - 1)%nat = Some (set_rank0 y ry)) as [ry Hry].
  { exists (rank st). by apply rerank_lookup. }
  assert (suffixes st !! (i - 1)%nat = Some (set_rank0 y ry)) as Hsy.
  { rewrite Hs, lookup_app_l by lia. rewrite lookup_take. case_decide; [done|lia]. }
  unfold rank_step. rewrite py_get_nat, Hsx. simpl.
  rewrite py_get_pred by lia. rewrite Hsy. simpl.
  rewrite py_set_nat by (rewrite Hs, length_app, Htake, length_drop; lia). simpl.
  rewrite py_set_nonneg by lia. simpl.
  set (rank' := if bool_decide (rank0 x = prev_rank st) && bool_decide (rank1 x = rank1 y)
                then rank st else rank st + 1).
  assert (dense old !! i = Some rank') as Hdense.
  { replace i with (S (i - 1)) at 1 by lia.
    erewrite dense_lookup_S; [|done|by replace (S (i - 1)) with i by lia|done].
    f_equal. unfold rank'. rewrite Hprev.
    destruct (decide (same_key x y)) as [[? ?]|Hn].
    - rewrite bool_decide_eq_true_2 by done. by rewrite !bool_decide_eq_true_2.
    - rewrite (bool_decide_eq_false_2 (same_key x y)) by done.
      destruct (decide (rank0 x = rank0 y)), (decide (rank1 x = rank1 y));
        rewrite ?bool_decide_eq_true_2, ?bool_decide_eq_false_2 by done; simpl; try done.
      exfalso. by apply Hn. }
  eexists. split; [done|]. split; [|split; [|split; [|split]]]; simpl.
  - rewrite Hs, insert_app_r_alt by lia. rewrite Htake, Nat.sub_diag.
    rewrite (take_S_r _ i (set_rank0 x rank')) by (by apply rerank_lookup).
    rewrite (drop_S old x i Hx). simpl. by rewrite <- app_assoc.
  - by rewrite length_insert.
  - intros a z Ha Hz. destruct (decide (a = i)) as [->|Hne].
    + simplify_eq. apply list_lookup_insert_eq. lia.
    + rewrite list_lookup_insert_ne; [apply Hind; [lia|done]|].
      intros Heq. apply Hne.
      apply (indexes_inj n old a i z x Hidx Hz Hx).
      pose proof (indexes_range _ _ _ _ Hidx Hz). lia.
  - exists x. by rewrite Nat.sub_0_r.
  - by rewrite Nat.sub_0_r.
Qed.


(** *** The second inner loop: new second ranks *)

Lemma indexes_surj n l j :
  indexes n l → 0 ≤ j < Z.of_nat n → ∃ a x, l !! a = Some x ∧ index x = j.
Proof.
  intros H Hj. assert (j ∈ index <$> l) as Hin.
  { rewrite H. apply elem_of_seqZ. lia. }
  apply list_elem_of_fmap in Hin as (x & -> & Hx).
  apply list_elem_of_lookup in Hx as [a Ha]. by exists a, x.
Qed.

Lemma rank_of_lookup l a x :
  NoDup (index <$> l) → l !! a = Some x → rank_of l (index x) = rank0 x.
Proof.
  unfold rank_of. revert a. induction l as [|y l IH]; intros a Hnd Hx; [done|].
  rewrite fmap_cons in Hnd. apply NoDup_cons in Hnd as [Hy Hnd].
  rewrite filter_cons. destruct a as [|a]; simpl in Hx.
  - simplify_eq. by rewrite decide_True.
  - rewrite decide_False; [by eapply IH|].
    intros Heq. apply Hy. rewrite Heq. apply list_elem_of_fmap.
    exists x. split; [done|]. by eapply list_elem_of_lookup_2.
Qed.

Lemma assign_next_lookup n k l i x :
  l !! i = Some x →
  assign_next n k l !! i = Some (set_rank1 x (next_rank n k l (index x))).
Proof. intros Hx. unfold assign_next. by rewrite list_lookup_fmap, Hx. Qed.

Lemma length_assign_next n k l : length (assign_next n k l) = length l.
Proof. unfold assign_next. by rewrite length_fmap. Qed.

Lemma assign_next_index n k l : index <$> assign_next n k l = index <$> l.
Proof. unfold assign_next. rewrite <- list_fmap_compose. by apply list_fmap_ext. Qed.

Lemma next_step_inv n k new ind i :
  indexes n new → length ind = n → 0 ≤ k `div` 2 →
  (∀ a x, new !! a = Some x → ind !! Z.to_nat (index x) = Some (Z.of_nat a)) →
  (i < n)%nat →
  next_step n k ind i (take i (assign_next n k new) ++ drop i new)
  = Some (take (S i) (assign_next n k new) ++ drop (S i) new).
Proof.
  intros Hidx Hlen Hk Hind Hi.
  pose proof (indexes_length _ _ Hidx) as Hln.
  destruct (lookup_lt_is_Some_2 new i) as [x Hx]; [lia|].
  pose proof (indexes_range _ _ _ _ Hidx Hx) as Hr.
  assert (length (take i (assign_next n k new)) = i) as Htake.
  { rewrite length_take, length_assign_next. lia. }
  set (cur := take i (assign_next n k new) ++ drop i new).
  assert (length cur = n) as Hlc.
  { unfold cur. rewrite length_app, Htake, length_drop. lia. }
  assert (cur !! i = Some x) as Hcx.
  { unfold cur. rewrite lookup_app_r by lia.
    by rewrite Htake, Nat.sub_diag, lookup_drop, Nat.add_0_r. }
  assert (∀ a y, new !! a = Some y → ∃ y', cur !! a = Some y' ∧ rank0 y' = rank0 y) as Hcur.
  { intros a y Hy. unfold cur. destruct (decide (a < i)%nat).
    - rewrite lookup_app_l by lia. rewrite lookup_take, decide_True by done.
      rewrite (assign_next_lookup _ _ _ _ _ Hy). by eexists.
    - rewrite lookup_app_r by lia. rewrite Htake, lookup_drop.
      replace (i + (a - i))%nat with a by lia. by exists y. }
  unfold next_step. rewrite py_get_nat, Hcx. simpl.
  assert ((if bool_decide (index x + k `div` 2 < Z.of_nat n)
           then p ← py_get ind (index x + k `div` 2); y ← py_get cur p; Some (rank0 y)
           else Some (-1)) = Some (next_rank n k new (index x))) as ->.
  { unfold next_rank. case_bool_decide as Hlt; [|done].
    destruct (indexes_surj n new (index x + k `div` 2)) as (a & y & Hy & Hiy); [done|lia|].
    rewrite py_get_nonneg by lia. rewrite <- Hiy, (Hind a y Hy). simpl.
    rewrite py_get_nat. destruct (Hcur a y Hy) as (y' & -> & Hr0). simpl.
    rewrite Hr0. f_equal. symmetry. eapply rank_of_lookup; [|done].
    by eapply indexes_NoDup. }
  simpl. rewrite py_set_nat by lia. f_equal. unfold cur.
  rewrite insert_app_r_alt by lia. rewrite Htake, Nat.sub_diag.
  rewrite (take_S_r _ i _ (assign_next_lookup n k new i x Hx)).
  rewrite (drop_S new x i Hx). simpl. by rewrite <- app_assoc.
Qed.

(** *** One pass *)

Lemma sorted_Permutation l : sorted l ≡ₚ l.
Proof.
  assert (∀ x l, insert_by_key x l ≡ₚ x :: l) as Hins.
  { intros x l'. induction l' as [|y l' IH]; simpl; [done|].
    destruct (key_le x y); [done|]. rewrite IH. apply perm_swap. }
  induction l as [|x l IH]; simpl; [done|]. by rewrite Hins, IH.
Qed.

Lemma indexes_sorted n l : indexes n l → indexes n (sorted l).
Proof. unfold indexes. by rewrite sorted_Permutation. Qed.

Lemma pass_spec n k sfx ind :
  indexes n sfx → length ind = n → (0 < n)%nat → 0 ≤ k `div` 2 →
  ∃ ind', pass n k (sfx, ind) = Some (sorted (assign_next n k (rerank sfx)), ind')
    ∧ length ind' = n.
Proof.
  intros Hidx Hlen Hn Hk. pose proof (indexes_length _ _ Hidx) as Hls.
  unfold pass.
  destruct (rank_first_inv n sfx ind Hidx Hlen Hn) as (st1 & -> & Hinv1). simpl.
  destruct (for_each_seq_inv (rank_inv n sfx) rank_step 1 (n - 1) st1 Hinv1)
    as (st2 & -> & Hinv2).
  { intros i st Hi. apply rank_step_inv; [done|lia]. }
  simpl. replace (1 + (n - 1))%nat with n in Hinv2 by lia.
  destruct Hinv2 as (Hs2 & Hlen2 & Hind2 & _ & _).
  rewrite take_ge, drop_ge, app_nil_r in Hs2 by (rewrite ?length_rerank; lia).
  assert (indexes n (rerank sfx)) as Hidx2 by (unfold indexes; by rewrite rerank_index).
  destruct (for_each_seq_inv
              (λ i cur, cur = take i (assign_next n k (rerank sfx)) ++ drop i (rerank sfx))
              (next_step n k (SA.ind st2)) 0 n (suffixes st2)) as (cur & -> & Hcur).
  - by rewrite Hs2.
  - intros i cur Hi ->. eexists. split; [|done].
    apply next_step_inv; try done; [|lia].
    intros a x Hx.
    destruct (lookup_lt_is_Some_2 sfx a) as [x0 Hx0].
    { rewrite <- (length_rerank sfx). by eapply lookup_lt_Some. }
    assert (index x = index x0) as ->.
    { assert ((index <$> rerank sfx) !! a = (index <$> sfx) !! a) as E by (by rewrite rerank_index).
      rewrite !list_lookup_fmap, Hx, Hx0 in E. by simplify_eq/=. }
    apply (Hind2 a x0); [|done]. apply lookup_lt_Some in Hx0. lia.
  - simpl in *. rewrite take_ge, drop_ge, app_nil_r in Hcur
      by (rewrite ?length_assign_next, ?length_rerank; lia).
    subst cur. by exists (SA.ind st2).
Qed.


(** *** Sorting by key *)

Lemma key_le_spec x y : key_le x y = true ↔ key_lt x y ∨ same_key x y.
Proof.
  unfold key_le, key_lt, same_key.
  rewrite orb_true_iff, andb_true_iff, !bool_decide_eq_true. lia.
Qed.

Lemma key_le_total x y : key_le x y = true ∨ key_le y x = true.
Proof. rewrite !key_le_spec. unfold key_lt, same_key. lia. Qed.

Lemma key_le_trans x y z : key_le x y = true → key_le y z = true → key_le x z = true.
Proof. rewrite !key_le_spec. unfold key_lt, same_key. lia. Qed.

Lemma insert_by_key_Permutation x l : insert_by_key x l ≡ₚ x :: l.
Proof.
  induction l as [|y l IH]; simpl; [done|].
  destruct (key_le x y); [done|]. rewrite IH. apply perm_swap.
Qed.

Lemma insert_by_key_sorted x l :
  StronglySorted (λ x y, key_le x y = true) l →
  StronglySorted (λ x y, key_le x y = true) (insert_by_key x l).
Proof.
  induction 1 as [|y l Hl IH Hy]; simpl; [by repeat constructor|].
  destruct (key_le x y) eqn:E.
  - constructor; [by constructor|]. constructor; [done|].
    eapply Forall_impl; [done|]. intros z Hz. by eapply key_le_trans.
  - constructor; [done|]. rewrite insert_by_key_Permutation. constructor; [|done].
    destruct (key_le_total x y); congruence.
Qed.

Lemma sorted_sorted l : StronglySorted (λ x y, key_le x y = true) (sorted l).
Proof.
  induction l as [|x l IH]; simpl; [constructor|]. by apply insert_by_key_sorted.
Qed.

Lemma StronglySorted_lookup {A} (R : A → A → Prop) l a b x y :
  StronglySorted R l → (a < b)%nat → l !! a = Some x → l !! b = Some y → R x y.
Proof.
  intros Hs. revert a b. induction Hs as [|z l Hl IH Hz]; intros a b Hab Hx Hy; [done|].
  destruct b as [|b]; [lia|]. simpl in Hy. destruct a as [|a]; simpl in Hx.
  - simplify_eq. rewrite Forall_forall in Hz. apply Hz. by eapply list_elem_of_lookup_2.
  - apply (IH a b); [lia|done..].
Qed.

Lemma sorted_lookup l a b x y :
  StronglySorted (λ x y, key_le x y = true) l → (a ≤ b)%nat →
  l !! a = Some x → l !! b = Some y → key_le x y = true.
Proof.
  intros Hs Hab Hx Hy. destruct (decide (a = b)) as [->|].
  - simplify_eq. apply key_le_spec. right. done.
  - apply (StronglySorted_lookup (λ x y, key_le x y = true) l a b x y); [done|lia|done..].
Qed.

(** *** The ranks of a pass *)

Lemma dense_lookup_mono l a b x y ra rb :
  StronglySorted (λ x y, key_le x y = true) l → (a ≤ b)%nat →
  l !! a = Some x → l !! b = Some y →
  dense l !! a = Some ra → dense l !! b = Some rb →
  ra ≤ rb ∧ (ra = rb ↔ same_key x y).
Proof.
  intros Hs Hab Hx. revert y rb. induction b as [|b IH]; intros y rb Hy Hra Hrb.
  - assert (a = 0%nat) as -> by lia. simplify_eq. split; [lia|]. by split.
  - destruct (decide (a = S b)) as [->|Hne].
    { simplify_eq. split; [lia|]. by split. }
    destruct (lookup_lt_is_Some_2 l b) as [z Hz]; [apply lookup_lt_Some in Hy; lia|].
    destruct (lookup_lt_is_Some_2 (dense l) b) as [rz Hrz].
    { rewrite length_dense. apply lookup_lt_Some in Hz. lia. }
    destruct (IH ltac:(lia) z rz Hz Hra Hrz) as [Hle Heq].
    rewrite (dense_lookup_S l b y z rz Hz Hy Hrz) in Hrb. simplify_eq.
    pose proof (sorted_lookup l a b x z Hs ltac:(lia) Hx Hz) as Hxz.
    pose proof (sorted_lookup l b (S b) z y Hs ltac:(lia) Hz Hy) as Hzy.
    apply key_le_spec in Hxz, Hzy. unfold key_lt, same_key in *.
    case_bool_decide as Hk; unfold same_key in Hk; split; lia.
Qed.

Lemma dense_nonneg l a ra : dense l !! a = Some ra → 0 ≤ ra.
Proof.
  destruct l as [|x l]; [done|]. simpl. destruct a as [|a]; simpl; [intros [= <-]; lia|].
  assert (∀ r prev l a ra, 0 ≤ r → dense_from r prev l !! a = Some ra → 0 ≤ ra) as H.
  { clear. intros r prev l. revert r prev. induction l as [|x l IH]; intros r prev a ra Hr; [done|].
    simpl. destruct a as [|a]; simpl.
    - intros [= <-]. case_bool_decide; lia.
    - apply IH. case_bool_decide; lia. }
  by apply H.
Qed.


(** *** Keys and text order *)

Lemma agree_le T h h' i j : agree T h i j → (h' ≤ h)%nat → agree T h' i j.
Proof. intros H Hle d Hd. apply H. lia. Qed.

Lemma agree_shift T h h' i j : agree T (h + h') i j → agree T h' (i + h) (j + h).
Proof.
  intros H d Hd. rewrite <- !Nat.add_assoc. apply H. lia.
Qed.

Lemma below_split T h h' i j :
  below T (h + h') i j →
  below T h i j ∨ (agree T h i j ∧ below T h' (i + h) (j + h)).
Proof.
  intros (d & x & y & Hd & Hag & Hx & Hy & Hxy).
  destruct (decide (d < h)%nat) as [Hlt|Hge].
  - left. by exists d, x, y.
  - right. split; [eapply agree_le; [done|lia]|].
    exists (d - h)%nat, x, y. split; [lia|]. split; [|split; [|split]]; try done.
    + intros e He. rewrite <- !Nat.add_assoc. apply Hag. lia.
    + by replace (i + h + (d - h))%nat with (i + d)%nat by lia.
    + by replace (j + h + (d - h))%nat with (j + d)%nat by lia.
Qed.

Section pass_order.
Context (T : str) (h : nat) (k : Z) (l : list suffix).
Hypothesis Hidx : indexes (length T) l.
Hypothesis Hsorted : StronglySorted (λ x y, key_le x y = true) l.
Hypothesis Hord : ordered T h l.
Hypothesis Hk : k `div` 2 = Z.of_nat h.
Hypothesis Hh : (0 < h)%nat.

Local Abbreviation n := (length T).
Local Abbreviation new := (rerank l).

Lemma rerank_indexes : indexes n new.
Proof. unfold indexes. by rewrite rerank_index. Qed.

Lemma rerank_at (i : nat) :
  (i < n)%nat →
  ∃ a x ra, l !! a = Some x ∧ index x = Z.of_nat i ∧ dense l !! a = Some ra
    ∧ rank_of new (Z.of_nat i) = ra.
Proof.
  intros Hi. destruct (indexes_surj n l (Z.of_nat i) Hidx) as (a & x & Hx & Hix); [lia|].
  destruct (lookup_lt_is_Some_2 (dense l) a) as [ra Hra].
  { rewrite length_dense. by eapply lookup_lt_Some. }
  exists a, x, ra. split; [done|]. split; [done|]. split; [done|].
  rewrite <- Hix.
  change (index x) with (index (set_rank0 x ra)).
  rewrite (rank_of_lookup new a (set_rank0 x ra)); [done| |by apply rerank_lookup].
  eapply indexes_NoDup, rerank_indexes.
Qed.

Lemma rank_of_agree (i j : nat) :
  (i < n)%nat → (j < n)%nat → agree T h i j →
  rank_of new (Z.of_nat i) = rank_of new (Z.of_nat j).
Proof.
  intros Hi Hj Hag.
  destruct (rerank_at i Hi) as (a & x & ra & Hx & Hix & Hra & ->).
  destruct (rerank_at j Hj) as (b & y & rb & Hy & Hiy & Hrb & ->).
  destruct (Hord x y) as [Hsame _]; [by eapply list_elem_of_lookup_2..|].
  rewrite Hix, Hiy, !Nat2Z.id in Hsame. specialize (Hsame Hag).
  destruct (decide (a ≤ b)%nat).
  - by apply (dense_lookup_mono l a b x y ra rb).
  - symmetry. apply (dense_lookup_mono l b a y x rb ra); try done; [lia|].
    destruct Hsame. by split.
Qed.

Lemma rank_of_below (i j : nat) :
  (i < n)%nat → (j < n)%nat → below T h i j →
  rank_of new (Z.of_nat i) < rank_of new (Z.of_nat j).
Proof.
  intros Hi Hj Hbe.
  destruct (rerank_at i Hi) as (a & x & ra & Hx & Hix & Hra & ->).
  destruct (rerank_at j Hj) as (b & y & rb & Hy & Hiy & Hrb & ->).
  destruct (Hord x y) as [_ Hlt]; [by eapply list_elem_of_lookup_2..|].
  rewrite Hix, Hiy, !Nat2Z.id in Hlt. specialize (Hlt Hbe).
  destruct (decide (a ≤ b)%nat).
  - destruct (dense_lookup_mono l a b x y ra rb) as [Hle Heq]; try done.
    destruct (decide (ra = rb)) as [E|]; [|lia].
    apply Heq in E. unfold key_lt, same_key in *. lia.
  - pose proof (sorted_lookup l b a y x Hsorted ltac:(lia) Hy Hx) as Hyx.
    apply key_le_spec in Hyx. unfold key_lt, same_key in *. lia.
Qed.

Lemma below_in_text h' i j : below T h' i j → (i < n)%nat ∧ (j < n)%nat.
Proof.
  intros (d & x & y & _ & _ & Hx & Hy & _).
  apply lookup_lt_Some in Hx, Hy. lia.
Qed.

Lemma assign_next_ordered : ordered T (h + h) (assign_next n k new).
Proof.
  intros x' y' Hx' Hy'.
  unfold assign_next in Hx', Hy'.
  apply list_elem_of_fmap in Hx' as (x & -> & Hx), Hy' as (y & -> & Hy).
  apply list_elem_of_lookup in Hx as [a Hx], Hy as [b Hy].
  pose proof (indexes_range _ _ _ _ rerank_indexes Hx) as Hrx.
  pose proof (indexes_range _ _ _ _ rerank_indexes Hy) as Hry.
  pose proof (rank_of_lookup new a x (indexes_NoDup _ _ rerank_indexes) Hx) as Hx0.
  pose proof (rank_of_lookup new b y (indexes_NoDup _ _ rerank_indexes) Hy) as Hy0.
  simpl. set (i := Z.to_nat (index x)). set (j := Z.to_nat (index y)).
  assert (index x = Z.of_nat i) as Hi by lia.
  assert (index y = Z.of_nat j) as Hj by lia.
  rewrite Hi in Hx0. rewrite Hj in Hy0.
  unfold same_key, key_lt, next_rank. simpl. rewrite Hk, Hi, Hj, <- Hx0, <- Hy0.
  replace (Z.of_nat i + Z.of_nat h) with (Z.of_nat (i + h)) by lia.
  replace (Z.of_nat j + Z.of_nat h) with (Z.of_nat (j + h)) by lia.
  split.
  - intros Hag.
    split; [apply rank_of_agree; [lia|lia|eapply agree_le; [done|lia]]|].
    pose proof (Hag h ltac:(lia)) as Hend.
    apply agree_shift in Hag.
    repeat case_bool_decide; try done.
    + apply rank_of_agree; [lia|lia|done].
    + rewrite (proj2 (lookup_ge_None T (j + h)%nat)) in Hend by lia.
      apply lookup_ge_None in Hend. lia.
    + rewrite (proj2 (lookup_ge_None T (i + h)%nat)) in Hend by lia.
      symmetry in Hend. apply lookup_ge_None in Hend. lia.
  - intros Hbe. destruct (below_split T h h i j Hbe) as [Hlt|[Hag Hlt]].
    + left. apply rank_of_below; [lia|lia|done].
    + right. split; [apply rank_of_agree; [lia|lia|done]|].
      destruct (below_in_text _ _ _ Hlt) as [? ?].
      rewrite !bool_decide_eq_true_2 by lia.
      apply rank_of_below; [lia|lia|done].
Qed.

End pass_order.

Lemma ordered_Permutation T h l l' : l ≡ₚ l' → ordered T h l → ordered T h l'.
Proof.
  intros Hp Ho x y Hx Hy. apply Ho; by rewrite Hp.
Qed.

Lemma pass_inv T h k st :
  (0 < length T)%nat → k `div` 2 = Z.of_nat h → (0 < h)%nat → sa_inv T h st →
  ∃ st', pass (length T) k st = Some st' ∧ sa_inv T (h + h) st'.
Proof.
  intros Hn Hk Hh. destruct st as [sfx ind]. intros (Hidx & Hlen & Hs & Hord).
  simpl in Hidx, Hlen, Hs, Hord.
  destruct (pass_spec (length T) k sfx ind) as (ind' & -> & Hlen'); [done|done|done|lia|].
  eexists. split; [done|]. split; [|split; [|split]]; simpl.
  - apply indexes_sorted. unfold indexes. by rewrite assign_next_index, rerank_index.
  - done.
  - apply sorted_sorted.
  - eapply ordered_Permutation; [symmetry; apply sorted_Permutation|].
    by apply assign_next_ordered.
Qed.


(** *** The initial ranking *)

Lemma mapM_fmap_total {A B} (f : A → option B) (g : A → B) (l : list A) :
  Forall (λ x, f x = Some (g x)) l → mapM f l = Some (g <$> l).
Proof.
  induction 1 as [|x l Hx _ IH]; [done|].
  simpl. rewrite Hx. simpl. by rewrite IH.
Qed.

Lemma initial_spec T :
  mapM (initial T) (seq 0 (length T)) = Some (initial_suffix T <$> seq 0 (length T)).
Proof.
  apply mapM_fmap_total, Forall_forall. intros i Hi.
  apply elem_of_seq in Hi. unfold initial, initial_suffix.
  rewrite py_get_nat. destruct (lookup_lt_is_Some_2 T i) as [c ->]; [lia|]. simpl.
  case_bool_decide as H1.
  - rewrite bool_decide_eq_true_2 by lia.
    replace (Z.of_nat i + 1) with (Z.of_nat (i + 1)) by lia. rewrite py_get_nat.
    by destruct (lookup_lt_is_Some_2 T (i + 1)) as [c' ->]; [lia|].
  - by rewrite bool_decide_eq_false_2 by lia.
Qed.

Lemma initial_indexes T : indexes (length T) (initial_suffix T <$> seq 0 (length T)).
Proof.
  unfold indexes. rewrite <- list_fmap_compose.
  assert (∀ m k, (index ∘ initial_suffix T) <$> seq m k = seqZ (Z.of_nat m) (Z.of_nat k)) as H.
  { intros m k. revert m. induction k as [|k IH]; intros m; [done|].
    rewrite Nat2Z.inj_succ, seqZ_cons by lia. simpl. f_equal.
    rewrite IH. f_equal; lia. }
  by rewrite (H 0%nat).
Qed.

Lemma initial_ordered T : ordered T 2 (initial_suffix T <$> seq 0 (length T)).
Proof.
  intros x y Hx Hy.
  apply list_elem_of_fmap in Hx as (i & -> & Hi), Hy as (j & -> & Hj).
  apply elem_of_seq in Hi, Hj. simpl. rewrite !Nat2Z.id.
  destruct (lookup_lt_is_Some_2 T i) as [ci Hci]; [lia|].
  destruct (lookup_lt_is_Some_2 T j) as [cj Hcj]; [lia|].
  unfold same_key, key_lt, initial_suffix, get_rank, ord. simpl. rewrite Hci, Hcj. simpl.
  split.
  - intros Hag. pose proof (Hag 0%nat ltac:(lia)) as H0. pose proof (Hag 1%nat ltac:(lia)) as H1.
    rewrite !Nat.add_0_r, Hci, Hcj in H0. simplify_eq. split; [done|].
    repeat case_bool_decide; try done.
    + by rewrite H1.
    + rewrite (proj2 (lookup_ge_None T (j + 1)%nat)) in H1 by lia.
      apply lookup_ge_None in H1. lia.
    + rewrite (proj2 (lookup_ge_None T (i + 1)%nat)) in H1 by lia.
      symmetry in H1. apply lookup_ge_None in H1. lia.
  - intros (d & x & y & Hd & Hag & Hx & Hy & Hxy).
    destruct d as [|d].
    + rewrite !Nat.add_0_r in *. simplify_eq. left. lia.
    + assert (d = 0%nat) as -> by lia. right.
      pose proof (Hag 0%nat ltac:(lia)) as H0. rewrite !Nat.add_0_r, Hci, Hcj in H0.
      simplify_eq. split; [done|].
      pose proof (lookup_lt_Some _ _ _ Hx). pose proof (lookup_lt_Some _ _ _ Hy).
      rewrite !bool_decide_eq_true_2 by lia. rewrite Hx, Hy. simpl. lia.
Qed.

(** *** The loop *)

Lemma while_k_0 n k st :
  while_k 0 n k st = if bool_decide (k < 2 * Z.of_nat n) then None else Some st.
Proof. done. Qed.

Lemma while_k_S fuel n k st :
  while_k (S fuel) n k st
  = if bool_decide (k < 2 * Z.of_nat n)
    then st' ← pass n k st; while_k fuel n (k * 2) st' else Some st.
Proof. done. Qed.

Lemma while_k_inv T fuel h st :
  (0 < h)%nat → sa_inv T h st → (length T ≤ h * 2 ^ fuel)%nat →
  ∃ st' h', while_k fuel (length T) (Z.of_nat (2 * h)) st = Some st'
    ∧ sa_inv T h' st' ∧ (length T ≤ h')%nat.
Proof.
  revert h st. induction fuel as [|fuel IH]; intros h st Hh Hinv Hfuel.
  - rewrite while_k_0. simpl in Hfuel.
    rewrite bool_decide_eq_false_2 by lia. exists st, h. split; [done|].
    split; [done|lia].
  - rewrite while_k_S.
    case_bool_decide as Hlt; [|exists st, h; split; [done|]; split; [done|lia]].
    destruct (pass_inv T h (Z.of_nat (2 * h)) st) as (st1 & -> & Hinv1); [lia| |done|done|].
    { rewrite Nat2Z.inj_mul. rewrite Z.mul_comm. apply Z.div_mul. done. }
    simpl.
    replace (Z.of_nat (h + (h + 0)) * 2) with (Z.of_nat (2 * (h + h))) by lia.
    apply IH; [lia|done|]. rewrite Nat.pow_succ_r' in Hfuel. lia.
Qed.

(** What [suffix_array] computes on any text: it returns, and its result
    lists the indices of a list of suffixes that is sorted by key, with
    keys that stand for at least as many characters as the text has. *)
Lemma suffix_array_inv T :
  ∃ sfx ind h, suffix_array T = Some (index <$> sfx)
    ∧ sa_inv T h (sfx, ind) ∧ (length T ≤ h)%nat.
Proof.
  unfold suffix_array. rewrite initial_spec. simpl.
  destruct (while_k_inv T (length T) 2
              (sorted (initial_suffix T <$> seq 0 (length T)), replicate (length T) 0))
    as ([sfx ind] & h & E & Hinv & Hh).
  - lia.
  - split; [|split; [|split]]; simpl.
    + apply indexes_sorted, initial_indexes.
    + apply length_replicate.
    + apply sorted_sorted.
    + eapply ordered_Permutation; [symmetry; apply sorted_Permutation|].
      apply initial_ordered.
  - pose proof (Nat.pow_gt_lin_r 2 (length T)). lia.
  - change (Z.of_nat (2 * 2)) with 4 in E. rewrite E. simpl. by exists sfx, ind, h.
Qed.

(** [suffix_array] returns a permutation of the positions of any text. *)
Lemma suffix_array_permutation T :
  ∃ sa, suffix_array T = Some sa ∧ sa ≡ₚ seqZ 0 (Z.of_nat (length T)).
Proof.
  destruct (suffix_array_inv T) as (sfx & ind & h & E & (Hidx & _) & _).
  by exists (index <$> sfx).
Qed.

(** *** Sentinel-terminated texts *)

Lemma sentinel_last T i :
  sentinel_text T → T !! i = Some SENTINEL ↔ S i = length T.
Proof.
  intros (R & -> & HR). rewrite length_app. simpl. split.
  - intros Hi. destruct (decide (i < length R)%nat) as [Hlt|Hge]; [|
      apply lookup_lt_Some in Hi; rewrite length_app in Hi; simpl in Hi; lia].
    rewrite lookup_app_l in Hi by done.
    rewrite Forall_lookup in HR. specialize (HR _ _ Hi). simpl in HR. lia.
  - intros Hi. assert (i = length R) as -> by lia.
    by rewrite lookup_app_r, Nat.sub_diag by lia.
Qed.

Lemma agree_sentinel T h i j :
  sentinel_text T → (i < length T)%nat → (length T ≤ i + h)%nat → agree T h i j → i = j.
Proof.
  intros Hs Hi Hh Hag.
  specialize (Hag (length T - 1 - i)%nat ltac:(lia)).
  replace (i + (length T - 1 - i))%nat with (length T - 1)%nat in Hag by lia.
  rewrite (proj2 (sentinel_last T (length T - 1) Hs)) in Hag by lia.
  symmetry in Hag. apply (sentinel_last T _ Hs) in Hag. lia.
Qed.

Lemma trichotomy T h i j :
  sentinel_text T → (i < length T)%nat → (j < length T)%nat →
  below T h i j ∨ agree T h i j ∨ below T h j i.
Proof.
  intros Hs Hi Hj. induction h as [|h IH].
  - right. left. intros d Hd. lia.
  - destruct IH as [IH|[IH|IH]].
    + left. destruct IH as (d & x & y & ? & ?). exists d, x, y. split; [lia|done].
    + destruct (T !! (i + h)%nat) as [x|] eqn:Hx, (T !! (j + h)%nat) as [y|] eqn:Hy.
      * destruct (Nat.lt_trichotomy x y) as [?|[->|?]].
        -- left. exists h, x, y. split; [lia|done].
        -- right. left. intros d Hd. destruct (decide (d = h)) as [->|]; [congruence|].
           apply IH. lia.
        -- right. right. exists h, y, x. split; [lia|]. split; [|done].
           intros d Hd. symmetry. by apply IH.
      * exfalso. apply lookup_ge_None in Hy. apply lookup_lt_Some in Hx.
        assert (j = i); [|lia].
        apply (agree_sentinel T h j i Hs); [lia|lia|]. intros d Hd. symmetry. by apply IH.
      * exfalso. apply lookup_ge_None in Hx. apply lookup_lt_Some in Hy.
        assert (i = j); [|lia].
        apply (agree_sentinel T h i j Hs); [lia|lia|done].
      * right. left. intros d Hd. destruct (decide (d = h)) as [->|]; [congruence|].
        apply IH. lia.
    + right. right. destruct IH as (d & x & y & ? & ?). exists d, x, y. split; [lia|done].
Qed.

Lemma below_lex_lt T h i j : below T h i j → lex_lt (drop i T) (drop j T).
Proof.
  intros (d & x & y & _ & Hag & Hx & Hy & Hxy). clear h.
  revert i j Hag Hx Hy. induction d as [|d IH]; intros i j Hag Hx Hy.
  - rewrite Nat.add_0_r in Hx, Hy.
    rewrite (drop_S T x i Hx), (drop_S T y j Hy). simpl. by left.
  - pose proof (Hag 0%nat ltac:(lia)) as H0. rewrite !Nat.add_0_r in H0.
    destruct (lookup_lt_is_Some_2 T i) as [c Hc]; [apply lookup_lt_Some in Hx; lia|].
    rewrite Hc in H0. symmetry in H0.
    rewrite (drop_S T c i Hc), (drop_S T c j H0). simpl. right. split; [done|].
    apply IH.
    + intros e He. replace (S i + e)%nat with (i + S e)%nat by lia.
      replace (S j + e)%nat with (j + S e)%nat by lia. apply Hag. lia.
    + by replace (S i + d)%nat with (i + S d)%nat by lia.
    + by replace (S j + d)%nat with (j + S d)%nat by lia.
Qed.

(** On a text that ends with the sentinel, [suffix_array] returns the
    positions in increasing order of their suffixes. *)
Lemma suffix_array_sorted T :
  sentinel_text T →
  ∃ sa, suffix_array T = Some sa ∧ sa ≡ₚ seqZ 0 (Z.of_nat (length T))
    ∧ ∀ a b i j, (a < b)%nat → sa !! a = Some i → sa !! b = Some j →
        lex_lt (drop (Z.to_nat i) T) (drop (Z.to_nat j) T).
Proof.
  intros Hs.
  destruct (suffix_array_inv T) as (sfx & ind & h & E & (Hidx & _ & Hsorted & Hord) & Hh).
  simpl in *. exists (index <$> sfx). split; [done|]. split; [done|].
  intros a b i j Hab Hi Hj. rewrite list_lookup_fmap in Hi, Hj.
  destruct (sfx !! a) as [x|] eqn:Hx; [|done].
  destruct (sfx !! b) as [y|] eqn:Hy; [|done]. simplify_eq/=.
  pose proof (indexes_range _ _ _ _ Hidx Hx) as Hrx.
  pose proof (indexes_range _ _ _ _ Hidx Hy) as Hry.
  destruct (Hord x y) as [Hag Hbe]; [by eapply list_elem_of_lookup_2..|].
  destruct (Hord y x) as [_ Hbe']; [by eapply list_elem_of_lookup_2..|].
  destruct (trichotomy T h (Z.to_nat (index x)) (Z.to_nat (index y)) Hs) as [H|[H|H]];
    [lia|lia| | |].
  - by eapply below_lex_lt.
  - exfalso. apply agree_sentinel in H; [|done|lia|lia].
    assert (a = b); [|lia]. apply (indexes_inj _ _ a b x y Hidx Hx Hy). lia.
  - exfalso. specialize (Hbe' H).
    pose proof (sorted_lookup sfx a b x y Hsorted ltac:(lia) Hx Hy) as Hle.
    apply key_le_spec in Hle. unfold key_lt, same_key in *. lia.
Qed.

End suffix_array.

(** C2, as the code has it. [suffix_array] returns a permutation of the
    positions of every text; the suffixes come out in increasing
    lexicographic order when the text ends with the sentinel ['$'] and every
    other character is larger than it, as the indexed text always does.
    (The rank [ord(c) - ord('a')] of a character below ['a'] is negative,
    so it does not sort after the rank -1 given to the end of the text.) *)
Theorem suffix_array_correct (T : str) :
  ∃ sa, SA.suffix_array T = Some sa
    ∧ sa ≡ₚ seqZ 0 (Z.of_nat (length T))
    ∧ (sentinel_text T →
       ∀ a b i j, (a < b)%nat → sa !! a = Some i → sa !! b = Some j →
         lex_lt (drop (Z.to_nat i) T) (drop (Z.to_nat j) T)).
Proof.
  destruct (suffix_array_permutation T) as (sa & E & Hperm).
  exists sa. split; [done|]. split; [done|]. intros Hs.
  destruct (suffix_array_sorted T Hs) as (sa' & E' & _ & Hsorted).
  rewrite E in E'. by injection E' as <-.
Qed.

Lemma suffix_array_correct_witness :
  ∃ sa, SA.suffix_array (py "BANANA$") = Some sa
    ∧ sa ≡ₚ seqZ 0 7
    ∧ ∀ a b i j, (a < b)%nat → sa !! a = Some i → sa !! b = Some j →
        lex_lt (drop (Z.to_nat i) (py "BANANA$")) (drop (Z.to_nat j) (py "BANANA$")).
Proof.
  destruct (suffix_array_correct (py "BANANA$")) as (sa & E & Hperm & Hsorted).
  exists sa. split; [exact E|]. split; [exact Hperm|]. apply Hsorted.
  exists (py "BANANA"). split; [reflexivity|]. repeat constructor.
Defined.

(** C2, as the specification states it for every non-empty text, fails:
    for ["AA"] the function returns [[0, 1]], and the suffix at 0, ["AA"],
    is not smaller than the suffix at 1, ["A"]. *)
Lemma suffix_array_correct_counterexample :
  SA.suffix_array (py "AA") = Some [0; 1]
  ∧ ¬ lex_lt (drop 0 (py "AA")) (drop 1 (py "AA"))
  ∧ lex_lt (drop 1 (py "AA")) (drop 0 (py "AA")).
Proof.
  split; [reflexivity|]. split.
  - simpl. intros [H|[_ H]]; [lia|done].
  - simpl. right. done.
Qed.

(** ** The FM-index: its tables *)

Lemma bind_Some {A B} (f : A → option B) (x : A) : Some x ≫= f = f x.
Proof. done. Qed.

Section tables.
Import FM.

Lemma occ_snoc c l x : occ c (l ++ [x]) = (occ c l + (if decide (x = c) then 1 else 0))%nat.
Proof.
  unfold occ. rewrite filter_app, length_app, filter_cons, filter_nil.
  by destruct (decide (x = c)).
Qed.

Lemma occ_take_S c l p x :
  l !! p = Some x → occ c (take (S p) l) = (occ c (take p l) + (if decide (x = c) then 1 else 0))%nat.
Proof. intros Hx. by rewrite (take_S_r l p x Hx), occ_snoc. Qed.

(** *** [compute_rank_arr] *)

Lemma rank_arr_fold (l : str) :
  ∃ counts, fold_left rank_arr_step l ([], ∅)
            = ((λ p, Z.of_nat (occ (default 0%nat (l !! p)) (take (S p) l))) <$> seq 0 (length l),
               counts)
    ∧ ∀ c, default 0 (counts !! c) = Z.of_nat (occ c l).
Proof.
  induction l as [|x l IH] using rev_ind.
  - exists ∅. split; [done|]. intros c. by rewrite lookup_empty.
  - destruct IH as (counts & E & Hc). rewrite fold_left_app, E. simpl.
    exists (bump counts x). split.
    + f_equal. rewrite length_app. simpl. rewrite Nat.add_1_r, seq_S, fmap_app. simpl.
      f_equal.
      * apply list_fmap_ext. intros i p Hp. apply lookup_seq in Hp as [-> Hp]. simpl.
        rewrite lookup_app_l by lia. rewrite take_app_le by lia. done.
      * unfold bump. rewrite lookup_insert_eq. simpl.
        rewrite lookup_app_r, Nat.sub_diag by lia. simpl.
        rewrite take_ge by (rewrite length_app; simpl; lia).
        rewrite occ_snoc, decide_True by done. rewrite Hc. f_equal. lia.
    + intros c. unfold bump. rewrite occ_snoc. destruct (decide (x = c)) as [->|Hne].
      * rewrite lookup_insert_eq. simpl. rewrite Hc. lia.
      * rewrite lookup_insert_ne by done. rewrite Hc. lia.
Qed.

Lemma compute_rank_arr_lookup (l : str) (p : nat) (c : nat) :
  l !! p = Some c → compute_rank_arr l !! p = Some (Z.of_nat (occ c (take (S p) l))).
Proof.
  intros Hp. unfold compute_rank_arr. destruct (rank_arr_fold l) as (counts & -> & _). simpl.
  rewrite list_lookup_fmap, lookup_seq_lt by (by eapply lookup_lt_Some). simpl.
  by rewrite Hp.
Qed.


(** *** [compute_first_occurrences] *)

Lemma occ_elem_of c l : occ c l ≠ 0%nat ↔ c ∈ l.
Proof.
  unfold occ. induction l as [|x l IH]; simpl.
  - split; [done|]. by intros ?%elem_of_nil.
  - rewrite filter_cons, elem_of_cons. destruct (decide (x = c)) as [->|Hne]; simpl.
    + split; [by left|lia].
    + rewrite IH. split; [by right|]. intros [?|?]; [congruence|done].
Qed.

Lemma smaller_S c l : smaller (S c) l = (smaller c l + occ c l)%nat.
Proof.
  unfold smaller, occ. induction l as [|x l IH]; [done|].
  rewrite !filter_cons.
  destruct (decide (x < S c)%nat), (decide (x < c)%nat), (decide (x = c)); simpl; lia.
Qed.

Lemma smaller_0 l : smaller 0 l = 0%nat.
Proof.
  unfold smaller. induction l as [|x l IH]; [done|].
  rewrite filter_cons. by rewrite decide_False by lia.
Qed.

Lemma incr_spec (counts : list Z) (i : nat) (v : Z) :
  counts !! i = Some v → incr counts (Z.of_nat i) = Some (<[i := v + 1]> counts).
Proof.
  intros Hv. unfold incr. rewrite py_get_nat, Hv. simpl.
  apply py_set_nat. by eapply lookup_lt_Some.
Qed.

Lemma fo_count_loop (l : str) :
  Forall (λ c, (c < 256)%nat) l →
  ∃ C counts, for_each fo_count l (∅, replicate 256 0) = Some (C, counts)
    ∧ length counts = 256%nat
    ∧ (∀ c, (c < 256)%nat → counts !! c = Some (Z.of_nat (occ c l)))
    ∧ (∀ c, C !! c = if decide (c ∈ l) then Some 0 else None).
Proof.
  induction l as [|x l IH] using rev_ind; intros Hl.
  - exists ∅, (replicate 256 0). split; [done|]. split; [done|]. split.
    + intros c Hc. by rewrite lookup_replicate_2.
    + intros c. rewrite lookup_empty. rewrite decide_False; [done|]. by intros ?%elem_of_nil.
  - apply Forall_app in Hl as [Hl Hx]. apply Forall_cons in Hx as [Hx _].
    destruct (IH Hl) as (C & counts & E & Hlen & Hcounts & HC).
    rewrite for_each_app, E. simpl. unfold ord.
    rewrite (incr_spec counts x _ (Hcounts x Hx)). simpl.
    eexists _, _. split; [done|]. split; [by rewrite length_insert|]. split.
    + intros c Hc. rewrite occ_snoc. destruct (decide (x = c)) as [->|Hne].
      * rewrite list_lookup_insert_eq by lia. f_equal. lia.
      * rewrite list_lookup_insert_ne by done. rewrite Hcounts by done. f_equal. lia.
    + intros c. destruct (decide (x = c)) as [->|Hne].
      * rewrite lookup_insert_eq. rewrite decide_True; [done|].
        apply elem_of_app. right. by apply list_elem_of_singleton.
      * rewrite lookup_insert_ne by done. rewrite HC.
        destruct (decide (c ∈ l)) as [Hin|Hin].
        -- rewrite decide_True; [done|]. apply elem_of_app. by left.
        -- rewrite decide_False; [done|]. rewrite elem_of_app, list_elem_of_singleton.
           intros [?|?]; [done|congruence].
Qed.

Lemma compute_first_occurrences_spec (l : str) :
  Forall (λ c, (c < 256)%nat) l →
  ∃ fo, compute_first_occurrences l = Some fo
    ∧ ∀ c, fo !! c = if decide (c ∈ l) then Some (Z.of_nat (smaller c l)) else None.
Proof.
  intros Hl. unfold compute_first_occurrences.
  destruct (fo_count_loop l Hl) as (C & counts & -> & Hlen & Hcounts & HC).
  rewrite bind_Some. cbv beta iota.
  destruct (for_each_seq_inv
    (λ i (st : gmap nat Z * Z),
       st.2 = Z.of_nat (smaller i l)
       ∧ ∀ c, st.1 !! c = if decide (c ∈ l)
                          then Some (if decide (c < i)%nat then Z.of_nat (smaller c l) else 0)
                          else None)
    (fo_assign counts) 0 256 (C, 0)) as ([C' curr] & -> & Hcurr & HC').
  - split; simpl; [by rewrite smaller_0|].
    intros c. rewrite HC. by destruct (decide (c ∈ l)).
  - intros i [C1 curr] Hi [Hcurr HC1]. simpl in *. subst curr.
    unfold fo_assign. rewrite py_get_nat, Hcounts by lia. simpl.
    eexists. split; [done|]. simpl. split.
    + rewrite smaller_S. lia.
    + intros c. destruct (decide (c = i)) as [->|Hne].
      * destruct (decide (i ∈ l)) as [Hin|Hin].
        -- apply occ_elem_of in Hin. rewrite bool_decide_eq_true_2 by lia.
           rewrite lookup_insert_eq. by rewrite decide_True by lia.
        -- assert (occ i l = 0%nat) as ->.
           { destruct (decide (occ i l = 0%nat)); [done|]. exfalso. by apply Hin, occ_elem_of. }
           rewrite bool_decide_eq_false_2 by lia. rewrite HC1. by rewrite decide_False.
      * assert (C1 !! c = (if bool_decide (Z.of_nat (occ i l) ≠ 0)
                           then <[i := Z.of_nat (smaller i l)]> C1 else C1) !! c) as <-.
        { case_bool_decide; [|done]. by rewrite lookup_insert_ne. }
        rewrite HC1. destruct (decide (c ∈ l)); [|done].
        destruct (decide (c < i)%nat), (decide (c < S i)%nat); try done; lia.
  - rewrite bind_Some. cbv beta iota. simpl in Hcurr, HC'.
    exists C'. split; [done|]. intros c. rewrite HC'.
    destruct (decide (c ∈ l)) as [Hin|]; [|done].
    rewrite Forall_forall in Hl. specialize (Hl c Hin). simpl in Hl.
    by rewrite decide_True by lia.
Qed.


(** *** [compute_checkpoint_arrs] and [compute_rank] *)

Lemma counters_incr l k x arr :
  l !! k = Some x → (x < 256)%nat → counters l k arr →
  ∃ arr', incr arr (ord x) = Some arr' ∧ counters l (S k) arr'.
Proof.
  intros Hx Hx256 [Hlen Harr]. unfold ord.
  rewrite (incr_spec arr x _ (Harr x Hx256)). eexists. split; [done|].
  split; [by rewrite length_insert|]. intros c Hc.
  rewrite (occ_take_S c l k x Hx). destruct (decide (x = c)) as [->|Hne].
  - rewrite list_lookup_insert_eq by lia. f_equal. lia.
  - rewrite list_lookup_insert_ne by done. rewrite Harr by done. f_equal. lia.
Qed.

Lemma compute_checkpoint_arrs_spec (l : str) :
  Forall (λ c, (c < 256)%nat) l →
  ∃ cps, compute_checkpoint_arrs l = Some cps
    ∧ ∀ j, (j < length l)%nat → (Z.of_nat j) `mod` 5 = 0 →
        ∃ arr, cps !! Z.of_nat j = Some arr ∧ counters l (S j) arr.
Proof.
  intros Hl. unfold compute_checkpoint_arrs.
  destruct (for_each_seq_inv
    (λ i (st : gmap Z (list Z) * list Z),
       counters l i st.2
       ∧ ∀ j, (j < i)%nat → (Z.of_nat j) `mod` 5 = 0 →
           ∃ arr, st.1 !! Z.of_nat j = Some arr ∧ counters l (S j) arr)
    (cp_step l) 0 (length l) (∅, replicate 256 0)) as ([cps rank] & -> & _ & Hcps).
  - split; cbn [fst snd].
    + split; [done|]. intros c Hc. rewrite take_0.
      by rewrite lookup_replicate_2.
    + intros j Hj. lia.
  - intros i [ranks rank] Hi [Hrank Hranks]. cbn [fst snd] in Hrank, Hranks.
    destruct (lookup_lt_is_Some_2 l i) as [x Hx]; [lia|].
    assert (x < 256)%nat as Hx256.
    { rewrite Forall_forall in Hl. apply Hl. by eapply list_elem_of_lookup_2. }
    unfold cp_step. rewrite py_get_nat, Hx. rewrite bind_Some.
    destruct (counters_incr l i x rank Hx Hx256 Hrank) as (rank' & -> & Hrank').
    rewrite bind_Some.
    case_bool_decide as Hmod; (eexists; split; [done|]); (split; [done|]); simpl;
      intros j Hj Hjm; destruct (decide (j = i)) as [->|Hne].
    + rewrite lookup_insert_eq. by exists rank'.
    + rewrite lookup_insert_ne by lia. apply Hranks; [lia|done].
    + done.
    + apply Hranks; [lia|done].
  - simpl. exists cps. split; [done|]. intros j Hj. apply Hcps. lia.
Qed.

Lemma count_range (l : str) (c : nat) (len : nat) (a : Z) (r : Z) :
  0 ≤ a → a + Z.of_nat len ≤ Z.of_nat (length l) →
  r = Z.of_nat (occ c (take (Z.to_nat a) l)) →
  for_each (λ j idx_rank, x ← py_get l j;
                          Some (if bool_decide (x = c) then idx_rank + 1 else idx_rank))
           (seqZ a (Z.of_nat len)) r
  = Some (Z.of_nat (occ c (take (Z.to_nat a + len) l))).
Proof.
  revert a r. induction len as [|len IH]; intros a r Ha Hlen ->.
  - simpl. by rewrite Nat.add_0_r.
  - rewrite Nat2Z.inj_succ, seqZ_cons by lia. simpl.
    rewrite py_get_nonneg by lia.
    destruct (lookup_lt_is_Some_2 l (Z.to_nat a)) as [x Hx]; [lia|].
    rewrite Hx. simpl. replace (Z.pred (Z.succ (Z.of_nat len))) with (Z.of_nat len) by lia.
    rewrite (IH (Z.succ a)); [| lia | lia |].
    + by replace (Z.to_nat (Z.succ a) + len)%nat with (Z.to_nat a + S len)%nat by lia.
    + replace (Z.to_nat (Z.succ a)) with (S (Z.to_nat a)) by lia.
      rewrite (occ_take_S c l _ x Hx).
      case_bool_decide; [rewrite decide_True by done|rewrite decide_False by done]; lia.
Qed.

Lemma compute_rank_spec (l : str) (cps : gmap Z (list Z)) (idx : nat) (c : nat) :
  (∀ j, (j < length l)%nat → (Z.of_nat j) `mod` 5 = 0 →
     ∃ arr, cps !! Z.of_nat j = Some arr ∧ counters l (S j) arr) →
  (idx < length l)%nat → (c < 256)%nat →
  compute_rank l (Z.of_nat idx) cps c 5 = Some (Z.of_nat (occ c (take (S idx) l))).
Proof.
  intros Hcps Hidx Hc. unfold compute_rank.
  rewrite bool_decide_eq_false_2 by lia.
  set (d := Z.of_nat idx `mod` 5).
  assert (0 ≤ d < 5) as Hd by (apply Z.mod_pos_bound; lia).
  assert (d ≤ Z.of_nat idx) as Hdle by (apply Z.mod_le; lia).
  assert (Z.of_nat idx - d = Z.of_nat (idx - Z.to_nat d)) as Hcp by lia.
  rewrite Hcp.
  destruct (Hcps (idx - Z.to_nat d)%nat) as (arr & -> & [Hlen Harr]); [lia| |].
  { rewrite <- Hcp. unfold d. rewrite Zminus_mod, Z.mod_mod, Z.sub_diag by lia. done. }
  rewrite bind_Some. unfold ord. rewrite py_get_nat, Harr by done. rewrite bind_Some.
  replace d with (Z.of_nat (Z.to_nat d)) at 2 by lia.
  rewrite (count_range l c); [|lia|lia|].
  - by replace (Z.to_nat (Z.of_nat (idx - Z.to_nat d) + 1) + Z.to_nat d)%nat with (S idx) by lia.
  - by replace (Z.to_nat (Z.of_nat (idx - Z.to_nat d) + 1)) with (S (idx - Z.to_nat d)) by lia.
Qed.

End tables.

(** ** The FM-index: order of suffixes and the last-to-first mapping *)

Lemma lex_lt_irrefl a : ¬ lex_lt a a.
Proof. induction a as [|x a IH]; simpl; [tauto|]. intros [?|[_ ?]]; [lia|tauto]. Qed.

Lemma lex_lt_asym a b : lex_lt a b → ¬ lex_lt b a.
Proof.
  revert b. induction a as [|x a IH]; intros [|y b]; simpl; try tauto.
  intros [?|[-> ?]] [?|[? ?]]; try lia. by eapply IH.
Qed.

Lemma filter_nil_Forall {A} (P : A → Prop) `{!∀ x, Decision (P x)} (l : list A) :
  Forall (λ x, ¬ P x) l → filter P l = [].
Proof.
  induction 1 as [|x l Hx _ IH]; [done|]. by rewrite filter_cons, decide_False.
Qed.

(** A predicate that holds exactly on the positions [lo .. hi-1] of a list
    filters out that segment. *)
Lemma filter_segment {A} (P : A → Prop) `{!∀ x, Decision (P x)} (l : list A) (lo hi : nat) :
  (∀ a z, l !! a = Some z → (P z ↔ (lo ≤ a < hi)%nat)) →
  filter P l = take (hi - lo) (drop lo l).
Proof.
  revert lo hi. induction l as [|z l IH]; intros lo hi Hseg.
  - by rewrite drop_nil, take_nil.
  - rewrite filter_cons. destruct lo as [|lo].
    + destruct hi as [|hi].
      * rewrite decide_False by (rewrite (Hseg 0%nat z); [lia|done]).
        rewrite filter_nil_Forall; [done|]. apply Forall_lookup. intros a y Hy.
        rewrite (Hseg (S a) y Hy). lia.
      * rewrite decide_True by (rewrite (Hseg 0%nat z); [lia|done]).
        simpl. f_equal. rewrite (IH 0%nat hi).
        -- by rewrite Nat.sub_0_r, drop_0.
        -- intros a y Hy. rewrite (Hseg (S a) y Hy). lia.
    + rewrite decide_False by (rewrite (Hseg 0%nat z); [lia|done]).
      simpl. rewrite (IH lo (hi - 1)%nat).
      * f_equal. lia.
      * intros a y Hy. rewrite (Hseg (S a) y Hy). lia.
Qed.

Lemma filter_ext_in {A} (P Q : A → Prop) `{!∀ x, Decision (P x)} `{!∀ x, Decision (Q x)}
    (l : list A) :
  (∀ x, x ∈ l → (P x ↔ Q x)) → filter P l = filter Q l.
Proof.
  induction l as [|x l IH]; intros Hext; [done|].
  rewrite !filter_cons. rewrite IH by (intros y Hy; apply Hext; by right).
  destruct (decide (P x)) as [HP|HP], (decide (Q x)) as [HQ|HQ]; try done;
    exfalso; apply (Hext x (list_elem_of_here x l)) in HP || apply HP, (Hext x (list_elem_of_here x l)); done.
Qed.

Lemma length_filter_index {A} (P : A → Prop) `{!∀ x, Decision (P x)} (l : list A) (d : A) :
  length (filter (λ i, P (default d (l !! i))) (seq 0 (length l))) = length (filter P l).
Proof.
  induction l as [|x l IH] using rev_ind; [done|].
  rewrite length_app. simpl. rewrite Nat.add_1_r, seq_S, !filter_app, !length_app. simpl.
  rewrite <- IH. f_equal.
  - f_equal. apply filter_ext_in. intros i Hi.
    apply elem_of_seq in Hi. by rewrite lookup_app_l by lia.
  - rewrite !filter_cons, !filter_nil.
    rewrite lookup_app_r, Nat.sub_diag by lia. simpl.
    by destruct (decide (P x)).
Qed.

Lemma length_filter_or {A} (P Q : A → Prop) `{!∀ x, Decision (P x)} `{!∀ x, Decision (Q x)}
    (l : list A) :
  (∀ x, P x → Q x → False) →
  length (filter (λ x, P x ∨ Q x) l) = (length (filter P l) + length (filter Q l))%nat.
Proof.
  intros Hdis. induction l as [|x l IH]; [done|].
  rewrite !filter_cons.
  destruct (decide (P x)) as [HP|HP], (decide (Q x)) as [HQ|HQ],
    (decide (P x ∨ Q x)) as [HPQ|HPQ]; simpl; try lia; exfalso;
    first [by eapply Hdis | tauto].
Qed.

Lemma length_filter_fmap {A B} (f : A → B) (P : B → Prop) `{!∀ y, Decision (P y)} (l : list A) :
  length (filter P (f <$> l)) = length (filter (λ x, P (f x)) l).
Proof.
  induction l as [|x l IH]; [done|].
  rewrite fmap_cons, !filter_cons. destruct (decide (P (f x))); simpl; by rewrite IH.
Qed.

Section lf.
Context (T : str) (pos : list nat).
Hypothesis Hsent : sentinel_text T.
Hypothesis Hperm : pos ≡ₚ seq 0 (length T).
Hypothesis Hsorted : ∀ a b i j, (a < b)%nat → pos !! a = Some i → pos !! b = Some j →
  lex_lt (drop i T) (drop j T).

Local Abbreviation n := (length T).
Local Abbreviation L := (bwt_char T <$> pos).

Lemma text_nonempty : (0 < n)%nat.
Proof. destruct Hsent as (R & -> & _). rewrite length_app. simpl. lia. Qed.

Lemma length_pos : length pos = n.
Proof. rewrite Hperm. apply length_seq. Qed.

Lemma pos_lt a x : pos !! a = Some x → (x < n)%nat.
Proof.
  intros Hx. apply list_elem_of_lookup_2 in Hx. rewrite Hperm in Hx.
  apply elem_of_seq in Hx. lia.
Qed.

Lemma pos_NoDup : NoDup pos.
Proof. rewrite Hperm. apply NoDup_seq. Qed.

Lemma pos_inj a b x : pos !! a = Some x → pos !! b = Some x → a = b.
Proof. apply NoDup_lookup, pos_NoDup. Qed.

Lemma pos_surj x : (x < n)%nat → ∃ a, pos !! a = Some x.
Proof.
  intros Hx. apply list_elem_of_lookup. rewrite Hperm. apply elem_of_seq. lia.
Qed.

Lemma pos_order a b x y :
  pos !! a = Some x → pos !! b = Some y →
  lex_lt (drop x T) (drop y T) ↔ (a < b)%nat.
Proof.
  intros Hx Hy. split; [|intros; by eapply Hsorted].
  intros Hlt. destruct (decide (a < b)%nat) as [|Hge]; [done|]. exfalso.
  destruct (decide (a = b)) as [->|Hne].
  - simplify_eq. by eapply lex_lt_irrefl.
  - eapply lex_lt_asym; [done|]. apply (Hsorted b a); [lia|done..].
Qed.

Lemma take_pos r x :
  pos !! r = Some x →
  take r pos ≡ₚ filter (λ z, lex_lt (drop z T) (drop x T)) (seq 0 n).
Proof.
  intros Hx. rewrite <- Hperm.
  rewrite (filter_segment _ pos 0 r).
  - by rewrite Nat.sub_0_r, drop_0.
  - intros a z Hz. rewrite (pos_order a r z x Hz Hx). lia.
Qed.

Lemma row_of_pos r x : pos !! r = Some x → row_of T x = r.
Proof.
  intros Hx. unfold row_of. rewrite <- (take_pos r x Hx), length_take.
  apply lookup_lt_Some in Hx. lia.
Qed.

Lemma pos_row_of x : (x < n)%nat → pos !! row_of T x = Some x.
Proof.
  intros Hx. destruct (pos_surj x Hx) as [a Ha]. by rewrite (row_of_pos a x Ha).
Qed.

(** Characters of a sentinel-terminated text. *)
Lemma text_char z c : T !! z = Some c → (SENTINEL ≤ c)%nat ∧ (c = SENTINEL ↔ S z = n).
Proof.
  intros Hz. pose proof (sentinel_last T z Hsent) as Hlast.
  destruct Hsent as (R & E & HR). split.
  - destruct (decide (c = SENTINEL)) as [->|Hne]; [done|].
    rewrite E in Hz. destruct (decide (z < length R)%nat).
    + rewrite lookup_app_l in Hz by done. rewrite Forall_lookup in HR.
      specialize (HR _ _ Hz). simpl in HR. lia.
    + rewrite lookup_app_r in Hz by lia.
      destruct (z - length R)%nat; simpl in Hz; [congruence|done].
  - rewrite <- Hlast. split; [by intros ->|congruence].
Qed.

Lemma bwt_char_0 : bwt_char T 0 = SENTINEL.
Proof.
  pose proof text_nonempty. unfold bwt_char.
  replace ((0 + n - 1) `mod` n)%nat with (n - 1)%nat by (rewrite Nat.mod_small; lia).
  rewrite (proj2 (sentinel_last T (n - 1) Hsent)); [done|lia].
Qed.

Lemma bwt_char_S z : (S z < n)%nat → bwt_char T (S z) = default 0%nat (T !! z).
Proof.
  intros Hz. unfold bwt_char.
  replace ((S z + n - 1) `mod` n)%nat with z; [done|].
  replace (S z + n - 1)%nat with (z + 1 * n)%nat by lia.
  rewrite Nat.Div0.mod_add. rewrite Nat.mod_small; lia.
Qed.

Lemma suffix_cons z c : T !! z = Some c → drop z T = c :: drop (S z) T.
Proof. apply drop_S. Qed.

(** The last-to-first mapping, away from the first text position: the row
    of the suffix at [x] is the number of characters smaller than [T[x]]
    plus the number of rows above the row of [x + 1] whose last-column
    character is [T[x]]. *)
Lemma lf_step r x c :
  pos !! r = Some (S x) → T !! x = Some c →
  (smaller c T + occ c (take r L))%nat = row_of T x.
Proof.
  intros Hr Hc. pose proof (pos_lt _ _ Hr) as Hx.
  destruct (text_char x c Hc) as [Hge Hlast].
  assert (c ≠ SENTINEL) as Hne by (rewrite Hlast; lia).
  set (P1 := λ z, (default 0%nat (T !! z) < c)%nat).
  set (P2 := λ z, default 0%nat (T !! z) = c ∧ lex_lt (drop (S z) T) (drop (S x) T)).
  assert (row_of T x = (length (filter P1 (seq 0 n)) + length (filter P2 (seq 0 n)))%nat) as ->.
  { unfold row_of. rewrite <- length_filter_or.
    - f_equal. apply filter_ext_in. intros z Hz. apply elem_of_seq in Hz.
      destruct (lookup_lt_is_Some_2 T z) as [tz Htz]; [lia|].
      rewrite (suffix_cons z tz Htz), (suffix_cons x c Hc). unfold P1, P2.
      rewrite Htz. simpl. done.
    - unfold P1, P2. intros z ? [? _]. lia. }
  f_equal.
  - pose proof (length_filter_index (λ y, (y < c)%nat) T 0%nat) as E. symmetry. exact E.
  - unfold occ. rewrite <- fmap_take, length_filter_fmap.
    rewrite (take_pos r (S x) Hr), list_filter_filter.
    pose proof text_nonempty as Hn.
    replace n with (S (n - 1)) at 1 2 by lia.
    set (m := (n - 1)%nat).
    transitivity (length (filter P2 (seq 0 m))).
    + change (seq 0 (S m)) with (0%nat :: seq 1 m).
      rewrite <- fmap_S_seq, filter_cons.
      rewrite decide_False by (rewrite bwt_char_0; intros [? _]; congruence).
      rewrite length_filter_fmap. f_equal. apply filter_ext_in. intros z Hz.
      apply elem_of_seq in Hz. rewrite bwt_char_S by lia. unfold P2. tauto.
    + rewrite seq_S, filter_app, length_app, filter_cons, filter_nil.
      rewrite decide_False; [simpl; lia|].
      unfold P2. simpl. rewrite (proj2 (sentinel_last T m Hsent)) by lia. simpl.
      intros [? _]. congruence.
Qed.

(** The first text position: its row maps to row 0, the row of the
    sentinel. *)
Lemma lf_first r :
  pos !! r = Some 0%nat →
  (smaller SENTINEL T + occ SENTINEL (take r L))%nat = 0%nat ∧ row_of T (n - 1) = 0%nat.
Proof.
  intros Hr. pose proof text_nonempty as Hn. split; [|].
  - assert (smaller SENTINEL T = 0%nat) as ->.
    { unfold smaller. rewrite filter_nil_Forall; [done|].
      apply Forall_lookup. intros z c Hc. destruct (text_char z c Hc). lia. }
    unfold occ. rewrite <- fmap_take, length_filter_fmap.
    rewrite filter_nil_Forall; [done|].
    apply Forall_lookup. intros a y Hy. rewrite lookup_take in Hy.
    case_decide as Ha; [|done]. intros Hb.
    destruct y as [|y].
    + pose proof (pos_inj a r 0%nat Hy Hr). lia.
    + pose proof (pos_lt _ _ Hy) as Hlt. rewrite bwt_char_S in Hb by done.
      destruct (lookup_lt_is_Some_2 T y) as [c Hc]; [lia|].
      rewrite Hc in Hb. simpl in Hb. subst c.
      destruct (text_char y SENTINEL Hc) as [_ Hl]. lia.
  - unfold row_of. rewrite filter_nil_Forall; [done|].
    apply Forall_forall. intros z Hz. apply elem_of_seq in Hz.
    destruct (lookup_lt_is_Some_2 T z) as [c Hc]; [lia|].
    rewrite (suffix_cons z c Hc).
    rewrite (suffix_cons (n - 1) SENTINEL) by (apply sentinel_last; [done|lia]).
    rewrite (drop_ge T (S (n - 1))) by lia. destruct (text_char z c Hc) as [? _]. simpl.
    intros [?|[_ ?]]; [lia|]. by destruct (drop (S z) T).
Qed.

(** The last-to-first mapping of any row. *)
Lemma lf_row r x :
  pos !! r = Some x →
  pos !! (smaller (bwt_char T x) T + occ (bwt_char T x) (take r L))%nat
  = Some ((x + n - 1) `mod` n)%nat.
Proof.
  intros Hr. pose proof text_nonempty as Hn. pose proof (pos_lt _ _ Hr) as Hx.
  destruct x as [|x].
  - destruct (lf_first r Hr) as [E0 E1]. rewrite bwt_char_0, E0.
    replace ((0 + n - 1) `mod` n)%nat with (n - 1)%nat by (rewrite Nat.mod_small; lia).
    pose proof (pos_row_of (n - 1) ltac:(lia)) as Hrow. by rewrite E1 in Hrow.
  - destruct (lookup_lt_is_Some_2 T x) as [c Hc]; [lia|].
    assert (((S x + n - 1) `mod` n)%nat = x) as ->.
    { replace (S x + n - 1)%nat with (x + 1 * n)%nat by lia.
      rewrite Nat.Div0.mod_add. rewrite Nat.mod_small; lia. }
    rewrite bwt_char_S, Hc by done. change (default 0%nat (Some c)) with c.
    rewrite (lf_step r x c Hr Hc). apply pos_row_of. lia.
Qed.

Lemma bwt_lookup r x : pos !! r = Some x → L !! r = Some (bwt_char T x).
Proof. intros Hr. by rewrite list_lookup_fmap, Hr. Qed.

Lemma bwt_Permutation : L ≡ₚ T.
Proof.
  pose proof text_nonempty as Hn. rewrite Hperm.
  replace n with (S (n - 1)) at 1 by lia.
  change (seq 0 (S (n - 1))) with (0%nat :: seq 1 (n - 1)).
  rewrite <- fmap_S_seq, fmap_cons, <- list_fmap_compose, bwt_char_0.
  assert ((bwt_char T ∘ S) <$> seq 0 (n - 1) = take (n - 1) T) as ->.
  { apply list_eq. intros i. rewrite list_lookup_fmap, lookup_take.
    destruct (decide (i < n - 1)%nat) as [Hi|Hi].
    - rewrite lookup_seq_lt by done. simpl. rewrite bwt_char_S by lia.
      by destruct (lookup_lt_is_Some_2 T i) as [c ->]; [lia|].
    - by rewrite lookup_seq_ge by lia. }
  destruct Hsent as (R & -> & _). rewrite length_app. simpl.
  replace (length R + 1 - 1)%nat with (length R) by lia.
  rewrite take_app_length. by rewrite Permutation_app_comm.
Qed.

Lemma smaller_Permutation c l l' : l ≡ₚ l' → smaller c l = smaller c l'.
Proof. intros H. unfold smaller. by rewrite H. Qed.

Lemma occ_Permutation c l l' : l ≡ₚ l' → occ c l = occ c l'.
Proof. intros H. unfold occ. by rewrite H. Qed.

Lemma smaller_occ_le c l : (smaller c l + occ c l ≤ length l)%nat.
Proof.
  unfold smaller, occ. induction l as [|x l IH]; [done|].
  rewrite !filter_cons. destruct (decide (x < c)%nat), (decide (x = c)); simpl; lia.
Qed.

Lemma occ_take_mono c l a b : (a ≤ b)%nat → (occ c (take a l) ≤ occ c (take b l))%nat.
Proof.
  intros Hab. replace b with (a + (b - a))%nat by lia. generalize (b - a)%nat as k. clear Hab.
  intros k. induction k as [|k IH]; [by rewrite Nat.add_0_r|].
  replace (a + S k)%nat with (S (a + k)) by lia.
  destruct (l !! (a + k)%nat) as [x|] eqn:Hx.
  - rewrite (occ_take_S c l _ x Hx). lia.
  - apply lookup_ge_None in Hx.
    assert (take (S (a + k)) l = take (a + k) l) as -> by (by rewrite !take_ge by lia).
    done.
Qed.

Lemma occ_take_le c l a : (occ c (take a l) ≤ occ c l)%nat.
Proof.
  destruct (decide (a ≤ length l)%nat).
  - rewrite <- (take_ge l (length l)) at 2 by lia. by apply occ_take_mono.
  - by rewrite take_ge by lia.
Qed.

(** Between two prefix counts there is a position where the count steps. *)
Lemma occ_take_between c l a b v :
  (occ c (take a l) ≤ v < occ c (take b l))%nat →
  ∃ r, (a ≤ r < b)%nat ∧ l !! r = Some c ∧ occ c (take r l) = v.
Proof.
  induction b as [|b IH]; intros Hv.
  - rewrite take_0 in Hv. unfold occ in Hv. simpl in Hv. lia.
  - destruct (decide (a ≤ b)%nat) as [Hab|Hab].
    2:{ pose proof (occ_take_mono c l (S b) a ltac:(lia)). lia. }
    destruct (l !! b) as [y|] eqn:Hy.
    + rewrite (occ_take_S c l b y Hy) in Hv.
      destruct (decide (v < occ c (take b l))%nat) as [Hlt|Hge].
      * destruct IH as (r & Hr & ? & ?); [lia|]. exists r. split; [lia|done].
      * destruct (decide (y = c)) as [->|]; [|lia]. exists b. split; [lia|]. split; [done|lia].
    + apply lookup_ge_None in Hy.
      assert (take (S b) l = take b l) as E by (by rewrite !take_ge by lia).
      rewrite E in Hv. destruct IH as (r & Hr & ? & ?); [lia|].
      exists r. split; [lia|done].
Qed.

(** *** Occurrences *)

Lemma occurs_at_nil x : occurs_at [] T x.
Proof. done. Qed.

Lemma occurs_at_cons c w x :
  occurs_at (c :: w) T x ↔ T !! x = Some c ∧ occurs_at w T (S x).
Proof.
  unfold occurs_at. simpl. destruct (T !! x) as [y|] eqn:Hy.
  - rewrite (drop_S T y x Hy). simpl. split.
    + intros [= -> ?]. done.
    + intros [[= ->] ->]. done.
  - apply lookup_ge_None in Hy. rewrite drop_ge by lia. simpl. split; [done|]. by intros [? _].
Qed.

Lemma occurs_at_app u w x :
  occurs_at (u ++ w) T x → occurs_at w T (x + length u).
Proof.
  revert x. induction u as [|c u IH]; intros x; simpl.
  - by rewrite Nat.add_0_r.
  - rewrite occurs_at_cons. intros [_ H]. apply IH in H.
    by replace (x + S (length u))%nat with (S x + length u)%nat by lia.
Qed.

(** *** One step of the backward search *)

Lemma interval_all : interval_of T pos [] 0 (n - 1).
Proof.
  pose proof text_nonempty. split; [lia|]. intros r x Hr.
  apply lookup_lt_Some in Hr. rewrite length_pos in Hr.
  split; [lia|]. intros _. apply occurs_at_nil.
Qed.

Lemma interval_step w top bot c :
  interval_of T pos w top bot → c ≠ SENTINEL →
  (∃ x, occurs_at (c :: w) T x) →
  (smaller c T + occ c (take top L) < smaller c T + occ c (take (S bot) L))%nat
  ∧ interval_of T pos (c :: w) (smaller c T + occ c (take top L))
                               (smaller c T + occ c (take (S bot) L) - 1).
Proof.
  intros [Hrange Hint] Hc Hex.
  set (sm := smaller c T).
  assert (∀ r' x', pos !! r' = Some x' →
            occurs_at (c :: w) T x' ↔
            (sm + occ c (take top L) ≤ r' < sm + occ c (take (S bot) L))%nat) as Hnew.
  { intros r' x' Hr'. rewrite occurs_at_cons. split.
    - intros [Hx' Hw].
      destruct (text_char x' c Hx') as [_ Hlast].
      assert (S x' < n)%nat as Hlt by (apply lookup_lt_Some in Hx'; lia).
      pose proof (pos_row_of (S x') Hlt) as Hr.
      pose proof (lf_step _ x' c Hr Hx') as Hlf. fold sm in Hlf.
      rewrite (row_of_pos r' x' Hr') in Hlf.
      apply (Hint _ _ Hr) in Hw.
      pose proof (occ_take_mono c L top (row_of T (S x')) ltac:(lia)).
      pose proof (occ_take_mono c L (S (row_of T (S x'))) (S bot) ltac:(lia)).
      assert (L !! row_of T (S x') = Some c) as HL.
      { rewrite (bwt_lookup _ _ Hr), bwt_char_S, Hx' by done. done. }
      rewrite (occ_take_S c L _ c HL), decide_True in * by done. lia.
    - intros Hr.
      destruct (occ_take_between c L top (S bot) (r' - sm)) as (r & Hrr & HL & Hv); [lia|].
      destruct (lookup_lt_is_Some_2 pos r) as [x Hx]; [rewrite length_pos; lia|].
      rewrite (bwt_lookup _ _ Hx) in HL. injection HL as HL.
      destruct x as [|x]; [rewrite bwt_char_0 in HL; congruence|].
      pose proof (pos_lt _ _ Hx) as Hlt.
      rewrite bwt_char_S in HL by done.
      destruct (lookup_lt_is_Some_2 T x) as [c' Hc']; [lia|].
      rewrite Hc' in HL. simpl in HL. subst c'.
      pose proof (lf_step r x c Hx Hc') as Hlf. fold sm in Hlf.
      assert (row_of T x = r') as Hrow by lia.
      pose proof (pos_row_of x ltac:(lia)) as Hx0. rewrite Hrow, Hr' in Hx0.
      injection Hx0 as ->. split; [done|]. apply (Hint _ _ Hx). lia. }
  destruct Hex as [x' Hx'].
  assert (x' < n)%nat as Hlt.
  { apply occurs_at_cons in Hx' as [Hx' _]. by apply lookup_lt_Some in Hx'. }
  pose proof (pos_row_of x' Hlt) as Hr'.
  pose proof (proj1 (Hnew _ _ Hr') Hx') as Hin.
  split; [lia|]. split.
  - pose proof (smaller_occ_le c L). pose proof (occ_take_le c L (S bot)).
    rewrite (smaller_Permutation c L T bwt_Permutation) in *.
    rewrite length_fmap, length_pos in *. fold sm in H. lia.
  - intros r x Hr. rewrite (Hnew r x Hr). lia.
Qed.

End lf.

(** ** The FM-index: search and position recovery *)

Section index_use.
Import FM.
Context (T : str) (pos : list nat) (K : Z)
        (fo : gmap nat Z) (cps : gmap Z (list Z)) (psa : gmap Z Z).
Hypothesis Hsent : sentinel_text T.
Hypothesis Hperm : pos ≡ₚ seq 0 (length T).
Hypothesis Hsorted : ∀ a b i j, (a < b)%nat → pos !! a = Some i → pos !! b = Some j →
  lex_lt (drop i T) (drop j T).
Hypothesis H256 : Forall (λ c, (c < 256)%nat) T.

Local Abbreviation n := (length T).
Local Abbreviation L := (bwt_char T <$> pos).

Hypothesis Hfo : ∀ c, fo !! c = if decide (c ∈ L) then Some (Z.of_nat (smaller c L)) else None.
Hypothesis Hcps : ∀ j, (j < length L)%nat → (Z.of_nat j) `mod` 5 = 0 →
  ∃ arr, cps !! Z.of_nat j = Some arr ∧ counters L (S j) arr.
Hypothesis Hpsa : ∀ r x, pos !! r = Some x →
  psa !! Z.of_nat r = if decide (Z.of_nat x `mod` K = 0) then Some (Z.of_nat x) else None.

Lemma length_bwt : length L = n.
Proof. rewrite length_fmap. by apply length_pos. Qed.

Lemma fo_lookup c : c ∈ T → fo !! c = Some (Z.of_nat (smaller c T)).
Proof.
  intros Hc. rewrite Hfo, decide_True.
  - by rewrite (smaller_Permutation c L T (bwt_Permutation T pos Hsent Hperm Hsorted)).
  - by rewrite (bwt_Permutation T pos Hsent Hperm Hsorted).
Qed.

Lemma bw_loop_interval symbols w top bot :
  interval_of T pos w top bot →
  Forall (λ c, c ∈ T ∧ c ≠ SENTINEL) symbols →
  (∃ x, occurs_at (reverse symbols ++ w) T x) →
  ∃ top' bot', bw_loop L fo cps symbols (Z.of_nat top) (Z.of_nat bot)
               = Some (Z.of_nat top', Z.of_nat bot' + 1)
    ∧ interval_of T pos (reverse symbols ++ w) top' bot'.
Proof.
  intros Hint Hsym. revert w top bot Hint.
  induction Hsym as [|c symbols [HcT Hc] _ IH]; intros w top bot Hint Hex.
  - exists top, bot. done.
  - rewrite reverse_cons, <- app_assoc in Hex |- *. simpl in Hex |- *.
    destruct Hint as [Hrange Hrows].
    assert (c < 256)%nat as Hc256 by (rewrite Forall_forall in H256; by apply H256).
    rewrite (fo_lookup c HcT).
    rewrite !(compute_rank_spec L cps _ c Hcps) by (rewrite ?length_bwt; lia).
    rewrite !bind_Some, py_get_nat.
    destruct (lookup_lt_is_Some_2 L top) as [y Hy]; [rewrite length_bwt; lia|].
    rewrite Hy, bind_Some.
    destruct (interval_step T pos Hsent Hperm Hsorted w top bot c (conj Hrange Hrows) Hc)
      as [Hlt Hint'].
    { destruct Hex as [x Hx]. apply occurs_at_app in Hx. by eexists. }
    rewrite (occ_take_S c L top y Hy) in *.
    set (sm := smaller c T) in *.
    set (top1 := (sm + occ c (take top L))%nat) in *.
    set (bot1 := (sm + occ c (take (S bot) L))%nat) in *.
    replace (if bool_decide (y = c)
             then Z.of_nat sm + Z.of_nat (occ c (take top L) + (if decide (y = c) then 1 else 0)) - 1
             else Z.of_nat sm + Z.of_nat (occ c (take top L) + (if decide (y = c) then 1 else 0)))
      with (Z.of_nat top1).
    2:{ unfold top1. case_bool_decide; [rewrite decide_True by done|rewrite decide_False by done];
          lia. }
    replace (Z.of_nat sm + Z.of_nat (occ c (take (S bot) L)) - 1) with (Z.of_nat (bot1 - 1))
      by (unfold bot1; lia).
    rewrite bool_decide_eq_false_2 by lia.
    apply IH; done.
Qed.

Lemma bw_better_match_pattern_interval w :
  Forall (λ c, c ∈ T ∧ c ≠ SENTINEL) w → (∃ x, occurs_at w T x) →
  ∃ top bot, bw_better_match_pattern L w fo cps = Some (Z.of_nat top, Z.of_nat bot + 1)
    ∧ interval_of T pos w top bot.
Proof.
  intros Hw Hex. unfold bw_better_match_pattern.
  pose proof (text_nonempty T pos Hsent Hperm Hsorted) as Hn.
  replace (Z.of_nat (length L) - 1) with (Z.of_nat (n - 1)) by (rewrite length_bwt; lia).
  destruct (bw_loop_interval (reverse w) [] 0 (n - 1)) as (top & bot & E & Hint).
  - by apply interval_all.
  - by apply Forall_reverse.
  - by rewrite reverse_involutive, app_nil_r.
  - rewrite reverse_involutive, app_nil_r in Hint. by exists top, bot.
Qed.

(** The rows of an interval hold the occurrences of the pattern. *)
Lemma interval_rows w top bot :
  interval_of T pos w top bot →
  take (S bot - top) (drop top pos) ≡ₚ occurrences w T.
Proof.
  intros [Hrange Hrows]. unfold occurrences. rewrite <- Hperm.
  rewrite (filter_segment _ pos top (S bot)); [done|].
  intros r x Hr. rewrite (Hrows r x Hr). lia.
Qed.

Lemma interval_size w top bot :
  interval_of T pos w top bot → (S bot - top)%nat = length (occurrences w T).
Proof.
  intros Hint. rewrite <- (interval_rows w top bot Hint).
  destruct Hint as [Hrange _].
  rewrite length_take, length_drop, (length_pos T pos Hperm). lia.
Qed.

Hypothesis HK : 1 ≤ K.

Local Abbreviation rank := (compute_rank_arr L).
Local Abbreviation lf := (λ r x, (smaller (bwt_char T x) T + occ (bwt_char T x) (take r L))%nat).

Lemma walk_unfold fuel r x cnt :
  pos !! r = Some x →
  walk (S fuel) psa L rank fo (Z.of_nat r) cnt
  = if bool_decide (is_Some (psa !! Z.of_nat (lf r x))) then Some (Z.of_nat (lf r x), cnt + 1)
    else walk fuel psa L rank fo (Z.of_nat (lf r x)) (cnt + 1).
Proof.
  intros Hr. pose proof (bwt_lookup T pos r x Hr) as HL.
  assert (bwt_char T x ∈ T) as Hin.
  { pose proof (bwt_Permutation T pos Hsent Hperm Hsorted) as HP.
    generalize dependent (bwt_char T x). intros c Hc. rewrite <- HP.
    by eapply list_elem_of_lookup_2. }
  cbn [walk]. rewrite !py_get_nat, HL, bind_Some, (fo_lookup _ Hin), bind_Some.
  rewrite (compute_rank_arr_lookup L r _ HL), bind_Some.
  rewrite (occ_take_S _ L r _ HL), decide_True by done.
  replace (Z.of_nat (smaller (bwt_char T x) T)
           + Z.of_nat (occ (bwt_char T x) (take r L) + 1) - 1)
    with (Z.of_nat (lf r x)) by lia.
  done.
Qed.

Lemma psa_sampled r x :
  pos !! r = Some x →
  is_Some (psa !! Z.of_nat r) ↔ Z.of_nat x `mod` K = 0.
Proof.
  intros Hr. rewrite (Hpsa r x Hr). destruct (decide (Z.of_nat x `mod` K = 0)).
  - split; [done|]. by eexists.
  - split; [by intros [? ?]|done].
Qed.

(** Walking down from a text position [x >= 1]: the walk stops after at
    most [x] steps, on a sampled row. *)
Lemma walk_down fuel r x cnt :
  pos !! r = Some x → (1 ≤ x ≤ fuel)%nat →
  ∃ r' s x', walk fuel psa L rank fo (Z.of_nat r) cnt = Some (Z.of_nat r', cnt + Z.of_nat s)
    ∧ (1 ≤ s)%nat ∧ (x' + s = x)%nat
    ∧ pos !! r' = Some x' ∧ psa !! Z.of_nat r' = Some (Z.of_nat x').
Proof.
  revert r x cnt. induction fuel as [|fuel IH]; intros r x cnt Hr Hx; [lia|].
  rewrite (walk_unfold fuel r x cnt Hr).
  pose proof (lf_row T pos Hsent Hperm Hsorted r x Hr) as Hlf.
  pose proof (pos_lt T pos Hperm r x Hr) as Hlt.
  replace ((x + n - 1) `mod` n)%nat with (x - 1)%nat in Hlf.
  2:{ replace (x + n - 1)%nat with ((x - 1) + 1 * n)%nat by lia.
      rewrite Nat.Div0.mod_add. rewrite Nat.mod_small; lia. }
  case_bool_decide as Hs.
  - exists (lf r x), 1%nat, (x - 1)%nat.
    split; [done|]. split; [lia|]. split; [lia|]. split; [done|].
    apply (psa_sampled _ _ Hlf) in Hs. by rewrite (Hpsa _ _ Hlf), decide_True.
  - assert (x - 1 ≠ 0)%nat as Hne.
    { intros E. apply Hs, (psa_sampled _ _ Hlf). rewrite E. apply Z.mod_0_l. lia. }
    destruct (IH (lf r x) (x - 1)%nat (cnt + 1) Hlf ltac:(lia))
      as (r' & s & x' & E & Hs1 & Hsum & Hr' & Hp').
    exists r', (S s), x'. rewrite E. split; [f_equal; f_equal; lia|].
    split; [lia|]. split; [lia|done].
Qed.

(** From any row the walk ends on a sampled row, and the sample plus the
    number of steps is the text position of the row it started from. *)
Lemma walk_any fuel r x :
  pos !! r = Some x → (n ≤ fuel)%nat →
  ∃ r' s x', walk fuel psa L rank fo (Z.of_nat r) 0 = Some (Z.of_nat r', Z.of_nat s)
    ∧ psa !! Z.of_nat r' = Some (Z.of_nat x')
    ∧ (Z.of_nat x' + Z.of_nat s) `mod` Z.of_nat n = Z.of_nat x.
Proof.
  intros Hr Hfuel. pose proof (pos_lt T pos Hperm r x Hr) as Hlt.
  destruct (decide (x = 0%nat)) as [->|Hx].
  - destruct fuel as [|fuel]; [lia|].
    rewrite (walk_unfold fuel r 0 0 Hr).
    pose proof (lf_row T pos Hsent Hperm Hsorted r 0 Hr) as Hlf.
    replace ((0 + n - 1) `mod` n)%nat with (n - 1)%nat in Hlf
      by (rewrite Nat.mod_small; lia).
    case_bool_decide as Hs.
    + exists (lf r 0%nat), 1%nat, (n - 1)%nat. split; [done|].
      apply (psa_sampled _ _ Hlf) in Hs. rewrite (Hpsa _ _ Hlf), decide_True by done.
      split; [done|]. replace (Z.of_nat (n - 1) + Z.of_nat 1) with (Z.of_nat n) by lia.
      rewrite Z.mod_same by lia. done.
    + assert (n - 1 ≠ 0)%nat as Hne.
      { intros E. apply Hs, (psa_sampled _ _ Hlf). rewrite E. apply Z.mod_0_l. lia. }
      destruct (walk_down fuel (lf r 0%nat) (n - 1)%nat (0 + 1) Hlf ltac:(lia))
        as (r' & s & x' & E & Hs1 & Hsum & Hr' & Hp').
      exists r', (S s), x'. rewrite E. split; [f_equal; f_equal; lia|]. split; [done|].
      replace (Z.of_nat x' + Z.of_nat (S s)) with (Z.of_nat n) by lia.
      rewrite Z.mod_same by lia. done.
  - destruct (walk_down fuel r x 0 Hr ltac:(lia)) as (r' & s & x' & E & Hs1 & Hsum & Hr' & Hp').
    exists r', s, x'. rewrite E. split; [done|]. split; [done|].
    rewrite Z.mod_small by lia. lia.
Qed.

Lemma locate_row fuel r x acc :
  pos !! r = Some x → (n ≤ fuel)%nat →
  locate fuel psa L rank fo (Z.of_nat r) acc = Some (acc ++ [Z.of_nat x]).
Proof.
  intros Hr Hfuel. unfold locate.
  destruct (walk_any fuel r x Hr Hfuel) as (r' & s & x' & -> & Hp & Hmod).
  rewrite bind_Some. cbv beta iota. rewrite Hp, bind_Some.
  pose proof (pos_lt T pos Hperm r x Hr) as Hlt.
  rewrite bool_decide_eq_false_2 by (rewrite length_bwt; lia).
  by rewrite length_bwt, Hmod.
Qed.

Lemma locate_rows fuel (len lo : nat) acc :
  (lo + len ≤ n)%nat → (n ≤ fuel)%nat →
  for_each (locate fuel psa L rank fo) (seqZ (Z.of_nat lo) (Z.of_nat len)) acc
  = Some (acc ++ (Z.of_nat <$> take len (drop lo pos))).
Proof.
  revert lo acc. induction len as [|len IH]; intros lo acc Hlen Hfuel.
  - simpl. by rewrite app_nil_r.
  - rewrite Nat2Z.inj_succ, seqZ_cons by lia. cbn [for_each].
    destruct (lookup_lt_is_Some_2 pos lo) as [x Hx]; [rewrite (length_pos T pos Hperm); lia|].
    rewrite (locate_row fuel lo x acc Hx Hfuel), bind_Some.
    replace (Z.succ (Z.of_nat lo)) with (Z.of_nat (S lo)) by lia.
    replace (Z.pred (Z.succ (Z.of_nat len))) with (Z.of_nat len) by lia.
    rewrite IH by lia. rewrite (drop_S pos x lo Hx). simpl. by rewrite <- app_assoc.
Qed.

(** Search followed by position recovery returns the occurrences. *)
Lemma find_occurrences fuel w :
  Forall (λ c, c ∈ T ∧ c ≠ SENTINEL) w → (∃ x, occurs_at w T x) → (n ≤ fuel)%nat →
  ∃ lo hi, bw_better_match_pattern L w fo cps = Some (lo, hi)
    ∧ hi - lo = Z.of_nat (length (occurrences w T))
    ∧ ∃ l, compute_idxes_from_top_bot fuel lo hi psa L rank fo = Some l
        ∧ l ≡ₚ Z.of_nat <$> occurrences w T.
Proof.
  intros Hw Hex Hfuel.
  destruct (bw_better_match_pattern_interval w Hw Hex) as (top & bot & E & Hint).
  exists (Z.of_nat top), (Z.of_nat bot + 1). split; [done|].
  pose proof (interval_size w top bot Hint) as Hsize.
  pose proof (interval_rows w top bot Hint) as Hrows.
  destruct Hint as [Hrange _].
  split; [lia|]. unfold compute_idxes_from_top_bot.
  replace (Z.of_nat bot + 1 - Z.of_nat top) with (Z.of_nat (S bot - top)) by lia.
  rewrite locate_rows by lia. eexists. split; [done|]. simpl. by rewrite Hrows.
Qed.

End index_use.

(** ** The FM-index of a reference *)

Lemma fmap_of_nat_seq (a k : nat) : Z.of_nat <$> seq a k = seqZ (Z.of_nat a) (Z.of_nat k).
Proof.
  revert a. induction k as [|k IH]; intros a; [done|].
  rewrite Nat2Z.inj_succ, seqZ_cons by lia. simpl. f_equal.
  rewrite IH. f_equal; lia.
Qed.

Lemma fmap_to_nat_seqZ (k : nat) : Z.to_nat <$> seqZ 0 (Z.of_nat k) = seq 0 k.
Proof.
  change 0 with (Z.of_nat 0). rewrite <- (fmap_of_nat_seq 0 k), <- list_fmap_compose.
  rewrite <- (list_fmap_id (seq 0 k)) at 2. apply list_fmap_ext. intros i x _. simpl. lia.
Qed.

Lemma bwt_char_lookup (T : str) (x : nat) :
  (x < length T)%nat → py_get T (Z.of_nat x - 1) = Some (bwt_char T x).
Proof.
  intros Hx. unfold bwt_char, py_get. destruct x as [|x].
  - rewrite bool_decide_eq_false_2 by lia. rewrite bool_decide_eq_true_2 by lia.
    replace (Z.to_nat (Z.of_nat 0 - 1 + Z.of_nat (length T))) with (length T - 1)%nat by lia.
    replace ((0 + length T - 1) `mod` length T)%nat with (length T - 1)%nat
      by (rewrite Nat.mod_small; lia).
    by destruct (lookup_lt_is_Some_2 T (length T - 1)) as [c ->]; [lia|].
  - rewrite bool_decide_eq_true_2 by lia.
    replace (Z.to_nat (Z.of_nat (S x) - 1)) with x by lia.
    replace ((S x + length T - 1) `mod` length T)%nat with x.
    + by destruct (lookup_lt_is_Some_2 T x) as [c ->]; [lia|].
    + replace (S x + length T - 1)%nat with (x + 1 * length T)%nat by lia.
      rewrite Nat.Div0.mod_add. rewrite Nat.mod_small; lia.
Qed.

Lemma occurs_at_sentinel (R w : str) (z : nat) :
  w ≠ [] → SENTINEL ∉ w → occurs_at w (R ++ [SENTINEL]) z ↔ occurs_at w R z.
Proof.
  intros Hw Hs. unfold occurs_at.
  destruct (decide (z + length w ≤ length R)%nat) as [Hle|Hgt].
  - rewrite drop_app_le by lia. rewrite take_app_le by (rewrite length_drop; lia). done.
  - split; intros H; exfalso.
    + destruct (decide (z ≤ length R)%nat) as [Hz|Hz].
      * rewrite drop_app_le in H by lia.
        rewrite take_app_ge in H by (rewrite length_drop; lia).
        apply Hs. rewrite <- H. apply elem_of_app. right.
        rewrite length_drop. destruct (length w - (length R - z))%nat eqn:E; [lia|].
        simpl. by left.
      * rewrite drop_ge in H by (rewrite length_app; simpl; lia).
        rewrite take_nil in H. by apply Hw.
    + assert (length (take (length w) (drop z R)) = length w) as Hlen by (by rewrite H).
      rewrite length_take, length_drop in Hlen.
      assert (length w ≠ 0%nat) by (by destruct w). lia.
Qed.

Lemma occurrences_sentinel (R w : str) :
  w ≠ [] → SENTINEL ∉ w → occurrences w (R ++ [SENTINEL]) = occurrences w R.
Proof.
  intros Hw Hs. unfold occurrences. rewrite length_app. simpl.
  rewrite Nat.add_1_r, seq_S, filter_app. simpl.
  rewrite filter_cons, filter_nil, decide_False, app_nil_r.
  - apply filter_ext_in. intros z _. by apply occurs_at_sentinel.
  - rewrite occurs_at_sentinel by done. unfold occurs_at.
    rewrite drop_ge by lia. rewrite take_nil. congruence.
Qed.

Lemma occurs_at_chars (R w : str) (x : nat) : occurs_at w R x → Forall (λ c, c ∈ R) w.
Proof.
  unfold occurs_at. intros <-. apply Forall_forall. intros c Hc.
  eapply elem_of_sublist; [|apply (sublist_drop R x)].
  eapply elem_of_sublist; [done|apply sublist_take].
Qed.

Section reference.
Import FM.
Context (R : str) (K : Z).
Hypothesis HR : Forall (λ c, (SENTINEL < c < 256)%nat) R.
Hypothesis HK : 1 ≤ K.

Local Abbreviation T := (R ++ [SENTINEL]).

Lemma reference_sentinel_text : sentinel_text T.
Proof. exists R. split; [done|]. eapply Forall_impl; [exact HR|]. simpl. lia. Qed.

Lemma reference_chars : Forall (λ c, (c < 256)%nat) T.
Proof.
  apply Forall_app. split.
  - eapply Forall_impl; [exact HR|]. simpl. lia.
  - apply Forall_singleton. unfold SENTINEL. lia.
Qed.

(** The index of a reference over code points 37 .. 255 is built without
    error, from a sorted suffix array, with tables that hold what the
    search assumes of them. *)
Lemma build_index_spec :
  ∃ ix pos, build_index R K = Some ix
    ∧ pos ≡ₚ seq 0 (length T)
    ∧ (∀ a b i j, (a < b)%nat → pos !! a = Some i → pos !! b = Some j →
         lex_lt (drop i T) (drop j T))
    ∧ ix_bwt ix = bwt_char T <$> pos
    ∧ ix_rank ix = compute_rank_arr (ix_bwt ix)
    ∧ (∀ c, ix_first ix !! c = if decide (c ∈ ix_bwt ix)
                               then Some (Z.of_nat (smaller c (ix_bwt ix))) else None)
    ∧ (∀ j, (j < length (ix_bwt ix))%nat → (Z.of_nat j) `mod` 5 = 0 →
         ∃ arr, ix_checkpoints ix !! Z.of_nat j = Some arr ∧ counters (ix_bwt ix) (S j) arr)
    ∧ (∀ r x, pos !! r = Some x →
         ix_psa ix !! Z.of_nat r
         = if decide (Z.of_nat x `mod` K = 0) then Some (Z.of_nat x) else None).
Proof.
  destruct (suffix_array_sorted T reference_sentinel_text) as (sa & Esa & Hperm & Hsorted).
  set (pos := Z.to_nat <$> sa).
  assert (sa = Z.of_nat <$> pos) as Hsa.
  { unfold pos. rewrite <- list_fmap_compose. rewrite <- (list_fmap_id sa) at 1.
    apply list_fmap_ext. intros i x Hx. simpl.
    apply list_elem_of_lookup_2 in Hx. rewrite Hperm in Hx. apply elem_of_seqZ in Hx. lia. }
  assert (pos ≡ₚ seq 0 (length T)) as Hpos.
  { unfold pos. rewrite Hperm. by rewrite fmap_to_nat_seqZ. }
  assert (∀ a x, pos !! a = Some x → sa !! a = Some (Z.of_nat x)) as Hlook.
  { intros a x Hx. by rewrite Hsa, list_lookup_fmap, Hx. }
  assert (bwt_from_suffix_array T sa = Some (bwt_char T <$> pos)) as Ebwt.
  { unfold bwt_from_suffix_array. rewrite Hsa.
    rewrite (mapM_fmap_total _ (λ z, bwt_char T (Z.to_nat z))).
    - f_equal. rewrite <- list_fmap_compose. apply list_fmap_ext. intros i x _. simpl.
      by rewrite Nat2Z.id.
    - apply Forall_fmap, Forall_forall. intros x Hx. simpl. rewrite Nat2Z.id.
      apply bwt_char_lookup. rewrite Hpos in Hx. apply elem_of_seq in Hx. lia. }
  assert (partial_suffix_array sa K = Some (foldl (sample_row sa K) ∅ sa)) as Epsa.
  { apply partial_suffix_array_fold; [lia|]. apply Forall_forall. intros i Hi.
    pose proof Hi as Hi'. rewrite Hperm in Hi'. apply elem_of_seqZ in Hi'.
    apply Permutation_length in Hperm. rewrite length_seqZ in Hperm. lia. }
  assert (bwt_char T <$> pos ≡ₚ T) as HLT.
  { apply (bwt_Permutation T pos reference_sentinel_text Hpos).
    intros a b i j Hab Hi Hj.
    pose proof (Hsorted a b _ _ Hab (Hlook _ _ Hi) (Hlook _ _ Hj)) as H.
    by rewrite !Nat2Z.id in H. }
  assert (Forall (λ c, (c < 256)%nat) (bwt_char T <$> pos)) as HL256.
  { rewrite HLT. apply reference_chars. }
  destruct (compute_first_occurrences_spec _ HL256) as (fo & Efo & Hfo).
  destruct (compute_checkpoint_arrs_spec _ HL256) as (cps & Ecps & Hcps).
  eexists _, pos. split.
  { unfold build_index, bwt_psa_out. rewrite Esa, bind_Some, Ebwt, bind_Some, Epsa.
    rewrite !bind_Some. cbv beta iota. rewrite Efo, bind_Some, Ecps, bind_Some. done. }
  split; [done|]. split.
  { intros a b i j Hab Hi Hj.
    pose proof (Hsorted a b _ _ Hab (Hlook _ _ Hi) (Hlook _ _ Hj)) as H.
    by rewrite !Nat2Z.id in H. }
  cbn [ix_bwt ix_rank ix_first ix_checkpoints ix_psa].
  split; [done|]. split; [done|]. split; [done|]. split; [done|].
  intros r x Hx. rewrite sample_rows_lookup, Nat2Z.id, (Hlook r x Hx), lookup_empty.
  destruct (decide (Z.of_nat x `mod` K = 0)) as [Hm|Hm].
  - rewrite bool_decide_eq_true_2; [done|]. split; [|done].
    rewrite Hperm. apply elem_of_seqZ. apply lookup_lt_Some in Hx.
    rewrite (Permutation_length Hpos), length_seq in Hx. lia.
  - by rewrite bool_decide_eq_false_2 by tauto.
Qed.

End reference.

(** C1, as the code has it. For a reference [R] over the code points
    37 .. 255 (above the sentinel, inside the 256-entry tables), text
    [R + '$'], any sample stride [K >= 1] and any non-empty substring [w] of
    [R]: the index is built without error; [bw_better_match_pattern] returns
    an interval [(lo, hi)] with [hi - lo] the number of occurrences of [w]
    in the text; and [compute_idxes_from_top_bot], once its inner loop may
    run [len(R) + 1] times, returns exactly the starting offsets of [w] in
    [R], as a multiset. *)
Theorem fm_index_search (R w : str) (K : Z) (fuel : nat) :
  Forall (λ c, (SENTINEL < c < 256)%nat) R → 1 ≤ K →
  w ≠ [] → (∃ x, occurs_at w R x) →
  (length R + 1 ≤ fuel)%nat →
  ∃ ix lo hi l,
    FM.build_index R K = Some ix
    ∧ FM.bw_better_match_pattern (FM.ix_bwt ix) w (FM.ix_first ix) (FM.ix_checkpoints ix)
      = Some (lo, hi)
    ∧ hi - lo = Z.of_nat (length (occurrences w (R ++ [SENTINEL])))
    ∧ FM.compute_idxes_from_top_bot fuel lo hi (FM.ix_psa ix) (FM.ix_bwt ix) (FM.ix_rank ix)
        (FM.ix_first ix) = Some l
    ∧ l ≡ₚ Z.of_nat <$> occurrences w R.
Proof.
  intros HR HK Hw [x Hx] Hfuel.
  destruct (build_index_spec R K HR HK)
    as (ix & pos & Eix & Hperm & Hsorted & Ebwt & Erank & Hfo & Hcps & Hpsa).
  pose proof (occurs_at_chars R w x Hx) as Hchars.
  assert (SENTINEL ∉ w) as Hsw.
  { intros Hin. rewrite Forall_forall in Hchars, HR. specialize (HR _ (Hchars _ Hin)).
    simpl in HR. lia. }
  rewrite Ebwt in Erank, Hfo, Hcps.
  destruct (find_occurrences (R ++ [SENTINEL]) pos K (FM.ix_first ix) (FM.ix_checkpoints ix)
              (FM.ix_psa ix) (reference_sentinel_text R HR) Hperm Hsorted
              (reference_chars R HR) Hfo Hcps Hpsa HK fuel w)
    as (lo & hi & Esearch & Hsize & l & El & Hl).
  - apply Forall_forall. intros c Hc. rewrite Forall_forall in Hchars, HR.
    specialize (HR _ (Hchars _ Hc)). simpl in HR. split; [|lia].
    apply elem_of_app. left. by apply Hchars.
  - exists x. by apply occurs_at_sentinel.
  - rewrite length_app. simpl. lia.
  - exists ix, lo, hi, l. rewrite Ebwt, Erank.
    rewrite occurrences_sentinel in Hl by done. done.
Qed.

Lemma fm_index_search_witness :
  ∃ ix lo hi l,
    FM.build_index (py "BANANA") 3 = Some ix
    ∧ FM.bw_better_match_pattern (FM.ix_bwt ix) (py "ANA") (FM.ix_first ix) (FM.ix_checkpoints ix)
      = Some (lo, hi)
    ∧ hi - lo = Z.of_nat (length (occurrences (py "ANA") (py "BANANA" ++ [SENTINEL])))
    ∧ FM.compute_idxes_from_top_bot 7 lo hi (FM.ix_psa ix) (FM.ix_bwt ix) (FM.ix_rank ix)
        (FM.ix_first ix) = Some l
    ∧ l ≡ₚ Z.of_nat <$> occurrences (py "ANA") (py "BANANA").
Proof.
  apply (fm_index_search (py "BANANA") (py "ANA") 3 7).
  - repeat constructor; vm_compute; lia.
  - lia.
  - discriminate.
  - exists 1%nat. reflexivity.
  - simpl. lia.
Defined.

(** C1, as the specification states it for every reference above the
    sentinel, fails on a code point beyond 255: for the one-character
    reference U+0100 the suffix array and the transform are built, and
    [compute_first_occurrences] raises on [counts[256]], so there is no
    index to search. *)
Lemma fm_index_search_counterexample :
  let R := [256%nat] in
  R ≠ [] ∧ Forall (λ c, (SENTINEL < c)%nat) R ∧ occurs_at R R 0
  ∧ SA.suffix_array (R ++ [SENTINEL]) = Some [1; 0]
  ∧ FM.bwt_from_suffix_array (R ++ [SENTINEL]) [1; 0] = Some [256%nat; SENTINEL]
  ∧ FM.compute_first_occurrences [256%nat; SENTINEL] = None
  ∧ FM.build_index R 1 = None.
Proof.
  split; [discriminate|]. split; [by repeat constructor|].
  repeat split; reflexivity.
Qed.

(* ===================================================================== *)
(** * Part IV: the recurrences behind the loops, and further properties    *)
(* ===================================================================== *)

(** ** The shape of a CIGAR string *)

Section cigar_shape.
Import Cigar.

Lemma canonical_nil : canonical [].
Proof. split; [constructor|]. intros i r r' H. by rewrite lookup_nil in H. Qed.

Lemma canonical_snoc runs n op :
  canonical runs → (0 < n)%nat → is_op op →
  (∀ r, last runs = Some r → may_follow r.2 op) →
  canonical (runs ++ [(n, op)]).
Proof.
  intros [Hall Hadj] Hn Hop Hlast. split.
  - apply Forall_app. split; [done|]. by apply Forall_singleton.
  - intros i r r' Hr Hr'.
    destruct (decide (S i < length runs)%nat) as [Hlt|Hge].
    + rewrite lookup_app_l in Hr, Hr' by lia. by eapply Hadj.
    + assert (S i = length runs) as Hi.
      { apply lookup_lt_Some in Hr'. rewrite length_app in Hr'. simpl in Hr'. lia. }
      rewrite lookup_app_l in Hr by lia.
      rewrite lookup_app_r, Hi, Nat.sub_diag in Hr' by lia. injection Hr' as <-.
      apply Hlast. rewrite last_lookup. by replace (pred (length runs)) with i by lia.
Qed.

Lemma is_op_M : is_op CH_M. Proof. by left. Qed.
Lemma is_op_I : is_op CH_I. Proof. by right; left. Qed.
Lemma is_op_D : is_op CH_D. Proof. by right; right. Qed.

Lemma op_cases r : is_op r → r ≠ CH_M → r = CH_I ∨ r = CH_D.
Proof. intros [?|[?|?]] ?; [done|by left|by right]. Qed.

Lemma shape_inv_init : shape_inv init.
Proof.
  exists []. split; [done|]. split; [apply canonical_nil|].
  split; [simpl; lia|]. split; [simpl; lia|done].
Qed.

(** After [flush_match]: no pending match, and the last run is [M] if
    there is a run at all. *)
Lemma shape_inv_flush_match st :
  shape_inv st →
  ∃ runs, cigar (flush_match st) = render runs ∧ canonical runs
    ∧ match_ (flush_match st) = 0%nat
    ∧ ins (flush_match st) = ins st ∧ del_ (flush_match st) = del_ st
    ∧ (∀ r, last runs = Some r → r.2 = CH_M)
    ∧ (ins st = 0%nat → del_ st = 0%nat → match_ st = 0%nat → runs = []).
Proof.
  intros (runs & Hc & Hcan & HM & HID & Hzero). unfold flush_match.
  case_bool_decide as Hm; simpl.
  - destruct (HM Hm) as (Hi & Hd & Hlast).
    exists (runs ++ [(match_ st, CH_M)]). rewrite render_snoc, Hc.
    split; [done|]. split.
    { apply canonical_snoc; [done|done|apply is_op_M|].
      intros r Hr. destruct Hcan as [Hall _].
      assert (is_op r.2) as Hop.
      { rewrite last_lookup in Hr. apply list_elem_of_lookup_2 in Hr.
        rewrite Forall_forall in Hall. by apply Hall. }
      destruct (op_cases _ Hop (Hlast r Hr)) as [-> | ->].
      - right. left. split; [done|by right].
      - right. right. done. }
    split; [done|]. split; [done|]. split; [done|]. split.
    + intros r. rewrite last_snoc. by intros [= <-].
    + lia.
  - exists runs. split; [done|]. split; [done|]. split; [lia|]. split; [done|].
    split; [done|]. split.
    + intros r Hr. destruct (decide (0 < ins st ∨ 0 < del_ st)%nat) as [Hid|Hid].
      * by apply (HID Hid).
      * rewrite Hzero in Hr by lia. done.
    + intros. apply Hzero; lia.
Qed.

Lemma shape_inv_step st col : shape_inv st → shape_inv (step st col).
Proof.
  intros Hinv. destruct col as [s t]. unfold step.
  destruct (bool_decide (s = DASH) && negb (bool_decide (t = DASH)));
    [|destruct (negb (bool_decide (s = DASH)) && bool_decide (t = DASH))].
  - destruct (shape_inv_flush_match st Hinv) as (runs & Hc & Hcan & Hm & Hi & Hd & Hlast & _).
    exists runs. simpl. split; [done|]. split; [done|]. rewrite Hm.
    split; [lia|]. split; [done|]. lia.
  - destruct (shape_inv_flush_match st Hinv) as (runs & Hc & Hcan & Hm & Hi & Hd & Hlast & _).
    exists runs. simpl. split; [done|]. split; [done|]. rewrite Hm.
    split; [lia|]. split; [done|]. lia.
  - destruct Hinv as (runs & Hc & Hcan & HM & HID & Hzero).
    (* the runs after flush_ins *)
    assert (∃ runs1, cigar (flush_ins st) = render runs1 ∧ canonical runs1
              ∧ (∀ r, last runs1 = Some r →
                   (r.2 = CH_I ∧ (0 < ins st)%nat)
                   ∨ (ins st = 0%nat ∧ last runs = Some r ∧ runs1 = runs))
              ∧ (ins st = 0%nat → runs1 = runs)) as (runs1 & Hc1 & Hcan1 & Hlast1 & Hsame1).
    { unfold flush_ins. case_bool_decide as Hi; simpl.
      - exists (runs ++ [(ins st, CH_I)]). rewrite render_snoc, Hc.
        split; [done|]. split.
        { apply canonical_snoc; [done|done|apply is_op_I|].
          intros r Hr. destruct (HID (or_introl Hi)) as [_ Hl]. rewrite (Hl r Hr).
          left. split; [done|by left]. }
        split; [|lia]. intros r. rewrite last_snoc. intros [= <-]. by left.
      - exists runs. split; [done|]. split; [done|]. split; [|done].
        intros r Hr. right. split; [lia|done]. }
    assert (match_ (flush_ins st) = match_ st ∧ del_ (flush_ins st) = del_ st
            ∧ ins (flush_ins st) = 0%nat) as (Em & Ed & Ei).
    { unfold flush_ins. case_bool_decide; simpl; lia. }
    assert (∃ runs2, cigar (flush_del (flush_ins st)) = render runs2 ∧ canonical runs2
              ∧ (∀ r, last runs2 = Some r → r.2 ≠ CH_M)) as (runs2 & Hc2 & Hcan2 & Hlast2).
    { unfold flush_del. rewrite Ed. case_bool_decide as Hd; simpl.
      - exists (runs1 ++ [(del_ st, CH_D)]). rewrite render_snoc, Hc1.
        split; [done|]. split.
        { apply canonical_snoc; [done|done|apply is_op_D|].
          intros r Hr. destruct (Hlast1 r Hr) as [[-> _]|(Hi0 & Hr0 & _)].
          - right. left. split; [done|by left].
          - destruct (HID (or_intror Hd)) as [_ Hl]. rewrite (Hl r Hr0).
            left. split; [done|by right]. }
        intros r. rewrite last_snoc. by intros [= <-].
      - exists runs1. split; [done|]. split; [done|].
        intros r Hr. destruct (Hlast1 r Hr) as [[-> _]|(Hi0 & Hr0 & _)]; [done|].
        destruct (decide (0 < match_ st)%nat) as [Hm|Hm].
        + destruct (HM Hm) as (_ & _ & Hl). by apply Hl.
        + rewrite Hzero in Hr0 by lia. done. }
    assert (match_ (flush_del (flush_ins st)) = match_ st
            ∧ ins (flush_del (flush_ins st)) = 0%nat
            ∧ del_ (flush_del (flush_ins st)) = 0%nat) as (Em2 & Ei2 & Ed2).
    { unfold flush_del. case_bool_decide; simpl; lia. }
    exists runs2. simpl. split; [done|]. split; [done|]. rewrite Ei2, Ed2.
    split; [done|]. split; lia.
Qed.

Lemma shape_inv_scan cols st : shape_inv st → shape_inv (fold_left step cols st).
Proof.
  revert st. induction cols as [|col cols IH]; intros st Hinv; [done|].
  simpl. apply IH. by apply shape_inv_step.
Qed.

Lemma shape_inv_finish st :
  shape_inv st → ∃ runs, finish st = render runs ∧ canonical runs.
Proof.
  intros Hinv. unfold finish.
  pose proof Hinv as (runs0 & Hc0 & Hcan0 & HM0 & HID0 & Hzero0).
  destruct (shape_inv_flush_match st Hinv) as (runs & Hc & Hcan & Hm & Hi & Hd & Hlast & _).
  set (st1 := flush_match st) in *.
  assert (∃ runs1, cigar (flush_ins st1) = render runs1 ∧ canonical runs1
            ∧ (∀ r, last runs1 = Some r → r.2 = CH_I ∨ r.2 = CH_M))
    as (runs1 & Hc1 & Hcan1 & Hlast1).
  { unfold flush_ins. case_bool_decide as Hi1; simpl.
    - exists (runs ++ [(ins st1, CH_I)]). rewrite render_snoc, Hc.
      split; [done|]. split.
      { apply canonical_snoc; [done|done|apply is_op_I|].
        intros r Hr. rewrite (Hlast r Hr). left. split; [done|by left]. }
      intros r. rewrite last_snoc. intros [= <-]. by left.
    - exists runs. split; [done|]. split; [done|]. intros r Hr. right. by apply Hlast. }
  assert (del_ (flush_ins st1) = del_ st1) as Ed.
  { unfold flush_ins. by case_bool_decide. }
  unfold flush_del. rewrite Ed. case_bool_decide as Hd1; simpl.
  - exists (runs1 ++ [(del_ st1, CH_D)]). rewrite render_snoc, Hc1.
    split; [done|].
    apply canonical_snoc; [done|done|apply is_op_D|].
    intros r Hr. destruct (Hlast1 r Hr) as [-> | ->].
    + right. left. split; [done|by left].
    + left. split; [done|by right].
  - by exists runs1.
Qed.

End cigar_shape.

(** ** Properties of [calculate_cigar] *)

(** X1. The CIGAR string reads back as runs that account for every column of
    the zipped alignment: a column with a gap in the first string only
    counts as D, one with a gap in the second only as I, every other
    column (a gap over a gap included) as M; the run lengths add up to the
    length of the shorter input. *)
Theorem calculate_cigar_columns (a b : str) :
  ∃ runs, cigar_runs (Cigar.calculate_cigar a b) = Some runs
    ∧ run_sum CH_M runs = length (filter col_M (zip a b))
    ∧ run_sum CH_I runs = length (filter col_I (zip a b))
    ∧ run_sum CH_D runs = length (filter col_D (zip a b))
    ∧ run_total runs = (length a `min` length b)%nat.
Proof.
  destruct (calculate_cigar_runs a b) as (runs & E & Htot & HM & HI & HD).
  exists runs. split; [done|]. split; [done|]. split; [done|]. split; [done|].
  rewrite Htot, HM, HI, HD, col_classes. apply length_zip_with.
Qed.

(** X2. The runs of a CIGAR string are never empty, two neighbouring runs never
    have the same operation, and a D run is never followed by an I run. *)
Theorem calculate_cigar_canonical (a b : str) :
  ∃ runs, cigar_runs (Cigar.calculate_cigar a b) = Some runs ∧ canonical runs.
Proof.
  destruct (shape_inv_finish (Cigar.scan a b)) as (runs & E & Hcan).
  { apply shape_inv_scan, shape_inv_init. }
  exists runs. split; [|done].
  unfold Cigar.calculate_cigar, Cigar.cigar_pieces. rewrite E.
  apply cigar_runs_render. destruct Hcan as [Hall _].
  eapply Forall_impl; [done|]. by intros r [_ ?].
Qed.

(** X3. The CIGAR string is empty exactly when one of the inputs is. *)
Theorem calculate_cigar_empty (a b : str) :
  Cigar.calculate_cigar a b = [] ↔ a = [] ∨ b = [].
Proof.
  split.
  - intros E. destruct (calculate_cigar_runs a b) as (runs & Er & Htot & HM & HI & HD).
    rewrite E in Er. injection Er as <-.
    pose proof (col_classes (zip a b)) as Hcols.
    rewrite <- HM, <- HI, <- HD in Hcols.
    change (0 + 0 + 0 = length (zip a b))%nat in Hcols.
    rewrite length_zip_with in Hcols.
    destruct a; [by left|]. destruct b; [by right|]. simpl in Hcols. lia.
  - intros [-> | ->]; [done|]. by destruct a.
Qed.

(** ** The score matrices as recurrences *)

Lemma grid_ind (P : nat → nat → Prop) :
  P 0%nat 0%nat → (∀ j, P 0%nat (S j)) → (∀ i, P (S i) 0%nat) →
  (∀ i j, P i (S j) → P (S i) j → P i j → P (S i) (S j)) →
  ∀ i j, P i j.
Proof.
  intros H00 H0 Hc Hstep. induction i as [|i IHi]; intros j.
  - destruct j; [done|apply H0].
  - induction j as [|j IHj]; [apply Hc|]. by apply Hstep.
Qed.

Lemma score_le_refl x : score_le x x.
Proof. destruct x; simpl; [done|lia]. Qed.

Lemma score_le_trans x y z : score_le x y → score_le y z → score_le x z.
Proof. destruct x, y, z; simpl; try done; lia. Qed.

Lemma score_le_add x y d e : score_le x y → d ≤ e → score_le (score_add x d) (score_add y e).
Proof. destruct x, y; simpl; try done; lia. Qed.

Lemma score_max_cases x y : score_max x y = x ∨ score_max x y = y.
Proof. unfold score_max. destruct (score_gt y x); [by right|by left]. Qed.

Lemma score_max_ub x y : score_le x (score_max x y) ∧ score_le y (score_max x y).
Proof.
  unfold score_max. destruct x as [|a], y as [|b]; simpl; try done; try lia.
  case_bool_decide; simpl; lia.
Qed.

Lemma score_max_lub x y z : score_le x z → score_le y z → score_le (score_max x y) z.
Proof. intros Hx Hy. by destruct (score_max_cases x y) as [->| ->]. Qed.

Lemma score_max_comm x y : score_max x y = score_max y x.
Proof.
  unfold score_max. destruct x as [|a], y as [|b]; simpl; try done.
  repeat case_bool_decide; try done; try lia. f_equal. lia.
Qed.

Lemma max3_cases a b c : max3 a b c = a ∨ max3 a b c = b ∨ max3 a b c = c.
Proof.
  unfold max3. destruct (score_max_cases (score_max a b) c) as [->| ->]; [|by right; right].
  destruct (score_max_cases a b) as [->| ->]; [by left|by right; left].
Qed.

Lemma max3_ub a b c :
  score_le a (max3 a b c) ∧ score_le b (max3 a b c) ∧ score_le c (max3 a b c).
Proof.
  unfold max3.
  destruct (score_max_ub a b) as [Ha Hb], (score_max_ub (score_max a b) c) as [Hab Hc].
  split; [|split]; [| |done]; by eapply score_le_trans.
Qed.

Lemma max3_lub a b c z : score_le a z → score_le b z → score_le c z → score_le (max3 a b c) z.
Proof. intros. unfold max3. by repeat apply score_max_lub. Qed.

Lemma max3_mono a b c a' b' c' :
  score_le a a' → score_le b b' → score_le c c' → score_le (max3 a b c) (max3 a' b' c').
Proof.
  intros Ha Hb Hc. destruct (max3_ub a' b' c') as (? & ? & ?).
  apply max3_lub; by eapply score_le_trans.
Qed.

Lemma max3_swap a b c : max3 a b c = max3 b a c.
Proof. unfold max3. by rewrite (score_max_comm a b). Qed.

Lemma foldr_add_app (l k : list Z) : foldr Z.add 0 (l ++ k) = foldr Z.add 0 l + foldr Z.add 0 k.
Proof. induction l as [|x l IH]; simpl; lia. Qed.

Lemma alignment_score_snoc mr mmp indp a b x y :
  length a = length b →
  alignment_score mr mmp indp (a ++ [x]) (b ++ [y])
  = alignment_score mr mmp indp a b + column_score mr mmp indp (x, y).
Proof.
  intros Hlen. unfold alignment_score.
  rewrite zip_with_app by done. rewrite fmap_app, foldr_add_app. simpl. lia.
Qed.

Lemma alignment_score_gaps_l mr mmp indp (l : str) :
  alignment_score mr mmp indp (replicate (length l) DASH) l = Z.of_nat (length l) * - indp.
Proof.
  unfold alignment_score. induction l as [|x l IH]; [done|].
  simpl length. simpl replicate. simpl zip. rewrite fmap_cons. simpl foldr. rewrite IH.
  unfold column_score. cbn [fst snd]. rewrite bool_decide_eq_true_2 by (by left). lia.
Qed.

Lemma alignment_score_gaps_r mr mmp indp (l : str) :
  alignment_score mr mmp indp l (replicate (length l) DASH) = Z.of_nat (length l) * - indp.
Proof.
  unfold alignment_score. induction l as [|x l IH]; [done|].
  simpl length. simpl replicate. simpl zip. rewrite fmap_cons. simpl foldr. rewrite IH.
  unfold column_score. cbn [fst snd]. rewrite bool_decide_eq_true_2 by (by right). lia.
Qed.

(** *** Floats that hold their integers exactly *)

Lemma round64_exact z : Z.abs z ≤ 2 ^ 53 → round64 z = z.
Proof.
  intros Hz. unfold round64. cbv zeta. case_bool_decide as He; [done|].
  assert (Z.abs z = 2 ^ 53) as Habs.
  { destruct (decide (Z.abs z = 0)) as [E0|Hne].
    { rewrite E0 in He. exfalso. apply He. by vm_compute. }
    destruct (Z.log2_spec (Z.abs z)) as [Hlo _]; [lia|].
    assert (2 ^ 53 ≤ 2 ^ Z.log2 (Z.abs z)) by (apply Z.pow_le_mono_r; lia). lia. }
  assert (z = 2 ^ 53 ∨ z = - 2 ^ 53) as [-> | ->] by lia; by vm_compute.
Qed.

Lemma float_ok_small z : Z.abs z ≤ 2 ^ 53 → float_ok z.
Proof.
  intros Hz. unfold float_ok.
  assert (2 ^ 53 < 2 ^ 1024 - 2 ^ 970) by (by vm_compute). lia.
Qed.

Lemma f64_round_exact z : Z.abs z ≤ 2 ^ 53 → f64_round z = F_fin z.
Proof.
  intros Hz. unfold f64_round.
  rewrite bool_decide_eq_true_2 by (by apply float_ok_small). by rewrite round64_exact.
Qed.

Lemma f64_plus_exact x d :
  (∀ a, x = Fin a → Z.abs (a + d) ≤ 2 ^ 53) →
  f64_plus (to_f64 x) d = to_f64 (score_add x d).
Proof.
  intros Hx. destruct x as [|a]; [done|]. simpl. apply f64_round_exact. by apply Hx.
Qed.

Lemma f64_max_exact x y : f64_max (to_f64 x) (to_f64 y) = to_f64 (score_max x y).
Proof.
  unfold f64_max, score_max. destruct x as [|a], y as [|b]; simpl; try done.
  by case_bool_decide.
Qed.

Lemma f64_max3_exact x y z :
  f64_max3 (to_f64 x) (to_f64 y) (to_f64 z) = to_f64 (max3 x y z).
Proof. unfold f64_max3, max3. by rewrite !f64_max_exact. Qed.

Lemma f64_max_comm x y : f64_max x y = f64_max y x.
Proof.
  unfold f64_max. destruct x as [|a|], y as [|b|]; simpl; try done.
  repeat case_bool_decide; try done; try lia. f_equal. lia.
Qed.

Lemma f64_max3_swap a b c : f64_max3 a b c = f64_max3 b a c.
Proof. unfold f64_max3. by rewrite (f64_max_comm a b). Qed.

(** A loop whose body raises at the elements that are not [ok]. *)
Lemma for_each_seq_guard {S} (I : nat → S → Prop) (ok : nat → bool)
    (body : nat → S → option S) (start len : nat) (st : S) :
  I start st →
  (∀ k st, (start ≤ k < start + len)%nat → I k st →
     if ok k then ∃ st', body k st = Some st' ∧ I (Datatypes.S k) st'
     else body k st = None) →
  if forallb ok (seq start len)
  then ∃ st', for_each body (seq start len) st = Some st' ∧ I (start + len)%nat st'
  else for_each body (seq start len) st = None.
Proof.
  revert start st. induction len as [|len IH]; intros start st HI Hstep; simpl.
  - exists st. split; [done|]. by rewrite Nat.add_0_r.
  - specialize (Hstep start st) as Hk. destruct (ok start); simpl.
    + destruct Hk as (st' & -> & HI'); [lia|done|]. simpl.
      specialize (IH (Datatypes.S start) st' HI').
      replace (start + Datatypes.S len)%nat with (Datatypes.S start + len)%nat by lia.
      apply IH. intros k st0 Hk. apply Hstep. lia.
    + rewrite Hk; [done|lia|done].
Qed.

Section scores.
Context (mr mmp indp bp : Z) (s t : str).
Import Banded.

Local Abbreviation n := (length s).
Local Abbreviation m := (length t).
Local Abbreviation banded := (banded_score mr mmp indp bp s t).
Local Abbreviation tracked := (backtrack_score mr mmp indp bp s t).
Local Abbreviation pointer := (backtrack_ptr mr mmp indp bp s t).
Local Abbreviation pair := (pair_score mr mmp s t).
Local Abbreviation band := (in_band bp).
Local Abbreviation fbanded := (banded_f64 mr mmp indp bp s t).
Local Abbreviation ok := (cell_ok mr mmp indp bp s t).
Local Abbreviation P := (Z.max (Z.abs mr) (Z.max (Z.abs mmp) (Z.abs indp))).

Lemma cells_are_write {A} (d : A) (f : nat → nat → A) l l' i j :
  cells_are d f n m i j l →
  entry l' i j = Some (f i j) →
  (∀ a c, (a, c) ≠ (i, j) → entry l' a c = entry l a c) →
  cells_are d f n m i (S j) l'.
Proof.
  intros Hok Hw Hother a c Ha Hc.
  destruct (decide ((a, c) = (i, j))) as [[= -> ->]|Hne].
  - rewrite Hw. rewrite decide_True; [done|]. right. lia.
  - rewrite (Hother _ _ Hne), (Hok a c Ha Hc).
    assert (c ≠ j ∨ a ≠ i) as Hd.
    { destruct (decide (a = i)) as [->|]; [|by right]. left. congruence. }
    destruct (decide (visited a c i j)) as [Hv|Hv];
      destruct (decide (visited a c i (S j))) as [Hv'|Hv']; try done;
      exfalso; unfold visited in *; lia.
Qed.

Lemma cells_are_skip {A} (d : A) (f : nat → nat → A) l i j :
  cells_are d f n m i j l → (i ≤ n)%nat → (j ≤ m)%nat → f i j = d →
  cells_are d f n m i (S j) l.
Proof.
  intros Hok Hi Hj Hf. apply (cells_are_write d f l l i j); try done.
  rewrite (Hok i j Hi Hj), Hf. by destruct (decide _).
Qed.

Lemma cells_are_next_row {A} (d : A) (f : nat → nat → A) l i :
  cells_are d f n m i (S m) l → cells_are d f n m (S i) 0 l.
Proof.
  intros Hok a c Ha Hc. rewrite (Hok a c Ha Hc).
  destruct (decide (visited a c i (S m))) as [Hv|Hv];
    destruct (decide (visited a c (S i) 0)) as [Hv'|Hv']; try done;
    exfalso; unfold visited in *; lia.
Qed.

Lemma cells_are_init {A} (d : A) (f : nat → nat → A) :
  cells_are d f n m 0 0 (replicate (n + 1) (replicate (m + 1) d)).
Proof.
  intros a c Ha Hc. rewrite entry_replicate by lia.
  rewrite decide_False; [done|]. unfold visited. lia.
Qed.

Lemma cells_are_visited {A} (d : A) (f : nat → nat → A) l i j a c :
  cells_are d f n m i j l → (a ≤ n)%nat → (c ≤ m)%nat → visited a c i j →
  entry l a c = Some (f a c).
Proof. intros Hok Ha Hc Hv. rewrite (Hok a c Ha Hc). by rewrite decide_True. Qed.

Lemma banded_score_S i j :
  banded (S i) (S j)
  = if band (S i) (S j)
    then max3 (score_add (banded i (S j)) (- indp))
              (score_add (banded (S i) j) (- indp))
              (score_add (banded i j) (pair i j))
    else NegInf.
Proof. done. Qed.

Lemma backtrack_score_S i j :
  tracked (S i) (S j)
  = if band (S i) (S j)
    then max3 (score_add (tracked i (S j)) (- indp))
              (score_add (tracked (S i) j) (- indp))
              (score_add (tracked i j) (pair i j))
    else NegInf.
Proof. done. Qed.

Lemma backtrack_score_0 j : tracked 0 j = Fin (Z.of_nat j * - indp).
Proof. by destruct j. Qed.

Lemma backtrack_score_col i : tracked i 0 = Fin (Z.of_nat i * - indp).
Proof. by destruct i. Qed.

Local Arguments banded_score : simpl never.
Local Arguments backtrack_score : simpl never.

Lemma pair_score_lookup i j si tj :
  s !! i = Some si → t !! j = Some tj →
  (if bool_decide (si = tj) then mr else - mmp) = pair i j.
Proof.
  intros Hs Ht. unfold pair_score. rewrite Hs, Ht.
  destruct (decide (si = tj)) as [->|Hne].
  - by rewrite !bool_decide_eq_true_2.
  - rewrite !bool_decide_eq_false_2; [done|congruence|done].
Qed.

Lemma banded_f64_S i j :
  fbanded (S i) (S j)
  = if band (S i) (S j)
    then f64_max3 (f64_plus (fbanded i (S j)) (- round64 indp))
                  (f64_plus (fbanded (S i) j) (- round64 indp))
                  (f64_plus (fbanded i j) (round64 (pair i j)))
    else F_ninf.
Proof. done. Qed.

Local Arguments banded_f64 : simpl never.

(** One iteration of the loops of [banded_alignment]: it raises where a
    conversion fails, and otherwise writes the cell that the float
    recurrence describes. *)
Lemma cell_f64_spec i j l :
  (i ≤ n)%nat → (j ≤ m)%nat →
  has_dims l (n + 1) (m + 1) → cells_are F_ninf fbanded n m i j l →
  if ok i j
  then ∃ l', cell mr mmp indp bp s t i j l = Some l'
         ∧ has_dims l' (n + 1) (m + 1) ∧ cells_are F_ninf fbanded n m i (S j) l'
  else cell mr mmp indp bp s t i j l = None.
Proof.
  intros Hi Hj Hl Hok. unfold cell, cell_ok.
  destruct i as [|i], j as [|j]; simpl bool_decide; cbv iota beta.
  - simpl andb. cbv iota.
    destruct (mset_entry l (n + 1) (m + 1) 0 0 (F_fin 0)) as (l' & E & Hl' & Hw & Hsame);
      [done|lia|lia|].
    exists l'. split; [done|]. split; [done|].
    by apply (cells_are_write F_ninf fbanded l l' 0 0).
  - simpl andb. cbv iota.
    assert (fbanded 0 (S j)
            = if band 0 (S j) then f64_round (Z.of_nat (S j) * - indp) else F_ninf)
      as Hb by done.
    unfold in_band in *. case_bool_decide as Hband; simpl negb; simpl orb.
    + unfold f64_of_int. unfold f64_round in Hb. case_bool_decide as Hfl; [|done].
      cbn [mbind option_bind].
      destruct (mset_entry l (n + 1) (m + 1) 0 (S j) (F_fin (round64 (Z.of_nat (S j) * - indp))))
        as (l' & E & Hl' & Hw & Hsame); [done|lia|lia|].
      exists l'. split; [done|]. split; [done|].
      apply (cells_are_write F_ninf fbanded l l' 0 (S j)); [done| |done]. by rewrite Hb.
    + exists l. split; [done|]. split; [done|]. by apply cells_are_skip.
  - simpl andb. cbv iota.
    assert (fbanded (S i) 0
            = if band (S i) 0 then f64_round (Z.of_nat (S i) * - indp) else F_ninf)
      as Hb by done.
    unfold in_band in *. case_bool_decide as Hband; simpl negb; simpl orb.
    + unfold f64_of_int. unfold f64_round in Hb. case_bool_decide as Hfl; [|done].
      cbn [mbind option_bind].
      destruct (mset_entry l (n + 1) (m + 1) (S i) 0 (F_fin (round64 (Z.of_nat (S i) * - indp))))
        as (l' & E & Hl' & Hw & Hsame); [done|lia|lia|].
      exists l'. split; [done|]. split; [done|].
      apply (cells_are_write F_ninf fbanded l l' (S i) 0); [done| |done]. by rewrite Hb.
    + exists l. split; [done|]. split; [done|]. by apply cells_are_skip.
  - simpl andb. cbv iota.
    pose proof (banded_f64_S i j) as Hb. unfold in_band in *.
    case_bool_decide as Hband; simpl negb; simpl orb.
    2:{ exists l. split; [done|]. split; [done|]. by apply cells_are_skip. }
    rewrite !py_get_pred by lia.
    replace (S i - 1)%nat with i by lia. replace (S j - 1)%nat with j by lia.
    destruct (lookup_lt_is_Some_2 s i) as [si Hsi]; [lia|].
    destruct (lookup_lt_is_Some_2 t j) as [tj Htj]; [lia|].
    rewrite Hsi, Htj. cbn [mbind option_bind].
    replace (Z.of_nat (S i) - 1) with (Z.of_nat i) by lia.
    replace (Z.of_nat (S j) - 1) with (Z.of_nat j) by lia.
    rewrite !mget_entry.
    rewrite (cells_are_visited F_ninf fbanded l (S i) (S j) i (S j))
      by (try done; unfold visited; lia).
    rewrite (cells_are_visited F_ninf fbanded l (S i) (S j) (S i) j)
      by (try done; unfold visited; lia).
    rewrite (cells_are_visited F_ninf fbanded l (S i) (S j) i j)
      by (try done; unfold visited; lia).
    cbn [mbind option_bind]. rewrite (pair_score_lookup i j si tj) by done.
    unfold f64_sub_int, f64_add_int.
    destruct (bool_decide (float_ok indp)); [|done]. cbn [mbind option_bind andb].
    destruct (bool_decide (float_ok (pair i j))); [|done]. cbn [mbind option_bind].
    rewrite <- Hb.
    destruct (mset_entry l (n + 1) (m + 1) (S i) (S j) (fbanded (S i) (S j)))
      as (l' & E & Hl' & Hw & Hsame); [done|lia|lia|].
    exists l'. split; [done|]. split; [done|].
    by apply (cells_are_write F_ninf fbanded l l' (S i) (S j)).
Qed.

(** The loops of [banded_alignment]: they raise if a conversion fails at
    some cell, and otherwise leave the float recurrence in the array. *)
Lemma fill_f64_spec :
  if forallb (λ i, forallb (ok i) (seq 0 (m + 1))) (seq 0 (n + 1))
  then ∃ l, fill mr mmp indp bp s t (replicate (n + 1) (replicate (m + 1) F_ninf)) = Some l
         ∧ has_dims l (n + 1) (m + 1)
         ∧ ∀ i j, (i ≤ n)%nat → (j ≤ m)%nat → entry l i j = Some (fbanded i j)
  else fill mr mmp indp bp s t (replicate (n + 1) (replicate (m + 1) F_ninf)) = None.
Proof.
  unfold fill.
  pose proof (for_each_seq_guard
                (λ i l, has_dims l (n + 1) (m + 1) ∧ cells_are F_ninf fbanded n m i 0 l)
                (λ i, forallb (ok i) (seq 0 (m + 1)))
                (λ i, for_each (λ j, cell mr mmp indp bp s t i j) (seq 0 (m + 1)))
                0 (n + 1) (replicate (n + 1) (replicate (m + 1) F_ninf))) as Hloop.
  cbv beta in Hloop.
  destruct (forallb _ (seq 0 (n + 1))).
  - destruct Hloop as (l & E & Hl & Hok).
    + split; [apply has_dims_replicate|apply cells_are_init].
    + intros i l Hi [Hl Hok].
      pose proof (for_each_seq_guard
                    (λ j l, has_dims l (n + 1) (m + 1) ∧ cells_are F_ninf fbanded n m i j l)
                    (ok i) (λ j, cell mr mmp indp bp s t i j) 0 (m + 1) l) as Hrow.
      cbv beta in Hrow. destruct (forallb (ok i) (seq 0 (m + 1))).
      * destruct Hrow as (l' & E & Hl' & Hok'); [done| |].
        { intros j l0 Hj [Hl0 Hok0].
          pose proof (cell_f64_spec i j l0) as Hc. destruct (ok i j).
          - destruct Hc as (l1 & ? & ? & ?); [lia|lia|done|done|]. by exists l1.
          - apply Hc; [lia|lia|done|done]. }
        exists l'. split; [done|]. split; [done|]. apply cells_are_next_row.
        by replace (S m) with (0 + (m + 1))%nat by lia.
      * apply Hrow; [done|].
        intros j l0 Hj [Hl0 Hok0].
        pose proof (cell_f64_spec i j l0) as Hc. destruct (ok i j).
        -- destruct Hc as (l1 & ? & ? & ?); [lia|lia|done|done|]. by exists l1.
        -- apply Hc; [lia|lia|done|done].
    + exists l. split; [done|]. split; [done|]. intros i j Hi Hj.
      apply (cells_are_visited F_ninf fbanded l (0 + (n + 1)) 0); try done. unfold visited. lia.
  - apply Hloop.
    + split; [apply has_dims_replicate|apply cells_are_init].
    + intros i l Hi [Hl Hok].
      pose proof (for_each_seq_guard
                    (λ j l, has_dims l (n + 1) (m + 1) ∧ cells_are F_ninf fbanded n m i j l)
                    (ok i) (λ j, cell mr mmp indp bp s t i j) 0 (m + 1) l) as Hrow.
      cbv beta in Hrow. destruct (forallb (ok i) (seq 0 (m + 1))).
      * destruct Hrow as (l' & E & Hl' & Hok'); [done| |].
        { intros j l0 Hj [Hl0 Hok0].
          pose proof (cell_f64_spec i j l0) as Hc. destruct (ok i j).
          - destruct Hc as (l1 & ? & ? & ?); [lia|lia|done|done|]. by exists l1.
          - apply Hc; [lia|lia|done|done]. }
        exists l'. split; [done|]. split; [done|]. apply cells_are_next_row.
        by replace (S m) with (0 + (m + 1))%nat by lia.
      * apply Hrow; [done|].
        intros j l0 Hj [Hl0 Hok0].
        pose proof (cell_f64_spec i j l0) as Hc. destruct (ok i j).
        -- destruct Hc as (l1 & ? & ? & ?); [lia|lia|done|done|]. by exists l1.
        -- apply Hc; [lia|lia|done|done].
Qed.

(** What [banded_alignment] returns or raises, whatever its arguments. *)
Lemma banded_alignment_f64 :
  banded_alignment mr mmp indp bp s t
  = if forallb (λ i, forallb (ok i) (seq 0 (m + 1))) (seq 0 (n + 1))
    then match fbanded n m with
         | F_ninf => Some NegInf
         | F_fin z => Some (Fin z)
         | F_pinf => None
         end
    else None.
Proof.
  pose proof fill_f64_spec as Hfill. unfold banded_alignment.
  destruct (forallb _ (seq 0 (n + 1))).
  - destruct Hfill as (l & -> & Hl & Hcells). cbn [mbind option_bind].
    rewrite mget_entry, Hcells by lia. done.
  - by rewrite Hfill.
Qed.

(** *** Parameters small enough for exact floats *)

Lemma banded_score_bound i j z :
  banded i j = Fin z → Z.abs z ≤ P * Z.of_nat (i + j).
Proof.
  revert z. revert i j.
  apply (grid_ind (λ i j, ∀ z, banded i j = Fin z → Z.abs z ≤ P * Z.of_nat (i + j))).
  - intros z [= <-]. lia.
  - intros j z. change (banded 0 (S j))
      with (if band 0 (S j) then Fin (Z.of_nat (S j) * - indp) else NegInf).
    destruct (band 0 (S j)); [|done]. intros [= <-]. nia.
  - intros i z. change (banded (S i) 0)
      with (if band (S i) 0 then Fin (Z.of_nat (S i) * - indp) else NegInf).
    destruct (band (S i) 0); [|done]. intros [= <-]. nia.
  - intros i j IHu IHl IHd z. rewrite banded_score_S.
    destruct (band (S i) (S j)); [|done].
    assert (Z.abs (pair i j) ≤ P) as Hpair.
    { unfold pair_score. case_bool_decide; lia. }
    destruct (max3_cases (score_add (banded i (S j)) (- indp))
                (score_add (banded (S i) j) (- indp))
                (score_add (banded i j) (pair i j))) as [-> | [-> | ->]].
    + destruct (banded i (S j)) as [|z0] eqn:E; [done|]. intros [= <-].
      specialize (IHu z0 eq_refl). nia.
    + destruct (banded (S i) j) as [|z0] eqn:E; [done|]. intros [= <-].
      specialize (IHl z0 eq_refl). nia.
    + destruct (banded i j) as [|z0] eqn:E; [done|]. intros [= <-].
      specialize (IHd z0 eq_refl). nia.
Qed.

Section exact_floats.
Hypothesis Hexact : scores_exact mr mmp indp n m.

Lemma exact_parameters : Z.abs mr ≤ 2 ^ 53 ∧ Z.abs mmp ≤ 2 ^ 53 ∧ Z.abs indp ≤ 2 ^ 53.
Proof. unfold scores_exact in Hexact. nia. Qed.


Lemma exact_columns k : (k ≤ n + m)%nat → P * Z.of_nat k ≤ 2 ^ 53.
Proof. intros Hk. unfold scores_exact in Hexact. nia. Qed.

(** Every conversion succeeds, and the float recurrence is the exact one. *)
Lemma banded_f64_exact i j :
  (i ≤ n)%nat → (j ≤ m)%nat → ok i j = true ∧ fbanded i j = to_f64 (banded i j).
Proof.
  revert i j.
  apply (grid_ind (λ i j, (i ≤ n)%nat → (j ≤ m)%nat →
                          ok i j = true ∧ fbanded i j = to_f64 (banded i j))).
  - done.
  - intros j _ Hj. unfold cell_ok.
    change (fbanded 0 (S j))
      with (if band 0 (S j) then f64_round (Z.of_nat (S j) * - indp) else F_ninf).
    change (banded 0 (S j))
      with (if band 0 (S j) then Fin (Z.of_nat (S j) * - indp) else NegInf).
    destruct (band 0 (S j)); [|done]. simpl negb. simpl orb.
    assert (Z.abs (Z.of_nat (S j) * - indp) ≤ 2 ^ 53) as Hb.
    { pose proof (exact_columns (S j)). nia. }
    rewrite bool_decide_eq_true_2 by (by apply float_ok_small).
    by rewrite f64_round_exact.
  - intros i Hi _. unfold cell_ok.
    change (fbanded (S i) 0)
      with (if band (S i) 0 then f64_round (Z.of_nat (S i) * - indp) else F_ninf).
    change (banded (S i) 0)
      with (if band (S i) 0 then Fin (Z.of_nat (S i) * - indp) else NegInf).
    destruct (band (S i) 0); [|done]. simpl negb. simpl orb.
    assert (Z.abs (Z.of_nat (S i) * - indp) ≤ 2 ^ 53) as Hb.
    { pose proof (exact_columns (S i)). nia. }
    rewrite bool_decide_eq_true_2 by (by apply float_ok_small).
    by rewrite f64_round_exact.
  - intros i j IHu IHl IHd Hi Hj.
    destruct IHu as [_ Eu]; [lia|lia|]. destruct IHl as [_ El]; [lia|lia|].
    destruct IHd as [_ Ed]; [lia|lia|].
    destruct exact_parameters as (Hmr & Hmmp & Hindp).
    assert (Z.abs (pair i j) ≤ P ∧ Z.abs (pair i j) ≤ 2 ^ 53) as [Hpair Hpair'].
    { unfold pair_score. case_bool_decide; lia. }
    unfold cell_ok. rewrite banded_f64_S, banded_score_S.
    destruct (band (S i) (S j)); [|done]. simpl negb. simpl orb.
    rewrite !bool_decide_eq_true_2 by (by apply float_ok_small). split; [done|].
    rewrite !round64_exact by done. rewrite Eu, El, Ed.
    pose proof (exact_columns (S i + S j)) as Hcol.
    rewrite !f64_plus_exact, f64_max3_exact; [done| | |].
    + intros a Ha. pose proof (banded_score_bound _ _ _ Ha). nia.
    + intros a Ha. pose proof (banded_score_bound _ _ _ Ha). nia.
    + intros a Ha. pose proof (banded_score_bound _ _ _ Ha). nia.
Qed.

(** With such parameters [banded_alignment] returns, and what it returns
    is the last cell of the exact recurrence. *)
Lemma banded_alignment_spec :
  banded_alignment mr mmp indp bp s t = Some (banded n m).
Proof.
  rewrite banded_alignment_f64.
  assert (forallb (λ i, forallb (ok i) (seq 0 (m + 1))) (seq 0 (n + 1)) = true) as ->.
  { apply forallb_forall. intros i Hi%list_elem_of_In%elem_of_seq.
    apply forallb_forall. intros j Hj%list_elem_of_In%elem_of_seq.
    apply banded_f64_exact; lia. }
  destruct (banded_f64_exact n m) as [_ ->]; [lia|lia|]. by destruct (banded n m).
Qed.

End exact_floats.

Lemma ptrs_are_step f b b' i j :
  ptrs_are f n m i j b →
  (∀ a c, (S a, S c) = (i, j) → (a < n)%nat → (c < m)%nat → entry b' a c = Some (f a c)) →
  (∀ a c, (S a, S c) ≠ (i, j) → entry b' a c = entry b a c) →
  ptrs_are f n m i (S j) b'.
Proof.
  intros Hok Hw Hother a c Ha Hc.
  destruct (decide ((S a, S c) = (i, j))) as [Heq|Hne].
  - rewrite (Hw a c Heq Ha Hc). injection Heq as <- <-.
    rewrite decide_True; [done|]. right. lia.
  - rewrite (Hother _ _ Hne), (Hok a c Ha Hc).
    assert (S c ≠ j ∨ S a ≠ i) as Hd.
    { destruct (decide (S a = i)) as [<-|]; [|by right]. left. congruence. }
    destruct (decide (visited (S a) (S c) i j)) as [Hv|Hv];
      destruct (decide (visited (S a) (S c) i (S j))) as [Hv'|Hv']; try done;
      exfalso; unfold visited in *; lia.
Qed.

Lemma ptrs_are_border f b i j :
  ptrs_are f n m i j b → i = 0%nat ∨ j = 0%nat → ptrs_are f n m i (S j) b.
Proof.
  intros Hok Hij. apply (ptrs_are_step f b b i j); [done| |done].
  intros a c [= <- <-]. lia.
Qed.

Lemma ptrs_are_next_row f b i :
  ptrs_are f n m i (S m) b → ptrs_are f n m (S i) 0 b.
Proof.
  intros Hok a c Ha Hc. rewrite (Hok a c Ha Hc).
  destruct (decide (visited (S a) (S c) i (S m))) as [Hv|Hv];
    destruct (decide (visited (S a) (S c) (S i) 0)) as [Hv'|Hv']; try done;
    exfalso; unfold visited in *; lia.
Qed.

Lemma ptrs_are_init f : ptrs_are f n m 0 0 (replicate n (replicate m None)).
Proof.
  intros a c Ha Hc. rewrite entry_replicate by lia.
  rewrite decide_False; [done|]. unfold visited. lia.
Qed.

(** *** Which cells hold a number *)

Lemma banded_score_fin i j :
  (∃ z, banded i j = Fin z) ↔ (i = 0%nat ∧ j = 0%nat) ∨ Z.abs (Z.of_nat j - Z.of_nat i) < bp.
Proof.
  revert i j. apply grid_ind.
  - split; [by left|]. intros _. by exists 0.
  - intros j. change (banded 0 (S j))
      with (if band 0 (S j) then Fin (Z.of_nat (S j) * - indp) else NegInf).
    unfold in_band. case_bool_decide as Hb.
    + split; [by right|]. intros _. by eexists.
    + split; [by intros [z ?]|]. intros [[_ ?]|?]; done.
  - intros i. change (banded (S i) 0)
      with (if band (S i) 0 then Fin (Z.of_nat (S i) * - indp) else NegInf).
    unfold in_band. case_bool_decide as Hb.
    + split; [by right|]. intros _. by eexists.
    + split; [by intros [z ?]|]. intros [[? _]|?]; done.
  - intros i j _ _ IH. rewrite banded_score_S. unfold in_band.
    case_bool_decide as Hb.
    + split; [by right|]. intros _.
      destruct (proj2 IH) as [z ->].
      { right. lia. }
      apply max3_diag_fin.
    + split; [by intros [z ?]|]. intros [[? _]|?]; done.
Qed.

Lemma backtrack_score_fin i j : (∃ z, tracked i j = Fin z) ↔ in_region bp i j.
Proof.
  revert i j. apply grid_ind.
  - split; [by left|]. intros _. by eexists.
  - intros j. split; [by left|]. intros _. by eexists.
  - intros i. split; [by right; left|]. intros _. by eexists.
  - intros i j _ _ IH. rewrite backtrack_score_S. unfold in_band, in_region in *.
    case_bool_decide as Hb.
    + split; [by right; right|]. intros _.
      destruct (proj2 IH) as [z ->].
      { right. right. lia. }
      apply max3_diag_fin.
    + split; [by intros [z ?]|]. intros [?|[?|?]]; done.
Qed.

Local Abbreviation tracked_inv := (tracked_inv mr mmp indp bp s t).

(** The indel penalty meets [float('-inf')] only where a cell has
    neighbours: in a matrix of more than one row and more than one column.
    The match reward and the mismatch penalty never do: the diagonal
    neighbour of a cell in the band holds an integer. *)
Section list_matrix.
Hypothesis Hfl : n ≠ 0%nat → m ≠ 0%nat → float_ok indp.

Lemma cell_bt_spec i j lb :
  (i ≤ n)%nat → (j ≤ m)%nat → tracked_inv i j lb →
  ∃ lb', cell_bt mr mmp indp bp s t i j lb = Some lb' ∧ tracked_inv i (S j) lb'.
Proof.
  intros Hi Hj. destruct lb as [l b]. intros (Hl & Hb & Hok & Hptr). simpl in *.
  unfold cell_bt.
  destruct i as [|i], j as [|j]; simpl bool_decide; cbv iota beta.
  - simpl andb. cbv iota.
    destruct (mset_entry l (n + 1) (m + 1) 0 0 (Fin 0)) as (l1 & E1 & Hl1 & Hw1 & Hsame1);
      [done|lia|lia|].
    rewrite E1. simpl.
    destruct (mset_entry l1 (n + 1) (m + 1) 0 0 (Fin (Z.of_nat 0 * - indp)))
      as (l2 & E2 & Hl2 & Hw2 & Hsame2); [done|lia|lia|].
    rewrite E2. simpl. eexists. split; [done|].
    split; [done|]. split; [done|]. simpl. split.
    + apply (cells_are_write NegInf tracked l l2 0 0); [done|done|].
      intros a c Hne. rewrite Hsame2 by done. by apply Hsame1.
    + apply ptrs_are_border; [done|by left].
  - simpl andb. cbv iota. simpl.
    destruct (mset_entry l (n + 1) (m + 1) 0 (S j) (Fin (Z.of_nat (S j) * - indp)))
      as (l2 & E2 & Hl2 & Hw2 & Hsame2); [done|lia|lia|].
    rewrite E2. simpl. eexists. split; [done|].
    split; [done|]. split; [done|]. simpl. split.
    + by apply (cells_are_write NegInf tracked l l2 0 (S j)).
    + apply ptrs_are_border; [done|by left].
  - simpl andb. cbv iota. simpl.
    destruct (mset_entry l (n + 1) (m + 1) (S i) 0 (Fin (Z.of_nat (S i) * - indp)))
      as (l2 & E2 & Hl2 & Hw2 & Hsame2); [done|lia|lia|].
    rewrite E2. simpl. eexists. split; [done|].
    split; [done|]. split; [done|]. simpl. split.
    + by apply (cells_are_write NegInf tracked l l2 (S i) 0).
    + apply ptrs_are_border; [done|by right].
  - simpl andb. cbv iota. simpl mbind at 1.
    pose proof (backtrack_score_S i j) as Hv.
    assert (pointer i j = pointer i j) as Hp by done.
    unfold backtrack_ptr in Hp at 2. unfold in_band in Hv, Hp.
    case_bool_decide as Hband.
    2:{ exists (l, b). split; [done|]. split; [done|]. split; [done|]. simpl. split.
        - by apply cells_are_skip.
        - apply (ptrs_are_step pointer b b (S i) (S j)); [done| |done].
          intros a c [= -> ->] _ _. rewrite (Hptr i j) by lia.
          rewrite decide_False by (unfold visited; lia). by rewrite Hp. }
    rewrite !py_get_pred by lia.
    replace (S i - 1)%nat with i by lia. replace (S j - 1)%nat with j by lia.
    destruct (lookup_lt_is_Some_2 s i) as [si Hsi]; [lia|].
    destruct (lookup_lt_is_Some_2 t j) as [tj Htj]; [lia|].
    rewrite Hsi, Htj. simpl.
    replace (Z.of_nat (S i) - 1) with (Z.of_nat i) by lia.
    replace (Z.of_nat (S j) - 1) with (Z.of_nat j) by lia.
    rewrite !mget_entry.
    rewrite (cells_are_visited NegInf tracked l (S i) (S j) i (S j)) by (try done; unfold visited; lia).
    rewrite (cells_are_visited NegInf tracked l (S i) (S j) (S i) j) by (try done; unfold visited; lia).
    rewrite (cells_are_visited NegInf tracked l (S i) (S j) i j) by (try done; unfold visited; lia).
    cbn [mbind option_bind]. rewrite (pair_score_lookup i j si tj) by done.
    rewrite !py_sub_ok by (apply Hfl; lia). cbn [mbind option_bind].
    destruct (proj2 (backtrack_score_fin i j)) as [zd Hzd].
    { unfold in_region. right. right. lia. }
    replace (py_add (tracked i j) (pair i j)) with (Some (score_add (tracked i j) (pair i j)))
      by (by rewrite Hzd).
    cbn [mbind option_bind].
    rewrite <- Hv.
    destruct (mset_entry l (n + 1) (m + 1) (S i) (S j) (tracked (S i) (S j)))
      as (l' & E & Hl' & Hw & Hsame); [done|lia|lia|].
    rewrite E. simpl.
    assert (cells_are NegInf tracked n m (S i) (S (S j)) l') as Hok'.
    { by apply (cells_are_write NegInf tracked l l' (S i) (S j)). }
    assert (∀ p, pointer i j = p →
              ∃ b', mset b (Z.of_nat i) (Z.of_nat j) p = Some b' ∧ has_dims b' n m
                ∧ ptrs_are pointer n m (S i) (S (S j)) b') as Hbset.
    { intros p Hpp. destruct (mset_entry b n m i j p) as (b' & E' & Hb' & Hw' & Hsame');
        [done|lia|lia|].
      exists b'. split; [done|]. split; [done|].
      apply (ptrs_are_step pointer b b' (S i) (S j)); [done| |].
      - intros a c [= -> ->] _ _. by rewrite Hpp.
      - intros a c Hne. apply Hsame'. congruence. }
    destruct (decide (tracked (S i) (S j) = score_add (tracked i (S j)) (- indp))) as [H1|H1].
    { rewrite (bool_decide_eq_true_2 _ H1) in Hp |- *.
      destruct (Hbset (Some P_d)) as (b' & -> & Hb' & Hptr'); [done|].
      simpl. eexists. split; [done|]. split; [done|]. split; [done|]. by split. }
    rewrite (bool_decide_eq_false_2 _ H1) in Hp |- *.
    destruct (decide (tracked (S i) (S j) = score_add (tracked (S i) j) (- indp))) as [H2|H2].
    { rewrite (bool_decide_eq_true_2 _ H2) in Hp |- *.
      destruct (Hbset (Some P_r)) as (b' & -> & Hb' & Hptr'); [done|].
      simpl. eexists. split; [done|]. split; [done|]. split; [done|]. by split. }
    rewrite (bool_decide_eq_false_2 _ H2) in Hp |- *.
    destruct (decide (tracked (S i) (S j) = score_add (tracked i j) (pair i j))) as [H3|H3].
    { rewrite (bool_decide_eq_true_2 _ H3) in Hp |- *.
      destruct (Hbset (Some P_dr)) as (b' & -> & Hb' & Hptr'); [done|].
      simpl. eexists. split; [done|]. split; [done|]. split; [done|]. by split. }
    rewrite (bool_decide_eq_false_2 _ H3) in Hp |- *.
    eexists. split; [done|]. split; [done|]. split; [done|]. split; [done|]. simpl.
    apply (ptrs_are_step pointer b b (S i) (S j)); [done| |done].
    intros a c [= -> ->] _ _. rewrite (Hptr i j) by lia.
    rewrite decide_False by (unfold visited; lia). by rewrite Hp.
Qed.

Lemma matrices_bt_spec :
  ∃ l b, matrices_bt mr mmp indp bp s t = Some (l, b)
    ∧ has_dims l (n + 1) (m + 1) ∧ has_dims b n m
    ∧ (∀ i j, (i ≤ n)%nat → (j ≤ m)%nat → entry l i j = Some (tracked i j))
    ∧ (∀ i j, (i < n)%nat → (j < m)%nat → entry b i j = Some (pointer i j)).
Proof.
  unfold matrices_bt, fill_bt.
  destruct (for_each_seq_inv (λ i, tracked_inv i 0)
              (λ i, for_each (λ j, cell_bt mr mmp indp bp s t i j) (seq 0 (m + 1)))
              0 (n + 1)
              (replicate (n + 1) (replicate (m + 1) NegInf), replicate n (replicate m None)))
    as ([l b] & E & Hl & Hb & Hok & Hptr).
  - split; [apply has_dims_replicate|]. split; [apply has_dims_replicate|].
    split; [apply cells_are_init|apply ptrs_are_init].
  - intros i lb Hi Hinv.
    destruct (for_each_seq_inv (λ j, tracked_inv i j)
                (λ j, cell_bt mr mmp indp bp s t i j) 0 (m + 1) lb) as (lb' & E & Hinv').
    + done.
    + intros j st Hj. apply cell_bt_spec; lia.
    + exists lb'. split; [done|]. destruct Hinv' as (? & ? & Hok & Hptr).
      split; [done|]. split; [done|]. split.
      * apply cells_are_next_row. by replace (S m) with (0 + (m + 1))%nat by lia.
      * apply ptrs_are_next_row. by replace (S m) with (0 + (m + 1))%nat by lia.
  - simpl in *. exists l, b. split; [done|]. split; [done|]. split; [done|]. split.
    + intros i j Hi Hj.
      apply (cells_are_visited NegInf tracked l (0 + (n + 1)) 0); try done. unfold visited. lia.
    + intros i j Hi Hj. rewrite (Hptr i j) by done.
      rewrite decide_True; [done|]. unfold visited. lia.
Qed.

End list_matrix.

(** *** The two matrices compared *)

Lemma banded_le_backtrack i j : score_le (banded i j) (tracked i j).
Proof.
  revert i j. apply grid_ind.
  - simpl. done.
  - intros j. rewrite backtrack_score_0.
    change (banded 0 (S j))
      with (if band 0 (S j) then Fin (Z.of_nat (S j) * - indp) else NegInf).
    destruct (band 0 (S j)); simpl; [lia|done].
  - intros i. rewrite backtrack_score_col.
    change (banded (S i) 0)
      with (if band (S i) 0 then Fin (Z.of_nat (S i) * - indp) else NegInf).
    destruct (band (S i) 0); simpl; [lia|done].
  - intros i j IH1 IH2 IH3. rewrite banded_score_S, backtrack_score_S.
    destruct (band (S i) (S j)); [|done].
    apply max3_mono; by apply score_le_add.
Qed.

Lemma banded_eq_backtrack i j :
  Z.of_nat (i `max` j) < bp → banded i j = tracked i j.
Proof.
  revert i j.
  apply (grid_ind (λ i j, Z.of_nat (i `max` j) < bp → banded i j = tracked i j)).
  - done.
  - intros j Hb. rewrite backtrack_score_0.
    change (banded 0 (S j))
      with (if band 0 (S j) then Fin (Z.of_nat (S j) * - indp) else NegInf).
    unfold in_band. rewrite bool_decide_eq_true_2; [done|lia].
  - intros i Hb. rewrite backtrack_score_col.
    change (banded (S i) 0)
      with (if band (S i) 0 then Fin (Z.of_nat (S i) * - indp) else NegInf).
    unfold in_band. rewrite bool_decide_eq_true_2; [done|lia].
  - intros i j IH1 IH2 IH3 Hb. rewrite banded_score_S, backtrack_score_S.
    rewrite IH1, IH2, IH3 by lia. done.
Qed.

(** *** Bounds on the scores *)

Section bounds.
Hypothesis Hmr : 0 ≤ mr.
Hypothesis Hindp : 0 ≤ indp.
Hypothesis Hmmp : - mmp ≤ mr.

Lemma pair_score_le i j : pair i j ≤ mr.
Proof. unfold pair_score. case_bool_decide; lia. Qed.

Lemma backtrack_score_ub i j :
  score_le (tracked i j) (Fin (mr * Z.of_nat (i `min` j))).
Proof.
  revert i j. apply grid_ind.
  - simpl. lia.
  - intros j. rewrite backtrack_score_0. simpl. nia.
  - intros i. rewrite backtrack_score_col. simpl. nia.
  - intros i j IH1 IH2 IH3. rewrite backtrack_score_S.
    destruct (band (S i) (S j)); [|done].
    pose proof (pair_score_le i j).
    apply max3_lub.
    + destruct (tracked i (S j)) as [|z]; [done|]. unfold score_add, score_le in *.
      assert (Z.of_nat (i `min` S j) ≤ Z.of_nat (S i `min` S j)) by lia. nia.
    + destruct (tracked (S i) j) as [|z]; [done|]. unfold score_add, score_le in *.
      assert (Z.of_nat (S i `min` j) ≤ Z.of_nat (S i `min` S j)) by lia. nia.
    + destruct (tracked i j) as [|z]; [done|]. unfold score_add, score_le in *.
      assert (Z.of_nat (S i `min` S j) = Z.of_nat (i `min` j) + 1) by lia. nia.
Qed.

Lemma banded_score_ub i j :
  score_le (banded i j) (Fin (mr * Z.of_nat (i `min` j))).
Proof.
  eapply score_le_trans; [apply banded_le_backtrack|apply backtrack_score_ub].
Qed.

End bounds.

(** *** Equal prefixes lie on the diagonal *)

Lemma take_S_eq i :
  (i < n)%nat → (i < m)%nat →
  take (S i) s = take (S i) t ↔ take i s = take i t ∧ s !! i = t !! i.
Proof.
  intros Hi Hj.
  destruct (lookup_lt_is_Some_2 s i) as [si Hsi]; [lia|].
  destruct (lookup_lt_is_Some_2 t i) as [ti Hti]; [lia|].
  rewrite (take_S_r s i si), (take_S_r t i ti), Hsi, Hti by done. split.
  - intros H. apply app_inj_2 in H as [? [= ->]]; done.
  - intros [-> [= ->]]. done.
Qed.

Lemma banded_score_diag i :
  1 ≤ bp → (i ≤ n)%nat → (i ≤ m)%nat → take i s = take i t →
  score_le (Fin (mr * Z.of_nat i)) (banded i i).
Proof.
  intros Hbp. induction i as [|i IH]; intros Hi Hj Heq.
  - simpl. lia.
  - apply take_S_eq in Heq as [Heq Hc]; [|lia|lia].
    rewrite banded_score_S. unfold in_band. rewrite bool_decide_eq_true_2 by lia.
    eapply score_le_trans; [|apply max3_ub].
    assert (pair i i = mr) as ->.
    { unfold pair_score. by rewrite bool_decide_eq_true_2. }
    specialize (IH ltac:(lia) ltac:(lia) Heq).
    destruct (banded i i) as [|z]; simpl in *; [done|lia].
Qed.

Section exact.
Hypothesis Hmr : 0 ≤ mr.
Hypothesis Hindp : 0 < indp.
Hypothesis Hmmp : - mmp < mr.

Lemma off_diagonal_lt i z (x : score) :
  score_le x (Fin (mr * Z.of_nat i)) → score_add x (- indp) = Fin z → z < mr * Z.of_nat (S i).
Proof. destruct x as [|y]; simpl; [done|]. intros ? [= <-]. nia. Qed.

Lemma backtrack_score_exact i :
  (i ≤ n)%nat → (i ≤ m)%nat → tracked i i = Fin (mr * Z.of_nat i) → take i s = take i t.
Proof.
  induction i as [|i IH]; intros Hi Hj Hv; [by rewrite !take_0|].
  rewrite backtrack_score_S in Hv. destruct (band (S i) (S i)); [|done].
  pose proof (backtrack_score_ub ltac:(lia) ltac:(lia) ltac:(lia) i (S i)) as Hup.
  pose proof (backtrack_score_ub ltac:(lia) ltac:(lia) ltac:(lia) (S i) i) as Hleft.
  pose proof (backtrack_score_ub ltac:(lia) ltac:(lia) ltac:(lia) i i) as Hdiag.
  replace (i `min` S i)%nat with i in Hup by lia.
  replace (S i `min` i)%nat with i in Hleft by lia.
  replace (i `min` i)%nat with i in Hdiag by lia.
  destruct (max3_cases (score_add (tracked i (S i)) (- indp))
              (score_add (tracked (S i) i) (- indp))
              (score_add (tracked i i) (pair i i))) as [E|[E|E]];
    rewrite E in Hv.
  - pose proof (off_diagonal_lt _ _ _ Hup Hv). lia.
  - pose proof (off_diagonal_lt _ _ _ Hleft Hv). lia.
  - destruct (tracked i i) as [|z] eqn:Ez; [done|]. simpl in Hv, Hdiag.
    injection Hv as Hv. unfold pair_score in Hv.
    case_bool_decide as Hc; [|nia].
    apply take_S_eq; [lia|lia|]. split; [|done]. apply IH; [lia|lia|].
    f_equal. nia.
Qed.

Lemma backtrack_score_equal i :
  1 ≤ bp → (i ≤ n)%nat → (i ≤ m)%nat → take i s = take i t →
  tracked i i = Fin (mr * Z.of_nat i).
Proof.
  intros Hbp Hi Hj Heq.
  pose proof (banded_score_diag i Hbp Hi Hj Heq) as Hlo.
  pose proof (banded_le_backtrack i i) as Hle.
  pose proof (backtrack_score_ub ltac:(lia) ltac:(lia) ltac:(lia) i i) as Hub.
  replace (i `min` i)%nat with i in Hub by lia.
  destruct (banded i i) as [|y]; [done|].
  destruct (tracked i i) as [|z]; [done|]. simpl in *. f_equal. lia.
Qed.

Lemma backtrack_ptr_equal i :
  1 ≤ bp → (i < n)%nat → (i < m)%nat → take (S i) s = take (S i) t →
  pointer i i = Some P_dr.
Proof.
  intros Hbp Hi Hj Heq.
  pose proof (backtrack_score_equal (S i) Hbp ltac:(lia) ltac:(lia) Heq) as Hv.
  apply take_S_eq in Heq as [Heq Hc]; [|lia|lia].
  pose proof (backtrack_score_equal i Hbp ltac:(lia) ltac:(lia) Heq) as Hd.
  pose proof (backtrack_score_ub ltac:(lia) ltac:(lia) ltac:(lia) i (S i)) as Hup.
  pose proof (backtrack_score_ub ltac:(lia) ltac:(lia) ltac:(lia) (S i) i) as Hleft.
  replace (i `min` S i)%nat with i in Hup by lia.
  replace (S i `min` i)%nat with i in Hleft by lia.
  unfold backtrack_ptr, in_band. rewrite bool_decide_eq_true_2 by lia.
  rewrite Hv, Hd. cbv zeta.
  rewrite bool_decide_eq_false_2.
  2:{ intros E. symmetry in E. pose proof (off_diagonal_lt _ _ _ Hup E). lia. }
  rewrite bool_decide_eq_false_2.
  2:{ intros E. symmetry in E. pose proof (off_diagonal_lt _ _ _ Hleft E). lia. }
  rewrite bool_decide_eq_true_2; [done|].
  unfold pair_score. rewrite bool_decide_eq_true_2 by done. simpl. f_equal. lia.
Qed.

End exact.

(** *** What [backtrack] does with the pointers of the matrix *)

Local Arguments backtrack_walk : simpl never.

Section walk.
Context (b : list (list (option ptr))).
Hypothesis Hb : ∀ a c, (a < n)%nat → (c < m)%nat → entry b a c = Some (pointer a c).

(** Along equal prefixes the pointers are diagonal, and [backtrack] returns
    the prefixes as they are. *)
Lemma backtrack_equal i :
  0 ≤ mr → 0 < indp → - mmp < mr → 1 ≤ bp →
  (i ≤ n)%nat → (i ≤ m)%nat → take i s = take i t →
  backtrack_walk bp s t b i i = Some (take i s, take i t).
Proof.
  intros Hmr Hindp Hmmp Hbp. induction i as [|i IH]; intros Hi Hj Heq; [done|].
  rewrite backtrack_unfold, mget_entry, Hb by lia.
  rewrite (backtrack_ptr_equal Hmr Hindp Hmmp i) by (done || lia). simpl.
  apply take_S_eq in Heq as [Heq Hc]; [|lia|lia].
  rewrite IH by (done || lia). simpl. rewrite !py_get_nat.
  destruct (lookup_lt_is_Some_2 s i) as [si Hsi]; [lia|].
  destruct (lookup_lt_is_Some_2 t i) as [ti Hti]; [lia|].
  rewrite Hsi, Hti. simpl.
  by rewrite (take_S_r s i si), (take_S_r t i ti).
Qed.

(** From a cell that holds a number, [backtrack] returns an alignment of
    the two prefixes whose score is that number. *)
Lemma backtrack_scored i j :
  DASH ∉ s → DASH ∉ t →
  (i ≤ n)%nat → (j ≤ m)%nat → in_region bp i j →
  ∃ sa ta z, backtrack_walk bp s t b i j = Some (sa, ta)
    ∧ length sa = length ta
    ∧ tracked i j = Fin z
    ∧ alignment_score mr mmp indp sa ta = z.
Proof.
  intros Hs Ht. revert i j.
  apply (grid_ind (λ i j, (i ≤ n)%nat → (j ≤ m)%nat → in_region bp i j →
    ∃ sa ta z, backtrack_walk bp s t b i j = Some (sa, ta)
      ∧ length sa = length ta ∧ tracked i j = Fin z
      ∧ alignment_score mr mmp indp sa ta = z)).
  - intros _ _ _. exists [], [], 0. done.
  - intros j _ Hj _. rewrite backtrack_first_row, py_slice_prefix, backtrack_score_0.
    unfold py_repeat. rewrite Nat2Z.id.
    eexists _, _, _. split; [done|]. split; [|split; [done|]].
    + rewrite length_replicate, length_take. lia.
    + replace (S j) with (length (take (S j) t)) at 1 by (rewrite length_take; lia).
      rewrite alignment_score_gaps_l, length_take. f_equal. lia.
  - intros i Hi _ _. rewrite backtrack_first_col, py_slice_prefix, backtrack_score_col.
    unfold py_repeat. rewrite Nat2Z.id.
    eexists _, _, _. split; [done|]. split; [|split; [done|]].
    + rewrite length_replicate, length_take. lia.
    + replace (S i) with (length (take (S i) s)) at 2 by (rewrite length_take; lia).
      rewrite alignment_score_gaps_r, length_take. f_equal. lia.
  - intros i j IH1 IH2 IH3 Hi Hj Hreg.
    assert (Z.abs (Z.of_nat (S j) - Z.of_nat (S i)) < bp) as Hband.
    { destruct Hreg as [?|[?|?]]; [lia|lia|done]. }
    destruct (proj2 (backtrack_score_fin (S i) (S j)) Hreg) as [z Hz].
    destruct (lookup_lt_is_Some_2 s i) as [si Hsi]; [lia|].
    destruct (lookup_lt_is_Some_2 t j) as [tj Htj]; [lia|].
    assert (si ≠ DASH) as Hsid.
    { intros ->. apply Hs. by eapply list_elem_of_lookup_2. }
    assert (tj ≠ DASH) as Htjd.
    { intros ->. apply Ht. by eapply list_elem_of_lookup_2. }
    rewrite backtrack_unfold, mget_entry, Hb by lia. simpl.
    replace (Z.abs (Z.of_nat j - Z.of_nat i)) with (Z.abs (Z.of_nat (S j) - Z.of_nat (S i)))
      by lia.
    rewrite (bool_decide_eq_true_2 _ Hband), !andb_true_r.
    rewrite !py_get_nat, Hsi, Htj.
    assert (pointer i j = pointer i j) as Hp by done.
    unfold backtrack_ptr in Hp at 2. unfold in_band in Hp.
    rewrite (bool_decide_eq_true_2 _ Hband) in Hp. cbv zeta in Hp.
    destruct (decide (tracked (S i) (S j) = score_add (tracked i (S j)) (- indp))) as [H1|H1].
    { rewrite (bool_decide_eq_true_2 _ H1) in Hp. rewrite Hp. simpl.
      destruct (tracked i (S j)) as [|zu] eqn:Eu; [by rewrite Hz in H1|].
      destruct IH1 as (sa & ta & z' & -> & Hlen & Hz' & Hsc); [lia|lia| |].
      { apply backtrack_score_fin. by eexists. }
      simpl. eexists _, _, _. split; [done|]. split; [by rewrite !length_app, Hlen|].
      split; [done|]. rewrite alignment_score_snoc, Hsc by done.
      rewrite Hz in H1. simpl in H1. injection H1 as ->. injection Hz' as <-.
      unfold column_score. cbn [fst snd]. rewrite bool_decide_eq_true_2 by (by right). done. }
    rewrite (bool_decide_eq_false_2 _ H1) in Hp.
    destruct (decide (tracked (S i) (S j) = score_add (tracked (S i) j) (- indp))) as [H2|H2].
    { rewrite (bool_decide_eq_true_2 _ H2) in Hp. rewrite Hp. simpl.
      destruct (tracked (S i) j) as [|zl] eqn:El; [by rewrite Hz in H2|].
      destruct IH2 as (sa & ta & z' & -> & Hlen & Hz' & Hsc); [lia|lia| |].
      { apply backtrack_score_fin. by eexists. }
      simpl. eexists _, _, _. split; [done|]. split; [by rewrite !length_app, Hlen|].
      split; [done|]. rewrite alignment_score_snoc, Hsc by done.
      rewrite Hz in H2. simpl in H2. injection H2 as ->. injection Hz' as <-.
      unfold column_score. cbn [fst snd]. rewrite bool_decide_eq_true_2 by (by left). done. }
    rewrite (bool_decide_eq_false_2 _ H2) in Hp.
    assert (tracked (S i) (S j) = score_add (tracked i j) (pair i j)) as H3.
    { pose proof (backtrack_score_S i j) as E. unfold in_band in E.
      rewrite (bool_decide_eq_true_2 _ Hband) in E.
      destruct (max3_cases (score_add (tracked i (S j)) (- indp))
                  (score_add (tracked (S i) j) (- indp))
                  (score_add (tracked i j) (pair i j))) as [E'|[E'|E']];
        rewrite E' in E; done. }
    rewrite (bool_decide_eq_true_2 _ H3) in Hp. rewrite Hp. simpl.
    destruct (tracked i j) as [|zd] eqn:Ed; [by rewrite Hz in H3|].
    destruct IH3 as (sa & ta & z' & -> & Hlen & Hz' & Hsc); [lia|lia| |].
    { apply backtrack_score_fin. by eexists. }
    simpl. eexists _, _, _. split; [done|]. split; [by rewrite !length_app, Hlen|].
    split; [done|]. rewrite alignment_score_snoc, Hsc by done.
    rewrite Hz in H3. simpl in H3. injection H3 as ->. injection Hz' as <-.
    unfold column_score. cbn [fst snd].
    rewrite bool_decide_eq_false_2 by (intros [?|?]; done).
    unfold pair_score. rewrite Hsi, Htj.
    destruct (decide (si = tj)) as [->|Hne].
    + by rewrite !bool_decide_eq_true_2.
    + rewrite !bool_decide_eq_false_2; [done|congruence|done].
Qed.

End walk.

End scores.

Lemma in_band_sym bp i j : in_band bp i j = in_band bp j i.
Proof. unfold in_band. apply bool_decide_ext. lia. Qed.

Lemma pair_score_sym mr mmp s t i j : pair_score mr mmp s t i j = pair_score mr mmp t s j i.
Proof. unfold pair_score. erewrite bool_decide_ext; [done|]. split; by intros ->. Qed.

Lemma banded_score_sym mr mmp indp bp s t i j :
  banded_score mr mmp indp bp s t i j = banded_score mr mmp indp bp t s j i.
Proof.
  revert i j. apply grid_ind.
  - done.
  - intros j.
    change (banded_score mr mmp indp bp s t 0 (S j))
      with (if in_band bp 0 (S j) then Fin (Z.of_nat (S j) * - indp) else NegInf).
    change (banded_score mr mmp indp bp t s (S j) 0)
      with (if in_band bp (S j) 0 then Fin (Z.of_nat (S j) * - indp) else NegInf).
    by rewrite in_band_sym.
  - intros i.
    change (banded_score mr mmp indp bp s t (S i) 0)
      with (if in_band bp (S i) 0 then Fin (Z.of_nat (S i) * - indp) else NegInf).
    change (banded_score mr mmp indp bp t s 0 (S i))
      with (if in_band bp 0 (S i) then Fin (Z.of_nat (S i) * - indp) else NegInf).
    by rewrite in_band_sym.
  - intros i j IH1 IH2 IH3. rewrite !banded_score_S, IH1, IH2, IH3.
    by rewrite in_band_sym, max3_swap, pair_score_sym.
Qed.

Lemma banded_f64_sym mr mmp indp bp s t i j :
  banded_f64 mr mmp indp bp s t i j = banded_f64 mr mmp indp bp t s j i.
Proof.
  revert i j. apply grid_ind.
  - done.
  - intros j.
    change (banded_f64 mr mmp indp bp s t 0 (S j))
      with (if in_band bp 0 (S j) then f64_round (Z.of_nat (S j) * - indp) else F_ninf).
    change (banded_f64 mr mmp indp bp t s (S j) 0)
      with (if in_band bp (S j) 0 then f64_round (Z.of_nat (S j) * - indp) else F_ninf).
    by rewrite in_band_sym.
  - intros i.
    change (banded_f64 mr mmp indp bp s t (S i) 0)
      with (if in_band bp (S i) 0 then f64_round (Z.of_nat (S i) * - indp) else F_ninf).
    change (banded_f64 mr mmp indp bp t s 0 (S i))
      with (if in_band bp 0 (S i) then f64_round (Z.of_nat (S i) * - indp) else F_ninf).
    by rewrite in_band_sym.
  - intros i j IH1 IH2 IH3. rewrite !banded_f64_S, IH1, IH2, IH3.
    by rewrite in_band_sym, f64_max3_swap, pair_score_sym.
Qed.

Lemma cell_ok_sym mr mmp indp bp s t i j :
  cell_ok mr mmp indp bp s t i j = cell_ok mr mmp indp bp t s j i.
Proof.
  unfold cell_ok. destruct i as [|i], j as [|j]; [done|by rewrite in_band_sym..|].
  by rewrite in_band_sym, pair_score_sym.
Qed.

Lemma grid_ok_sym (ok ok' : nat → nat → bool) (n m : nat) :
  (∀ i j, ok i j = ok' j i) →
  forallb (λ i, forallb (ok i) (seq 0 (m + 1))) (seq 0 (n + 1))
  = forallb (λ j, forallb (ok' j) (seq 0 (n + 1))) (seq 0 (m + 1)).
Proof.
  intros Hsym. apply Bool.eq_true_iff_eq. rewrite !forallb_forall. split.
  - intros H j Hj. apply forallb_forall. intros i Hi.
    rewrite <- Hsym. specialize (H i Hi). rewrite forallb_forall in H. by apply H.
  - intros H i Hi. apply forallb_forall. intros j Hj.
    rewrite Hsym. specialize (H j Hj). rewrite forallb_forall in H. by apply H.
Qed.

Section columns.
Context (bp : Z) (s t : str).
Import Banded.
Local Arguments backtrack_walk : simpl never.

Lemma no_double_gap_snoc a b x y :
  length a = length b → no_double_gap a b → ¬ (x = DASH ∧ y = DASH) →
  no_double_gap (a ++ [x]) (b ++ [y]).
Proof.
  intros Hlen Hab Hxy. unfold no_double_gap. rewrite zip_with_app by done.
  apply Forall_app. split; [done|]. by apply Forall_singleton.
Qed.

Lemma no_double_gap_l (l : str) : DASH ∉ l → no_double_gap (replicate (length l) DASH) l.
Proof.
  induction l as [|x l IH]; intros Hl; [by constructor|].
  apply not_elem_of_cons in Hl as [? ?]. constructor; [|by apply IH].
  simpl. intros [_ ?]. congruence.
Qed.

Lemma no_double_gap_r (l : str) : DASH ∉ l → no_double_gap l (replicate (length l) DASH).
Proof.
  induction l as [|x l IH]; intros Hl; [by constructor|].
  apply not_elem_of_cons in Hl as [? ?]. constructor; [|by apply IH].
  simpl. intros [? _]. congruence.
Qed.

Lemma not_elem_of_take (l : str) (k : nat) (c : nat) : c ∉ l → c ∉ take k l.
Proof. intros Hl Hin. apply Hl. eapply elem_of_sublist; [done|apply sublist_take]. Qed.

Lemma backtrack_row_0 b j : backtrack_walk bp s t b 0 j = Some (replicate j DASH, take j t).
Proof.
  destruct j; [done|]. rewrite backtrack_first_row, py_slice_prefix. unfold py_repeat.
  by rewrite Nat2Z.id.
Qed.

Lemma backtrack_col_0 b i : backtrack_walk bp s t b i 0 = Some (take i s, replicate i DASH).
Proof.
  destruct i; [done|]. rewrite backtrack_first_col, py_slice_prefix. unfold py_repeat.
  by rewrite Nat2Z.id.
Qed.

(** Whatever the pointers say, [backtrack] never pairs a gap with a gap
    when the strings hold no ['-'] of their own. *)
Lemma backtrack_columns b i j :
  DASH ∉ s → DASH ∉ t →
  has_dims b (length s) (length t) → (i ≤ length s)%nat → (j ≤ length t)%nat →
  ∃ sa ta, backtrack_walk bp s t b i j = Some (sa, ta)
    ∧ length sa = length ta ∧ no_double_gap sa ta.
Proof.
  intros Hs Ht Hb. revert i j.
  apply (grid_ind (λ i j, (i ≤ length s)%nat → (j ≤ length t)%nat →
    ∃ sa ta, backtrack_walk bp s t b i j = Some (sa, ta)
      ∧ length sa = length ta ∧ no_double_gap sa ta)).
  - intros _ _. exists [], []. split; [done|]. split; [done|]. constructor.
  - intros j _ Hj. rewrite backtrack_first_row, py_slice_prefix.
    unfold py_repeat. rewrite Nat2Z.id. eexists _, _. split; [done|].
    assert (length (take (S j) t) = S j) as Hlen by (rewrite length_take; lia).
    split; [by rewrite length_replicate|].
    rewrite <- Hlen at 1. apply no_double_gap_l. by apply not_elem_of_take.
  - intros i Hi _. rewrite backtrack_first_col, py_slice_prefix.
    unfold py_repeat. rewrite Nat2Z.id. eexists _, _. split; [done|].
    assert (length (take (S i) s) = S i) as Hlen by (rewrite length_take; lia).
    split; [by rewrite length_replicate|].
    rewrite <- Hlen at 2. apply no_double_gap_r. by apply not_elem_of_take.
  - intros i j IH1 IH2 IH3 Hi Hj.
    rewrite backtrack_unfold, mget_entry.
    destruct (entry_is_Some b (length s) (length t) i j) as [p ->]; [done|lia|lia|]. simpl.
    rewrite !py_get_nat.
    destruct (lookup_lt_is_Some_2 s i) as [si Hsi]; [lia|].
    destruct (lookup_lt_is_Some_2 t j) as [tj Htj]; [lia|].
    assert (si ≠ DASH) as Hsid.
    { intros ->. apply Hs. by eapply list_elem_of_lookup_2. }
    assert (tj ≠ DASH) as Htjd.
    { intros ->. apply Ht. by eapply list_elem_of_lookup_2. }
    rewrite Hsi, Htj.
    destruct (bool_decide (p = Some P_d) && _);
      [|destruct (bool_decide (p = Some P_r) && _)].
    + destruct IH1 as (sa & ta & -> & Hlen & Hcols); [lia|lia|]. simpl.
      eexists _, _. split; [done|]. split; [by rewrite !length_app, Hlen|].
      apply no_double_gap_snoc; [done|done|]. by intros [? _].
    + destruct IH2 as (sa & ta & -> & Hlen & Hcols); [lia|lia|]. simpl.
      eexists _, _. split; [done|]. split; [by rewrite !length_app, Hlen|].
      apply no_double_gap_snoc; [done|done|]. by intros [_ ?].
    + destruct IH3 as (sa & ta & -> & Hlen & Hcols); [lia|lia|]. simpl.
      eexists _, _. split; [done|]. split; [by rewrite !length_app, Hlen|].
      apply no_double_gap_snoc; [done|done|]. by intros [? _].
Qed.

End columns.

(** ** Properties of the two alignment functions *)

Local Arguments backtrack_walk : simpl never.

Lemma scores_exact_float_ok mr mmp indp n m :
  scores_exact mr mmp indp n m → float_ok indp.
Proof. intros H. unfold scores_exact in H. apply float_ok_small. nia. Qed.

Lemma scores_exact_mono mr mmp indp n m n' m' :
  scores_exact mr mmp indp n m → (n' ≤ n)%nat → (m' ≤ m)%nat →
  scores_exact mr mmp indp n' m'.
Proof. unfold scores_exact. intros H Hn Hm. nia. Qed.

(** X4. When the parameters keep the float64 scores exact (the largest
    of them, in absolute value, times [len(s) + len(t)] is at most
    [2^53]), [banded_alignment] returns, and it returns minus infinity
    exactly when the two lengths differ by the band width or more (and the
    strings are not both empty). *)
Theorem banded_alignment_minus_infinity (mr mmp indp bp : Z) (s t : str) :
  scores_exact mr mmp indp (length s) (length t) →
  ∃ sc, Banded.banded_alignment mr mmp indp bp s t = Some sc
    ∧ (sc = NegInf ↔
       (s ≠ [] ∨ t ≠ []) ∧ bp ≤ Z.abs (Z.of_nat (length t) - Z.of_nat (length s))).
Proof.
  intros Hexact. eexists. split; [by apply banded_alignment_spec|].
  pose proof (banded_score_fin mr mmp indp bp s t (length s) (length t)) as Hfin.
  destruct (banded_score mr mmp indp bp s t (length s) (length t)) as [|z].
  - split; [|done]. intros _.
    assert (¬ ((length s = 0%nat ∧ length t = 0%nat)
               ∨ Z.abs (Z.of_nat (length t) - Z.of_nat (length s)) < bp)) as Hn.
    { intros H. apply Hfin in H as [z ?]. done. }
    split; [|lia].
    destruct s, t; simpl in *; try (by left); try (by right).
    exfalso. apply Hn. by left.
  - split; [done|]. intros [Hne Hout]. exfalso.
    destruct (proj1 Hfin) as [[Hs Ht]|?]; [by eexists| |lia].
    apply length_zero_iff_nil in Hs, Ht. by destruct Hne.
Qed.

Lemma banded_alignment_minus_infinity_witness :
  ∃ sc, Banded.banded_alignment 1 1 1 2 (py "ACGT") (py "A") = Some sc
    ∧ (sc = NegInf ↔
       (py "ACGT" ≠ [] ∨ py "A" ≠ [])
       ∧ 2 ≤ Z.abs (Z.of_nat (length (py "A")) - Z.of_nat (length (py "ACGT")))).
Proof. apply (banded_alignment_minus_infinity 1 1 1 2 (py "ACGT") (py "A")). by vm_compute. Defined.

(** X5. When the parameters keep the float64 scores exact and the stack
    has room for [len(s) + len(t) + 1] calls of [backtrack] and one frame
    to spare, both functions return, and the score of [banded_alignment]
    never exceeds the score that [BandedAlignmentWithBackTrack] returns for
    the same arguments. *)
Theorem banded_alignment_below_backtrack (mr mmp indp bp : Z) (s t : str) (frames : nat) :
  scores_exact mr mmp indp (length s) (length t) →
  (frames + length s + length t + 1 < recursion_limit)%nat →
  ∃ sc sc' sa ta,
    Banded.banded_alignment mr mmp indp bp s t = Some sc
    ∧ Banded.BandedAlignmentWithBackTrack mr mmp indp bp s t frames = Some (sc', sa, ta)
    ∧ score_le sc sc'.
Proof.
  intros Hexact Hroom. pose proof (scores_exact_float_ok _ _ _ _ _ Hexact) as Hfl.
  destruct (matrices_bt_spec mr mmp indp bp s t (λ _ _, Hfl))
    as (l & b & E & Hl & Hb & Hcells & Hptrs).
  destruct (backtrack_aligned bp s t b (length s) (length t)) as (sa & ta & Eb & _);
    [done|lia|lia|].
  eexists _, _, sa, ta. split; [by apply banded_alignment_spec|]. split.
  - rewrite BandedAlignmentWithBackTrack_room by done.
    unfold aligned_walk. rewrite E. simpl. rewrite Eb. simpl.
    rewrite mget_entry, Hcells by lia. done.
  - apply banded_le_backtrack.
Qed.

Lemma banded_alignment_below_backtrack_witness :
  ∃ sc sc' sa ta,
    Banded.banded_alignment 1 5 1 1 (py "A") (py "C") = Some sc
    ∧ Banded.BandedAlignmentWithBackTrack 1 5 1 1 (py "A") (py "C") 2 = Some (sc', sa, ta)
    ∧ score_le sc sc'.
Proof.
  apply (banded_alignment_below_backtrack 1 5 1 1 (py "A") (py "C") 2).
  - by vm_compute.
  - vm_compute. lia.
Defined.

(** X6. When the parameters keep the float64 scores exact, the stack has
    room for the calls of [backtrack], and the band is wider than both
    strings are long, the two functions return the same score. *)
Theorem banded_engines_agree_wide (mr mmp indp bp : Z) (s t : str) (frames : nat) :
  scores_exact mr mmp indp (length s) (length t) →
  (frames + length s + length t + 1 < recursion_limit)%nat →
  Z.of_nat (length s `max` length t) < bp →
  ∃ sc sa ta,
    Banded.banded_alignment mr mmp indp bp s t = Some sc
    ∧ Banded.BandedAlignmentWithBackTrack mr mmp indp bp s t frames = Some (sc, sa, ta).
Proof.
  intros Hexact Hroom Hwide. pose proof (scores_exact_float_ok _ _ _ _ _ Hexact) as Hfl.
  destruct (matrices_bt_spec mr mmp indp bp s t (λ _ _, Hfl))
    as (l & b & E & Hl & Hb & Hcells & Hptrs).
  destruct (backtrack_aligned bp s t b (length s) (length t)) as (sa & ta & Eb & _);
    [done|lia|lia|].
  eexists _, sa, ta. split; [by apply banded_alignment_spec|].
  rewrite BandedAlignmentWithBackTrack_room by done.
  unfold aligned_walk. rewrite E. simpl. rewrite Eb. simpl.
  rewrite mget_entry, Hcells by lia. simpl. by rewrite banded_eq_backtrack.
Qed.

Lemma banded_engines_agree_wide_witness :
  ∃ sc sa ta,
    Banded.banded_alignment 1 1 2 5 (py "ACGT") (py "AGT") = Some sc
    ∧ Banded.BandedAlignmentWithBackTrack 1 1 2 5 (py "ACGT") (py "AGT") 2 = Some (sc, sa, ta).
Proof.
  apply (banded_engines_agree_wide 1 1 2 5 (py "ACGT") (py "AGT") 2).
  - by vm_compute.
  - vm_compute. lia.
  - vm_compute. reflexivity.
Defined.

(** X7. [banded_alignment] is symmetric in its two strings: for all
    parameters, also those that the floats round or refuse, the two calls
    return the same score or both raise. *)
Theorem banded_alignment_symmetric (mr mmp indp bp : Z) (s t : str) :
  Banded.banded_alignment mr mmp indp bp s t = Banded.banded_alignment mr mmp indp bp t s.
Proof.
  rewrite !banded_alignment_f64.
  rewrite (grid_ok_sym (cell_ok mr mmp indp bp s t) (cell_ok mr mmp indp bp t s)
             (length s) (length t)) by apply cell_ok_sym.
  by rewrite banded_f64_sym.
Qed.

(** X8. When the parameters keep the float64 scores exact, with a
    non-negative match reward and penalties that are no rewards, no
    alignment scores more than a match in every column of the shorter
    string. *)
Theorem banded_alignment_upper_bound (mr mmp indp bp : Z) (s t : str) :
  scores_exact mr mmp indp (length s) (length t) →
  0 ≤ mr → 0 ≤ indp → - mmp ≤ mr →
  ∃ sc, Banded.banded_alignment mr mmp indp bp s t = Some sc
    ∧ score_le sc (Fin (mr * Z.of_nat (length s `min` length t))).
Proof.
  intros Hexact Hmr Hindp Hmmp. eexists. split; [by apply banded_alignment_spec|].
  by apply banded_score_ub.
Qed.

Lemma banded_alignment_upper_bound_witness :
  ∃ sc, Banded.banded_alignment 2 1 1 3 (py "ACGT") (py "AGT") = Some sc
    ∧ score_le sc (Fin (2 * Z.of_nat (length (py "ACGT") `min` length (py "AGT")))).
Proof.
  apply (banded_alignment_upper_bound 2 1 1 3 (py "ACGT") (py "AGT")); [by vm_compute|lia..].
Defined.

(** X9. When the parameters keep the float64 scores exact, with a
    non-negative match reward, a non-negative indel penalty, a mismatch
    that scores no more than a match and a band width of at least 1, a
    string aligned with itself scores a match in every column. *)
Theorem banded_alignment_identical (mr mmp indp bp : Z) (s : str) :
  scores_exact mr mmp indp (length s) (length s) →
  0 ≤ mr → 0 ≤ indp → - mmp ≤ mr → 1 ≤ bp →
  Banded.banded_alignment mr mmp indp bp s s = Some (Fin (mr * Z.of_nat (length s))).
Proof.
  intros Hexact Hmr Hindp Hmmp Hbp. rewrite banded_alignment_spec by done. f_equal.
  pose proof (banded_score_diag mr mmp indp bp s s (length s) Hbp) as Hlo.
  pose proof (banded_score_ub mr mmp indp bp s s Hmr Hindp Hmmp (length s) (length s)) as Hub.
  replace (length s `min` length s)%nat with (length s) in Hub by lia.
  specialize (Hlo ltac:(lia) ltac:(lia) eq_refl).
  destruct (banded_score mr mmp indp bp s s (length s) (length s)) as [|z]; [done|].
  simpl in *. f_equal. lia.
Qed.

Lemma banded_alignment_identical_witness :
  Banded.banded_alignment 2 1 1 1 (py "ACGT") (py "ACGT")
  = Some (Fin (2 * Z.of_nat (length (py "ACGT")))).
Proof.
  apply (banded_alignment_identical 2 1 1 1 (py "ACGT")); [by vm_compute|lia..].
Defined.

(** X10. For strings without ['-'], an indel penalty that fits a float and
    room on the stack for [len(s) + len(t) + 1] calls of [backtrack] and
    one frame to spare: when the last cell lies on the border or inside the
    band, the score that [BandedAlignmentWithBackTrack] returns is the
    score of the alignment it returns: [mr] for a column of equal
    characters, [-mmp] for a column of different ones, [-indp] for a column
    with a gap. *)
Theorem BandedAlignmentWithBackTrack_score (mr mmp indp bp : Z) (s t : str) (frames : nat) :
  DASH ∉ s → DASH ∉ t →
  float_ok indp →
  (frames + length s + length t + 1 < recursion_limit)%nat →
  in_region bp (length s) (length t) →
  ∃ z sa ta,
    Banded.BandedAlignmentWithBackTrack mr mmp indp bp s t frames = Some (Fin z, sa, ta)
    ∧ alignment_score mr mmp indp sa ta = z.
Proof.
  intros Hs Ht Hfl Hroom Hreg.
  destruct (matrices_bt_spec mr mmp indp bp s t (λ _ _, Hfl))
    as (l & b & E & Hl & Hb & Hcells & Hptrs).
  destruct (backtrack_scored mr mmp indp bp s t b Hptrs (length s) (length t))
    as (sa & ta & z & Eb & _ & Hz & Hsc); [done|done|lia|lia|done|].
  exists z, sa, ta. split; [|done].
  rewrite BandedAlignmentWithBackTrack_room by done.
  unfold aligned_walk. rewrite E. simpl. rewrite Eb. simpl.
  rewrite mget_entry, Hcells by lia. simpl. by rewrite Hz.
Qed.

Lemma BandedAlignmentWithBackTrack_score_witness :
  ∃ z sa ta,
    Banded.BandedAlignmentWithBackTrack 1 1 2 2 (py "ACGT") (py "AGT") 2 = Some (Fin z, sa, ta)
    ∧ alignment_score 1 1 2 sa ta = z.
Proof.
  apply (BandedAlignmentWithBackTrack_score 1 1 2 2 (py "ACGT") (py "AGT") 2).
  - by apply not_elem_of_py.
  - by apply not_elem_of_py.
  - by vm_compute.
  - vm_compute. lia.
  - right. right. vm_compute. reflexivity.
Defined.

(** X11. With a non-negative match reward, a positive indel penalty that
    fits a float, a mismatch that scores below a match, a band width of at
    least 1 and room on the stack for [2 * len(s) + 1] calls of [backtrack]
    and one frame to spare, a string aligned with itself comes back
    unchanged, without a gap, with the score of a match in every column. *)
Theorem BandedAlignmentWithBackTrack_identical (mr mmp indp bp : Z) (s : str) (frames : nat) :
  0 ≤ mr → 0 < indp → - mmp < mr → 1 ≤ bp →
  float_ok indp →
  (frames + length s + length s + 1 < recursion_limit)%nat →
  Banded.BandedAlignmentWithBackTrack mr mmp indp bp s s frames
  = Some (Fin (mr * Z.of_nat (length s)), s, s).
Proof.
  intros Hmr Hindp Hmmp Hbp Hfl Hroom.
  destruct (matrices_bt_spec mr mmp indp bp s s (λ _ _, Hfl))
    as (l & b & E & Hl & Hb & Hcells & Hptrs).
  rewrite BandedAlignmentWithBackTrack_room by done.
  unfold aligned_walk. rewrite E. simpl.
  rewrite (backtrack_equal mr mmp indp bp s s b Hptrs (length s)) by (done || lia).
  simpl. rewrite mget_entry, Hcells by lia. simpl.
  rewrite backtrack_score_equal by (done || lia). by rewrite firstn_all.
Qed.

Lemma BandedAlignmentWithBackTrack_identical_witness :
  Banded.BandedAlignmentWithBackTrack 2 1 1 1 (py "ACGT") (py "ACGT") 2
  = Some (Fin (2 * Z.of_nat (length (py "ACGT"))), py "ACGT", py "ACGT").
Proof.
  apply (BandedAlignmentWithBackTrack_identical 2 1 1 1 (py "ACGT") 2);
    [lia..|by vm_compute|vm_compute; lia].
Defined.

(** X12. An empty string is aligned with gaps only, whatever the band width
    and the penalties, when the stack has room for one call of [backtrack]
    and one frame to spare: the other string comes back unchanged against
    as many gaps, with one indel penalty for each. *)
Theorem BandedAlignmentWithBackTrack_empty (mr mmp indp bp : Z) (s : str) (frames : nat) :
  (frames + 1 < recursion_limit)%nat →
  Banded.BandedAlignmentWithBackTrack mr mmp indp bp [] s frames
  = Some (Fin (Z.of_nat (length s) * - indp), replicate (length s) DASH, s)
  ∧ Banded.BandedAlignmentWithBackTrack mr mmp indp bp s [] frames
    = Some (Fin (Z.of_nat (length s) * - indp), s, replicate (length s) DASH).
Proof.
  intros Hroom.
  destruct (recursion_limit - frames)%nat as [|room] eqn:Eroom; [lia|].
  split.
  - destruct (matrices_bt_spec mr mmp indp bp [] s) as (l & b & E & Hl & Hb & Hcells & Hptrs);
      [done|].
    unfold Banded.BandedAlignmentWithBackTrack.
    rewrite bool_decide_eq_false_2 by lia. rewrite E. cbn [mbind option_bind].
    rewrite Eroom, backtrack_room_border by (by left).
    rewrite mget_entry, Hcells by (simpl; lia). rewrite backtrack_score_0.
    change (length []) with 0%nat. rewrite backtrack_row_0. simpl.
    by rewrite firstn_all.
  - destruct (matrices_bt_spec mr mmp indp bp s []) as (l & b & E & Hl & Hb & Hcells & Hptrs);
      [done|].
    unfold Banded.BandedAlignmentWithBackTrack.
    rewrite bool_decide_eq_false_2 by lia. rewrite E. cbn [mbind option_bind].
    rewrite Eroom, backtrack_room_border by (by right).
    rewrite mget_entry, Hcells by (simpl; lia). rewrite backtrack_score_col.
    change (length []) with 0%nat. rewrite backtrack_col_0. simpl.
    by rewrite firstn_all.
Qed.

Lemma BandedAlignmentWithBackTrack_empty_witness :
  Banded.BandedAlignmentWithBackTrack 1 1 (10 ^ 400) 1 [] (py "ACGT") 2
  = Some (Fin (Z.of_nat (length (py "ACGT")) * - 10 ^ 400),
          replicate (length (py "ACGT")) DASH, py "ACGT")
  ∧ Banded.BandedAlignmentWithBackTrack 1 1 (10 ^ 400) 1 (py "ACGT") [] 2
    = Some (Fin (Z.of_nat (length (py "ACGT")) * - 10 ^ 400),
            py "ACGT", replicate (length (py "ACGT")) DASH).
Proof.
  apply (BandedAlignmentWithBackTrack_empty 1 1 (10 ^ 400) 1 (py "ACGT") 2). vm_compute. lia.
Defined.

(** X13. For strings [s] and [t] without ['-'], an indel penalty that fits
    a float and room on the stack for [len(s) + len(t) + 1] calls of
    [backtrack] and one frame to spare, the CIGAR string of the alignment
    that [BandedAlignmentWithBackTrack] returns accounts for both strings:
    its M and I runs add up to the length of the first, its M and D runs to
    the length of the second. *)
Theorem BandedAlignmentWithBackTrack_cigar (mr mmp indp bp : Z) (s t : str) (frames : nat) :
  DASH ∉ s → DASH ∉ t →
  float_ok indp →
  (frames + length s + length t + 1 < recursion_limit)%nat →
  ∃ sc sa ta runs,
    Banded.BandedAlignmentWithBackTrack mr mmp indp bp s t frames = Some (sc, sa, ta)
    ∧ cigar_runs (Cigar.calculate_cigar sa ta) = Some runs
    ∧ (run_sum CH_M runs + run_sum CH_I runs)%nat = length s
    ∧ (run_sum CH_M runs + run_sum CH_D runs)%nat = length t.
Proof.
  intros Hs Ht Hfl Hroom.
  destruct (fill_bt_inv mr mmp indp bp s t Hfl) as (l & b & E & Hl & Hb & Hok). simpl in *.
  destruct (backtrack_columns bp s t b (length s) (length t))
    as (sa & ta & Eb & Hlen & Hcols); [done|done|done|lia|lia|].
  destruct (backtrack_aligned bp s t b (length s) (length t))
    as (sa' & ta' & Eb' & _ & Hsa & Hta); [done|lia|lia|].
  rewrite Eb in Eb'. injection Eb' as <- <-.
  rewrite firstn_all in Hsa, Hta.
  rewrite (strip_gaps_id s) in Hsa by done. rewrite (strip_gaps_id t) in Hta by done.
  destruct (entry_is_Some l (length s + 1) (length t + 1) (length s) (length t)) as [sc Hsc];
    [done|lia|lia|].
  destruct (calculate_cigar_runs sa ta) as (runs & Eruns & _ & HM & HI & HD).
  exists sc, sa, ta, runs. split; [|split; [done|]].
  - rewrite BandedAlignmentWithBackTrack_room by done.
    unfold aligned_walk. rewrite E. simpl. rewrite Eb. simpl.
    by rewrite mget_entry, Hsc.
  - rewrite HM, HI, HD.
    rewrite <- (strip_gaps_fst sa ta), <- (strip_gaps_snd sa ta) by done.
    by rewrite Hsa, Hta.
Qed.

Lemma BandedAlignmentWithBackTrack_cigar_witness :
  ∃ sc sa ta runs,
    Banded.BandedAlignmentWithBackTrack 1 1 2 2 (py "ACGT") (py "AGT") 2 = Some (sc, sa, ta)
    ∧ cigar_runs (Cigar.calculate_cigar sa ta) = Some runs
    ∧ (run_sum CH_M runs + run_sum CH_I runs)%nat = length (py "ACGT")
    ∧ (run_sum CH_M runs + run_sum CH_D runs)%nat = length (py "AGT").
Proof.
  apply (BandedAlignmentWithBackTrack_cigar 1 1 2 2 (py "ACGT") (py "AGT") 2).
  - by apply not_elem_of_py.
  - by apply not_elem_of_py.
  - by vm_compute.
  - vm_compute. lia.
Defined.

(** ** The best seed *)

Lemma score_gt_false x y : score_gt x y = false ↔ score_le x y.
Proof.
  destruct x as [|a], y as [|b]; simpl; try done.
  rewrite bool_decide_eq_false. lia.
Qed.

Lemma score_gt_true x y : score_gt x y = true → score_le y x ∧ x ≠ NegInf.
Proof.
  destruct x as [|a], y as [|b]; simpl; try done.
  rewrite bool_decide_eq_true. split; [lia|done].
Qed.

Lemma score_gt_le x y z : score_gt x y = true → score_le z y → score_gt x z = true.
Proof.
  destruct x as [|a], y as [|b], z as [|c]; simpl; try done.
  rewrite !bool_decide_eq_true. lia.
Qed.

Section seed_best.
Context (ref read : str) (mr mmp indp bw read_length : Z).
Hypothesis Hexact : scores_exact mr mmp indp (length ref) (length read).
Import Seed.

Local Abbreviation candidate := (Seed.candidate ref read mr mmp indp bw read_length).
Local Abbreviation scored :=
  (λ (c : nat * Z) (x : score),
     Banded.banded_alignment mr mmp indp bw
       (seed_window ref read_length (Z.of_nat c.1) c.2) read = Some x).

Lemma for_each_fmap {A B St} (f : A → B) (body : B → St → option St) (l : list A) (st : St) :
  for_each body (f <$> l) st = for_each (λ x, body (f x)) l st.
Proof.
  revert st. induction l as [|x l IH]; intros st; [done|].
  simpl. destruct (body (f x) st); simpl; [apply IH|done].
Qed.

Lemma scan_from_candidates off rows st :
  scan_from ref read mr mmp indp bw read_length off rows st
  = for_each (λ c, candidate c.1 c.2) (candidates_from off rows) st.
Proof.
  revert off st. induction rows as [|row rows IH]; intros off st; [done|].
  simpl. rewrite for_each_app, for_each_fmap. simpl.
  destruct (for_each (candidate off) row st); simpl; [apply IH|done].
Qed.

(** Every window is a piece of the reference, so its scores are exact. *)
Lemma scored_total c : ∃ x, scored c x.
Proof.
  eexists. apply banded_alignment_spec.
  eapply scores_exact_mono; [done| |done]. apply py_slice_length_le.
Qed.

Local Abbreviation best_inv := (best_inv ref read mr mmp indp bw read_length).

Lemma best_inv_step l st c :
  best_inv l st → ∃ st', candidate c.1 c.2 st = Some st' ∧ best_inv (l ++ [c]) st'.
Proof.
  intros [Hub Hfirst]. destruct c as [i p]. cbv zeta in Hub, Hfirst.
  destruct (scored_total (i, p)) as [x Hx]. simpl in Hx.
  unfold Seed.candidate. simpl.
  change (py_slice ref (p - Z.of_nat i) (p - Z.of_nat i + read_length))
    with (seed_window ref read_length (Z.of_nat i) p).
  rewrite Hx. simpl.
  destruct (score_gt x (best_score st)) eqn:Hgt.
  - eexists. split; [done|]. simpl.
    apply score_gt_true in Hgt as Hle. destruct Hle as [Hle Hfin]. split.
    + intros c [Hc| ->%list_elem_of_singleton]%elem_of_app.
      * destruct (Hub c Hc) as (y & Hy & Hyle). exists y. split; [done|].
        by eapply score_le_trans.
      * exists x. split; [done|apply score_le_refl].
    + right. exists l, i, []. split; [done|]. split; [done|]. split; [done|].
      split; [done|]. apply Forall_forall. intros c Hc.
      destruct (Hub c Hc) as (y & Hy & Hyle). exists y. split; [done|].
      by eapply score_gt_le.
  - exists st. split; [done|]. apply score_gt_false in Hgt. split.
    + intros c [Hc| ->%list_elem_of_singleton]%elem_of_app; [by apply Hub|].
      by exists x.
    + destruct Hfirst as [?|(before & j & after & -> & ? & ? & ? & ?)]; [by left|].
      right. exists before, j, (after ++ [(i, p)]). by rewrite <- app_assoc.
Qed.

Lemma best_inv_loop l l0 st :
  best_inv l0 st →
  ∃ st', for_each (λ c, candidate c.1 c.2) l st = Some st' ∧ best_inv (l0 ++ l) st'.
Proof.
  revert l0 st. induction l as [|c l IH]; intros l0 st Hinv.
  - exists st. by rewrite app_nil_r.
  - destruct (best_inv_step l0 st c Hinv) as (st1 & E1 & Hinv1).
    destruct (IH (l0 ++ [c]) st1 Hinv1) as (st2 & E2 & Hinv2).
    exists st2. simpl. rewrite E1. simpl. split; [done|]. by rewrite <- app_assoc in Hinv2.
Qed.

Lemma scan_best seed_idxes :
  ∃ st, scan ref read mr mmp indp bw read_length seed_idxes (Best NegInf (-1) (-1)) = Some st
    ∧ best_inv (candidates seed_idxes) st.
Proof.
  rewrite scan_is_scan_from, scan_from_candidates.
  apply (best_inv_loop _ []). split; [|by left].
  intros c Hc. by apply elem_of_nil in Hc.
Qed.

End seed_best.

(** ** Properties of [compute_max_seed] *)

(** X14. When the scores are exact on the reference and the stack has room
    for the backtrace of a window of [read_length] characters,
    [compute_max_seed] returns, and it returns [None] for the empty seed
    list only. *)
Theorem compute_max_seed_none (ref read : str) (mr mmp indp bw read_length : Z)
    (seed_idxes : list (list Z)) (frames : nat) :
  scores_exact mr mmp indp (length ref) (length read) →
  0 ≤ read_length →
  (frames + Z.to_nat read_length + length read + 2 < recursion_limit)%nat →
  ∃ r, Seed.compute_max_seed ref read mr mmp indp bw read_length seed_idxes frames = Some r
    ∧ (r = Seed.PyNone ↔ seed_idxes = []).
Proof.
  intros Hexact Hrl Hroom. rewrite compute_max_seed_room by done.
  unfold max_seed_walk. case_bool_decide as Hlen.
  - exists Seed.PyNone. split; [done|]. split; [|done]. intros _.
    by apply length_zero_iff_nil.
  - destruct (scan_best ref read mr mmp indp bw read_length Hexact seed_idxes)
      as (st & -> & _).
    simpl.
    destruct (aligned_walk_aligned mr mmp indp bw
                (py_slice ref (Seed.best_idx st - Seed.best_seed st)
                              (Seed.best_idx st - Seed.best_seed st + read_length)) read
                (scores_exact_float_ok _ _ _ _ _ Hexact))
      as (sc & sa & ta & -> & _).
    simpl. eexists. split; [done|]. split; [done|]. intros ->. done.
Qed.

Lemma compute_max_seed_none_witness :
  ∃ r, Seed.compute_max_seed (py "AAAA") (py "GGGG") 1 1 1 3 4 [[]; []; []] 2 = Some r
    ∧ (r = Seed.PyNone ↔ [[]; []; []] = @nil (list Z)).
Proof.
  apply (compute_max_seed_none (py "AAAA") (py "GGGG") 1 1 1 3 4 [[]; []; []] 2).
  - by vm_compute.
  - lia.
  - vm_compute. lia.
Defined.



(** X16. For a reference and a read without ['-'], exact scores and room on
    the stack, the alignment that [compute_max_seed] returns: two strings
    of one length; the second without its gaps is the read, the first
    without its gaps is a contiguous piece of the reference, at most
    [read_length] long. *)
Theorem compute_max_seed_alignment (ref read : str) (mr mmp indp bw read_length : Z)
    (seed_idxes : list (list Z)) (frames : nat) :
  DASH ∉ ref → DASH ∉ read →
  scores_exact mr mmp indp (length ref) (length read) →
  0 ≤ read_length →
  (frames + Z.to_nat read_length + length read + 2 < recursion_limit)%nat →
  seed_idxes ≠ [] →
  ∃ idx sc sa ta,
    Seed.compute_max_seed ref read mr mmp indp bw read_length seed_idxes frames
    = Some (Seed.Tuple idx sc sa ta)
    ∧ length sa = length ta
    ∧ strip_gaps ta = read
    ∧ (∃ pre post, ref = pre ++ strip_gaps sa ++ post)
    ∧ Z.of_nat (length (strip_gaps sa)) ≤ read_length.
Proof.
  intros Hr Hd Hexact Hrl Hroom Hne. rewrite compute_max_seed_room by done.
  unfold max_seed_walk.
  rewrite bool_decide_eq_false_2 by (by rewrite length_zero_iff_nil).
  destruct (scan_best ref read mr mmp indp bw read_length Hexact seed_idxes)
    as (st & -> & _).
  simpl. set (a := Seed.best_idx st - Seed.best_seed st).
  destruct (aligned_walk_aligned mr mmp indp bw
              (py_slice ref a (a + read_length)) read
              (scores_exact_float_ok _ _ _ _ _ Hexact))
    as (sc & sa & ta & -> & Hlen & Hsa & Hta).
  simpl. exists (Seed.best_idx st), (Seed.best_score st), sa, ta.
  split; [done|]. split; [done|].
  destruct (py_slice_piece ref a (a + read_length)) as (pre & post & Hpiece).
  assert (DASH ∉ py_slice ref a (a + read_length)) as Hw.
  { intros Hin. apply Hr. rewrite Hpiece. apply elem_of_app. right.
    apply elem_of_app. by left. }
  rewrite (strip_gaps_id read) in Hta by done.
  rewrite (strip_gaps_id (py_slice _ _ _)) in Hsa by done.
  split; [done|]. rewrite Hsa. split; [by exists pre, post|by apply py_slice_length].
Qed.

Lemma compute_max_seed_alignment_witness :
  ∃ idx sc sa ta,
    Seed.compute_max_seed (py "ACGTACGT") (py "ACGT") 1 1 1 3 4 [[0; 6]; [1]] 2
    = Some (Seed.Tuple idx sc sa ta)
    ∧ length sa = length ta
    ∧ strip_gaps ta = py "ACGT"
    ∧ (∃ pre post, py "ACGTACGT" = pre ++ strip_gaps sa ++ post)
    ∧ Z.of_nat (length (strip_gaps sa)) ≤ 4.
Proof.
  apply (compute_max_seed_alignment (py "ACGTACGT") (py "ACGT") 1 1 1 3 4 [[0; 6]; [1]] 2).
  - by apply not_elem_of_py.
  - by apply not_elem_of_py.
  - by vm_compute.
  - lia.
  - vm_compute. lia.
  - discriminate.
Defined.

(** ** Suffix arrays of texts without a sentinel *)

Section text_order.
Context (T : str).

Local Abbreviation n := (length T).

Lemma ends_before_split h h' i j :
  ends_before T (h + h') i j →
  ends_before T h i j ∨ (agree T h i j ∧ ends_before T h' (i + h) (j + h)).
Proof.
  intros (d & Hd & Hag & Hi & Hj).
  destruct (decide (d < h)%nat) as [Hlt|Hge].
  - left. by exists d.
  - right. split; [eapply agree_le; [done|lia]|].
    exists (d - h)%nat. split; [lia|]. split; [|split].
    + intros e He. rewrite <- !Nat.add_assoc. apply Hag. lia.
    + by replace (i + h + (d - h))%nat with (i + d)%nat by lia.
    + by replace (j + h + (d - h))%nat with (j + d)%nat by lia.
Qed.

Lemma ends_before_lex_lt h i j : ends_before T h i j → lex_lt (drop i T) (drop j T).
Proof.
  intros (d & _ & Hag & Hi & Hj). clear h.
  revert i j Hag Hi Hj. induction d as [|d IH]; intros i j Hag Hi Hj.
  - rewrite Nat.add_0_r in Hi, Hj. destruct Hj as [y Hy].
    apply lookup_ge_None in Hi. rewrite (drop_ge T i) by done.
    by rewrite (drop_S T y j Hy).
  - pose proof (Hag 0%nat ltac:(lia)) as H0. rewrite !Nat.add_0_r in H0.
    destruct (lookup_lt_is_Some_2 T j) as [c Hc].
    { destruct Hj as [y Hy]. apply lookup_lt_Some in Hy. lia. }
    rewrite Hc in H0.
    rewrite (drop_S T c i H0), (drop_S T c j Hc). simpl. right. split; [done|].
    apply IH.
    + intros e He. replace (S i + e)%nat with (i + S e)%nat by lia.
      replace (S j + e)%nat with (j + S e)%nat by lia. apply Hag. lia.
    + by replace (S i + d)%nat with (i + S d)%nat by lia.
    + by replace (S j + d)%nat with (j + S d)%nat by lia.
Qed.

(** Two suffixes compare within their first [h] characters in one of five
    ways. *)
Lemma compare_suffixes h i j :
  below T h i j ∨ ends_before T h i j ∨ agree T h i j
  ∨ ends_before T h j i ∨ below T h j i.
Proof.
  induction h as [|h IH].
  - right. right. left. intros d Hd. lia.
  - destruct IH as [IH|[IH|[IH|[IH|IH]]]].
    + left. destruct IH as (d & x & y & ? & ?). exists d, x, y. split; [lia|done].
    + right. left. destruct IH as (d & ? & ?). exists d. split; [lia|done].
    + destruct (T !! (i + h)%nat) as [x|] eqn:Hx, (T !! (j + h)%nat) as [y|] eqn:Hy.
      * destruct (Nat.lt_trichotomy x y) as [?|[->|?]].
        -- left. exists h, x, y. split; [lia|done].
        -- right. right. left. intros d Hd.
           destruct (decide (d = h)) as [->|]; [congruence|]. apply IH. lia.
        -- right. right. right. right. exists h, y, x. split; [lia|]. split; [|done].
           intros d Hd. symmetry. by apply IH.
      * right. right. right. left. exists h. split; [lia|]. split; [|by rewrite Hx].
        intros d Hd. symmetry. by apply IH.
      * right. left. exists h. split; [lia|]. split; [done|]. by rewrite Hy.
      * right. right. left. intros d Hd.
        destruct (decide (d = h)) as [->|]; [congruence|]. apply IH. lia.
    + right. right. right. left. destruct IH as (d & ? & ?). exists d. split; [lia|done].
    + right. right. right. right. destruct IH as (d & x & y & ? & ?).
      exists d, x, y. split; [lia|done].
Qed.

(** Two different suffixes differ within the length of the text. *)
Lemma agree_same h i j :
  (i < n)%nat → (j < n)%nat → (n ≤ h)%nat → agree T h i j → i = j.
Proof.
  intros Hi Hj Hh Hag. destruct (Nat.lt_trichotomy i j) as [Hlt|[?|Hlt]]; [|done|].
  - specialize (Hag (n - j)%nat ltac:(lia)).
    rewrite (proj2 (lookup_ge_None T (j + (n - j))%nat)) in Hag by lia.
    apply lookup_ge_None in Hag. lia.
  - specialize (Hag (n - i)%nat ltac:(lia)).
    rewrite (proj2 (lookup_ge_None T (i + (n - i))%nat)) in Hag by lia.
    symmetry in Hag. apply lookup_ge_None in Hag. lia.
Qed.

Section pass_end.
Context (h : nat) (k : Z) (l : list suffix).
Hypothesis Hidx : indexes n l.
Hypothesis Hsorted : StronglySorted (λ x y, key_le x y = true) l.
Hypothesis Hord : ordered T h l.
Hypothesis Hend : ordered_end T h l.
Hypothesis Hk : k `div` 2 = Z.of_nat h.
Hypothesis Hh : (0 < h)%nat.

Local Abbreviation new := (rerank l).

Lemma rank_of_nonneg (i : nat) : (i < n)%nat → 0 ≤ rank_of new (Z.of_nat i).
Proof.
  intros Hi. destruct (rerank_at T h l Hidx Hh i Hi) as (a & x & ra & _ & _ & Hra & ->).
  by eapply dense_nonneg.
Qed.

Lemma rank_of_ends_before (i j : nat) :
  (i < n)%nat → (j < n)%nat → ends_before T h i j →
  rank_of new (Z.of_nat i) < rank_of new (Z.of_nat j).
Proof.
  intros Hi Hj Hbe.
  destruct (rerank_at T h l Hidx Hh i Hi) as (a & x & ra & Hx & Hix & Hra & ->).
  destruct (rerank_at T h l Hidx Hh j Hj) as (b & y & rb & Hy & Hiy & Hrb & ->).
  pose proof (Hend x y) as Hlt.
  rewrite Hix, Hiy, !Nat2Z.id in Hlt.
  specialize (Hlt ltac:(by eapply list_elem_of_lookup_2)
                  ltac:(by eapply list_elem_of_lookup_2) Hbe).
  destruct (decide (a ≤ b)%nat).
  - destruct (dense_lookup_mono l a b x y ra rb) as [Hle Heq]; try done.
    destruct (decide (ra = rb)) as [E|]; [|lia].
    apply Heq in E. unfold key_lt, same_key in *. lia.
  - pose proof (sorted_lookup l b a y x Hsorted ltac:(lia) Hy Hx) as Hyx.
    apply key_le_spec in Hyx. unfold key_lt, same_key in *. lia.
Qed.

Lemma assign_next_ordered_end : ordered_end T (h + h) (assign_next n k new).
Proof.
  intros x' y' Hx' Hy'.
  unfold assign_next in Hx', Hy'.
  apply list_elem_of_fmap in Hx' as (x & -> & Hx), Hy' as (y & -> & Hy).
  apply list_elem_of_lookup in Hx as [a Hx], Hy as [b Hy].
  pose proof (rerank_indexes T l Hidx) as Hnew.
  pose proof (indexes_range _ _ _ _ Hnew Hx) as Hrx.
  pose proof (indexes_range _ _ _ _ Hnew Hy) as Hry.
  pose proof (rank_of_lookup new a x (indexes_NoDup _ _ Hnew) Hx) as Hx0.
  pose proof (rank_of_lookup new b y (indexes_NoDup _ _ Hnew) Hy) as Hy0.
  simpl. set (i := Z.to_nat (index x)). set (j := Z.to_nat (index y)).
  assert (index x = Z.of_nat i) as Hi by lia.
  assert (index y = Z.of_nat j) as Hj by lia.
  rewrite Hi in Hx0. rewrite Hj in Hy0.
  unfold key_lt, next_rank. simpl. rewrite Hk, Hi, Hj, <- Hx0, <- Hy0.
  replace (Z.of_nat i + Z.of_nat h) with (Z.of_nat (i + h)) by lia.
  replace (Z.of_nat j + Z.of_nat h) with (Z.of_nat (j + h)) by lia.
  intros Hbe. destruct (ends_before_split h h i j Hbe) as [Hlt|[Hag Hlt]].
  - left. apply rank_of_ends_before; [lia|lia|done].
  - right. split; [apply (rank_of_agree T h l); try done; lia|].
    destruct Hlt as (d & Hd & Hagd & Hid & [c Hjd]).
    assert (j + h < n)%nat as Hjh by (apply lookup_lt_Some in Hjd; lia).
    rewrite (bool_decide_eq_true_2 (Z.of_nat (j + h) < Z.of_nat n)) by lia.
    case_bool_decide as Hih.
    + apply rank_of_ends_before; [lia|lia|]. exists d. split; [done|]. split; [done|].
      split; [done|]. by exists c.
    + pose proof (rank_of_nonneg (j + h) Hjh). lia.
Qed.

End pass_end.

Lemma ordered_end_Permutation h l l' : l ≡ₚ l' → ordered_end T h l → ordered_end T h l'.
Proof. intros Hp Ho x y Hx Hy. apply Ho; by rewrite Hp. Qed.

Local Abbreviation sa_inv_end := (sa_inv_end T).

Lemma pass_inv_end h k st :
  (0 < n)%nat → k `div` 2 = Z.of_nat h → (0 < h)%nat → sa_inv_end h st →
  ∃ st', pass n k st = Some st' ∧ sa_inv_end (h + h) st'.
Proof.
  intros Hn Hk Hh. destruct st as [sfx ind]. intros [(Hidx & Hlen & Hs & Hord) Hend].
  simpl in Hidx, Hlen, Hs, Hord, Hend.
  destruct (pass_spec n k sfx ind) as (ind' & -> & Hlen'); [done|done|done|lia|].
  eexists. split; [done|]. split; [split; [|split; [|split]]|]; simpl.
  - apply indexes_sorted. unfold indexes. by rewrite assign_next_index, rerank_index.
  - done.
  - apply sorted_sorted.
  - eapply ordered_Permutation; [symmetry; apply sorted_Permutation|].
    by apply assign_next_ordered.
  - eapply ordered_end_Permutation; [symmetry; apply sorted_Permutation|].
    by apply assign_next_ordered_end.
Qed.

Lemma while_k_inv_end fuel h st :
  (0 < h)%nat → sa_inv_end h st → (n ≤ h * 2 ^ fuel)%nat →
  ∃ st' h', while_k fuel n (Z.of_nat (2 * h)) st = Some st'
    ∧ sa_inv_end h' st' ∧ (n ≤ h')%nat.
Proof.
  revert h st. induction fuel as [|fuel IH]; intros h st Hh Hinv Hfuel.
  - rewrite while_k_0. simpl in Hfuel.
    rewrite bool_decide_eq_false_2 by lia. exists st, h. split; [done|].
    split; [done|lia].
  - rewrite while_k_S.
    case_bool_decide as Hlt; [|exists st, h; split; [done|]; split; [done|lia]].
    destruct (pass_inv_end h (Z.of_nat (2 * h)) st) as (st1 & -> & Hinv1); [lia| |done|done|].
    { rewrite Nat2Z.inj_mul. rewrite Z.mul_comm. apply Z.div_mul. done. }
    simpl.
    replace (Z.of_nat (h + (h + 0)) * 2) with (Z.of_nat (2 * (h + h))) by lia.
    apply IH; [lia|done|]. rewrite Nat.pow_succ_r' in Hfuel. lia.
Qed.

Hypothesis Hchars : Forall (λ c, (96 < c)%nat) T.

Lemma initial_ordered_end : ordered_end T 2 (initial_suffix T <$> seq 0 n).
Proof.
  intros x y Hx Hy.
  apply list_elem_of_fmap in Hx as (i & -> & Hi), Hy as (j & -> & Hj).
  apply elem_of_seq in Hi, Hj. simpl. rewrite !Nat2Z.id.
  destruct (lookup_lt_is_Some_2 T i) as [ci Hci]; [lia|].
  destruct (lookup_lt_is_Some_2 T j) as [cj Hcj]; [lia|].
  intros (d & Hd & Hag & Hid & [c Hjd]).
  destruct d as [|d]; [rewrite Nat.add_0_r in Hid; congruence|].
  assert (d = 0%nat) as -> by lia.
  pose proof (Hag 0%nat ltac:(lia)) as H0. rewrite !Nat.add_0_r, Hci, Hcj in H0.
  injection H0 as ->.
  unfold key_lt, initial_suffix, get_rank, ord. simpl. rewrite Hci, Hcj. simpl.
  right. split; [done|].
  apply lookup_ge_None in Hid. pose proof (lookup_lt_Some _ _ _ Hjd).
  rewrite bool_decide_eq_false_2 by lia. rewrite bool_decide_eq_true_2 by lia.
  rewrite Hjd. simpl.
  rewrite Forall_forall in Hchars.
  pose proof (Hchars c (list_elem_of_lookup_2 _ _ _ Hjd)). simpl in *. lia.
Qed.

Lemma suffix_array_inv_end :
  ∃ sfx ind h, suffix_array T = Some (index <$> sfx)
    ∧ sa_inv_end h (sfx, ind) ∧ (n ≤ h)%nat.
Proof.
  unfold suffix_array. rewrite initial_spec. simpl.
  destruct (while_k_inv_end n 2
              (sorted (initial_suffix T <$> seq 0 n), replicate n 0))
    as ([sfx ind] & h & E & Hinv & Hh).
  - lia.
  - split; [split; [|split; [|split]]|]; simpl.
    + apply indexes_sorted, initial_indexes.
    + apply length_replicate.
    + apply sorted_sorted.
    + eapply ordered_Permutation; [symmetry; apply sorted_Permutation|].
      apply initial_ordered.
    + eapply ordered_end_Permutation; [symmetry; apply sorted_Permutation|].
      apply initial_ordered_end.
  - pose proof (Nat.pow_gt_lin_r 2 n). lia.
  - change (Z.of_nat (2 * 2)) with 4 in E. rewrite E. simpl. by exists sfx, ind, h.
Qed.

Lemma suffix_array_sorted_end :
  ∃ sa, suffix_array T = Some sa ∧ sa ≡ₚ seqZ 0 (Z.of_nat n)
    ∧ ∀ a b i j, (a < b)%nat → sa !! a = Some i → sa !! b = Some j →
        lex_lt (drop (Z.to_nat i) T) (drop (Z.to_nat j) T).
Proof.
  destruct suffix_array_inv_end
    as (sfx & ind & h & E & [(Hidx & _ & Hsorted & Hord) Hend] & Hh).
  simpl in *. exists (index <$> sfx). split; [done|]. split; [done|].
  intros a b i j Hab Hi Hj. rewrite list_lookup_fmap in Hi, Hj.
  destruct (sfx !! a) as [x|] eqn:Hx; [|done].
  destruct (sfx !! b) as [y|] eqn:Hy; [|done]. simplify_eq/=.
  pose proof (indexes_range _ _ _ _ Hidx Hx) as Hrx.
  pose proof (indexes_range _ _ _ _ Hidx Hy) as Hry.
  assert (x ∈ sfx) as Hxin by (by eapply list_elem_of_lookup_2).
  assert (y ∈ sfx) as Hyin by (by eapply list_elem_of_lookup_2).
  pose proof (sorted_lookup sfx a b x y Hsorted ltac:(lia) Hx Hy) as Hle.
  apply key_le_spec in Hle.
  destruct (compare_suffixes h (Z.to_nat (index x)) (Z.to_nat (index y)))
    as [H|[H|[H|[H|H]]]].
  - by eapply below_lex_lt.
  - by eapply ends_before_lex_lt.
  - exfalso. apply agree_same in H; [|lia..].
    assert (a = b); [|lia]. apply (indexes_inj _ _ a b x y Hidx Hx Hy). lia.
  - exfalso. pose proof (Hend y x Hyin Hxin H). unfold key_lt, same_key in *. lia.
  - exfalso. destruct (Hord y x Hyin Hxin) as [_ Hbe'].
    specialize (Hbe' H). unfold key_lt, same_key in *. lia.
Qed.

End text_order.

(** ** Texts without a sentinel *)

(** X17. On a text whose characters all have code points above 96, the
    lower-case letters [get_rank] is made for, [suffix_array] returns the
    suffix array without any sentinel: the positions of the text in
    increasing lexicographic order of their suffixes. *)
Theorem suffix_array_lowercase (T : str) :
  Forall (λ c, (96 < c)%nat) T →
  ∃ sa, SA.suffix_array T = Some sa
    ∧ sa ≡ₚ seqZ 0 (Z.of_nat (length T))
    ∧ ∀ a b i j, (a < b)%nat → sa !! a = Some i → sa !! b = Some j →
        lex_lt (drop (Z.to_nat i) T) (drop (Z.to_nat j) T).
Proof. apply suffix_array_sorted_end. Qed.

Lemma suffix_array_lowercase_witness :
  ∃ sa, SA.suffix_array (py "banana") = Some sa
    ∧ sa ≡ₚ seqZ 0 (Z.of_nat (length (py "banana")))
    ∧ ∀ a b i j, (a < b)%nat → sa !! a = Some i → sa !! b = Some j →
        lex_lt (drop (Z.to_nat i) (py "banana")) (drop (Z.to_nat j) (py "banana")).
Proof.
  apply (suffix_array_lowercase (py "banana")). repeat constructor; vm_compute; lia.
Defined.

(** ** The tables of the FM-index, entry by entry *)

Lemma py_get_is_Some {A} (l : list A) (i : Z) : is_Some (py_get l i) ↔ py_index (length l) i.
Proof.
  unfold py_get, py_index. repeat case_bool_decide.
  - rewrite lookup_lt_is_Some. lia.
  - rewrite lookup_lt_is_Some. lia.
  - split; [by intros [? ?]|lia].
Qed.

Lemma py_get_None {A} (l : list A) (i : Z) : py_get l i = None ↔ ¬ py_index (length l) i.
Proof. rewrite <- py_get_is_Some, eq_None_not_Some. done. Qed.

(** A loop raises as soon as its body does. *)
Lemma for_each_raises {A St} (body : A → St → option St) (xs : list A) (st : St) (x : A) :
  x ∈ xs → (∀ st, body x st = None) → for_each body xs st = None.
Proof.
  intros Hx Hbody. revert st. induction xs as [|y xs IH]; intros st.
  - by apply elem_of_nil in Hx.
  - simpl. apply elem_of_cons in Hx as [<-|Hx]; [by rewrite Hbody|].
    destruct (body y st); simpl; [by apply IH|done].
Qed.

Section sampled.
Import FM.
Context (sa : list Z) (k : Z).

Lemma psa_step_raises idx psa :
  k = 0 ∨ ¬ py_index (length sa) idx → psa_step sa k idx psa = None.
Proof.
  intros H. unfold psa_step. destruct (py_get sa idx) as [v|] eqn:E; simpl.
  - destruct H as [->|H]; [done|]. exfalso. apply H, py_get_is_Some. by rewrite E.
  - done.
Qed.

(** The entry of the sampled suffix array under key [j], once the loop
    has run over the values [rows]. *)
Lemma psa_loop rows psa :
  k ≠ 0 → Forall (py_index (length sa)) rows →
  ∃ psa', for_each (psa_step sa k) rows psa = Some psa'
    ∧ ∀ j, psa' !! j
           = match py_get sa j with
             | Some v => if decide (j ∈ rows ∧ v `mod` k = 0) then Some v else psa !! j
             | None => psa !! j
             end.
Proof.
  intros Hk Hrows. revert psa. induction Hrows as [|i rows Hi _ IH]; intros psa.
  - exists psa. split; [done|]. intros j. destruct (py_get sa j); [|done].
    rewrite decide_False; [done|]. intros [?%elem_of_nil _]. done.
  - apply py_get_is_Some in Hi as [v Hv].
    set (psa1 := if bool_decide (v `mod` k = 0) then <[i := v]> psa else psa).
    assert (psa_step sa k i psa = Some psa1) as Estep.
    { unfold psa_step. rewrite Hv. simpl. rewrite bool_decide_eq_false_2 by done.
      unfold psa1. by case_bool_decide. }
    simpl. rewrite Estep. simpl. destruct (IH psa1) as (psa' & -> & Hpsa'). exists psa'. split; [done|].
    intros j. rewrite Hpsa'. destruct (py_get sa j) as [w|] eqn:Hw.
    + destruct (decide (j ∈ rows ∧ w `mod` k = 0)) as [[Hin Hm]|Hn].
      * rewrite decide_True; [done|]. split; [by right|done].
      * destruct (decide (j = i)) as [->|Hne].
        -- rewrite Hv in Hw. injection Hw as ->. unfold psa1.
           case_bool_decide as Hm.
           ++ rewrite lookup_insert_eq. rewrite decide_True; [done|]. split; [by left|done].
           ++ rewrite decide_False; [done|]. by intros [_ ?].
        -- assert (psa1 !! j = psa !! j) as ->.
           { unfold psa1. case_bool_decide; [|done]. by rewrite lookup_insert_ne. }
           rewrite decide_False; [done|]. intros [[?|?]%elem_of_cons ?]; [done|].
           apply Hn. done.
    + unfold psa1. case_bool_decide; [|done]. rewrite lookup_insert_ne; [done|].
      intros <-. by rewrite Hv in Hw.
Qed.

End sampled.

(** ** Properties of the tables of the index *)

(** X18. [partial_suffix_array] reads [sa] at the values of [sa], not at its
    row numbers. It raises exactly when [sa] is not empty and [k] is zero
    or some value of [sa] is no index of [sa]; otherwise the dictionary
    holds [sa[j]] under every value [j] of [sa] with [sa[j] mod k = 0],
    and nothing else. *)
Theorem partial_suffix_array_entries (sa : list Z) (k : Z) :
  match FM.partial_suffix_array sa k with
  | Some psa =>
      (sa = [] ∨ k ≠ 0) ∧ Forall (py_index (length sa)) sa
      ∧ ∀ j v, psa !! j = Some v ↔ j ∈ sa ∧ py_get sa j = Some v ∧ v `mod` k = 0
  | None => sa ≠ [] ∧ (k = 0 ∨ Exists (λ i, ¬ py_index (length sa) i) sa)
  end.
Proof.
  unfold FM.partial_suffix_array.
  destruct (decide (Forall (py_index (length sa)) sa)) as [Hall|Hex].
  - destruct (decide (k = 0)) as [->|Hk].
    + destruct sa as [|i sa']; simpl.
      * split; [by left|]. split; [done|]. intros j v.
        rewrite lookup_empty. split; [done|]. by intros [?%elem_of_nil _].
      * rewrite psa_step_raises by (by left). simpl. split; [done|by left].
    + destruct (psa_loop sa k sa ∅ Hk Hall) as (psa & -> & Hpsa).
      split; [by right|]. split; [done|]. intros j v. rewrite Hpsa.
      destruct (py_get sa j) as [w|] eqn:Hw.
      * destruct (decide (j ∈ sa ∧ w `mod` k = 0)) as [[Hin Hm]|Hn].
        -- split; [by intros [= <-]|]. by intros (_ & [= <-] & _).
        -- rewrite lookup_empty. split; [done|]. intros (? & [= <-] & ?). by destruct Hn.
      * rewrite lookup_empty. split; [done|]. by intros (_ & ? & _).
  - apply not_Forall_Exists in Hex; [|apply _].
    pose proof Hex as Hex'. apply Exists_exists in Hex' as (i & Hi & Hbad).
    rewrite (for_each_raises _ sa ∅ i Hi).
    + split; [|by right]. intros ->. by apply elem_of_nil in Hi.
    + intros st. apply psa_step_raises. by right.
Qed.

Lemma bwt_from_suffix_array_rows (text : str) (sa : list Z) :
  sa ≡ₚ seqZ 0 (Z.of_nat (length text)) →
  ∃ bwt, FM.bwt_from_suffix_array text sa = Some bwt
    ∧ bwt ≡ₚ text
    ∧ ∀ r i, sa !! r = Some i → bwt !! r = py_get text (i - 1).
Proof.
  intros Hperm.
  assert (∀ i, i ∈ sa → 0 ≤ i < Z.of_nat (length text)) as Hrange.
  { intros i Hi. rewrite Hperm in Hi. apply elem_of_seqZ in Hi. lia. }
  assert (FM.bwt_from_suffix_array text sa
          = Some ((λ i, bwt_char text (Z.to_nat i)) <$> sa)) as E.
  { apply mapM_fmap_total, Forall_forall. intros i Hi. simpl.
    rewrite <- (bwt_char_lookup text (Z.to_nat i)) by (apply Hrange in Hi; lia).
    f_equal. apply Hrange in Hi. lia. }
  eexists. split; [exact E|]. split.
  - rewrite Hperm.
    destruct text as [|c text']; [done|]. set (text := c :: text') in *.
    assert (0 < length text)%nat as Hn by (simpl; lia).
    assert ((λ i, bwt_char text (Z.to_nat i)) <$> seqZ 0 (Z.of_nat (length text))
            = bwt_char text <$> seq 0 (length text)) as ->.
    { rewrite <- (fmap_to_nat_seqZ (length text)), <- list_fmap_compose. done. }
    replace (length text) with (S (length text - 1)) at 1 by lia.
    change (seq 0 (S (length text - 1))) with (0%nat :: seq 1 (length text - 1)).
    rewrite <- fmap_S_seq, fmap_cons, <- list_fmap_compose.
    assert ((bwt_char text ∘ S) <$> seq 0 (length text - 1) = take (length text - 1) text) as ->.
    { apply list_eq. intros i. rewrite list_lookup_fmap, lookup_take.
      destruct (decide (i < length text - 1)%nat) as [Hi|Hi].
      - rewrite lookup_seq_lt by done. simpl.
        pose proof (bwt_char_lookup text (S i) ltac:(lia)) as Hb.
        replace (Z.of_nat (S i) - 1) with (Z.of_nat i) in Hb by lia.
        rewrite py_get_nat in Hb. by rewrite Hb.
      - by rewrite lookup_seq_ge by lia. }
    pose proof (bwt_char_lookup text 0 Hn) as Hb.
    assert (text = take (length text - 1) text ++ [bwt_char text 0]) as Htext.
    { rewrite <- (take_drop (length text - 1) text) at 1. f_equal.
      unfold py_get in Hb. rewrite bool_decide_eq_false_2 in Hb by lia.
      rewrite bool_decide_eq_true_2 in Hb by lia.
      replace (Z.to_nat (Z.of_nat 0 - 1 + Z.of_nat (length text))) with (length text - 1)%nat
        in Hb by lia.
      rewrite (drop_S text _ _ Hb). by rewrite drop_ge by lia. }
    etrans; [apply Permutation_cons_append|]. by rewrite <- Htext.
  - intros r i Hr. rewrite list_lookup_fmap, Hr. simpl.
    assert (i ∈ sa) as Hi by (by eapply list_elem_of_lookup_2).
    rewrite <- (bwt_char_lookup text (Z.to_nat i)) by (apply Hrange in Hi; lia).
    f_equal. apply Hrange in Hi. lia.
Qed.

(** X19. The transform of a text along a permutation of its positions holds
    the characters of the text, each as often as the text does: row [r]
    holds the character before position [sa[r]], the last one for
    position 0. *)
Theorem bwt_from_suffix_array_permutation (text : str) (sa : list Z) :
  sa ≡ₚ seqZ 0 (Z.of_nat (length text)) →
  ∃ bwt, FM.bwt_from_suffix_array text sa = Some bwt
    ∧ bwt ≡ₚ text
    ∧ ∀ r i, sa !! r = Some i → bwt !! r = py_get text (i - 1).
Proof. apply bwt_from_suffix_array_rows. Qed.

Lemma bwt_from_suffix_array_permutation_witness :
  ∃ bwt, FM.bwt_from_suffix_array (py "BANANA$") [6; 5; 3; 1; 0; 4; 2] = Some bwt
    ∧ bwt ≡ₚ py "BANANA$"
    ∧ ∀ r i, [6; 5; 3; 1; 0; 4; 2] !! r = Some i → bwt !! r = py_get (py "BANANA$") (i - 1).
Proof.
  apply (bwt_from_suffix_array_permutation (py "BANANA$") [6; 5; 3; 1; 0; 4; 2]).
  vm_compute. apply (Permutation_sym).
  repeat (first [ apply Permutation_refl
                | apply perm_skip
                | eapply perm_trans; [apply Permutation_cons_append|simpl] ]).
Defined.

(** X20. [compute_rank_arr] numbers the occurrences of each character: entry
    [p] is the number of times [bwt[p]] occurs in [bwt[0 .. p]]. *)
Theorem compute_rank_arr_counts (bwt : str) :
  length (FM.compute_rank_arr bwt) = length bwt
  ∧ ∀ p c, bwt !! p = Some c →
      FM.compute_rank_arr bwt !! p = Some (Z.of_nat (occ c (take (S p) bwt))).
Proof.
  split; [|apply compute_rank_arr_lookup].
  unfold FM.compute_rank_arr. destruct (rank_arr_fold bwt) as (counts & -> & _). simpl.
  by rewrite length_fmap, length_seq.
Qed.

Section raises.
Import FM.

Lemma incr_length counts i counts' : incr counts i = Some counts' → length counts' = length counts.
Proof.
  unfold incr, py_set. destruct (py_get counts i); simpl; [|done].
  repeat case_bool_decide; intros [= <-]; by rewrite ?length_insert.
Qed.

Lemma incr_raises counts (c : nat) :
  length counts = 256%nat → (256 ≤ c)%nat → incr counts (ord c) = None.
Proof.
  intros Hlen Hc. unfold incr, ord.
  rewrite (proj2 (py_get_None counts (Z.of_nat c))); [done|]. unfold py_index. lia.
Qed.

Lemma fo_count_length l st st' :
  length st.2 = 256%nat → for_each fo_count l st = Some st' → length st'.2 = 256%nat.
Proof.
  revert st. induction l as [|x l IH]; intros [C counts] Hlen; simpl.
  - by intros [= <-].
  - destruct (incr counts (ord x)) as [counts'|] eqn:E; simpl; [|done].
    apply IH. simpl. by rewrite (incr_length _ _ _ E).
Qed.

Lemma fo_count_raises l st :
  length st.2 = 256%nat → Exists (λ c, (256 ≤ c)%nat) l → for_each fo_count l st = None.
Proof.
  intros Hlen Hex. revert st Hlen. induction Hex as [x l Hx|x l Hex IH]; intros [C counts] Hlen.
  - simpl in *. by rewrite incr_raises.
  - simpl in *. destruct (incr counts (ord x)) as [counts'|] eqn:E; simpl; [|done].
    apply IH. simpl. by rewrite (incr_length _ _ _ E).
Qed.

Lemma cp_step_length bwt i st st' :
  cp_step bwt i st = Some st' → length st'.2 = length st.2.
Proof.
  destruct st as [ranks rank]. unfold cp_step.
  destruct (py_get bwt (Z.of_nat i)) as [c|]; simpl; [|done].
  destruct (incr rank (ord c)) as [rank'|] eqn:E; simpl; [|done].
  apply incr_length in E. case_bool_decide; intros [= <-]; done.
Qed.

Lemma cp_loop_raises bwt (rows : list nat) st :
  length st.2 = 256%nat →
  Exists (λ i, ∃ c, bwt !! i = Some c ∧ (256 ≤ c)%nat) rows →
  for_each (cp_step bwt) rows st = None.
Proof.
  intros Hlen Hex. revert st Hlen.
  induction Hex as [i rows (c & Hc & Hbig)|i rows Hex IH]; intros [ranks rank] Hlen.
  - simpl in *. rewrite py_get_nat, Hc. simpl. by rewrite incr_raises.
  - change (for_each (cp_step bwt) (i :: rows) (ranks, rank))
      with (cp_step bwt i (ranks, rank) ≫= for_each (cp_step bwt) rows).
    destruct (cp_step bwt i (ranks, rank)) as [st'|] eqn:E; [|done].
    rewrite bind_Some. apply IH. rewrite (cp_step_length _ _ _ _ E). done.
Qed.

Lemma Forall_or_Exists_256 (l : str) :
  Forall (λ c, (c < 256)%nat) l ∨ Exists (λ c, (256 ≤ c)%nat) l.
Proof.
  destruct (decide (Forall (λ c, (c < 256)%nat) l)) as [?|Hn]; [by left|]. right.
  apply not_Forall_Exists in Hn; [|apply _].
  eapply Exists_impl; [done|]. simpl. lia.
Qed.

End raises.

(** X21. [compute_first_occurrences] maps every character of [bwt] to the
    number of characters of [bwt] that are smaller, and holds no other
    key; it raises exactly when [bwt] has a code point above 255. *)
Theorem compute_first_occurrences_table (bwt : str) :
  match FM.compute_first_occurrences bwt with
  | Some fo =>
      Forall (λ c, (c < 256)%nat) bwt
      ∧ ∀ c, fo !! c = if decide (c ∈ bwt) then Some (Z.of_nat (smaller c bwt)) else None
  | None => Exists (λ c, (256 ≤ c)%nat) bwt
  end.
Proof.
  destruct (Forall_or_Exists_256 bwt) as [Hall|Hex].
  - destruct (compute_first_occurrences_spec bwt Hall) as (fo & -> & Hfo). done.
  - unfold FM.compute_first_occurrences. by rewrite fo_count_raises.
Qed.

Lemma compute_checkpoint_arrs_keys (bwt : str) :
  Forall (λ c, (c < 256)%nat) bwt →
  ∃ cps, FM.compute_checkpoint_arrs bwt = Some cps
    ∧ ∀ j, match cps !! j with
           | Some arr => 0 ≤ j < Z.of_nat (length bwt) ∧ j `mod` 5 = 0
                         ∧ counters bwt (S (Z.to_nat j)) arr
           | None => ¬ (0 ≤ j < Z.of_nat (length bwt) ∧ j `mod` 5 = 0)
           end.
Proof.
  intros Hall. unfold FM.compute_checkpoint_arrs.
  destruct (for_each_seq_inv
    (λ i (st : gmap Z (list Z) * list Z),
       counters bwt i st.2
       ∧ ∀ j, match st.1 !! j with
              | Some arr => 0 ≤ j < Z.of_nat i ∧ j `mod` 5 = 0
                            ∧ counters bwt (S (Z.to_nat j)) arr
              | None => ¬ (0 ≤ j < Z.of_nat i ∧ j `mod` 5 = 0)
              end)
    (FM.cp_step bwt) 0 (length bwt) (∅, replicate 256 0)) as ([cps rank] & -> & _ & Hcps).
  - split; cbn [fst snd].
    + split; [done|]. intros c Hc. rewrite take_0. by rewrite lookup_replicate_2.
    + intros j. rewrite lookup_empty. lia.
  - intros i [ranks rank] Hi [Hrank Hranks]. cbn [fst snd] in Hrank, Hranks.
    destruct (lookup_lt_is_Some_2 bwt i) as [x Hx]; [lia|].
    assert (x < 256)%nat as Hx256.
    { rewrite Forall_forall in Hall. apply Hall. by eapply list_elem_of_lookup_2. }
    unfold FM.cp_step. rewrite py_get_nat, Hx. rewrite bind_Some.
    destruct (counters_incr bwt i x rank Hx Hx256 Hrank) as (rank' & -> & Hrank').
    rewrite bind_Some.
    case_bool_decide as Hmod; (eexists; split; [done|]); (split; [done|]); cbn [fst snd];
      intros j; specialize (Hranks j).
    + destruct (decide (j = Z.of_nat i)) as [->|Hne].
      * rewrite lookup_insert_eq. rewrite Nat2Z.id. split; [lia|done].
      * rewrite lookup_insert_ne by done.
        destruct (ranks !! j); [destruct Hranks as (? & ? & ?); split; [lia|done]|lia].
    + destruct (ranks !! j); [destruct Hranks as (? & ? & ?); split; [lia|done]|].
      intros [? ?]. destruct (decide (j = Z.of_nat i)) as [->|Hne]; [done|lia].
  - simpl. eexists. split; [done|]. intros j. specialize (Hcps j). cbn [fst] in Hcps.
    destruct (cps !! j); [|lia]. destruct Hcps as (? & ? & ?). split; [lia|done].
Qed.

(** X22. [compute_checkpoint_arrs] keeps a snapshot of the 256 counters at
    every fifth position of [bwt] and at no other key; the snapshot at [j]
    counts the characters of [bwt[0 .. j]]. It raises exactly when [bwt]
    has a code point above 255. *)
Theorem compute_checkpoint_arrs_table (bwt : str) :
  match FM.compute_checkpoint_arrs bwt with
  | Some cps =>
      Forall (λ c, (c < 256)%nat) bwt
      ∧ ∀ j, match cps !! j with
             | Some arr => 0 ≤ j < Z.of_nat (length bwt) ∧ j `mod` 5 = 0
                           ∧ counters bwt (S (Z.to_nat j)) arr
             | None => ¬ (0 ≤ j < Z.of_nat (length bwt) ∧ j `mod` 5 = 0)
             end
  | None => Exists (λ c, (256 ≤ c)%nat) bwt
  end.
Proof.
  destruct (Forall_or_Exists_256 bwt) as [Hall|Hex].
  - by destruct (compute_checkpoint_arrs_keys bwt Hall) as (cps & -> & Hcps).
  - unfold FM.compute_checkpoint_arrs. rewrite cp_loop_raises; [done|done|].
    apply Exists_exists in Hex as (c & Hc & Hbig).
    apply list_elem_of_lookup_1 in Hc as [i Hi].
    apply Exists_exists. exists i. split.
    + apply elem_of_seq. apply lookup_lt_Some in Hi. lia.
    + by exists c.
Qed.

(** X23. With the checkpoints of [bwt], [compute_rank] returns the number of
    occurrences of the symbol in [bwt[0 .. idx]] for every position [idx]
    of [bwt] and every symbol below 256, and raises for any other
    argument. *)
Theorem compute_rank_counts (bwt : str) (idx : Z) (c : nat) :
  Forall (λ c, (c < 256)%nat) bwt →
  ∃ cps, FM.compute_checkpoint_arrs bwt = Some cps
    ∧ FM.compute_rank bwt idx cps c 5
      = if decide (0 ≤ idx < Z.of_nat (length bwt) ∧ (c < 256)%nat)
        then Some (Z.of_nat (occ c (take (S (Z.to_nat idx)) bwt))) else None.
Proof.
  intros Hall. destruct (compute_checkpoint_arrs_keys bwt Hall) as (cps & E & Hcps).
  exists cps. split; [done|].
  assert (∀ j, (j < length bwt)%nat → (Z.of_nat j) `mod` 5 = 0 →
            ∃ arr, cps !! Z.of_nat j = Some arr ∧ counters bwt (S j) arr) as Hcps'.
  { intros j Hj Hm. specialize (Hcps (Z.of_nat j)).
    destruct (cps !! Z.of_nat j) as [arr|]; [|lia].
    destruct Hcps as (_ & _ & Harr). rewrite Nat2Z.id in Harr. by exists arr. }
  destruct (decide (0 ≤ idx < Z.of_nat (length bwt) ∧ (c < 256)%nat)) as [[Hidx Hc]|Hn].
  { rewrite <- (Z2Nat.id idx) at 1 by lia. apply compute_rank_spec; [done|lia|done]. }
  unfold FM.compute_rank. rewrite bool_decide_eq_false_2 by lia.
  set (d := idx `mod` 5).
  assert (0 ≤ d < 5) as Hd by (apply Z.mod_pos_bound; lia).
  specialize (Hcps (idx - d)).
  destruct (cps !! (idx - d)) as [arr|]; [|done]. rewrite bind_Some.
  destruct Hcps as (Hkey & _ & [Hlen Harr]).
  destruct (py_get arr (ord c)) as [r|] eqn:Er; [|done]. rewrite bind_Some.
  assert (c < 256)%nat as Hc.
  { assert (is_Some (py_get arr (ord c))) as Hs by (by rewrite Er).
    apply py_get_is_Some in Hs. unfold py_index, ord in Hs. lia. }
  assert (Z.of_nat (length bwt) ≤ idx) as Hbig by lia.
  apply (for_each_raises _ _ _ (Z.of_nat (length bwt))).
  - apply elem_of_seqZ. unfold d in *. pose proof (Z.mod_le idx 5). lia.
  - intros st. rewrite py_get_nat, lookup_ge_None_2; [done|lia].
Qed.

Lemma compute_rank_counts_witness :
  ∃ cps, FM.compute_checkpoint_arrs (py "ANNB$AA") = Some cps
    ∧ FM.compute_rank (py "ANNB$AA") 6 cps 65 5
      = if decide (0 ≤ 6 < Z.of_nat (length (py "ANNB$AA")) ∧ (65 < 256)%nat)
        then Some (Z.of_nat (occ 65 (take (S (Z.to_nat 6)) (py "ANNB$AA")))) else None.
Proof.
  apply (compute_rank_counts (py "ANNB$AA") 6 65).
  vm_compute. repeat constructor.
Defined.

(** X24. [bwt_psa_out] on any text and any stride other than zero: row [r] of
    the transform holds the character before the suffix of row [r], and the
    sampled suffix array holds [sa[r]] under [r] exactly for the rows with
    [sa[r] mod k = 0]. *)
Theorem bwt_psa_out_rows (text : str) (k : Z) :
  k ≠ 0 →
  ∃ sa bwt psa,
    SA.suffix_array text = Some sa
    ∧ FM.bwt_psa_out text k = Some (bwt, psa)
    ∧ bwt ≡ₚ text
    ∧ (∀ r i, sa !! r = Some i →
         bwt !! r = py_get text (i - 1)
         ∧ psa !! Z.of_nat r = if decide (i `mod` k = 0) then Some i else None)
    ∧ ∀ j v, psa !! j = Some v → ∃ r, j = Z.of_nat r ∧ sa !! r = Some v.
Proof.
  intros Hk. destruct (suffix_array_permutation text) as (sa & Esa & Hperm).
  destruct (bwt_from_suffix_array_rows text sa Hperm) as (bwt & Ebwt & Hbwt & Hrows).
  pose proof (Permutation_length Hperm) as Hlen. rewrite length_seqZ in Hlen.
  assert (∀ i, i ∈ sa ↔ 0 ≤ i < Z.of_nat (length sa)) as Hin.
  { intros i. rewrite Hlen, Hperm, elem_of_seqZ. lia. }
  destruct (psa_loop sa k sa ∅ Hk) as (psa & Epsa & Hpsa).
  { apply Forall_forall. intros i Hi. apply Hin in Hi. unfold py_index. lia. }
  exists sa, bwt, psa. split; [done|]. split.
  { unfold FM.bwt_psa_out, FM.partial_suffix_array. rewrite Esa. simpl. rewrite Ebwt. simpl.
    by rewrite Epsa. }
  split; [done|]. split.
  - intros r i Hr. split; [by apply Hrows|].
    rewrite Hpsa, py_get_nat, Hr, lookup_empty.
    assert (Z.of_nat r ∈ sa) as Hrin.
    { apply Hin. apply lookup_lt_Some in Hr. lia. }
    destruct (decide (i `mod` k = 0)) as [Hm|Hm].
    + by rewrite decide_True.
    + rewrite decide_False; [done|]. by intros [_ ?].
  - intros j v. rewrite Hpsa.
    destruct (py_get sa j) as [w|] eqn:Hw; [|by rewrite lookup_empty].
    destruct (decide (j ∈ sa ∧ w `mod` k = 0)) as [[Hj _]|_]; [|by rewrite lookup_empty].
    intros [= <-]. apply Hin in Hj. exists (Z.to_nat j). split; [lia|].
    by rewrite py_get_nonneg in Hw by lia.
Qed.

Lemma bwt_psa_out_rows_witness :
  ∃ sa bwt psa,
    SA.suffix_array (py "banana") = Some sa
    ∧ FM.bwt_psa_out (py "banana") 2 = Some (bwt, psa)
    ∧ bwt ≡ₚ py "banana"
    ∧ (∀ r i, sa !! r = Some i →
         bwt !! r = py_get (py "banana") (i - 1)
         ∧ psa !! Z.of_nat r = if decide (i `mod` 2 = 0) then Some i else None)
    ∧ ∀ j v, psa !! j = Some v → ∃ r, j = Z.of_nat r ∧ sa !! r = Some v.
Proof. apply (bwt_psa_out_rows (py "banana") 2). lia. Defined.

(** ** Search for any pattern, and [generate_seeds] *)

Section search.
Import FM.
Context (T : str) (pos : list nat) (K : Z)
        (fo : gmap nat Z) (cps : gmap Z (list Z)) (psa : gmap Z Z).
Hypothesis Hsent : sentinel_text T.
Hypothesis Hperm : pos ≡ₚ seq 0 (length T).
Hypothesis Hsorted : ∀ a b i j, (a < b)%nat → pos !! a = Some i → pos !! b = Some j →
  lex_lt (drop i T) (drop j T).
Hypothesis H256 : Forall (λ c, (c < 256)%nat) T.

Local Abbreviation n := (length T).
Local Abbreviation L := (bwt_char T <$> pos).

Hypothesis Hfo : ∀ c, fo !! c = if decide (c ∈ L) then Some (Z.of_nat (smaller c L)) else None.
Hypothesis Hcps : ∀ j, (j < length L)%nat → (Z.of_nat j) `mod` 5 = 0 →
  ∃ arr, cps !! Z.of_nat j = Some arr ∧ counters L (S j) arr.
Hypothesis Hpsa : ∀ r x, pos !! r = Some x →
  psa !! Z.of_nat r = if decide (Z.of_nat x `mod` K = 0) then Some (Z.of_nat x) else None.
Hypothesis HK : 1 ≤ K.

Lemma fo_absent c : c ∉ T → fo !! c = None.
Proof.
  intros Hc. rewrite Hfo, decide_False; [done|].
  by rewrite (bwt_Permutation T pos Hsent Hperm Hsorted).
Qed.

(** A row of the interval of [w] whose character in the transform is [c]
    belongs to a suffix that is preceded by [c]. *)
Lemma interval_extend w top bot c :
  interval_of T pos w top bot → c ≠ SENTINEL →
  (occ c (take top L) < occ c (take (S bot) L))%nat →
  ∃ x, occurs_at (c :: w) T x.
Proof.
  intros [Hrange Hrows] Hc Hlt.
  destruct (occ_take_between c L top (S bot) (occ c (take top L))) as (r & Hr & HL & _);
    [lia|].
  destruct (lookup_lt_is_Some_2 pos r) as [x Hx].
  { rewrite (length_pos T pos Hperm). lia. }
  rewrite (bwt_lookup T pos r x Hx) in HL. injection HL as HL.
  destruct x as [|x].
  { rewrite (bwt_char_0 T pos Hsent Hperm Hsorted) in HL. congruence. }
  pose proof (pos_lt T pos Hperm _ _ Hx) as Hlt'.
  rewrite bwt_char_S in HL by done.
  destruct (lookup_lt_is_Some_2 T x) as [c' Hc']; [lia|].
  rewrite Hc' in HL. simpl in HL. subst c'.
  exists x. apply occurs_at_cons. split; [done|]. apply (Hrows r (S x) Hx). lia.
Qed.

(** The loop of the backward search, for any pattern without the
    sentinel: it ends on the interval of the pattern, or on [(0, 0)] when
    the pattern does not occur. *)
Lemma bw_loop_search symbols w top bot :
  interval_of T pos w top bot → SENTINEL ∉ symbols →
  ∃ lo hi, bw_loop L fo cps symbols (Z.of_nat top) (Z.of_nat bot) = Some (lo, hi)
    ∧ ((∃ top' bot', lo = Z.of_nat top' ∧ hi = Z.of_nat bot' + 1
          ∧ interval_of T pos (reverse symbols ++ w) top' bot')
       ∨ (lo = 0 ∧ hi = 0 ∧ ¬ ∃ x, occurs_at (reverse symbols ++ w) T x)).
Proof.
  revert w top bot. induction symbols as [|c symbols IH]; intros w top bot Hint Hsym.
  - eexists _, _. split; [done|]. left. by exists top, bot.
  - apply not_elem_of_cons in Hsym as [Hc' Hsym].
    assert (c ≠ SENTINEL) as Hc by done.
    rewrite reverse_cons, <- app_assoc. simpl.
    destruct (decide (c ∈ T)) as [HcT|HcT].
    2:{ rewrite (fo_absent c HcT). eexists _, _. split; [done|]. right.
        split; [done|]. split; [done|]. intros [x Hx].
        apply occurs_at_app, occurs_at_cons in Hx as [Hx _].
        apply HcT. by eapply list_elem_of_lookup_2. }
    pose proof Hint as [Hrange Hrows].
    assert (c < 256)%nat as Hc256 by (rewrite Forall_forall in H256; by apply H256).
    rewrite (fo_lookup T pos fo Hsent Hperm Hsorted Hfo c HcT).
    rewrite !(compute_rank_spec L cps _ c Hcps) by (rewrite ?(length_bwt T pos Hperm); lia).
    rewrite !bind_Some, py_get_nat.
    destruct (lookup_lt_is_Some_2 L top) as [y Hy]; [rewrite (length_bwt T pos Hperm); lia|].
    rewrite Hy, bind_Some.
    rewrite (occ_take_S c L top y Hy).
    set (sm := smaller c T).
    assert ((if bool_decide (y = c)
             then Z.of_nat sm + Z.of_nat (occ c (take top L) + (if decide (y = c) then 1 else 0)) - 1
             else Z.of_nat sm + Z.of_nat (occ c (take top L) + (if decide (y = c) then 1 else 0)))
            = Z.of_nat (sm + occ c (take top L))) as ->.
    { case_bool_decide; [rewrite decide_True by done|rewrite decide_False by done]; lia. }
    pose proof (occ_take_mono c L top (S bot) ltac:(lia)) as Hmono.
    destruct (decide (occ c (take top L) < occ c (take (S bot) L))%nat) as [Hlt|Hge].
    + destruct (interval_step T pos Hsent Hperm Hsorted w top bot c Hint Hc)
        as [_ Hint'].
      { by apply (interval_extend w top bot c). }
      rewrite bool_decide_eq_false_2 by lia.
      replace (Z.of_nat sm + Z.of_nat (occ c (take (S bot) L)) - 1)
        with (Z.of_nat (sm + occ c (take (S bot) L) - 1)) by lia.
      by apply IH.
    + rewrite bool_decide_eq_true_2 by lia.
      eexists _, _. split; [done|]. right. split; [done|]. split; [done|].
      intros [x Hx]. apply occurs_at_app in Hx.
      destruct (interval_step T pos Hsent Hperm Hsorted w top bot c Hint Hc) as [Hlt _];
        [by eexists|lia].
Qed.

Lemma occurrences_none w : (¬ ∃ x, occurs_at w T x) → occurrences w T = [].
Proof.
  intros Hno. unfold occurrences. apply filter_nil_Forall, Forall_forall.
  intros x _ Hx. apply Hno. by exists x.
Qed.

(** Search and position recovery for any pattern without the sentinel. *)
Lemma find_any fuel w :
  SENTINEL ∉ w → (n ≤ fuel)%nat →
  ∃ lo hi l, bw_better_match_pattern L w fo cps = Some (lo, hi)
    ∧ hi - lo = Z.of_nat (length (occurrences w T))
    ∧ ((∃ x, occurs_at w T x) ∨ (lo = 0 ∧ hi = 0))
    ∧ compute_idxes_from_top_bot fuel lo hi psa L (compute_rank_arr L) fo = Some l
    ∧ l ≡ₚ Z.of_nat <$> occurrences w T.
Proof.
  intros Hw Hfuel. unfold bw_better_match_pattern.
  pose proof (text_nonempty T pos Hsent Hperm Hsorted) as Hn.
  replace (Z.of_nat (length L) - 1) with (Z.of_nat (n - 1))
    by (rewrite (length_bwt T pos Hperm); lia).
  destruct (bw_loop_search (reverse w) [] 0 (n - 1)) as (lo & hi & E & Hcase).
  - by apply interval_all.
  - by rewrite elem_of_reverse.
  - rewrite reverse_involutive, app_nil_r in Hcase.
    destruct Hcase as [(top & bot & -> & -> & Hint)|(-> & -> & Hno)].
    + pose proof (interval_size T pos Hperm w top bot Hint) as Hsize.
      pose proof (interval_rows T pos Hperm w top bot Hint) as Hrows.
      pose proof Hint as [Hrange Hiff].
      eexists _, _, _. split; [exact E|]. split; [lia|]. split.
      { left. destruct (lookup_lt_is_Some_2 pos top) as [x Hx].
        { rewrite (length_pos T pos Hperm). lia. }
        exists x. apply (Hiff top x Hx). lia. }
      unfold compute_idxes_from_top_bot.
      replace (Z.of_nat bot + 1 - Z.of_nat top) with (Z.of_nat (S bot - top)) by lia.
      rewrite (locate_rows T pos K fo psa Hsent Hperm Hsorted Hfo Hpsa HK) by lia.
      split; [done|]. simpl. by rewrite Hrows.
    + eexists _, _, []. split; [exact E|]. rewrite (occurrences_none w Hno).
      split; [done|]. split; [by right|]. done.
Qed.

End search.

(** A text has one sorted suffix array. *)
Lemma sorted_rows_unique (T : str) (pos pos' : list nat) :
  pos ≡ₚ seq 0 (length T) →
  (∀ a b i j, (a < b)%nat → pos !! a = Some i → pos !! b = Some j →
     lex_lt (drop i T) (drop j T)) →
  pos' ≡ₚ seq 0 (length T) →
  (∀ a b i j, (a < b)%nat → pos' !! a = Some i → pos' !! b = Some j →
     lex_lt (drop i T) (drop j T)) →
  pos = pos'.
Proof.
  intros Hperm Hsorted Hperm' Hsorted'. apply list_eq. intros r.
  destruct (pos' !! r) as [x'|] eqn:Hx'.
  - pose proof (row_of_pos T pos' Hperm' Hsorted' r x' Hx') as Hrow.
    pose proof (pos_lt T pos' Hperm' r x' Hx') as Hlt.
    pose proof (pos_row_of T pos Hperm Hsorted x' Hlt) as Hx. by rewrite Hrow in Hx.
  - apply lookup_ge_None in Hx'. apply lookup_ge_None.
    rewrite (length_pos T pos Hperm). by rewrite (length_pos T pos' Hperm') in Hx'.
Qed.

Lemma py_slice_take_drop {A} (l : list A) (i k : Z) :
  0 ≤ i → 0 ≤ k → i + k ≤ Z.of_nat (length l) →
  py_slice l i (i + k) = take (Z.to_nat k) (drop (Z.to_nat i) l).
Proof.
  intros Hi Hk Hlen. unfold py_slice, py_clip.
  rewrite !bool_decide_eq_false_2 by lia. f_equal; [lia|]. f_equal. lia.
Qed.

Section reference_search.
Import FM.
Context (R : str) (K : Z).
Hypothesis HR : Forall (λ c, (SENTINEL < c < 256)%nat) R.
Hypothesis HK : 1 ≤ K.

Local Abbreviation T := (R ++ [SENTINEL]).

(** The index of a reference finds any pattern without the sentinel. *)
Lemma build_index_find :
  ∃ ix pos, build_index R K = Some ix
    ∧ SA.suffix_array T = Some (Z.of_nat <$> pos)
    ∧ length pos = length T
    ∧ (∀ fuel (lo len : nat), (lo + len ≤ length T)%nat → (length T ≤ fuel)%nat →
         compute_idxes_from_top_bot fuel (Z.of_nat lo) (Z.of_nat (lo + len))
           (ix_psa ix) (ix_bwt ix) (ix_rank ix) (ix_first ix)
         = Some (Z.of_nat <$> take len (drop lo pos)))
    ∧ ∀ fuel w, SENTINEL ∉ w → (length T ≤ fuel)%nat →
        ∃ lo hi l,
          bw_better_match_pattern (ix_bwt ix) w (ix_first ix) (ix_checkpoints ix) = Some (lo, hi)
          ∧ hi - lo = Z.of_nat (length (occurrences w T))
          ∧ ((∃ x, occurs_at w T x) ∨ (lo = 0 ∧ hi = 0))
          ∧ compute_idxes_from_top_bot fuel lo hi (ix_psa ix) (ix_bwt ix) (ix_rank ix)
              (ix_first ix) = Some l
          ∧ l ≡ₚ Z.of_nat <$> occurrences w T.
Proof.
  destruct (build_index_spec R K HR HK)
    as (ix & pos & Eix & Hperm & Hsorted & Ebwt & Erank & Hfo & Hcps & Hpsa).
  pose proof (reference_sentinel_text R HR) as Hsent.
  exists ix, pos. split; [done|]. split; [|split; [by apply length_pos|split]].
  - destruct (suffix_array_sorted T Hsent) as (sa & Esa & Hperm' & Hsorted').
    rewrite Esa. f_equal. set (pos' := Z.to_nat <$> sa).
    assert (sa = Z.of_nat <$> pos') as Hsa.
    { unfold pos'. rewrite <- list_fmap_compose. rewrite <- (list_fmap_id sa) at 1.
      apply list_fmap_ext. intros i x Hx. simpl.
      apply list_elem_of_lookup_2 in Hx. rewrite Hperm' in Hx. apply elem_of_seqZ in Hx. lia. }
    rewrite Hsa. f_equal. symmetry. apply (sorted_rows_unique T); try done.
    + unfold pos'. rewrite Hperm'. by rewrite fmap_to_nat_seqZ.
    + intros a b i j Hab Hi Hj.
      assert (sa !! a = Some (Z.of_nat i)) as Hi' by (by rewrite Hsa, list_lookup_fmap, Hi).
      assert (sa !! b = Some (Z.of_nat j)) as Hj' by (by rewrite Hsa, list_lookup_fmap, Hj).
      pose proof (Hsorted' a b _ _ Hab Hi' Hj') as H. by rewrite !Nat2Z.id in H.
  - intros fuel lo len Hlen Hfuel. unfold compute_idxes_from_top_bot.
    replace (Z.of_nat (lo + len) - Z.of_nat lo) with (Z.of_nat len) by lia.
    rewrite Erank, Ebwt in *.
    by rewrite (locate_rows T pos K _ _ Hsent Hperm Hsorted Hfo Hpsa HK).
  - intros fuel w Hw Hfuel. rewrite Erank, Ebwt in *.
    apply (find_any T pos K _ _ _ Hsent Hperm Hsorted (reference_chars R HR) Hfo Hcps Hpsa HK);
      done.
Qed.

End reference_search.

(** ** Properties of the search *)

(** X25. [compute_idxes_from_top_bot] recovers the suffix array from its
    sample: on the index of a reference over the code points 37 .. 255,
    for the rows [lo .. hi - 1] and once its inner loop may run
    [len(R) + 1] times, it returns [sa[lo:hi]], whatever the sample stride
    [K >= 1]. *)
Theorem compute_idxes_from_top_bot_rows (R : str) (K : Z) (fuel lo hi : nat) :
  Forall (λ c, (SENTINEL < c < 256)%nat) R → 1 ≤ K →
  (length R + 1 ≤ fuel)%nat → (lo ≤ hi ≤ length R + 1)%nat →
  ∃ ix sa,
    FM.build_index R K = Some ix
    ∧ SA.suffix_array (R ++ [SENTINEL]) = Some sa
    ∧ FM.compute_idxes_from_top_bot fuel (Z.of_nat lo) (Z.of_nat hi)
        (FM.ix_psa ix) (FM.ix_bwt ix) (FM.ix_rank ix) (FM.ix_first ix)
      = Some (take (hi - lo) (drop lo sa)).
Proof.
  intros HR HK Hfuel Hrange.
  destruct (build_index_find R K HR HK) as (ix & pos & Eix & Esa & Hlen & Hrows & _).
  exists ix, (Z.of_nat <$> pos). split; [done|]. split; [done|].
  replace hi with (lo + (hi - lo))%nat at 1 by lia.
  rewrite Hrows by (rewrite ?length_app; simpl; lia).
  by rewrite fmap_take, fmap_drop.
Qed.

Lemma compute_idxes_from_top_bot_rows_witness :
  ∃ ix sa,
    FM.build_index (py "BANANA") 3 = Some ix
    ∧ SA.suffix_array (py "BANANA" ++ [SENTINEL]) = Some sa
    ∧ FM.compute_idxes_from_top_bot 7 (Z.of_nat 0) (Z.of_nat 7)
        (FM.ix_psa ix) (FM.ix_bwt ix) (FM.ix_rank ix) (FM.ix_first ix)
      = Some (take (7 - 0) (drop 0 sa)).
Proof.
  apply (compute_idxes_from_top_bot_rows (py "BANANA") 3 7 0 7).
  - repeat constructor; vm_compute; lia.
  - lia.
  - simpl. lia.
  - simpl. lia.
Defined.

(** X26. A non-empty pattern without the sentinel that does not occur in the
    reference is not found: on the index of a reference over the code
    points 37 .. 255 the search returns [(0, 0)], and position recovery on
    that interval returns no position. *)
Theorem bw_better_match_pattern_absent (R w : str) (K : Z) (fuel : nat) :
  Forall (λ c, (SENTINEL < c < 256)%nat) R → 1 ≤ K →
  w ≠ [] → SENTINEL ∉ w → (∀ x, ¬ occurs_at w R x) →
  ∃ ix,
    FM.build_index R K = Some ix
    ∧ FM.bw_better_match_pattern (FM.ix_bwt ix) w (FM.ix_first ix) (FM.ix_checkpoints ix)
      = Some (0, 0)
    ∧ FM.find fuel ix w = Some [].
Proof.
  intros HR HK Hne Hw Hno.
  destruct (build_index_find R K HR HK) as (ix & pos & Eix & _ & _ & _ & Hfind).
  destruct (Hfind (length (R ++ [SENTINEL])) w Hw ltac:(lia))
    as (lo & hi & l & E & _ & [[x Hx]|[-> ->]] & _).
  { exfalso. apply (Hno x). by apply occurs_at_sentinel. }
  exists ix. split; [done|]. split; [done|]. unfold FM.find. by rewrite E.
Qed.

Lemma bw_better_match_pattern_absent_witness :
  ∃ ix,
    FM.build_index (py "BANANA") 3 = Some ix
    ∧ FM.bw_better_match_pattern (FM.ix_bwt ix) (py "NAB") (FM.ix_first ix)
        (FM.ix_checkpoints ix) = Some (0, 0)
    ∧ FM.find 0 ix (py "NAB") = Some [].
Proof.
  apply (bw_better_match_pattern_absent (py "BANANA") (py "NAB") 3 0).
  - repeat constructor; vm_compute; lia.
  - lia.
  - discriminate.
  - vm_compute. intros H. repeat (apply elem_of_cons in H as [H|H]; [discriminate|]).
    by apply elem_of_nil in H.
  - intros x. unfold occurs_at.
    do 7 (destruct x as [|x]; [discriminate|]). simpl. discriminate.
Defined.

Section seeds.
Import FM.
Context (R read : str) (K k : Z) (fuel : nat).
Hypothesis HR : Forall (λ c, (SENTINEL < c < 256)%nat) R.
Hypothesis HK : 1 ≤ K.
Hypothesis Hk : 1 ≤ k.
Hypothesis Hread : SENTINEL ∉ read.
Hypothesis Hfuel : (length R + 1 ≤ fuel)%nat.

(** The k-mer of the read that starts at [i]. *)
Lemma kmer_slice (i : Z) :
  0 ≤ i → i + k ≤ Z.of_nat (length read) →
  let kmer := py_slice read i (i + k) in
  kmer = take (Z.to_nat k) (drop (Z.to_nat i) read) ∧ kmer ≠ [] ∧ SENTINEL ∉ kmer.
Proof.
  intros Hi Hlen kmer. unfold kmer. rewrite py_slice_take_drop by lia.
  split; [done|]. split.
  - intros E. apply (f_equal length) in E. rewrite length_take, length_drop in E.
    simpl in E. lia.
  - intros Hin. apply Hread.
    eapply elem_of_sublist; [|apply (sublist_drop read (Z.to_nat i))].
    eapply elem_of_sublist; [done|apply sublist_take].
Qed.

Lemma generate_seeds_loop (ix : index) (rows : list Z) (acc : list (list Z)) :
  (∀ fuel w, SENTINEL ∉ w → (length (R ++ [SENTINEL]) ≤ fuel)%nat →
     ∃ lo hi l,
       bw_better_match_pattern (ix_bwt ix) w (ix_first ix) (ix_checkpoints ix) = Some (lo, hi)
       ∧ hi - lo = Z.of_nat (length (occurrences w (R ++ [SENTINEL])))
       ∧ ((∃ x, occurs_at w (R ++ [SENTINEL]) x) ∨ (lo = 0 ∧ hi = 0))
       ∧ compute_idxes_from_top_bot fuel lo hi (ix_psa ix) (ix_bwt ix) (ix_rank ix)
           (ix_first ix) = Some l
       ∧ l ≡ₚ Z.of_nat <$> occurrences w (R ++ [SENTINEL])) →
  Forall (λ i, 0 ≤ i ∧ i + k ≤ Z.of_nat (length read)) rows →
  ∃ ls,
    for_each (λ i seed_idxes,
                let kmer := py_slice read i (i + k) in
                '(start, end_) ← bw_better_match_pattern (ix_bwt ix) kmer (ix_first ix)
                                   (ix_checkpoints ix);
                idxes ← compute_idxes_from_top_bot fuel start end_ (ix_psa ix) (ix_bwt ix)
                          (ix_rank ix) (ix_first ix);
                Some (seed_idxes ++ [idxes])) rows acc
    = Some (acc ++ ls)
    ∧ Forall2 (λ i l, l ≡ₚ Z.of_nat <$> occurrences (take (Z.to_nat k) (drop (Z.to_nat i) read)) R)
              rows ls.
Proof.
  intros Hfind His. set (body := (λ (i : Z) (seed_idxes : list (list Z)), _)).
  revert acc. induction His as [|i rows [Hi Hlen] _ IH]; intros acc.
  - exists []. by rewrite app_nil_r.
  - destruct (kmer_slice i Hi Hlen) as (Ekmer & Hne & Hsent).
    destruct (Hfind fuel (py_slice read i (i + k)) Hsent) as (lo & hi & l & E & _ & _ & El & Hl).
    { rewrite length_app. simpl. lia. }
    change (for_each body (i :: rows) acc) with (body i acc ≫= for_each body rows).
    assert (body i acc = Some (acc ++ [l])) as ->.
    { unfold body. cbv zeta. rewrite E. simpl. by rewrite El. }
    rewrite bind_Some.
    destruct (IH (acc ++ [l])) as (ls & -> & Hls).
    exists (l :: ls). rewrite <- app_assoc. split; [done|].
    constructor; [|done]. rewrite Hl, occurrences_sentinel by done. by rewrite Ekmer.
Qed.

End seeds.

Lemma generate_seeds_spec (R read : str) (K k : Z) (fuel : nat) :
  Forall (λ c, (SENTINEL < c < 256)%nat) R → 1 ≤ K → 1 ≤ k →
  SENTINEL ∉ read → (length R + 1 ≤ fuel)%nat →
  ∃ ix seeds,
    FM.build_index R K = Some ix
    ∧ FM.generate_seeds fuel read (FM.ix_bwt ix) k (FM.ix_psa ix) (FM.ix_first ix)
        (FM.ix_checkpoints ix) (FM.ix_rank ix) = Some seeds
    ∧ Z.of_nat (length seeds) = Z.max 0 (Z.of_nat (length read) - k + 1)
    ∧ ∀ (i : nat) l, seeds !! i = Some l →
        l ≡ₚ Z.of_nat <$> occurrences (take (Z.to_nat k) (drop i read)) R.
Proof.
  intros HR HK Hk Hread Hfuel.
  destruct (build_index_find R K HR HK) as (ix & pos & Eix & _ & _ & _ & Hfind).
  destruct (generate_seeds_loop R read k fuel Hk Hread Hfuel ix
              (seqZ 0 (Z.of_nat (length read) - k + 1)) [] Hfind) as (seeds & E & Hseeds).
  { apply Forall_forall. intros i Hi. apply elem_of_seqZ in Hi. lia. }
  exists ix, seeds. split; [done|]. split; [exact E|].
  pose proof (Forall2_length _ _ _ Hseeds) as Hlen. rewrite length_seqZ in Hlen.
  split; [lia|]. intros i l Hl.
  destruct (Forall2_lookup_r _ _ _ _ _ Hseeds Hl) as (z & Hz & Hzl).
  apply lookup_seqZ in Hz as [-> _]. by rewrite Z.add_0_l, Nat2Z.id in Hzl.
Qed.

(** X27. [generate_seeds] on the index of a reference over the code points
    37 .. 255, for a read without the sentinel and [k >= 1]: one list of
    positions for each of the [len(read) - k + 1] k-mers of the read,
    holding exactly the offsets at which the k-mer occurs in the reference
    (none if it does not occur). *)
Theorem generate_seeds_occurrences (R read : str) (K k : Z) (fuel : nat) :
  Forall (λ c, (SENTINEL < c < 256)%nat) R → 1 ≤ K → 1 ≤ k →
  SENTINEL ∉ read → (length R + 1 ≤ fuel)%nat →
  ∃ ix seeds,
    FM.build_index R K = Some ix
    ∧ FM.generate_seeds fuel read (FM.ix_bwt ix) k (FM.ix_psa ix) (FM.ix_first ix)
        (FM.ix_checkpoints ix) (FM.ix_rank ix) = Some seeds
    ∧ Z.of_nat (length seeds) = Z.max 0 (Z.of_nat (length read) - k + 1)
    ∧ ∀ (i : nat) l, seeds !! i = Some l →
        l ≡ₚ Z.of_nat <$> occurrences (take (Z.to_nat k) (drop i read)) R.
Proof. apply generate_seeds_spec. Qed.

Lemma generate_seeds_occurrences_witness :
  ∃ ix seeds,
    FM.build_index (py "BANANA") 3 = Some ix
    ∧ FM.generate_seeds 7 (py "NANX") (FM.ix_bwt ix) 2 (FM.ix_psa ix) (FM.ix_first ix)
        (FM.ix_checkpoints ix) (FM.ix_rank ix) = Some seeds
    ∧ Z.of_nat (length seeds) = Z.max 0 (Z.of_nat (length (py "NANX")) - 2 + 1)
    ∧ ∀ (i : nat) l, seeds !! i = Some l →
        l ≡ₚ Z.of_nat <$> occurrences (take (Z.to_nat 2) (drop i (py "NANX"))) (py "BANANA").
Proof.
  apply (generate_seeds_occurrences (py "BANANA") (py "NANX") 3 2 7).
  - repeat constructor; vm_compute; lia.
  - lia.
  - lia.
  - vm_compute. intros H. repeat (apply elem_of_cons in H as [H|H]; [discriminate|]).
    by apply elem_of_nil in H.
  - simpl. lia.
Defined.

(** ** Seeding and extension together *)

Local Arguments backtrack_walk : simpl never.

Section perfect.
Context (mr mmp indp bw : Z).
Hypothesis Hmr : 0 < mr.
Hypothesis Hindp : 0 < indp.
Hypothesis Hmmp : - mmp < mr.
Hypothesis Hbw : 1 ≤ bw.

Lemma banded_alignment_same (s : str) :
  scores_exact mr mmp indp (length s) (length s) →
  Banded.banded_alignment mr mmp indp bw s s = Some (Fin (mr * Z.of_nat (length s))).
Proof.
  intros Hexact. rewrite banded_alignment_spec by done. f_equal.
  pose proof (banded_score_diag mr mmp indp bw s s (length s) Hbw) as Hlo.
  pose proof (banded_score_ub mr mmp indp bw s s ltac:(lia) ltac:(lia) ltac:(lia)
                (length s) (length s)) as Hub.
  replace (length s `min` length s)%nat with (length s) in Hub by lia.
  specialize (Hlo ltac:(lia) ltac:(lia) eq_refl).
  destruct (banded_score mr mmp indp bw s s (length s) (length s)) as [|z]; [done|].
  simpl in *. f_equal. lia.
Qed.

Lemma backtrack_same (s : str) :
  float_ok indp →
  aligned_walk mr mmp indp bw s s = Some (Fin (mr * Z.of_nat (length s)), s, s).
Proof.
  intros Hfl.
  destruct (matrices_bt_spec mr mmp indp bw s s (λ _ _, Hfl))
    as (l & b & E & Hl & Hb & Hcells & Hptrs).
  unfold aligned_walk. rewrite E. simpl.
  rewrite (backtrack_equal mr mmp indp bw s s b Hptrs (length s)) by (done || lia).
  simpl. rewrite mget_entry, Hcells by lia. simpl.
  rewrite backtrack_score_equal by (done || lia). by rewrite firstn_all.
Qed.

(** Only the string itself reaches the score of a match in every column. *)
Lemma banded_alignment_perfect (s t : str) :
  scores_exact mr mmp indp (length s) (length t) →
  (length s ≤ length t)%nat →
  Banded.banded_alignment mr mmp indp bw s t = Some (Fin (mr * Z.of_nat (length t))) →
  s = t.
Proof.
  intros Hexact Hlen E. rewrite banded_alignment_spec in E by done. injection E as E.
  pose proof (banded_score_ub mr mmp indp bw s t ltac:(lia) ltac:(lia) ltac:(lia)
                (length s) (length t)) as Hub.
  rewrite E in Hub. simpl in Hub.
  assert (length s = length t) as Hn by nia.
  pose proof (banded_le_backtrack mr mmp indp bw s t (length s) (length t)) as Hle.
  pose proof (backtrack_score_ub mr mmp indp bw s t ltac:(lia) ltac:(lia) ltac:(lia)
                (length s) (length t)) as Hub'.
  rewrite E in Hle. rewrite <- Hn in *.
  replace (length s `min` length s)%nat with (length s) in Hub' by lia.
  assert (backtrack_score mr mmp indp bw s t (length s) (length s)
          = Fin (mr * Z.of_nat (length s))) as Ht.
  { destruct (backtrack_score mr mmp indp bw s t (length s) (length s)) as [|z]; [done|].
    simpl in *. f_equal. lia. }
  pose proof (backtrack_score_exact mr mmp indp bw s t ltac:(lia) Hindp Hmmp (length s)
                ltac:(lia) ltac:(lia) Ht) as Heq.
  rewrite firstn_all in Heq. rewrite Hn, firstn_all in Heq. done.
Qed.

Lemma banded_alignment_le (s t : str) x :
  scores_exact mr mmp indp (length s) (length t) →
  Banded.banded_alignment mr mmp indp bw s t = Some x →
  score_le x (Fin (mr * Z.of_nat (length t))).
Proof.
  intros Hexact. rewrite banded_alignment_spec by done. intros [= <-].
  eapply score_le_trans.
  { apply (banded_score_ub mr mmp indp bw s t); lia. }
  simpl. assert (Z.of_nat (length s `min` length t) ≤ Z.of_nat (length t)) by lia. nia.
Qed.

End perfect.

Lemma score_gt_irrefl x : score_gt x x = false.
Proof. destruct x; simpl; [done|]. apply bool_decide_eq_false. lia. Qed.

Lemma occurs_at_bound (w T : str) (x : nat) :
  w ≠ [] → occurs_at w T x → (x + length w ≤ length T)%nat.
Proof.
  intros Hne Hx. unfold occurs_at in Hx. apply (f_equal length) in Hx.
  rewrite length_take, length_drop in Hx.
  assert (length w ≠ 0%nat) by (by destruct w). lia.
Qed.

Lemma occurs_at_prefix (w T : str) (x k : nat) :
  occurs_at w T x → occurs_at (take k w) T x.
Proof.
  unfold occurs_at. intros Hx. rewrite <- Hx at 2.
  rewrite length_take, take_take. f_equal.
Qed.

Lemma elem_of_occurrences (w T : str) (x : nat) :
  x ∈ occurrences w T ↔ (x < length T)%nat ∧ occurs_at w T x.
Proof.
  unfold occurrences. rewrite list_elem_of_filter, elem_of_seq. split; intros [? ?]; split;
    (done || lia).
Qed.

Section pipeline.
Context (R read : str) (K k mr mmp indp bw : Z) (fuel frames : nat).
Hypothesis Hexact : scores_exact mr mmp indp (length R) (length read).
Hypothesis Hroom : (frames + length read + length read + 2 < recursion_limit)%nat.
Hypothesis HR : Forall (λ c, (SENTINEL < c < 256)%nat) R.
Hypothesis HK : 1 ≤ K.
Hypothesis Hk : 1 ≤ k ≤ Z.of_nat (length read).
Hypothesis Hmr : 0 < mr.
Hypothesis Hindp : 0 < indp.
Hypothesis Hmmp : - mmp < mr.
Hypothesis Hbw : 1 ≤ bw.
Hypothesis Hfuel : (length R + 1 ≤ fuel)%nat.

Local Abbreviation n := (length read).

Lemma window_scores_exact (i p : Z) :
  scores_exact mr mmp indp (length (seed_window R (Z.of_nat n) i p)) n.
Proof. eapply scores_exact_mono; [done| |done]. apply py_slice_length_le. Qed.

Lemma window_exact (q : nat) :
  (q < length R)%nat →
  Banded.banded_alignment mr mmp indp bw
    (seed_window R (Z.of_nat n) (Z.of_nat 0) (Z.of_nat q)) read
  = Some (Fin (mr * Z.of_nat n)) →
  seed_window R (Z.of_nat n) (Z.of_nat 0) (Z.of_nat q) = read ∧ occurs_at read R q.
Proof.
  intros Hq E. unfold seed_window in *.
  replace (Z.of_nat q - Z.of_nat 0) with (Z.of_nat q) in * by lia.
  assert (py_slice R (Z.of_nat q) (Z.of_nat q + Z.of_nat n) = read) as Hw.
  { apply (banded_alignment_perfect mr mmp indp bw Hmr Hindp Hmmp); [| |done].
    - eapply scores_exact_mono; [done| |done]. apply py_slice_length_le.
    - pose proof (py_slice_length R (Z.of_nat q) (Z.of_nat n) ltac:(lia)). lia. }
  split; [done|]. unfold occurs_at. rewrite <- Hw at 2.
  unfold py_slice, py_clip. rewrite !bool_decide_eq_false_2 by lia.
  apply (f_equal length) in Hw. unfold py_slice, py_clip in Hw.
  rewrite !bool_decide_eq_false_2 in Hw by lia. rewrite length_take, length_drop in Hw.
  f_equal; [lia|]. f_equal. lia.
Qed.

Lemma seed_and_extend (p : nat) :
  occurs_at read R p →
  ∃ ix seeds idx,
    FM.build_index R K = Some ix
    ∧ FM.generate_seeds fuel read (FM.ix_bwt ix) k (FM.ix_psa ix) (FM.ix_first ix)
        (FM.ix_checkpoints ix) (FM.ix_rank ix) = Some seeds
    ∧ Seed.compute_max_seed R read mr mmp indp bw (Z.of_nat n) seeds frames
      = Some (Seed.Tuple (Z.of_nat idx) (Fin (mr * Z.of_nat n)) read read)
    ∧ occurs_at read R idx.
Proof.
  intros Hp.
  assert (read ≠ []) as Hne by (intros E; rewrite E in Hk; simpl in Hk; lia).
  pose proof (occurs_at_bound read R p Hne Hp) as Hpn.
  assert (scores_exact mr mmp indp n n) as Hexact'.
  { eapply scores_exact_mono; [done|lia|done]. }
  pose proof (banded_alignment_same mr mmp indp bw Hmr Hindp Hmmp Hbw read Hexact') as Hsame.
  assert (SENTINEL ∉ read) as Hsent.
  { intros Hin. pose proof (occurs_at_chars R read p Hp) as Hchars.
    rewrite Forall_forall in Hchars, HR. specialize (HR _ (Hchars _ Hin)).
    simpl in HR. lia. }
  destruct (generate_seeds_spec R read K k fuel HR HK ltac:(lia) Hsent Hfuel)
    as (ix & seeds & Eix & Eseeds & Hlen & Hrows).
  destruct seeds as [|l0 rest]; [simpl in Hlen; lia|].
  pose proof (Hrows 0%nat l0 eq_refl) as Hl0. rewrite drop_0 in Hl0.
  assert (Z.of_nat p ∈ l0) as Hpl0.
  { rewrite Hl0. apply list_elem_of_fmap. exists p. split; [done|].
    apply elem_of_occurrences. split; [destruct read; [done|simpl in *; lia]|].
    by apply occurs_at_prefix. }
  destruct (scan_best R read mr mmp indp bw (Z.of_nat n) Hexact (l0 :: rest))
    as (st & Est & Hub & Hfirst).
  cbv zeta in Hub, Hfirst.
  (* the candidate of the occurrence scores a match in every column *)
  assert (seed_window R (Z.of_nat n) (Z.of_nat 0) (Z.of_nat p) = read) as Hwp.
  { unfold seed_window. replace (Z.of_nat p - Z.of_nat 0) with (Z.of_nat p) by lia.
    rewrite py_slice_take_drop by lia. by rewrite !Nat2Z.id. }
  assert ((0%nat, Z.of_nat p) ∈ candidates (l0 :: rest)) as Hcand.
  { unfold candidates. simpl. apply elem_of_app. left.
    apply list_elem_of_fmap. by exists (Z.of_nat p). }
  destruct (Hub _ Hcand) as (x & Hx & Hxle). simpl in Hx.
  rewrite Hwp, Hsame in Hx.
  injection Hx as <-.
  destruct Hfirst as [(Hinf & _)|(before & i & after & Hsplit & Hseed & Hsc & Hfin & Hbefore)].
  { rewrite Hinf in Hxle. done. }
  simpl in Hsc.
  pose proof (banded_alignment_le mr mmp indp bw Hmr Hindp Hmmp _ _ _
                (window_scores_exact _ _) Hsc) as Hle.
  assert (Seed.best_score st = Fin (mr * Z.of_nat n)) as Hbest.
  { destruct (Seed.best_score st) as [|z]; [done|]. simpl in *. f_equal. lia. }
  (* the winner stands in the first row *)
  assert (i = 0%nat ∧ Seed.best_idx st ∈ l0) as [-> Hidx].
  { apply list_elem_of_lookup_1 in Hpl0 as [j Hj].
    assert (candidates (l0 :: rest) !! j = Some (0%nat, Z.of_nat p)) as Hcj.
    { unfold candidates. simpl. rewrite lookup_app_l.
      - by rewrite list_lookup_fmap, Hj.
      - rewrite length_fmap. by eapply lookup_lt_Some. }
    destruct (decide (j < length before)%nat) as [Hjb|Hjb].
    { exfalso. rewrite Hsplit, lookup_app_l in Hcj by done.
      rewrite Forall_forall in Hbefore.
      destruct (Hbefore _ (list_elem_of_lookup_2 _ _ _ Hcj)) as (y & Hy & Hgt).
      simpl in Hy.
      rewrite Hwp, Hsame in Hy.
      injection Hy as <-. rewrite Hbest, score_gt_irrefl in Hgt. done. }
    assert (candidates (l0 :: rest) !! length before = Some (i, Seed.best_idx st)) as Hw.
    { rewrite Hsplit, lookup_app_r, Nat.sub_diag by lia. done. }
    unfold candidates in Hw. simpl in Hw. rewrite lookup_app_l in Hw.
    2:{ rewrite length_fmap. apply lookup_lt_Some in Hj. lia. }
    rewrite list_lookup_fmap in Hw.
    destruct (l0 !! length before) as [q|] eqn:Hq; [|done].
    injection Hw as <- <-. split; [done|]. by eapply list_elem_of_lookup_2. }
  rewrite Hl0 in Hidx. apply list_elem_of_fmap in Hidx as (q & Hq & Hqocc).
  apply elem_of_occurrences in Hqocc as [Hqlt _].
  rewrite Hq, Hbest in Hsc.
  destruct (window_exact q Hqlt Hsc) as [Hwq Hoccq].
  exists ix, (l0 :: rest), q. split; [done|]. split; [done|]. split; [|done].
  rewrite compute_max_seed_room by (rewrite ?Nat2Z.id; lia).
  unfold max_seed_walk. rewrite bool_decide_eq_false_2 by done.
  rewrite Est. simpl. rewrite Hseed, Hq.
  change (py_slice R (Z.of_nat q - Z.of_nat 0) (Z.of_nat q - Z.of_nat 0 + Z.of_nat n))
    with (seed_window R (Z.of_nat n) (Z.of_nat 0) (Z.of_nat q)).
  rewrite Hwq, (backtrack_same mr mmp indp bw Hmr Hindp Hmmp Hbw)
    by (by eapply scores_exact_float_ok).
  simpl. by rewrite Hbest.
Qed.

End pipeline.

(** ** Seed and extend *)

(** X28. A read that occurs in the reference is placed on an occurrence.
    On the index of a reference over the code points 37 .. 255, with
    [1 <= k <= len(read)], a positive match reward, a positive indel
    penalty, a mismatch that scores below a match and a band width of at
    least 1, when the scores are exact on the reference and the stack has
    room for the backtrace of the read against itself: [compute_max_seed]
    on the seeds of [generate_seeds] returns a position at which the read
    occurs in the reference, the score of a match in every column, and the
    read aligned with itself. *)
Theorem seed_and_extend_exact (R read : str) (K k mr mmp indp bw : Z) (fuel frames p : nat) :
  Forall (λ c, (SENTINEL < c < 256)%nat) R → 1 ≤ K →
  1 ≤ k ≤ Z.of_nat (length read) →
  0 < mr → 0 < indp → - mmp < mr → 1 ≤ bw →
  scores_exact mr mmp indp (length R) (length read) →
  (frames + length read + length read + 2 < recursion_limit)%nat →
  (length R + 1 ≤ fuel)%nat →
  occurs_at read R p →
  ∃ ix seeds idx,
    FM.build_index R K = Some ix
    ∧ FM.generate_seeds fuel read (FM.ix_bwt ix) k (FM.ix_psa ix) (FM.ix_first ix)
        (FM.ix_checkpoints ix) (FM.ix_rank ix) = Some seeds
    ∧ Seed.compute_max_seed R read mr mmp indp bw (Z.of_nat (length read)) seeds frames
      = Some (Seed.Tuple (Z.of_nat idx) (Fin (mr * Z.of_nat (length read))) read read)
    ∧ occurs_at read R idx.
Proof. intros. by eapply seed_and_extend. Qed.

Lemma seed_and_extend_exact_witness :
  ∃ ix seeds idx,
    FM.build_index (py "BANANA") 3 = Some ix
    ∧ FM.generate_seeds 7 (py "NAN") (FM.ix_bwt ix) 2 (FM.ix_psa ix) (FM.ix_first ix)
        (FM.ix_checkpoints ix) (FM.ix_rank ix) = Some seeds
    ∧ Seed.compute_max_seed (py "BANANA") (py "NAN") 1 1 1 2 (Z.of_nat (length (py "NAN")))
        seeds 2
      = Some (Seed.Tuple (Z.of_nat idx) (Fin (1 * Z.of_nat (length (py "NAN"))))
                (py "NAN") (py "NAN"))
    ∧ occurs_at (py "NAN") (py "BANANA") idx.
Proof.
  apply (seed_and_extend_exact (py "BANANA") (py "NAN") 3 2 1 1 1 2 7 2 2).
  - repeat constructor; vm_compute; lia.
  - lia.
  - simpl. lia.
  - lia.
  - lia.
  - lia.
  - lia.
  - by vm_compute.
  - vm_compute. lia.
  - simpl. lia.
  - reflexivity.
Defined.
